(** * Reactive state and task toolkit: observable values, computed values,
      effects, batched updates, the event emitters, the task runner, the
      timers and the array and string extensions.

    The TypeScript sources are embedded as Rocq functions over an explicit
    store.  Library functions ([on], [off], [emit], the [value] accessors,
    [updateValue], [computed], [effect], [signal], [batchUpdate], [run],
    [abort], [sleep], [repeat], [debounce], the methods added to arrays and
    strings) are translated one to one; the code that calls them (listener
    bodies, batch bodies, task handlers, matchers) is the input of those
    functions and is given as data. *)

From stdpp Require Import base decidable option list gmap strings.
From Stdlib Require Import ZArith Lia.

Open Scope Z_scope.
Open Scope nat_scope.

(** ** JavaScript values *)

(** The values stored in observables, passed to listeners and thrown.
    [VObj r] is an object (or function) reference and [VError id name message]
    the [Error] object number [id]; [VNaN] is kept apart from the other
    numbers because it is the one value that [!==] itself. *)
Inductive value :=
  | VUndefined
  | VNull
  | VBool (b : bool)
  | VNum (n : Z)
  | VNaN
  | VStr (s : string)
  | VObj (r : nat)
  | VError (id : nat) (name message : string).

#[global] Instance value_eq_dec : EqDecision value.
Proof. solve_decision. Defined.

(** [a === b] *)
Definition strict_eq (a b : value) : bool :=
  match a, b with
  | VNaN, _ | _, VNaN => false
  | _, _ => bool_decide (a = b)
  end.

(** [a !== b] *)
Definition strict_ne (a b : value) : bool := negb (strict_eq a b).

(** The truthiness test of [if (v)]. *)
Definition truthy (v : value) : bool :=
  match v with
  | VUndefined | VNull | VNaN => false
  | VBool b => b
  | VNum n => negb (n =? 0)%Z
  | VStr s => negb (bool_decide (s = ""%string))
  | VObj _ | VError _ _ _ => true
  end.

(** How a call ends: it returns, or it throws. *)
Inductive completion (A : Type) :=
  | Normal (a : A)
  | Threw (e : value).
Arguments Normal {A} a.
Arguments Threw {A} e.


(** ** The array-backed event emitter (utils/Event.ts) *)

Module Event.

(** Listeners are functions, compared by reference.  [Fn f] is a function of
    the caller, [OnceListener uid event inner] is the closure [once] builds
    around [inner]; [uid] is the allocation that distinguishes two closures
    built by two calls of [once]. *)
Inductive listener :=
  | Fn (f : nat)
  | OnceListener (uid : nat) (event : string) (inner : listener).

#[global] Instance listener_eq_dec : EqDecision listener.
Proof. solve_decision. Defined.

(** The calls a piece of client code makes on the emitter. *)
Inductive call :=
  | On (event : string) (l : listener)
  | Off (event : string) (l : listener)
  | Once (event : string) (l : listener)
  | RemoveAllListeners (event : option string)
  | Emit (event : string) (args : list value)
  | Throw (e : value).

(** [_listeners] is a [Map] from the event key to an array.  Arrays are
    objects: [on] pushes onto the array in place while [off] stores a new
    one, and a running [emit] holds on to the array it started with.  So the
    map holds array references and [arrays] holds the arrays.  [closures]
    counts the closures [once] has allocated and [invoked] records, in
    order, each call [emit] makes to a listener. *)
Record Store := {
  _listeners : gmap string nat;
  arrays : list (list listener);
  closures : nat;
  invoked : list (listener * list value)
}.

Definition new_EventEmitter : Store :=
  {| _listeners := ∅; arrays := []; closures := 0; invoked := [] |}.

Definition set_listeners (m : gmap string nat) (s : Store) : Store :=
  {| _listeners := m; arrays := arrays s;
     closures := closures s; invoked := invoked s |}.

Definition set_arrays (a : list (list listener)) (s : Store) : Store :=
  {| _listeners := _listeners s; arrays := a;
     closures := closures s; invoked := invoked s |}.

Definition record_call (l : listener) (args : list value) (s : Store) : Store :=
  {| _listeners := _listeners s; arrays := arrays s;
     closures := closures s; invoked := invoked s ++ [(l, args)] |}.

(** A new array literal. *)
Definition alloc (a : list listener) (s : Store) : nat * Store :=
  (length (arrays s), set_arrays (arrays s ++ [a]) s).

(** [this._listeners.get(event)] followed by reading the array. *)
Definition array_of (event : string) (s : Store) : option (list listener) :=
  r ← _listeners s !! event; arrays s !! r.

(** [listeners(event)]: a copy of the array, or the empty array. *)
Definition listeners (event : string) (s : Store) : list listener :=
  default [] (array_of event s).

(** [on]: create the array if the key is missing, then push in place. *)
Definition on (event : string) (l : listener) (s : Store) : Store :=
  let s1 :=
    match _listeners s !! event with
    | Some _ => s
    | None =>
        let '(r, s') := alloc [] s in
        set_listeners (<[event := r]> (_listeners s')) s'
    end in
  match _listeners s1 !! event with
  | Some r => set_arrays (alter (λ a, a ++ [l]) r (arrays s1)) s1
  | None => s1
  end.

(** [off]: filter into a new array; store it, or delete the key when it is
    empty. *)
Definition off (event : string) (l : listener) (s : Store) : Store :=
  match _listeners s !! event with
  | Some r =>
      let listeners := default [] (arrays s !! r) in
      let newListeners := filter (λ l', l' ≠ l) listeners in
      if decide (0 < length newListeners) then
        let '(r', s') := alloc newListeners s in
        set_listeners (<[event := r']> (_listeners s')) s'
      else set_listeners (delete event (_listeners s)) s
  | None => s
  end.

Definition removeAllListeners (event : option string) (s : Store) : Store :=
  match event with
  | None => set_listeners ∅ s
  | Some e => set_listeners (delete e (_listeners s)) s
  end.

(** [once]: a fresh closure around [listener], registered with [on]. *)
Definition once (event : string) (l : listener) (s : Store) : Store :=
  let onceListener := OnceListener (closures s) event l in
  let s' := {| _listeners := _listeners s; arrays := arrays s;
               closures := S (closures s); invoked := invoked s |} in
  on event onceListener s'.

Definition listenerCount (event : string) (s : Store) : nat :=
  length (listeners event s).

Section Semantics.

(** The body of each function of the caller, as the calls it makes on the
    emitter when invoked with [args]. *)
Variable bodies : nat → list value → list call.

(** Listeners may emit and may subscribe while an emission runs, so a round
    need not end: the interpreter takes fuel and answers [None] when it runs
    out.
    - [call_listener]: invoking a listener; for the closure of [once], the
      wrapped listener and then [off] of the closure itself;
    - [exec_call]: one call of a body;
    - [emit_loop]: the [for ... of] over the array [r] from index [i]; the
      array iterator reads the array's current length and element at every
      step. *)
Fixpoint call_listener (fuel : nat) (l : listener) (args : list value)
    (s : Store) {struct fuel} : option (Store * completion unit) :=
  match fuel with
  | 0 => None
  | S k =>
      match l with
      | Fn f =>
          (fix run_body (cs : list call) (s : Store) :=
             match cs with
             | [] => Some (s, Normal ())
             | c :: cs' =>
                 match exec_call k c s with
                 | Some (s', Normal _) => run_body cs' s'
                 | r => r
                 end
             end) (bodies f args) s
      | OnceListener _ event inner =>
          match call_listener k inner args s with
          | Some (s', Normal _) => Some (off event l s', Normal ())
          | r => r
          end
      end
  end
with exec_call (fuel : nat) (c : call) (s : Store) {struct fuel}
    : option (Store * completion unit) :=
  match fuel with
  | 0 => None
  | S k =>
      match c with
      | On event l => Some (on event l s, Normal ())
      | Off event l => Some (off event l s, Normal ())
      | Once event l => Some (once event l s, Normal ())
      | RemoveAllListeners event => Some (removeAllListeners event s, Normal ())
      | Emit event args =>
          match _listeners s !! event with
          | None => Some (s, Normal ())
          | Some r => emit_loop k r 0 args s
          end
      | Throw e => Some (s, Threw e)
      end
  end
with emit_loop (fuel : nat) (r i : nat) (args : list value) (s : Store)
    {struct fuel} : option (Store * completion unit) :=
  match fuel with
  | 0 => None
  | S k =>
      match arrays s !! r ≫= (λ a, a !! i) with
      | None => Some (s, Normal ())
      | Some l =>
          match call_listener k l args (record_call l args s) with
          | Some (s', Normal _) => emit_loop k r (S i) args s'
          | r => r
          end
      end
  end.

(** [emit]: [false] when the key is missing, otherwise call the listeners
    and return [true]. *)
Definition emit (fuel : nat) (event : string) (args : list value) (s : Store)
    : option (Store * completion bool) :=
  match _listeners s !! event with
  | None => Some (s, Normal false)
  | Some r =>
      match emit_loop fuel r 0 args s with
      | Some (s', Normal _) => Some (s', Normal true)
      | Some (s', Threw e) => Some (s', Threw e)
      | None => None
      end
  end.

End Semantics.

(** A sequence of registration calls made from outside any emission. *)
Definition apply_call (c : call) (s : Store) : Store :=
  match c with
  | On event l => on event l s
  | Off event l => off event l s
  | Once event l => once event l s
  | RemoveAllListeners event => removeAllListeners event s
  | Emit _ _ | Throw _ => s
  end.

Definition apply_calls (cs : list call) (s : Store) : Store :=
  foldl (λ s c, apply_call c s) s cs.

(** The stores the calls above produce: a key of the map refers to an array
    that exists and is not empty ([off] deletes the key with the last
    listener), and two keys never share an array. *)
Definition wf (s : Store) : Prop :=
  (∀ event r, _listeners s !! event = Some r →
     ∃ a, arrays s !! r = Some a ∧ a ≠ []) ∧
  (∀ e1 e2 r,
     _listeners s !! e1 = Some r → _listeners s !! e2 = Some r → e1 = e2).

(** How many times [l] is in a listener list. *)
Definition occurrences (l : listener) (ls : list listener) : nat :=
  length (filter (λ l', l' = l) ls).

Definition is_registration (c : call) : Prop :=
  match c with
  | On _ _ | Off _ _ | Once _ _ => True
  | _ => False
  end.

(** The calls of [on event (Fn f)] since the last [off event (Fn f)], on top
    of [n] registrations at the start. *)
Fixpoint registrations (event : string) (f : nat) (cs : list call) (n : nat)
    : nat :=
  match cs with
  | [] => n
  | On e l :: cs' =>
      registrations event f cs'
        (if decide (e = event ∧ l = Fn f) then S n else n)
  | Off e l :: cs' =>
      registrations event f cs'
        (if decide (e = event ∧ l = Fn f) then 0 else n)
  | _ :: cs' => registrations event f cs' n
  end.

(** Functions of the caller that do nothing to the emitter but [off]. *)
Definition is_off (c : call) : Prop :=
  match c with Off _ _ => True | _ => False end.

Definition off_only (bodies : nat → list value → list call) : Prop :=
  ∀ f args, Forall is_off (bodies f args).

(** Nesting of [once] closures, which bounds the calls one invocation makes. *)
Fixpoint depth (l : listener) : nat :=
  match l with
  | Fn _ => 0
  | OnceListener _ _ inner => S (depth inner)
  end.

Definition max_depth (ls : list listener) : nat :=
  foldr (λ l n, depth l `max` n) 0 ls.

(** An emitter with three listeners on ["change"], the last one registered
    with [once]; the first function unsubscribes itself when called, the
    second unsubscribes the closure of the third. *)
Definition unsubscribing_bodies (f : nat) (args : list value) : list call :=
  match f with
  | 0 => [Off "change" (Fn 0)]
  | 1 => [Off "change" (OnceListener 0 "change" (Fn 2))]
  | _ => []
  end.

Definition three_listeners : Store :=
  apply_calls
    [On "change" (Fn 0); On "change" (Fn 1); Once "change" (Fn 2)]
    new_EventEmitter.

(** [addListener] and [removeListener] are the aliases of [on] and [off]. *)
Definition addListener (event : string) (l : listener) (s : Store) : Store :=
  on event l s.

Definition removeListener (event : string) (l : listener) (s : Store)
    : Store :=
  off event l s.

(** The function of the caller that a listener ends up calling. *)
Fixpoint fn_of (l : listener) : nat :=
  match l with
  | Fn f => f
  | OnceListener _ _ inner => fn_of inner
  end.

(** Calls that only take listeners away, and calls that subscribe a function
    of the caller. *)
Definition is_removal (c : call) : Prop :=
  match c with
  | Off _ _ | RemoveAllListeners _ => True
  | _ => False
  end.

Definition is_on_function (c : call) : Prop :=
  match c with
  | On _ (Fn _) => True
  | _ => False
  end.

Definition is_function (l : listener) : Prop :=
  match l with Fn _ => True | OnceListener _ _ _ => False end.

(** The store a listener leaves when all its function does is removing
    listeners: the calls of the body, and for each closure of [once] around
    it, the [off] of that closure. *)
Fixpoint returned (bodies : nat → list value → list call)
    (args : list value) (l : listener) (s : Store) : Store :=
  match l with
  | Fn f => apply_calls (bodies f args) s
  | OnceListener _ event inner => off event l (returned bodies args inner s)
  end.

(** The store a round of [emit] over such listeners leaves. *)
Fixpoint after_round (bodies : nat → list value → list call)
    (args : list value) (ls : list listener) (s : Store) : Store :=
  match ls with
  | [] => s
  | l :: ls' =>
      after_round bodies args ls'
        (returned bodies args l (record_call l args s))
  end.

(** [s'] has the calls of [s] and, under every key, listeners of [s] only. *)
Definition shrinks (s s' : Store) : Prop :=
  invoked s' = invoked s ∧
  arrays s `prefix_of` arrays s' ∧
  ∀ e x, x ∈ listeners e s' → x ∈ listeners e s.

End Event.

(** ** The task runner (utils/Task.ts) *)

Module Task.

(** A settled promise. *)
Inductive settled (A : Type) :=
  | Fulfilled (data : A)
  | Rejected (error : value).
Arguments Fulfilled {A} data.
Arguments Rejected {A} error.

(** [catchError(promise, errors)]: the tuple [[undefined, data]] when the
    promise is fulfilled; when it is rejected, the tuple [[error]] if no
    [errors] are given or [error] is an instance of one of them, and the
    rejection again otherwise.  A class of [errors] is given by its
    [instanceof] test. *)
Definition catchError (promise : settled value)
    (errors : option (list (value → bool))) : settled (list value) :=
  match promise with
  | Fulfilled data => Fulfilled [VUndefined; data]
  | Rejected error =>
      match errors with
      | None => Fulfilled [error]
      | Some es =>
          if existsb (λ e, e error) es then Fulfilled [error]
          else Rejected error
      end
  end.

(** The element a destructuring pattern binds at index [i]. *)
Definition element (tuple : list value) (i : nat) : value :=
  default VUndefined (tuple !! i).

(** The task.  [eventListeners] holds a [Set] of listeners under each event
    name, in insertion order; listeners are functions of the caller, named
    by a number.  [aborted] is [controller.signal.aborted]; [executed] and
    [has_error] are the fields of [_meta].  [errors] counts the [Error]
    objects built so far.  Two logs are kept for the statements: [emitted]
    has every call of [emit], [delivered] every call of a listener. *)
Record Task := {
  result : value;
  aborted : bool;
  executed : bool;
  has_error : bool;
  eventListeners : gmap string (list nat);
  errors : nat;
  emitted : list (string * list value);
  delivered : list (nat * string * list value)
}.

(** The task as an argument of its own events ([this as any]). *)
Definition this : value := VObj 0.

(** [Task.create(func)] *)
Definition create : Task :=
  {| result := VUndefined; aborted := false;
     executed := false; has_error := false;
     eventListeners := ∅; errors := 0; emitted := []; delivered := [] |}.

Definition set_result (v : value) (t : Task) : Task :=
  {| result := v; aborted := aborted t;
     executed := executed t; has_error := has_error t;
     eventListeners := eventListeners t; errors := errors t;
     emitted := emitted t; delivered := delivered t |}.

Definition set_aborted (b : bool) (t : Task) : Task :=
  {| result := result t; aborted := b;
     executed := executed t; has_error := has_error t;
     eventListeners := eventListeners t; errors := errors t;
     emitted := emitted t; delivered := delivered t |}.

Definition set_executed (b : bool) (t : Task) : Task :=
  {| result := result t; aborted := aborted t;
     executed := b; has_error := has_error t;
     eventListeners := eventListeners t; errors := errors t;
     emitted := emitted t; delivered := delivered t |}.

Definition set_has_error (b : bool) (t : Task) : Task :=
  {| result := result t; aborted := aborted t;
     executed := executed t; has_error := b;
     eventListeners := eventListeners t; errors := errors t;
     emitted := emitted t; delivered := delivered t |}.

(** [new Error(message)] *)
Definition new_Error (message : string) (t : Task) : value * Task :=
  (VError (errors t) "Error" message,
   {| result := result t; aborted := aborted t;
      executed := executed t; has_error := has_error t;
      eventListeners := eventListeners t; errors := S (errors t);
      emitted := emitted t; delivered := delivered t |}).

(** [on]: add the listener to the set of the event. *)
Definition on (eventName : string) (listener : nat) (t : Task) : Task :=
  let listeners := default [] (eventListeners t !! eventName) in
  let listeners :=
    if decide (listener ∈ listeners) then listeners
    else listeners ++ [listener] in
  {| result := result t; aborted := aborted t;
     executed := executed t; has_error := has_error t;
     eventListeners := <[eventName := listeners]> (eventListeners t);
     errors := errors t;
     emitted := emitted t; delivered := delivered t |}.

(** [emit]: call each listener of the set.  The listeners of this model
    record the call and return. *)
Definition emit (eventName : string) (args : list value) (t : Task) : Task :=
  let listeners := default [] (eventListeners t !! eventName) in
  {| result := result t; aborted := aborted t;
     executed := executed t; has_error := has_error t;
     eventListeners := eventListeners t; errors := errors t;
     emitted := emitted t ++ [(eventName, args)];
     delivered := delivered t ++ ((λ l, (l, eventName, args)) <$> listeners) |}.

(** [abort(safe)] *)
Definition abort (safe : value) (t : Task) : Task :=
  let t := set_executed true t in
  if truthy safe then set_aborted true t
  else
    let t := set_has_error true t in
    let t := set_aborted true t in
    let '(error, t) := new_Error "abborted" t in
    emit "error" [this; error] t.

(** What the work function does when [run] calls it: it throws before it
    returns a promise, or it returns a promise; until that promise settles
    the function may emit [data] events and abort the task it was given. *)
Inductive step :=
  | EmitData (payload : value)
  | Abort (safe : value).

Inductive handler :=
  | Throws (e : value)
  | Returns (steps : list step) (promise : settled value).

Definition do_step (c : step) (t : Task) : Task :=
  match c with
  | EmitData payload => emit "data" [payload] t
  | Abort safe => abort safe t
  end.

(** [run]: the promise it returns, settled, and the task afterwards. *)
Definition run (h : handler) (t : Task) : Task * settled value :=
  let t := emit "start" [this] t in
  match h with
  | Throws e => (t, Rejected e)
  | Returns steps promise =>
      let t := foldl (λ t c, do_step c t) t steps in
      match catchError promise None with
      | Rejected e => (t, Rejected e)
      | Fulfilled tuple =>
          let error := element tuple 0 in
          let result := element tuple 1 in
          let t := set_executed true t in
          if truthy error then
            let t := set_has_error true t in
            let t := emit "error" [this; error] t in
            (t, Rejected error)
          else
            let t := set_result result t in
            let t := emit "done" [this; result] t in
            (t, Fulfilled (Task.result t))
      end
  end.

(** The listeners of an event, in the order of the [Set]. *)
Definition listeners (eventName : string) (t : Task) : list nat :=
  default [] (eventListeners t !! eventName).

(** A sequence of [on] calls. *)
Definition register (rs : list (string * nat)) (t : Task) : Task :=
  foldl (λ t r, on r.1 r.2 t) t rs.

End Task.

(** ** Observable values, computed values, effects, signals and batches
       (utils/ObservableValue.ts, ComputedValue.ts, Effect.ts, Signal.ts) *)

Module Reactive.

(** Functions subscribed to an observable, compared by reference:
    - [UserFn f], a function of the caller;
    - [Recompute uid observables transform computed'], the closure
      [computed] subscribes to each source: it holds the sources, the
      transform and the computed observable;
    - [ExecuteCallback uid callback], the closure [effect] builds around the
      callback.
    [uid] is the allocation that tells two closures apart. *)
Inductive Listener :=
  | UserFn (f : nat)
  | Recompute (uid : nat) (observables : list nat)
      (transform : list value → value) (computed' : nat)
  | ExecuteCallback (uid : nat) (callback : nat).

(** [l1 === l2] on functions. *)
Definition same_function (l1 l2 : Listener) : bool :=
  match l1, l2 with
  | UserFn f, UserFn g => bool_decide (f = g)
  | Recompute u _ _ _, Recompute u' _ _ _ => bool_decide (u = u')
  | ExecuteCallback u _, ExecuteCallback u' _ => bool_decide (u = u')
  | _, _ => false
  end.

(** An [ObservableValue] object: the private [_value]; the listener array
    its emitter holds under the one key it uses, ["change"], or [None] while
    the emitter has no such key; and, once [signal] has defined a [value]
    accessor on the instance itself, the [currentValue] that accessor
    closes over. *)
Record ObservableValue := {
  _value : value;
  _emitter : option (list Listener);
  currentValue : option value
}.

(** What happens, in order:
    - [Emit o newValue]: [o]'s emitter is asked to emit ["change"];
    - [Called o l newValue view]: it calls the listener [l]; functions of
      the caller and effect callbacks are observers, and [view] is what they
      read at that moment: the [value] of every observable, by address;
    - [Read o v]: the running program read [o.value] and got [v]. *)
Inductive event :=
  | Emit (o : nat) (newValue : value)
  | Called (o : nat) (l : Listener) (newValue : value) (view : list value)
  | Read (o : nat) (v : value).

(** The objects by address, the two module variables of Signal.ts (the
    [Set] [updateQueue] in insertion order), the count of allocated closures
    and errors, and the events so far. *)
Record World := {
  heap : list ObservableValue;
  isBatching : bool;
  updateQueue : list nat;
  allocated : nat;
  trace : list event
}.

Definition empty_world : World :=
  {| heap := []; isBatching := false; updateQueue := [];
     allocated := 0; trace := [] |}.

Definition set_heap (h : list ObservableValue) (w : World) : World :=
  {| heap := h; isBatching := isBatching w; updateQueue := updateQueue w;
     allocated := allocated w; trace := trace w |}.

Definition set_isBatching (b : bool) (w : World) : World :=
  {| heap := heap w; isBatching := b; updateQueue := updateQueue w;
     allocated := allocated w; trace := trace w |}.

Definition set_updateQueue (q : list nat) (w : World) : World :=
  {| heap := heap w; isBatching := isBatching w; updateQueue := q;
     allocated := allocated w; trace := trace w |}.

Definition record (e : event) (w : World) : World :=
  {| heap := heap w; isBatching := isBatching w;
     updateQueue := updateQueue w;
     allocated := allocated w; trace := trace w ++ [e] |}.

(** A fresh identity for a closure or an error. *)
Definition fresh (w : World) : nat * World :=
  (allocated w,
   {| heap := heap w; isBatching := isBatching w;
      updateQueue := updateQueue w;
      allocated := S (allocated w); trace := trace w |}).

(** [updateQueue.add(o)] *)
Definition queue_add (o : nat) (q : list nat) : list nat :=
  if decide (o ∈ q) then q else q ++ [o].

(** *** ObservableValue *)

(** [new ObservableValue(initialValue)] *)
Definition new_ObservableValue (initialValue : value) (w : World)
    : nat * World :=
  (length (heap w),
   set_heap (heap w ++ [{| _value := initialValue; _emitter := None;
                           currentValue := None |}]) w).

(** Reading [ob.value]: the accessor of the instance if [signal] defined
    one, the getter of the class otherwise. *)
Definition value_of (ob : ObservableValue) : value :=
  match currentValue ob with
  | Some v => v
  | None => _value ob
  end.

Definition get_value (o : nat) (w : World) : option value :=
  value_of <$> heap w !! o.

Definition view (w : World) : list value := value_of <$> heap w.

Definition set__value (o : nat) (v : value) (w : World) : World :=
  set_heap (alter (λ ob, {| _value := v; _emitter := _emitter ob;
                            currentValue := currentValue ob |}) o (heap w)) w.

Definition set_currentValue (o : nat) (v : value) (w : World) : World :=
  set_heap (alter (λ ob, {| _value := _value ob; _emitter := _emitter ob;
                            currentValue := Some v |}) o (heap w)) w.

Definition set_emitter (o : nat) (e : option (list Listener)) (w : World)
    : World :=
  set_heap (alter (λ ob, {| _value := _value ob; _emitter := e;
                            currentValue := currentValue ob |}) o (heap w)) w.

(** The emitter's [on] and [off] on the array of ["change"] (Event.ts): [on]
    creates the array when the key is missing and pushes; [off] filters and
    deletes the key when nothing is left.  None of the listeners of this
    module subscribes while an emission runs, so the array an emission
    iterates never grows under it, and the arrays are kept by value. *)
Definition on (l : Listener) (e : option (list Listener))
    : option (list Listener) :=
  Some (default [] e ++ [l]).

Definition off (l : Listener) (e : option (list Listener))
    : option (list Listener) :=
  match e with
  | None => None
  | Some listeners =>
      let newListeners :=
        filter (λ l', same_function l' l = false) listeners in
      if decide (0 < length newListeners) then Some newListeners else None
  end.

(** [listeners("change")] of [o]'s emitter. *)
Definition listeners (o : nat) (w : World) : list Listener :=
  default [] (heap w !! o ≫= _emitter).

(** [o.subscribe(listener)]; the function it returns is
    [unsubscribe o listener]. *)
Definition subscribe (o : nat) (l : Listener) (w : World) : World :=
  match heap w !! o with
  | Some ob => set_emitter o (on l (_emitter ob)) w
  | None => w
  end.

Definition unsubscribe (o : nat) (l : Listener) (w : World) : World :=
  match heap w !! o with
  | Some ob => set_emitter o (off l (_emitter ob)) w
  | None => w
  end.

(** Writes propagate: a listener may be the recomputation of a computed
    value, which writes that value, whose listeners are called in turn.
    The functions below take the setter to use for such nested writes as
    [set]; [set_value] ties the knot with fuel, and answers [None] when the
    fuel runs out (or when an address is not an object). *)
Section Propagation.

Variable set : nat → value → World → option World.

(** Calling one listener of [o] with [newValue].  The recomputation reads
    every source and assigns the transform of what it read to the computed
    observable; the other listeners observe. *)
Definition call_listener (o : nat) (l : Listener) (newValue : value)
    (w : World) : option World :=
  let w := record (Called o l newValue (view w)) w in
  match l with
  | Recompute _ observables transform computed' =>
      currentValues ← mapM (λ s, get_value s w) observables;
      set computed' (transform currentValues) w
  | UserFn _ | ExecuteCallback _ _ => Some w
  end.

(** The loop of [emit] over the listener array. *)
Fixpoint call_listeners (o : nat) (ls : list Listener) (newValue : value)
    (w : World) : option World :=
  match ls with
  | [] => Some w
  | l :: ls' =>
      w' ← call_listener o l newValue w;
      call_listeners o ls' newValue w'
  end.

(** [this._emitter.emit("change", newValue)] *)
Definition emit_change (o : nat) (newValue : value) (w : World)
    : option World :=
  ob ← heap w !! o;
  let w := record (Emit o newValue) w in
  match _emitter ob with
  | None => Some w
  | Some ls => call_listeners o ls newValue w
  end.

(** [o.updateValue(newValue)], and the setter of the class, which has the
    same body. *)
Definition updateValue (o : nat) (newValue : value) (w : World)
    : option World :=
  ob ← heap w !! o;
  if strict_ne newValue (_value ob) then
    emit_change o newValue (set__value o newValue w)
  else Some w.

(** [o.value = newValue]: the setter [signal] defined on the instance if
    there is one, the setter of the class otherwise. *)
Definition assign (o : nat) (newValue : value) (w : World) : option World :=
  ob ← heap w !! o;
  match currentValue ob with
  | None => updateValue o newValue w
  | Some current =>
      if strict_ne newValue current then
        let w := set_currentValue o newValue w in
        if isBatching w then
          Some (set_updateQueue (queue_add o (updateQueue w)) w)
        else updateValue o newValue w
      else Some w
  end.

End Propagation.

Fixpoint set_value (fuel : nat) (o : nat) (newValue : value) (w : World)
    : option World :=
  match fuel with
  | 0 => None
  | S k => assign (set_value k) o newValue w
  end.

(** *** signal and batchUpdate *)

(** [new TypeError(message)] *)
Definition new_TypeError (message : string) (w : World) : value * World :=
  let '(id, w) := fresh w in (VError id "TypeError" message, w).

(** [signal(initialValue)] for an [ObservableValue] instance: the accessor
    is defined on the instance with [currentValue] the value read now.
    [Object.defineProperty] makes the property non-configurable, so a second
    [signal] on the same instance throws. *)
Definition signal_of (o : nat) (w : World) : option (World * completion nat) :=
  ob ← heap w !! o;
  match currentValue ob with
  | None => Some (set_currentValue o (value_of ob) w, Normal o)
  | Some _ =>
      let '(e, w) := new_TypeError "Cannot redefine property: value" w in
      Some (w, Threw e)
  end.

(** [signal(initialValue)] for any other value. *)
Definition signal (initialValue : value) (w : World) : nat * World :=
  let '(o, w) := new_ObservableValue initialValue w in
  (o, set_currentValue o initialValue w).

(** The loop of [batchUpdate] over [updateQueue].  The flag is off while it
    runs, so nothing is added to the set under it. *)
Fixpoint flush (fuel : nat) (q : list nat) (w : World) : option World :=
  match q with
  | [] => Some w
  | o :: q' =>
      v ← get_value o w;
      w' ← updateValue (set_value fuel) o v w;
      flush fuel q' w'
  end.

(** [batchUpdate(updateFn)]: the body with the flag set; then, however the
    body ended, the [finally] block: flag off, every queued observable
    updated with its own value, queue cleared; then the body's result or
    exception. *)
Definition batchUpdate {A} (fuel : nat)
    (updateFn : World → option (World * completion A)) (w : World)
    : option (World * completion A) :=
  '(w, r) ← updateFn (set_isBatching true w);
  let w := set_isBatching false w in
  w ← flush fuel (updateQueue w) w;
  Some (set_updateQueue [] w, r).

(** The statements of a batch body (or of any piece of client code). *)
#[warnings="-register-all"]
Inductive stmt :=
  | SetValue (o : nat) (v : value)
  | GetValue (o : nat)
  | ThrowStmt (e : value)
  | BatchUpdate (body : list stmt).

Fixpoint exec (fuel : nat) (s : stmt) (w : World)
    : option (World * completion unit) :=
  match s with
  | SetValue o v => w' ← set_value fuel o v w; Some (w', Normal ())
  | GetValue o => v ← get_value o w; Some (record (Read o v) w, Normal ())
  | ThrowStmt e => Some (w, Threw e)
  | BatchUpdate body =>
      batchUpdate fuel
        ((fix run (ss : list stmt) (w : World) :=
            match ss with
            | [] => Some (w, Normal ())
            | s :: ss' =>
                match exec fuel s w with
                | Some (w', Normal _) => run ss' w'
                | r => r
                end
            end) body) w
  end.

Fixpoint run (fuel : nat) (ss : list stmt) (w : World)
    : option (World * completion unit) :=
  match ss with
  | [] => Some (w, Normal ())
  | s :: ss' =>
      match exec fuel s w with
      | Some (w', Normal _) => run fuel ss' w'
      | r => r
      end
  end.

(** *** computed *)

(** The [forEach] of [computed]: one new closure per source, subscribed to
    it; the pairs kept are the unsubscribe functions. *)
Fixpoint subscribe_sources (observables : list nat)
    (transform : list value → value) (computed' : nat) (todo : list nat)
    (w : World) : list (nat * Listener) * World :=
  match todo with
  | [] => ([], w)
  | obs :: todo' =>
      let '(uid, w) := fresh w in
      let l := Recompute uid observables transform computed' in
      let w := subscribe obs l w in
      let '(us, w) :=
        subscribe_sources observables transform computed' todo' w in
      ((obs, l) :: us, w)
  end.

(** [computed(observables, transform)]: the computed observable and its
    [unsubscribeSources], as the subscriptions it undoes. *)
Definition computed (observables : list nat)
    (transform : list value → value) (w : World)
    : option (nat * list (nat * Listener) * World) :=
  initialValues ← mapM (λ s, get_value s w) observables;
  let '(c, w) := new_ObservableValue (transform initialValues) w in
  let '(us, w) := subscribe_sources observables transform c observables w in
  Some (c, us, w).

(** Calling a list of unsubscribe functions, as [unsubscribeSources] and the
    cleanup of [effect] do. *)
Definition unsubscribe_all (us : list (nat * Listener)) (w : World) : World :=
  foldl (λ w u, unsubscribe u.1 u.2 w) w us.

(** *** effect *)

(** One element of the [dependencies] array: an [ObservableValue] instance
    or something else. *)
Inductive dependency :=
  | Instance (o : nat)
  | Other (v : value).

(** The [dependencies] argument: an array, or not. *)
Inductive dependencies :=
  | NotArray (v : value)
  | Array (items : list dependency).

(** The loop of [effect]: subscribe [executeCallback] to each dependency,
    throwing at the first that is not an instance. *)
Fixpoint subscribe_dependencies (executeCallback : Listener)
    (items : list dependency) (unsubscribeFunctions : list (nat * Listener))
    (w : World) : World * completion (list (nat * Listener)) :=
  match items with
  | [] => (w, Normal unsubscribeFunctions)
  | Other _ :: _ =>
      let '(e, w) :=
        new_TypeError
          "Each dependency must be an instance of ObservableValue." w in
      (w, Threw e)
  | Instance o :: items' =>
      let w := subscribe o executeCallback w in
      subscribe_dependencies executeCallback items'
        (unsubscribeFunctions ++ [(o, executeCallback)]) w
  end.

(** [effect(callback, dependencies)]: the cleanup function, as the
    subscriptions it undoes, or the [TypeError]. *)
Definition effect (callback : nat) (deps : dependencies) (w : World)
    : World * completion (list (nat * Listener)) :=
  match deps with
  | NotArray _ =>
      let '(e, w) :=
        new_TypeError
          "Dependencies must be an array of ObservableValue instances." w in
      (w, Threw e)
  | Array [] => (w, Normal [])
  | Array items =>
      let '(uid, w) := fresh w in
      subscribe_dependencies (ExecuteCallback uid callback) items [] w
  end.

(** *** Invariants *)

(** A recomputation closure subscribed to [o] writes an observable built
    after [o] and after all its sources: [computed] allocates it last. *)
Definition listener_ok (n o : nat) (l : Listener) : Prop :=
  match l with
  | Recompute _ observables _ computed' =>
      o < computed' ∧ computed' < n ∧ Forall (λ s, s < computed') observables
  | UserFn _ | ExecuteCallback _ _ => True
  end.

(** Two recomputation closures for one computed observable come from the
    same call of [computed]. *)
Definition same_computed (l1 l2 : Listener) : Prop :=
  match l1, l2 with
  | Recompute _ os1 f1 c1, Recompute _ os2 f2 c2 =>
      c1 = c2 → os1 = os2 ∧ f1 = f2
  | _, _ => True
  end.

(** The worlds that [new ObservableValue], [subscribe] and [unsubscribe] of
    functions of the caller, [computed], [effect], [signal], writes and
    batches produce. *)
Record WF (w : World) : Prop := {
  wf_listeners :
    ∀ o l, l ∈ listeners o w → listener_ok (length (heap w)) o l;
  wf_computed :
    ∀ o1 l1 o2 l2,
      l1 ∈ listeners o1 w → l2 ∈ listeners o2 w → same_computed l1 l2;
  wf_queue : Forall (λ o, o < length (heap w)) (updateQueue w)
}.

(** Every recomputation closure for [c] in [w] has the sources [os] and
    the transform [f]. *)
Definition computed_by (os : list nat) (f : list value → value) (c : nat)
    (w : World) : Prop :=
  ∀ o uid os' f', Recompute uid os' f' c ∈ listeners o w → os' = os ∧ f' = f.

(** The computed observable a listener writes, if it is a recomputation. *)
Definition target (l : Listener) : option nat :=
  match l with
  | Recompute _ _ _ computed' => Some computed'
  | UserFn _ | ExecuteCallback _ _ => None
  end.

(** A listener list in which recomputations come in the order their
    computed observables were built: [computed] subscribes when it builds,
    and [off] keeps the order. *)
Definition before (l1 l2 : Listener) : Prop :=
  match target l1, target l2 with
  | Some c1, Some c2 => c1 ≤ c2
  | _, _ => True
  end.

Fixpoint ordered (ls : list Listener) : Prop :=
  match ls with
  | [] => True
  | l :: ls' => Forall (before l) ls' ∧ ordered ls'
  end.

Definition Ordered (w : World) : Prop := ∀ o, ordered (listeners o w).

(** [o] is an object on which [signal] has defined the accessor. *)
Definition is_signal (ob : ObservableValue) : bool :=
  match currentValue ob with
  | Some _ => true
  | None => false
  end.

Definition signal_at (o : nat) (w : World) : Prop :=
  ∃ ob, heap w !! o = Some ob ∧ is_signal ob = true.

(** Statements whose addresses are objects. *)
Fixpoint scoped (n : nat) (s : stmt) : Prop :=
  match s with
  | SetValue o _ | GetValue o => o < n
  | ThrowStmt _ => True
  | BatchUpdate body =>
      (fix all (ss : list stmt) : Prop :=
         match ss with
         | [] => True
         | s :: ss' => scoped n s ∧ all ss'
         end) body
  end.

(** *** Observations *)

(** The events of [w'] that [w] did not have yet. *)
Definition since (w w' : World) : list event :=
  drop (length (trace w)) (trace w').

(** The change notifications of [o] among some events: the values emitted,
    and the listeners called with the value each received. *)
Fixpoint emissions (o : nat) (evs : list event) : list value :=
  match evs with
  | [] => []
  | Emit a v :: evs' =>
      if decide (a = o) then v :: emissions o evs' else emissions o evs'
  | _ :: evs' => emissions o evs'
  end.

Fixpoint calls_on (o : nat) (evs : list event) : list (Listener * value) :=
  match evs with
  | [] => []
  | Called a l v _ :: evs' =>
      if decide (a = o) then (l, v) :: calls_on o evs' else calls_on o evs'
  | _ :: evs' => calls_on o evs'
  end.

(** Events in which [o] notifies nobody. *)
Definition quiet (o : nat) (evs : list event) : Prop :=
  emissions o evs = [] ∧ calls_on o evs = [].

(** The writes of a sequence that change the value held just before. *)
Fixpoint changes (current : value) (vs : list value) : list value :=
  match vs with
  | [] => []
  | v :: vs' =>
      if strict_ne v current then v :: changes v vs' else changes current vs'
  end.

(** The statements that write [vs] to [o], reading it back after each write
    when [reads] is set. *)
Definition writes_to (o : nat) (reads : bool) (vs : list value) : list stmt :=
  flat_map (λ v, SetValue o v :: if reads then [GetValue o] else []) vs.

(** What the listeners of a signal get at the end of a batch that wrote [vs]
    to it, when it held [init] before the batch: the last value, unless it
    is the value held before. *)
Definition flushed (init : value) (vs : list value) : option value :=
  match last vs with
  | Some final => if strict_ne final init then Some final else None
  | None => None
  end.

(** The view a listener of a computed value must get: the computed value is
    the transform of the sources' values. *)
Definition consistent (observables : list nat)
    (transform : list value → value) (computed' : nat) (vw : list value)
    : Prop :=
  ∃ vals, mapM (λ s, vw !! s) observables = Some vals ∧
          vw !! computed' = Some (transform vals).

(** An event that respects the computed value [computed']: when it is a
    call of one of its listeners, the listener gets a consistent view. *)
Definition good (observables : list nat) (transform : list value → value)
    (computed' : nat) (e : event) : Prop :=
  match e with
  | Called a _ _ vw =>
      a = computed' → consistent observables transform computed' vw
  | Emit _ _ | Read _ _ => True
  end.

(** A write of [v] to [o] that, if [o] is the computed value, writes the
    transform of the sources' values. *)
Definition recomputes (observables : list nat)
    (transform : list value → value) (computed' : nat)
    (o : nat) (v : value) (w : World) : Prop :=
  o = computed' →
  ∃ vals, mapM (λ s, get_value s w) observables = Some vals ∧
          v = transform vals.

(** *** The frame of a write *)

(** What [w'] may differ in from [w] after a write to [o]: objects keep
    their listeners and their kind ([shape]), objects before [o] are
    untouched, the flag and the allocations stay, the events added are
    notifications of [o] or of later objects, and the queue changes only
    while batching. *)
Definition shape (w : World) : list (option (list Listener) * bool) :=
  (λ ob, (_emitter ob, is_signal ob)) <$> heap w.

Definition above (o : nat) (e : event) : Prop :=
  match e with
  | Emit a _ | Called a _ _ _ => o ≤ a
  | Read _ _ => False
  end.

Record frame (o : nat) (w w' : World) : Prop := {
  frame_shape : shape w' = shape w;
  frame_below : ∀ a, a < o → heap w' !! a = heap w !! a;
  frame_isBatching : isBatching w' = isBatching w;
  frame_allocated : allocated w' = allocated w;
  frame_trace : ∃ evs, trace w' = trace w ++ evs ∧ Forall (above o) evs;
  frame_queue_idle : isBatching w = false → updateQueue w' = updateQueue w;
  frame_queue :
    ∀ a, a ∈ updateQueue w' → a ∈ updateQueue w ∨ a < length (heap w)
}.

(** *** Worlds used as examples *)

(** An observable holding [0] with one subscriber, and the same as a
    signal. *)
Definition observable_with_listener : World :=
  subscribe 0 (UserFn 0) (new_ObservableValue (VNum 0) empty_world).2.

Definition signal_with_listener : World :=
  subscribe 0 (UserFn 0) (signal (VNum 0) empty_world).2.

(** Two observables holding [1] and [2], a computed value that adds them,
    and a subscriber of the computed value. *)
Definition sum (vs : list value) : value :=
  match vs with
  | [VNum a; VNum b] => VNum (a + b)
  | _ => VUndefined
  end.

Definition two_sources : World :=
  (new_ObservableValue (VNum 2)
     (new_ObservableValue (VNum 1) empty_world).2).2.

Definition computed_sum : World :=
  match computed [0; 1] sum two_sources with
  | Some (c, _, w) => subscribe c (UserFn 0) w
  | None => empty_world
  end.

(** The same with the computed value passed to [signal], as example3.ts
    does, while a batch is open. *)
Definition computed_sum_signal_batching : World :=
  match signal_of 2 computed_sum with
  | Some (w, _) => set_isBatching true w
  | None => empty_world
  end.

(** *** The two slots of a signal *)

(** The two slots of an object agree: the value its accessor returns is the
    value it stores.  Always so for an object without the accessor of
    [signal]. *)
Definition synced (ob : ObservableValue) : Prop :=
  match currentValue ob with
  | Some v => v = _value ob
  | None => True
  end.

(** Every object whose slots disagree is waiting in the queue. *)
Definition Synced (w : World) : Prop :=
  ∀ o ob, heap w !! o = Some ob → o ∉ updateQueue w → synced ob.

(** The state between two statements of a program: no batch is open, nothing
    is pending and the slots of every object agree. *)
Definition Idle (w : World) : Prop :=
  isBatching w = false ∧ updateQueue w = [] ∧
  ∀ o ob, heap w !! o = Some ob → synced ob.

(** What a write does to the slots: an object is as it was, or its slots
    agree, or a batch is open and it is in the queue; and the queue keeps
    what it had. *)
Record sync (w w' : World) : Prop := {
  sync_objects :
    ∀ o ob', heap w' !! o = Some ob' →
             heap w !! o = Some ob' ∨ synced ob' ∨
             (isBatching w = true ∧ o ∈ updateQueue w');
  sync_queue : ∀ a, a ∈ updateQueue w → a ∈ updateQueue w'
}.

(** *** Closures and their identities *)

Definition closure_id (l : Listener) : option nat :=
  match l with
  | UserFn _ => None
  | Recompute uid _ _ _ | ExecuteCallback uid _ => Some uid
  end.

(** The closures subscribed anywhere were allocated before the next one. *)
Definition Fresh (w : World) : Prop :=
  ∀ o l uid, l ∈ listeners o w → closure_id l = Some uid → uid < allocated w.

(** No recomputation writes [c]: [c] is not a computed value, or its
    closures have been unsubscribed. *)
Definition untargeted (c : nat) (w : World) : Prop :=
  ∀ o l, l ∈ listeners o w → target l ≠ Some c.

(** [c] is the only object with the accessor of [signal]. *)
Definition only_signal (c : nat) (w : World) : Prop :=
  ∀ a ob, heap w !! a = Some ob → is_signal ob = true → a = c.

(** What a write made while a batch is open does to the signal [c] when it
    is the only one: the value stored in [c] stays, and either the queue and
    [c] are as they were or [c] has been added to the queue. *)
Definition pending_step (c : nat) (w w' : World) : Prop :=
  _value <$> heap w' !! c = _value <$> heap w !! c ∧
  ((updateQueue w' = updateQueue w ∧ heap w' !! c = heap w !! c) ∨
   updateQueue w' = queue_add c (updateQueue w)).

(** Statements other than a batch. *)
Definition flat (s : stmt) : Prop :=
  match s with
  | BatchUpdate _ => False
  | SetValue _ _ | GetValue _ | ThrowStmt _ => True
  end.

(** The sources [os] hold [vals] and the computed value [c] is the object
    [obc]. *)
Definition holds (os : list nat) (vals : list value) (c : nat)
    (obc : ObservableValue) (w : World) : Prop :=
  mapM (λ a, get_value a w) os = Some vals ∧ heap w !! c = Some obc.

(** *** More worlds used as examples *)

(** An observable holding [1], the computed value that tells whether it is
    positive, and a subscriber of the computed value. *)
Definition positive (vs : list value) : value :=
  match vs with
  | [VNum a] => VBool (0 <? a)%Z
  | _ => VUndefined
  end.

Definition computed_positive : World :=
  match computed [0] positive (new_ObservableValue (VNum 1) empty_world).2 with
  | Some (c, _, w) => subscribe c (UserFn 0) w
  | None => empty_world
  end.

(** The computed sum passed to [signal], outside any batch. *)
Definition computed_sum_signal : World :=
  set_isBatching false computed_sum_signal_batching.

End Reactive.

(** ** Observable values and what their listeners do to the subscriptions
       (utils/ObservableValue.ts on utils/Event.ts) *)

(** The class on top of the array-backed emitter: its listeners are those
    of the module [Event], which may unsubscribe, subscribe or throw while
    they are notified. *)
Module Observable.
Import Event.

Record ObservableValue := {
  _value : value;
  _emitter : Store
}.

(** [new ObservableValue(initialValue)] *)
Definition new_ObservableValue (initialValue : value) : ObservableValue :=
  {| _value := initialValue; _emitter := new_EventEmitter |}.

(** [subscribe(listener)]; the function it returns is
    [unsubscribe listener]. *)
Definition subscribe (l : listener) (o : ObservableValue) : ObservableValue :=
  {| _value := _value o; _emitter := on "change" l (_emitter o) |}.

Definition unsubscribe (l : listener) (o : ObservableValue)
    : ObservableValue :=
  {| _value := _value o; _emitter := off "change" l (_emitter o) |}.

(** [subscribeOnce(listener)] *)
Definition subscribeOnce (l : listener) (o : ObservableValue)
    : ObservableValue :=
  {| _value := _value o; _emitter := once "change" l (_emitter o) |}.

Section Semantics.

Variable bodies : nat → list value → list call.

(** The setter [value] (and [updateValue], which has the same body): store
    the new value and emit ["change"] when it is not the value held. *)
Definition set_value (fuel : nat) (newValue : value) (o : ObservableValue)
    : option (ObservableValue * completion unit) :=
  if strict_ne newValue (_value o) then
    match emit bodies fuel "change" [newValue] (_emitter o) with
    | Some (s, Normal _) =>
        Some ({| _value := newValue; _emitter := s |}, Normal ())
    | Some (s, Threw e) =>
        Some ({| _value := newValue; _emitter := s |}, Threw e)
    | None => None
    end
  else Some (o, Normal ()).

(** A sequence of writes, up to the first that throws. *)
Fixpoint writes (fuel : nat) (vs : list value) (o : ObservableValue)
    : option (ObservableValue * completion unit) :=
  match vs with
  | [] => Some (o, Normal ())
  | v :: vs' =>
      match set_value fuel v o with
      | Some (o', Normal _) => writes fuel vs' o'
      | r => r
      end
  end.

End Semantics.

(** The calls of [l] among the calls an emitter has made. *)
Definition calls_of (l : listener) (calls : list (listener * list value))
    : list (list value) :=
  snd <$> filter (λ c, c.1 = l) calls.

End Observable.

(** ** Timers (utils/Timer.ts) *)

(** [sleep], [repeat] and [debounce] over the timers of the runtime and an
    [AbortSignal].  The runtime calls back: a pending timer fires, the
    signal is aborted, the debounced function is called; these are the
    events of the model, in any order.  The functions of the caller are
    recorded when they are called, and return. *)
Module Timer.

(** What a timer or an abort listener does when the runtime calls it:
    - [Resolve promise], the [resolve] that [sleep] hands to [setTimeout];
    - [CallFunc func], the closure [repeat] hands to [setInterval];
    - [ClearTimeout timeout], the abort listener of [sleep] and [repeat];
    - [Debounced closure args], the closure [debounce] hands to
      [setTimeout]: call [func] with [args], then reset [timeoutId]. *)
Inductive action :=
  | Resolve (promise : nat)
  | CallFunc (func : nat)
  | ClearTimeout (timeout : nat)
  | Debounced (closure : nat) (args : list value).

#[global] Instance action_eq_dec : EqDecision action.
Proof. solve_decision. Defined.

Record timer := {
  repeats : bool;
  callback : action
}.

(** The variable [timeoutId] of a debounced function: declared without a
    value, then a timer or [null]. *)
Inductive timeoutId :=
  | IdUndefined
  | IdNull
  | Id (timeout : nat).

(** The pending timers by id; [aborted] and the listeners of the signal;
    the promises created and those resolved; the debounced functions with
    the function each one wraps and its [timeoutId]; and the calls made to
    functions of the caller. *)
Record Runtime := {
  timers : gmap nat timer;
  next_timer : nat;
  aborted : bool;
  abort_listeners : list action;
  promises : nat;
  resolved : list nat;
  debounced : list (nat * timeoutId);
  called : list (nat * list value)
}.

Definition new_Runtime : Runtime :=
  {| timers := ∅; next_timer := 0; aborted := false; abort_listeners := [];
     promises := 0; resolved := []; debounced := []; called := [] |}.

Definition set_timers (m : gmap nat timer) (rt : Runtime) : Runtime :=
  {| timers := m; next_timer := next_timer rt; aborted := aborted rt;
     abort_listeners := abort_listeners rt; promises := promises rt;
     resolved := resolved rt; debounced := debounced rt;
     called := called rt |}.

Definition set_debounced (d : list (nat * timeoutId)) (rt : Runtime)
    : Runtime :=
  {| timers := timers rt; next_timer := next_timer rt; aborted := aborted rt;
     abort_listeners := abort_listeners rt; promises := promises rt;
     resolved := resolved rt; debounced := d; called := called rt |}.

Definition record_call (func : nat) (args : list value) (rt : Runtime)
    : Runtime :=
  {| timers := timers rt; next_timer := next_timer rt; aborted := aborted rt;
     abort_listeners := abort_listeners rt; promises := promises rt;
     resolved := resolved rt; debounced := debounced rt;
     called := called rt ++ [(func, args)] |}.

(** [setTimeout] and [setInterval] hand out the ids of one counter, and
    [clearTimeout] cancels a timer of either kind. *)
Definition new_timer (t : timer) (rt : Runtime) : nat * Runtime :=
  (next_timer rt,
   {| timers := <[next_timer rt := t]> (timers rt);
      next_timer := S (next_timer rt); aborted := aborted rt;
      abort_listeners := abort_listeners rt; promises := promises rt;
      resolved := resolved rt; debounced := debounced rt;
      called := called rt |}).

Definition setTimeout (a : action) (rt : Runtime) : nat * Runtime :=
  new_timer {| repeats := false; callback := a |} rt.

Definition setInterval (a : action) (rt : Runtime) : nat * Runtime :=
  new_timer {| repeats := true; callback := a |} rt.

Definition clearTimeout (timeout : nat) (rt : Runtime) : Runtime :=
  set_timers (delete timeout (timers rt)) rt.

(** [new Promise(...)]: the promise, pending. *)
Definition new_Promise (rt : Runtime) : nat * Runtime :=
  (promises rt,
   {| timers := timers rt; next_timer := next_timer rt; aborted := aborted rt;
      abort_listeners := abort_listeners rt; promises := S (promises rt);
      resolved := resolved rt; debounced := debounced rt;
      called := called rt |}).

(** [resolve()]: settles the promise if it is pending. *)
Definition resolve (promise : nat) (rt : Runtime) : Runtime :=
  if decide (promise ∈ resolved rt) then rt
  else
    {| timers := timers rt; next_timer := next_timer rt;
       aborted := aborted rt; abort_listeners := abort_listeners rt;
       promises := promises rt; resolved := resolved rt ++ [promise];
       debounced := debounced rt; called := called rt |}.

(** [signal.addEventListener("abort", listener)] *)
Definition addEventListener (a : action) (rt : Runtime) : Runtime :=
  {| timers := timers rt; next_timer := next_timer rt; aborted := aborted rt;
     abort_listeners := abort_listeners rt ++ [a]; promises := promises rt;
     resolved := resolved rt; debounced := debounced rt;
     called := called rt |}.

(** [sleep(timer, opt)]: the promise it returns.  [has_signal] tells whether
    [opt.signal] is there. *)
Definition sleep (has_signal : bool) (rt : Runtime) : nat * Runtime :=
  let '(promise, rt) := new_Promise rt in
  let '(timeout, rt) := setTimeout (Resolve promise) rt in
  (promise,
   if has_signal then addEventListener (ClearTimeout timeout) rt else rt).

(** [repeat(interval, func, opt)]: the promise it returns; nothing resolves
    it. *)
Definition repeat (func : nat) (has_signal : bool) (rt : Runtime)
    : nat * Runtime :=
  let '(promise, rt) := new_Promise rt in
  let '(timeout, rt) := setInterval (CallFunc func) rt in
  (promise,
   if has_signal then addEventListener (ClearTimeout timeout) rt else rt).

(** [debounce(func, delay)]: the debounced function, with [timeoutId]
    declared and not set. *)
Definition debounce (func : nat) (rt : Runtime) : nat * Runtime :=
  (length (debounced rt),
   set_debounced (debounced rt ++ [(func, IdUndefined)]) rt).

(** A call of the debounced function: [clearTimeout(timeoutId)] unless
    [timeoutId] is [null] (for [undefined] it clears nothing), then a new
    timer. *)
Definition call_debounced (closure : nat) (args : list value) (rt : Runtime)
    : Runtime :=
  match debounced rt !! closure with
  | None => rt
  | Some (func, id) =>
      let rt :=
        match id with
        | Id timeout => clearTimeout timeout rt
        | IdUndefined | IdNull => rt
        end in
      let '(timeout, rt) := setTimeout (Debounced closure args) rt in
      set_debounced (<[closure := (func, Id timeout)]> (debounced rt)) rt
  end.

(** The runtime calls an action. *)
Definition run_action (a : action) (rt : Runtime) : Runtime :=
  match a with
  | Resolve promise => resolve promise rt
  | CallFunc func => record_call func [] rt
  | ClearTimeout timeout => clearTimeout timeout rt
  | Debounced closure args =>
      match debounced rt !! closure with
      | None => rt
      | Some (func, _) =>
          let rt := record_call func args rt in
          set_debounced (<[closure := (func, IdNull)]> (debounced rt)) rt
      end
  end.

(** What the runtime does: a pending timer fires (a timeout is no longer
    pending when its callback runs, an interval stays); the signal is
    aborted, which calls its listeners the first time only; the debounced
    function is called. *)
Inductive event :=
  | Fire (timeout : nat)
  | Abort
  | Call (closure : nat) (args : list value).

#[global] Instance event_eq_dec : EqDecision event.
Proof. solve_decision. Defined.

Definition fire (timeout : nat) (rt : Runtime) : Runtime :=
  match timers rt !! timeout with
  | None => rt
  | Some t =>
      run_action (callback t)
        (if repeats t then rt else clearTimeout timeout rt)
  end.

Definition abort (rt : Runtime) : Runtime :=
  if aborted rt then rt
  else
    foldl (λ rt a, run_action a rt)
      {| timers := timers rt; next_timer := next_timer rt; aborted := true;
         abort_listeners := abort_listeners rt; promises := promises rt;
         resolved := resolved rt; debounced := debounced rt;
         called := called rt |}
      (abort_listeners rt).

Definition step (e : event) (rt : Runtime) : Runtime :=
  match e with
  | Fire timeout => fire timeout rt
  | Abort => abort rt
  | Call closure args => call_debounced closure args rt
  end.

Definition run (evs : list event) (rt : Runtime) : Runtime :=
  foldl (λ rt e, step e rt) rt evs.

(** The arguments of the calls made to [func]. *)
Definition calls_of (func : nat) (cs : list (nat * list value))
    : list (list value) :=
  snd <$> filter (λ c, c.1 = func) cs.

(** The events before the signal is aborted. *)
Fixpoint until_abort (evs : list event) : list event :=
  match evs with
  | [] => []
  | Abort :: _ => []
  | e :: evs' => e :: until_abort evs'
  end.

(** How often a timer fires in a sequence of events. *)
Definition fires (timeout : nat) (evs : list event) : nat :=
  length (filter (λ e, e = Fire timeout) evs).

(** What a debounced function is for, told with one slot instead of the
    timers: a call of the function [closure] arms the slot with its
    arguments and the id of its timer, dropping what was there; when that
    timer fires, the function wrapped is called with the arguments kept and
    the slot is empty again; no other event calls the function.  [armed] is
    the slot, [next] the id of the next timer (a call of one of the
    [count] debounced functions takes one). *)
Fixpoint expected_calls (count closure : nat)
    (armed : option (nat * list value)) (next : nat) (evs : list event)
    : list (list value) :=
  match evs with
  | [] => []
  | Call c args :: evs' =>
      if decide (c = closure)
      then expected_calls count closure (Some (next, args)) (S next) evs'
      else expected_calls count closure armed
             (if decide (c < count) then S next else next) evs'
  | Fire timeout :: evs' =>
      match armed with
      | Some (t, args) =>
          if decide (timeout = t)
          then args :: expected_calls count closure None next evs'
          else expected_calls count closure armed next evs'
      | None => expected_calls count closure armed next evs'
      end
  | Abort :: evs' => expected_calls count closure armed next evs'
  end.

(** The runtimes the functions of this module and the events lead to: the
    ids of timers and promises in use were handed out; timers resolve a
    promise, call a function or are those of a debounced function, which
    then holds their id; a debounced function holds the id of no timer of
    somebody else; and the listeners of the signal clear a timer, none of a
    debounced function. *)
Definition sane (rt : Runtime) : Prop :=
  (∀ id tm, timers rt !! id = Some tm →
     id < next_timer rt ∧
     match callback tm with
     | Resolve promise => promise < promises rt
     | CallFunc _ => True
     | ClearTimeout _ => False
     | Debounced c _ =>
         repeats tm = false ∧ ∃ f, debounced rt !! c = Some (f, Id id)
     end) ∧
  (∀ a, a ∈ abort_listeners rt →
     ∃ t, a = ClearTimeout t ∧ t < next_timer rt ∧
          ∀ tm c args, timers rt !! t = Some tm →
            callback tm ≠ Debounced c args) ∧
  (∀ c f t, debounced rt !! c = Some (f, Id t) →
     t < next_timer rt ∧
     ∀ tm, timers rt !! t = Some tm → ∃ args, callback tm = Debounced c args) ∧
  (∀ p, p ∈ resolved rt → p < promises rt).

(** The timer [t] is pending; [guarded] tells whether aborting the signal
    will clear it: the signal is not aborted and has the listener. *)
Definition pending (t : nat) (tm : timer) (guarded : bool) (rt : Runtime)
    : Prop :=
  timers rt !! t = Some tm ∧
  if guarded
  then aborted rt = false ∧ ClearTimeout t ∈ abort_listeners rt
  else aborted rt = true ∨ ClearTimeout t ∉ abort_listeners rt.

(** The promise [p] is pending and no timer but [except] resolves it. *)
Definition unresolved (p : nat) (except : option nat) (rt : Runtime) : Prop :=
  (p ∉ resolved rt) ∧
  ∀ t tm, timers rt !! t = Some tm → callback tm = Resolve p →
    except = Some t.

(** No timer but [except] and no debounced function but [except_closure]
    calls [func]. *)
Definition called_by (func : nat) (except except_closure : option nat)
    (rt : Runtime) : Prop :=
  (∀ t tm, timers rt !! t = Some tm → callback tm = CallFunc func →
     except = Some t) ∧
  (∀ c id, debounced rt !! c = Some (func, id) → except_closure = Some c).

(** The debounced function [c] wraps [func], which nothing else calls;
    [armed] is the timer of its last call with the arguments, when that
    timer is pending. *)
Definition debouncing (c func : nat) (armed : option (nat * list value))
    (rt : Runtime) : Prop :=
  sane rt ∧ called_by func None (Some c) rt ∧
  ∃ id, debounced rt !! c = Some (func, id) ∧
        match armed with
        | Some (t, args) =>
            id = Id t ∧
            timers rt !! t
              = Some {| repeats := false; callback := Debounced c args |}
        | None => ∀ t, id = Id t → timers rt !! t = None
        end.

(** No timer and no debounced function of the runtime calls [func]. *)
Definition unused (func : nat) (rt : Runtime) : Prop :=
  called_by func None None rt.

End Timer.

(** ** Array extensions (utils/Array.ts) *)

(** The methods the file adds to [Array.prototype], on arrays without holes
    as lists.  A matcher is called with the element, its index and the
    array, and its result is used as a condition; it reads the array and
    does not change it.  Counts and indices are integers. *)
Module ArrayExt.

Section Methods.
Context {A : Type}.

Definition matcher := A → nat → list A → bool.

(** *** The built-in methods used *)

(** [this.findIndex(matcher)]: the index, or [-1]. *)
Fixpoint findIndex_from (m : matcher) (this : list A) (i : nat)
    (rest : list A) : Z :=
  match rest with
  | [] => -1
  | x :: rest' =>
      if m x i this then Z.of_nat i else findIndex_from m this (S i) rest'
  end.

Definition findIndex (m : matcher) (this : list A) : Z :=
  findIndex_from m this 0 this.

(** [this.indexOf(o)], which compares with [===]. *)
Definition indexOf (strict_equal : A → A → bool) (o : A) (this : list A) : Z :=
  findIndex (λ x _ _, strict_equal x o) this.

(** [this.splice(start, deleteCount, ...items)], for the array it leaves: a
    negative [start] counts from the end, and both numbers are clamped to
    the array. *)
Definition splice (start deleteCount : Z) (items : list A) (this : list A)
    : list A :=
  let len := Z.of_nat (length this) in
  let actualStart :=
    if (start <? 0)%Z then Z.max (len + start) 0 else Z.min start len in
  let actualDeleteCount :=
    Z.min (Z.max deleteCount 0) (len - actualStart) in
  take (Z.to_nat actualStart) this ++ items
  ++ drop (Z.to_nat (actualStart + actualDeleteCount)) this.

(** [this.reduce(callback, initialValue)], the callback taking the
    accumulator, the element and its index. *)
Fixpoint reduce_from {B : Type} (callback : B → A → nat → B) (i : nat)
    (rest : list A) (acc : B) : B :=
  match rest with
  | [] => acc
  | x :: rest' => reduce_from callback (S i) rest' (callback acc x i)
  end.

Definition reduce {B : Type} (callback : B → A → nat → B) (initialValue : B)
    (this : list A) : B :=
  reduce_from callback 0 this initialValue.

(** [this[index]]: [undefined], here [None], outside the array. *)
Definition get (index : Z) (this : list A) : option A :=
  if (index <? 0)%Z then None else this !! Z.to_nat index.

(** *** addAfter, addBefore *)

Definition addAfter (m : matcher) (elementToAdd : A) (this : list A)
    : list A :=
  let index := findIndex m this in
  if bool_decide (index ≠ (-1)%Z)
  then splice (index + 1) 0 [elementToAdd] this
  else this.

Definition addBefore (m : matcher) (elementToAdd : A) (this : list A)
    : list A :=
  let index := findIndex m this in
  if bool_decide (index ≠ (-1)%Z)
  then splice index 0 [elementToAdd] this
  else this.

(** *** at, head, tail, tailIndex *)

(** The file replaces the built-in [at]: a negative index reads a property
    that is not there. *)
Definition at_ (index : Z) (this : list A) : option A := get index this.

Definition head (this : list A) : option A := at_ 0 this.

Definition tailIndex (this : list A) : Z := Z.of_nat (length this) - 1.

Definition tail (this : list A) : option A := at_ (tailIndex this) this.

(** *** firstIndex, first, lastIndex, last *)

(** The loop of [firstIndex] from [i]; [None] is [undefined]. *)
Fixpoint firstIndex_from (m : matcher) (this : list A) (i : nat)
    (rest : list A) : option nat :=
  match rest with
  | [] => None
  | x :: rest' =>
      if m x i this then Some i else firstIndex_from m this (S i) rest'
  end.

Definition firstIndex (m : matcher) (this : list A) : option nat :=
  firstIndex_from m this 0 this.

(** The loop of [lastIndex], with [n] indices left: it looks at [n - 1]
    first. *)
Fixpoint lastIndex_from (m : matcher) (this : list A) (n : nat)
    : option nat :=
  match n with
  | 0 => None
  | S i =>
      match this !! i with
      | Some x => if m x i this then Some i else lastIndex_from m this i
      | None => lastIndex_from m this i
      end
  end.

Definition lastIndex (m : matcher) (this : list A) : option nat :=
  lastIndex_from m this (length this).

(** [first(matcher?)] *)
Definition first (m : option matcher) (this : list A) : option A :=
  match m with
  | None => get 0 this
  | Some m =>
      match firstIndex m this with
      | Some index => get (Z.of_nat index) this
      | None => None
      end
  end.

(** [last(matcher?)] *)
Definition last (m : option matcher) (this : list A) : option A :=
  match m with
  | None => tail this
  | Some m =>
      match lastIndex m this with
      | Some index => get (Z.of_nat index) this
      | None => None
      end
  end.

(** *** remove *)

(** The argument of [remove]: a function, used as a matcher, or anything
    else, looked for with [indexOf]. *)
Inductive target :=
  | Matcher (m : matcher)
  | Element (o : A).

Definition remove (strict_equal : A → A → bool) (o : target)
    (this : list A) : list A :=
  match o with
  | Matcher m => splice (findIndex m this) 1 [] this
  | Element o => splice (indexOf strict_equal o this) 1 [] this
  end.

(** *** chunk *)

(** [acc[index] = chunk] on the array of chunks, which gets holes, here
    [None], when [index] is beyond its end. *)
Definition set_index {B : Type} (index : nat) (b : B)
    (acc : list (option B)) : list (option B) :=
  if decide (index < length acc) then <[index := Some b]> acc
  else acc ++ replicate (index - length acc) None ++ [Some b].

(** The callback of [chunk].  [index / size] is not a number for the size
    zero, and negative for a negative size (but for the index zero): the
    assignment then sets a property that is no element. *)
Definition chunk_step (size : Z) (acc : list (option (list A))) (item : A)
    (index : nat) : list (option (list A)) :=
  if decide (size = 0%Z) then acc
  else
    let chunkIndex := (Z.of_nat index / size)%Z in
    if (chunkIndex <? 0)%Z then acc
    else
      set_index (Z.to_nat chunkIndex)
        (default [] (mjoin (acc !! Z.to_nat chunkIndex)) ++ [item]) acc.

Definition chunk (size : Z) (this : list A) : list (option (list A)) :=
  reduce (chunk_step size) [] this.

(** *** flatMap *)

(** The file replaces the built-in [flatMap]; [concat] appends the elements
    of the array the callback returns. *)
Definition flatMap {U : Type} (callback : A → nat → list A → list U)
    (this : list A) : list U :=
  reduce (λ acc value index, acc ++ callback value index this) [] this.

(** *** groupBy *)

(** The property names an object literal inherits from
    [Object.prototype]; their values are functions, and the prototype
    itself for [__proto__]. *)
Definition inherited (key : string) : bool :=
  bool_decide
    (key ∈ ["constructor"; "__defineGetter__"; "__defineSetter__";
            "hasOwnProperty"; "__lookupGetter__"; "__lookupSetter__";
            "isPrototypeOf"; "propertyIsEnumerable"; "toString"; "valueOf";
            "__proto__"; "toLocaleString"]%string).

(** What [groupBy] ends with: the object, or the [TypeError] of calling
    [concat] on a value that does not have it. *)
Inductive grouped :=
  | Groups (groups : gmap string (list A))
  | ThrowsTypeError.

(** The callback of [groupBy].  [elements item] is [Some] when the item is
    itself an array: [concat] then appends its elements, not the item. *)
Definition groupBy_step (keySelector : A → string)
    (elements : A → option (list A)) (groups : grouped) (item : A)
    (index : nat) : grouped :=
  match groups with
  | ThrowsTypeError => ThrowsTypeError
  | Groups groups =>
      let key := keySelector item in
      match groups !! key with
      | Some group =>
          Groups (<[key := group ++ default [item] (elements item)]> groups)
      | None =>
          if inherited key then ThrowsTypeError
          else Groups (<[key := [] ++ default [item] (elements item)]> groups)
      end
  end.

Definition groupBy (keySelector : A → string)
    (elements : A → option (list A)) (this : list A) : grouped :=
  reduce (groupBy_step keySelector elements) (Groups ∅) this.

(** The group of [key] as a user of [groupBy] reads it: the items of the
    array with that key, in the order of the array (their elements, for
    items that are arrays), and no property when there is no such item. *)
Definition group_of (keySelector : A → string)
    (elements : A → option (list A)) (key : string) (this : list A)
    : option (list A) :=
  match filter (λ x, keySelector x = key) this with
  | [] => None
  | items => Some (items ≫= λ x, default [x] (elements x))
  end.

End Methods.

End ArrayExt.

(** ** String extensions (utils/String.ts) *)

(** A string is the list of its UTF-16 code units, which is what [length]
    counts and [substring] cuts. *)
Module StringExt.

Definition js_string := list nat.

(** ["..."] *)
Definition dots : js_string := [46; 46; 46].

(** [this.substring(start, end)]: both indices are clamped to the string,
    and swapped when the first is the greater. *)
Definition substring (start end_ : Z) (this : js_string) : js_string :=
  let len := Z.of_nat (length this) in
  let finalStart := Z.min (Z.max start 0) len in
  let finalEnd := Z.min (Z.max end_ 0) len in
  let from := Z.min finalStart finalEnd in
  let to := Z.max finalStart finalEnd in
  take (Z.to_nat (to - from)) (drop (Z.to_nat from) this).

(** [truncate(maxLength, ellipsis = "...")], [maxLength] an integer. *)
Definition truncate (maxLength : Z) (ellipsis : option js_string)
    (this : js_string) : js_string :=
  let ellipsis := default dots ellipsis in
  if decide (Z.of_nat (length this) ≤ maxLength)%Z then this
  else
    substring 0 (maxLength - Z.of_nat (length ellipsis)) this ++ ellipsis.

End StringExt.

(** * Properties *)

(** ** Strict equality *)

Lemma strict_eq_eq a b : strict_eq a b = true → a = b.
Proof.
  destruct a, b; cbv [strict_eq]; intros H; try discriminate;
    by apply bool_decide_eq_true in H.
Qed.

Lemma strict_ne_spec a b : strict_ne a b = false → a = b.
Proof.
  unfold strict_ne. intros H. apply strict_eq_eq.
  by destruct (strict_eq a b).
Qed.

Lemma strict_ne_neq a b : a ≠ b → strict_ne a b = true.
Proof.
  intros Hne. destruct (strict_ne a b) eqn:E; [done|].
  by apply strict_ne_spec in E.
Qed.


(** ** The array-backed event emitter *)

Module EventFacts.
Import Event.


Lemma wf_new : wf new_EventEmitter.
Proof. split; intros *; simpl; by rewrite lookup_empty. Qed.

Lemma wf_bound s event r : wf s → _listeners s !! event = Some r → r < length (arrays s).
Proof.
  intros [H _] Hr. destruct (H _ _ Hr) as (a & Ha & _).
  by apply lookup_lt_Some in Ha.
Qed.

Lemma on_present s event l r :
  _listeners s !! event = Some r →
  on event l s = set_arrays (alter (λ a, a ++ [l]) r (arrays s)) s.
Proof. intros H. unfold on. by rewrite !H. Qed.

Lemma on_absent s event l :
  _listeners s !! event = None →
  on event l s =
    set_arrays (arrays s ++ [[l]])
      (set_listeners (<[event := length (arrays s)]> (_listeners s)) s).
Proof.
  intros H. unfold on. rewrite H. simpl. rewrite lookup_insert_eq.
  unfold set_arrays, set_listeners; simpl. f_equal.
  rewrite alter_app_r_alt by lia. by rewrite Nat.sub_diag.
Qed.

Lemma off_absent s event l :
  _listeners s !! event = None → off event l s = s.
Proof. intros H. unfold off. by rewrite H. Qed.

Lemma off_present s event l r :
  _listeners s !! event = Some r →
  off event l s =
    let keep := filter (λ l', l' ≠ l) (default [] (arrays s !! r)) in
    if decide (0 < length keep) then
      set_listeners (<[event := length (arrays s)]> (_listeners s))
        (set_arrays (arrays s ++ [keep]) s)
    else set_listeners (delete event (_listeners s)) s.
Proof. intros H. unfold off. by rewrite H. Qed.

Lemma listeners_on s event l e :
  wf s →
  listeners e (on event l s) =
    if decide (e = event) then listeners event s ++ [l] else listeners e s.
Proof.
  intros Hwf. unfold listeners, array_of.
  destruct (_listeners s !! event) as [r|] eqn:Hev.
  - rewrite (on_present _ _ _ _ Hev). simpl. case_decide as Hd.
    + subst e. rewrite Hev. simpl.
      destruct Hwf as [H1 _]. destruct (H1 _ _ Hev) as (a & Ha & _).
      by rewrite list_lookup_alter_eq, Ha.
    + destruct (_listeners s !! e) as [r'|] eqn:He; simpl; [|done].
      rewrite list_lookup_alter_ne; [done|].
      intros ->. destruct Hwf as [_ H2]. apply Hd. eauto.
  - rewrite (on_absent _ _ _ Hev). simpl. case_decide as Hd.
    + subst e. rewrite lookup_insert_eq. simpl.
      by rewrite lookup_app_r, Nat.sub_diag by lia.
    + rewrite lookup_insert_ne by done.
      destruct (_listeners s !! e) as [r'|] eqn:He; simpl; [|done].
      pose proof (wf_bound _ _ _ Hwf He).
      by rewrite lookup_app_l.
Qed.

Lemma listeners_off s event l e :
  wf s →
  listeners e (off event l s) =
    if decide (e = event) then filter (λ l', l' ≠ l) (listeners event s)
    else listeners e s.
Proof.
  intros Hwf. unfold listeners, array_of.
  destruct (_listeners s !! event) as [r|] eqn:Hev.
  - rewrite (off_present _ _ _ _ Hev). simpl.
    destruct (decide (0 < _)) as [Hn|Hn]; simpl.
    + case_decide as Hd.
      * subst e. rewrite lookup_insert_eq. simpl.
        by rewrite lookup_app_r, Nat.sub_diag by lia.
      * rewrite lookup_insert_ne by done.
        destruct (_listeners s !! e) as [r'|] eqn:He; simpl; [|done].
        pose proof (wf_bound _ _ _ Hwf He).
        by rewrite lookup_app_l.
    + case_decide as Hd.
      * subst e. rewrite lookup_delete_eq. simpl.
        destruct (filter _ _); [done|simpl in Hn; lia].
      * by rewrite lookup_delete_ne.
  - rewrite (off_absent _ _ _ Hev). case_decide as Hd; [|done].
    subst e. by rewrite Hev.
Qed.

Lemma wf_on s event l : wf s → wf (on event l s).
Proof.
  intros Hwf. destruct (_listeners s !! event) as [r|] eqn:Hev.
  - rewrite (on_present _ _ _ _ Hev). destruct Hwf as [H1 H2].
    split; simpl; [|done]. intros e r' He.
    destruct (H1 _ _ He) as (a & Ha & Hne).
    destruct (decide (r = r')) as [->|Hr].
    + exists (a ++ [l]). rewrite list_lookup_alter_eq, Ha. split; [done|].
      by destruct a.
    + exists a. by rewrite list_lookup_alter_ne.
  - rewrite (on_absent _ _ _ Hev). split; simpl.
    + intros e r' He. destruct (decide (event = e)) as [->|Hd].
      * rewrite lookup_insert_eq in He. injection He as <-.
        exists [l]. by rewrite lookup_app_r, Nat.sub_diag by lia.
      * rewrite lookup_insert_ne in He by done.
        destruct Hwf as [H1 _]. destruct (H1 _ _ He) as (a & Ha & Hne).
        exists a. split; [|done]. rewrite lookup_app_l; [done|].
        by apply lookup_lt_Some in Ha.
    + intros e1 e2 r' He1 He2.
      destruct (decide (event = e1)) as [<-|Hd1], (decide (event = e2)) as [<-|Hd2];
        [done| | |].
      * rewrite lookup_insert_eq in He1. rewrite lookup_insert_ne in He2 by done.
        injection He1 as <-. pose proof (wf_bound _ _ _ Hwf He2). lia.
      * rewrite lookup_insert_eq in He2. rewrite lookup_insert_ne in He1 by done.
        injection He2 as <-. pose proof (wf_bound _ _ _ Hwf He1). lia.
      * rewrite lookup_insert_ne in He1, He2 by done.
        destruct Hwf as [_ H2]. eauto.
Qed.

Lemma wf_off s event l : wf s → wf (off event l s).
Proof.
  intros Hwf. destruct (_listeners s !! event) as [r|] eqn:Hev.
  2:{ by rewrite (off_absent _ _ _ Hev). }
  rewrite (off_present _ _ _ _ Hev). simpl.
  destruct (decide (0 < _)) as [Hn|Hn].
  - split; simpl.
    + intros e r' He. destruct (decide (event = e)) as [->|Hd].
      * rewrite lookup_insert_eq in He. injection He as <-.
        eexists. rewrite lookup_app_r, Nat.sub_diag by lia. split; [done|].
        intros E. rewrite E in Hn. simpl in Hn. lia.
      * rewrite lookup_insert_ne in He by done.
        destruct Hwf as [H1 _]. destruct (H1 _ _ He) as (a & Ha & Hne).
        exists a. split; [|done]. rewrite lookup_app_l; [done|].
        by apply lookup_lt_Some in Ha.
    + intros e1 e2 r' He1 He2.
      destruct (decide (event = e1)) as [<-|Hd1], (decide (event = e2)) as [<-|Hd2];
        [done| | |].
      * rewrite lookup_insert_eq in He1. rewrite lookup_insert_ne in He2 by done.
        injection He1 as <-. pose proof (wf_bound _ _ _ Hwf He2). lia.
      * rewrite lookup_insert_eq in He2. rewrite lookup_insert_ne in He1 by done.
        injection He2 as <-. pose proof (wf_bound _ _ _ Hwf He1). lia.
      * rewrite lookup_insert_ne in He1, He2 by done.
        destruct Hwf as [_ H2]. eauto.
  - destruct Hwf as [H1 H2]. split; simpl.
    + intros e r' He. apply lookup_delete_Some in He as [_ He]. eauto.
    + intros e1 e2 r' He1 He2.
      apply lookup_delete_Some in He1 as [_ He1].
      apply lookup_delete_Some in He2 as [_ He2]. eauto.
Qed.

Lemma wf_closures s n :
  wf s →
  wf {| _listeners := _listeners s; arrays := arrays s;
        closures := n; invoked := invoked s |}.
Proof. done. Qed.

Lemma wf_once s event l : wf s → wf (once event l s).
Proof. intros Hwf. unfold once. by apply wf_on, wf_closures. Qed.

Lemma wf_removeAllListeners s event : wf s → wf (removeAllListeners event s).
Proof.
  intros [H1 H2]. destruct event as [e|]; split; simpl.
  - intros e' r He. apply lookup_delete_Some in He as [_ He]. eauto.
  - intros e1 e2 r He1 He2.
    apply lookup_delete_Some in He1 as [_ He1].
    apply lookup_delete_Some in He2 as [_ He2]. eauto.
  - intros e r. by rewrite lookup_empty.
  - intros e1 e2 r. by rewrite lookup_empty.
Qed.

Lemma wf_apply_call c s : wf s → wf (apply_call c s).
Proof.
  destruct c; simpl; auto using wf_on, wf_off, wf_once, wf_removeAllListeners.
Qed.

Lemma wf_apply_calls cs s : wf s → wf (apply_calls cs s).
Proof.
  revert s. induction cs as [|c cs IH]; intros s Hwf; [done|].
  simpl. by apply IH, wf_apply_call.
Qed.

Lemma listeners_once s event l e :
  wf s →
  listeners e (once event l s) =
    if decide (e = event)
    then listeners event s ++ [OnceListener (closures s) event l]
    else listeners e s.
Proof.
  intros Hwf. unfold once.
  rewrite listeners_on by by apply wf_closures. done.
Qed.


(** *** Registration counts *)


Lemma occurrences_app l ls1 ls2 :
  occurrences l (ls1 ++ ls2) = occurrences l ls1 + occurrences l ls2.
Proof. unfold occurrences. by rewrite filter_app, length_app. Qed.

Lemma occurrences_singleton l x :
  occurrences l [x] = if decide (x = l) then 1 else 0.
Proof. unfold occurrences. rewrite filter_cons. by case_decide. Qed.

Lemma occurrences_filter_ne l l' ls :
  occurrences l (filter (λ x, x ≠ l') ls) =
    if decide (l = l') then 0 else occurrences l ls.
Proof.
  unfold occurrences. induction ls as [|x ls IH]; simpl.
  - by case_decide.
  - rewrite !filter_cons. destruct (decide (x ≠ l')) as [Hx|Hx].
    + rewrite filter_cons. destruct (decide (x = l)) as [->|Hxl]; simpl.
      * rewrite IH. by rewrite !decide_False by done.
      * rewrite IH. done.
    + apply dec_stable in Hx. subst x. rewrite IH.
      destruct (decide (l = l')) as [->|Hl]; [done|].
      by rewrite decide_False by done.
Qed.

Lemma occurrences_step c s event f :
  wf s → is_registration c →
  registrations event f [c] (occurrences (Fn f) (listeners event s)) =
  occurrences (Fn f) (listeners event (apply_call c s)).
Proof.
  intros Hwf Hc. destruct c as [e l|e l|e l| | |]; simpl in *; try done.
  - rewrite listeners_on by done. case_decide as Hd.
    + destruct Hd as [-> ->]. rewrite decide_True by done.
      rewrite occurrences_app, occurrences_singleton, decide_True by done. lia.
    + destruct (decide (event = e)) as [->|He]; [|done].
      rewrite occurrences_app, occurrences_singleton, decide_False by naive_solver.
      lia.
  - rewrite listeners_off by done. case_decide as Hd.
    + destruct Hd as [-> ->]. rewrite decide_True by done.
      by rewrite occurrences_filter_ne, decide_True.
    + destruct (decide (event = e)) as [->|He]; [|done].
      rewrite occurrences_filter_ne, decide_False; [done|naive_solver].
  - rewrite listeners_once by done.
    destruct (decide (event = e)) as [->|He]; [|done].
    rewrite occurrences_app, occurrences_singleton, decide_False by done. lia.
Qed.

Lemma registrations_cons event f c cs n :
  registrations event f (c :: cs) n =
  registrations event f cs (registrations event f [c] n).
Proof. by destruct c. Qed.


(** *** Emission over listeners that unsubscribe *)


Lemma depth_le_max l ls : l ∈ ls → depth l ≤ max_depth ls.
Proof.
  induction 1 as [|x y ls _ IH]; simpl; lia.
Qed.

Lemma off_frame event l s :
  invoked (off event l s) = invoked s ∧ arrays s `prefix_of` arrays (off event l s).
Proof.
  unfold off. destruct (_listeners s !! event) as [r|]; [|done].
  simpl. case_decide; simpl; [|done].
  split; [done|]. by apply prefix_app_r.
Qed.

Section OffOnly.
Variable bodies : nat → list value → list call.
Hypothesis Hoff : off_only bodies.

Lemma call_listener_off_only l args fuel s :
  depth l + 2 ≤ fuel →
  ∃ s', call_listener bodies fuel l args s = Some (s', Normal ()) ∧
        invoked s' = invoked s ∧ arrays s `prefix_of` arrays s'.
Proof.
  revert fuel s. induction l as [f|uid event inner IH]; intros fuel s Hfuel.
  - destruct fuel as [|[|k]]; simpl in Hfuel; try lia.
    simpl. pose proof (Hoff f args) as Hb. revert s.
    induction Hb as [|c cs Hc _ IHcs]; intros s.
    + by exists s.
    + destruct c; try done.
      destruct (IHcs (off event l s)) as (s' & -> & Hi & Hp).
      exists s'. destruct (off_frame event l s) as [Hi' Hp'].
      split; [done|]. split; [congruence|by etrans].
  - destruct fuel as [|k]; simpl in Hfuel; [lia|].
    simpl. destruct (IH k s) as (s' & -> & Hi & Hp); [lia|].
    eexists. split; [done|].
    destruct (off_frame event (OnceListener uid event inner) s') as [Hi' Hp'].
    split; [congruence|by etrans].
Qed.

Lemma emit_loop_off_only a r args d n :
  ∀ i s fuel,
    arrays s !! r = Some a →
    (∀ l, l ∈ a → depth l ≤ d) →
    length a - i ≤ n →
    n + d + 3 ≤ fuel →
    ∃ s', emit_loop bodies fuel r i args s = Some (s', Normal ()) ∧
          invoked s' = invoked s ++ ((λ l, (l, args)) <$> drop i a) ∧
          arrays s `prefix_of` arrays s'.
Proof.
  induction n as [|n IH]; intros i s fuel Ha Hd Hn Hfuel.
  - destruct fuel as [|k]; [lia|]. simpl. rewrite Ha. simpl.
    rewrite lookup_ge_None_2 by lia. exists s.
    rewrite drop_ge by lia. simpl. by rewrite app_nil_r.
  - destruct fuel as [|k]; [lia|]. simpl. rewrite Ha. simpl.
    destruct (a !! i) as [l|] eqn:Hl.
    + destruct (call_listener_off_only l args k (record_call l args s))
        as (s1 & -> & Hi1 & Hp1).
      { pose proof (Hd l (list_elem_of_lookup_2 _ _ _ Hl)). lia. }
      destruct (IH (S i) s1 k) as (s' & -> & Hi & Hp); [|done| |lia|].
      { by apply (prefix_lookup_Some _ _ _ _ Ha). }
      { apply lookup_lt_Some in Hl. lia. }
      exists s'. split; [done|]. split; [|by etrans].
      rewrite Hi, Hi1. simpl. rewrite (drop_S _ _ _ Hl). simpl.
      by rewrite <-app_assoc.
    + exists s. apply lookup_ge_None in Hl. rewrite drop_ge by lia.
      simpl. by rewrite app_nil_r.
Qed.

End OffOnly.


(** *** Emission and registration *)



(** A listener that subscribes another one while the round runs is outside
    that statement: [on] pushes onto the array the loop is reading, and the
    new listener is called in the same round. *)
Example emit_sees_on_during_round :
  let bodies := λ f (_ : list value),
    match f with 0 => [On "change" (Fn 1)] | _ => [] end in
  (λ r, invoked r.1) <$>
    emit bodies 5 "change" [] (on "change" (Fn 0) new_EventEmitter)
  = Some [(Fn 0, []); (Fn 1, [])].
Proof. vm_compute. reflexivity. Qed.




End EventFacts.

(** ** Rounds of the array-backed emitter *)

Module EventRounds.
Import Event EventFacts.

Lemma listeners_removeAllListeners s ev e :
  listeners e (removeAllListeners ev s) =
    match ev with
    | None => []
    | Some e' => if decide (e = e') then [] else listeners e s
    end.
Proof.
  unfold listeners, array_of. destruct ev as [e'|]; simpl.
  - case_decide as Hd.
    + subst. by rewrite lookup_delete_eq.
    + by rewrite lookup_delete_ne.
  - by rewrite lookup_empty.
Qed.

Lemma shrinks_refl s : shrinks s s.
Proof. done. Qed.

Lemma shrinks_trans s1 s2 s3 : shrinks s1 s2 → shrinks s2 s3 → shrinks s1 s3.
Proof.
  intros (Hi & Hp & Hl) (Hi' & Hp' & Hl').
  split; [congruence|]. split; [by etrans|]. eauto.
Qed.

Lemma shrinks_off event l s : wf s → shrinks s (off event l s).
Proof.
  intros Hwf. destruct (off_frame event l s) as [Hi Hp].
  split; [done|]. split; [done|]. intros e x.
  rewrite listeners_off by done. case_decide; [|done].
  subst. by intros [_ ?]%list_elem_of_filter.
Qed.

Lemma shrinks_removeAllListeners ev s : shrinks s (removeAllListeners ev s).
Proof.
  split; [by destruct ev|]. split; [by destruct ev|]. intros e x.
  rewrite listeners_removeAllListeners. destruct ev as [e'|].
  - case_decide; [by intros ?%elem_of_nil|done].
  - by intros ?%elem_of_nil.
Qed.

Lemma shrinks_apply_calls cs s :
  Forall is_removal cs → wf s →
  wf (apply_calls cs s) ∧ shrinks s (apply_calls cs s).
Proof.
  intros Hcs. revert s. induction Hcs as [|c cs Hc _ IH]; intros s Hwf.
  - done.
  - simpl. destruct (IH (apply_call c s)) as [Hwf' Hs].
    { by apply wf_apply_call. }
    split; [done|]. eapply shrinks_trans; [|done].
    destruct c; try done; simpl.
    + by apply shrinks_off.
    + apply shrinks_removeAllListeners.
Qed.

Section Removal.
Variable bodies : nat → list value → list call.
Variable args : list value.

Lemma returned_shrinks l s :
  Forall is_removal (bodies (fn_of l) args) → wf s →
  wf (returned bodies args l s) ∧ shrinks s (returned bodies args l s).
Proof.
  intros Hb. revert s. induction l as [f|uid event inner IH]; intros s Hwf.
  - by apply shrinks_apply_calls.
  - simpl. destruct (IH Hb s Hwf) as [Hwf' Hs].
    split; [by apply wf_off|].
    eapply shrinks_trans; [done|]. by apply shrinks_off.
Qed.

Lemma returned_once_gone uid event inner s :
  Forall is_removal (bodies (fn_of inner) args) → wf s →
  OnceListener uid event inner
    ∉ listeners event (returned bodies args (OnceListener uid event inner) s).
Proof.
  intros Hb Hwf. simpl.
  destruct (returned_shrinks inner s Hb Hwf) as [Hwf' _].
  rewrite listeners_off, decide_True by done.
  by intros [? _]%list_elem_of_filter.
Qed.

Lemma run_body_removal cs fuel s :
  Forall is_removal cs →
  (fix run_body (cs : list call) (s : Store) :=
     match cs with
     | [] => Some (s, Normal ())
     | c :: cs' =>
         match exec_call bodies (S fuel) c s with
         | Some (s', Normal _) => run_body cs' s'
         | r => r
         end
     end) cs s = Some (apply_calls cs s, Normal ()).
Proof.
  intros Hcs. revert s. induction Hcs as [|c cs Hc _ IH]; intros s; [done|].
  destruct c; try done; simpl; apply IH.
Qed.

Lemma run_body_throws cs e rest fuel s :
  Forall is_removal cs →
  (fix run_body (cs : list call) (s : Store) :=
     match cs with
     | [] => Some (s, Normal ())
     | c :: cs' =>
         match exec_call bodies (S fuel) c s with
         | Some (s', Normal _) => run_body cs' s'
         | r => r
         end
     end) (cs ++ Throw e :: rest) s = Some (apply_calls cs s, Threw e).
Proof.
  intros Hcs. revert s. induction Hcs as [|c cs Hc _ IH]; intros s; [done|].
  destruct c; try done; simpl; apply IH.
Qed.

Lemma call_listener_removal l fuel s :
  Forall is_removal (bodies (fn_of l) args) → depth l + 2 ≤ fuel →
  call_listener bodies fuel l args s
    = Some (returned bodies args l s, Normal ()).
Proof.
  intros Hb. revert fuel s.
  induction l as [f|uid event inner IH]; intros fuel s Hfuel.
  - destruct fuel as [|[|k]]; simpl in Hfuel; try lia.
    by apply run_body_removal.
  - destruct fuel as [|k]; simpl in Hfuel; [lia|].
    simpl. rewrite (IH Hb k s) by lia. done.
Qed.

Lemma call_listener_throws l cs e rest fuel s :
  bodies (fn_of l) args = cs ++ Throw e :: rest → Forall is_removal cs →
  depth l + 2 ≤ fuel →
  call_listener bodies fuel l args s = Some (apply_calls cs s, Threw e).
Proof.
  intros Hb Hcs. revert fuel s.
  induction l as [f|uid event inner IH]; intros fuel s Hfuel.
  - destruct fuel as [|[|k]]; simpl in Hfuel; try lia.
    simpl in *. rewrite Hb. by apply run_body_throws.
  - destruct fuel as [|k]; simpl in Hfuel; [lia|].
    simpl. rewrite (IH Hb k s) by lia. done.
Qed.

Lemma record_call_wf l s : wf s → wf (record_call l args s).
Proof. done. Qed.

Lemma after_round_spec ls :
  ∀ s, (∀ l, l ∈ ls → Forall is_removal (bodies (fn_of l) args)) → wf s →
    let s' := after_round bodies args ls s in
    wf s' ∧
    invoked s' = invoked s ++ ((λ l, (l, args)) <$> ls) ∧
    arrays s `prefix_of` arrays s' ∧
    (∀ e x, x ∈ listeners e s' → x ∈ listeners e s) ∧
    (∀ uid event inner,
       OnceListener uid event inner ∈ ls →
       OnceListener uid event inner ∉ listeners event s').
Proof.
  induction ls as [|l ls IH]; intros s Hls Hwf; simpl.
  - rewrite app_nil_r. split; [done|]. split; [done|]. split; [done|].
    split; [done|]. intros uid event inner H. by apply elem_of_nil in H.
  - assert (Hl : Forall is_removal (bodies (fn_of l) args))
      by apply Hls, list_elem_of_here.
    destruct (returned_shrinks l (record_call l args s) Hl)
      as (Hwf1 & Hi1 & Hp1 & Hs1); [done|].
    destruct (IH (returned bodies args l (record_call l args s)))
      as (Hwf' & Hi & Hp & Hs & Ho); [|done|].
    { intros l' Hl'. by apply Hls, list_elem_of_further. }
    split; [done|]. split.
    { rewrite Hi, Hi1. simpl. by rewrite <-app_assoc. }
    split; [by etrans|]. split.
    { intros e x Hx. by apply (Hs1 e x), Hs. }
    intros uid event inner [<-|Hin]%elem_of_cons; [|by apply Ho].
    intros Hx. apply Hs in Hx. revert Hx. by apply returned_once_gone.
Qed.

Lemma returned_array l r a s :
  Forall is_removal (bodies (fn_of l) args) →
  arrays s !! r = Some a → arrays (returned bodies args l s) !! r = Some a.
Proof.
  intros Hb. revert s.
  induction l as [f|uid event inner IHl]; intros s Ha; simpl.
  - revert s Ha. simpl in Hb.
    induction Hb as [|c cs Hc _ IHc]; intros s Ha; [done|].
    simpl. apply IHc. destruct c; try done; simpl.
    + destruct (off_frame event l s) as [_ Hp].
      by apply (prefix_lookup_Some _ _ _ _ Ha).
    + by destruct event.
  - destruct (off_frame event (OnceListener uid event inner)
                (returned bodies args inner s)) as [_ Hp].
    apply (prefix_lookup_Some _ _ _ _ (IHl Hb s Ha) Hp).
Qed.

Lemma emit_loop_removal a r n :
  ∀ i s fuel,
    arrays s !! r = Some a →
    (∀ l, l ∈ drop i a → Forall is_removal (bodies (fn_of l) args)) →
    length a - i ≤ n →
    n + max_depth a + 3 ≤ fuel →
    emit_loop bodies fuel r i args s
      = Some (after_round bodies args (drop i a) s, Normal ()).
Proof.
  induction n as [|n IH]; intros i s fuel Ha Hcalm Hn Hfuel.
  - destruct fuel as [|k]; [lia|]. simpl. rewrite Ha. simpl.
    rewrite lookup_ge_None_2 by lia. by rewrite drop_ge by lia.
  - destruct fuel as [|k]; [lia|]. simpl. rewrite Ha. simpl.
    destruct (a !! i) as [l|] eqn:Hl.
    + rewrite (drop_S _ _ _ Hl) in Hcalm |- *.
      assert (Forall is_removal (bodies (fn_of l) args)) as Hb
        by apply Hcalm, list_elem_of_here.
      rewrite call_listener_removal; [|done|].
      2:{ pose proof (depth_le_max l a (list_elem_of_lookup_2 _ _ _ Hl)). lia. }
      simpl. apply IH.
      * by apply returned_array.
      * intros l' Hl'. by apply Hcalm, list_elem_of_further.
      * apply lookup_lt_Some in Hl. lia.
      * lia.
    + apply lookup_ge_None in Hl. by rewrite drop_ge by lia.
Qed.

Lemma emit_loop_throws a r l0 cs e rest ls2 :
  bodies (fn_of l0) args = cs ++ Throw e :: rest → Forall is_removal cs →
  ∀ ls1 i s fuel,
    arrays s !! r = Some a →
    drop i a = ls1 ++ l0 :: ls2 →
    (∀ l, l ∈ ls1 → Forall is_removal (bodies (fn_of l) args)) →
    length ls1 + max_depth a + 3 ≤ fuel →
    emit_loop bodies fuel r i args s
      = Some (apply_calls cs
                (record_call l0 args (after_round bodies args ls1 s)),
              Threw e).
Proof.
  intros Hb Hcs. induction ls1 as [|l ls1 IH]; intros i s fuel Ha Hd Hcalm Hfuel.
  - destruct fuel as [|k]; [lia|]. simpl. rewrite Ha. simpl.
    assert (a !! i = Some l0) as Hl.
    { rewrite <-(Nat.add_0_r i), <-lookup_drop, Hd. done. }
    rewrite Hl. rewrite (call_listener_throws _ _ _ _ _ _ Hb Hcs); [done|].
    pose proof (depth_le_max l0 a (list_elem_of_lookup_2 _ _ _ Hl)). lia.
  - destruct fuel as [|k]; [simpl in Hfuel; lia|]. simpl. rewrite Ha. simpl.
    assert (a !! i = Some l) as Hl.
    { rewrite <-(Nat.add_0_r i), <-lookup_drop, Hd. done. }
    rewrite Hl.
    assert (Forall is_removal (bodies (fn_of l) args)) as Hbl
      by apply Hcalm, list_elem_of_here.
    rewrite call_listener_removal; [|done|].
    2:{ pose proof (depth_le_max l a (list_elem_of_lookup_2 _ _ _ Hl)).
        simpl in Hfuel. lia. }
    apply IH.
    + by apply returned_array.
    + rewrite (drop_S _ _ _ Hl) in Hd. by injection Hd.
    + intros l' Hl'. by apply Hcalm, list_elem_of_further.
    + simpl in Hfuel. lia.
Qed.

End Removal.

Lemma listeners_array s event r :
  wf s → _listeners s !! event = Some r →
  ∃ a, arrays s !! r = Some a ∧ listeners event s = a ∧ a ≠ [].
Proof.
  intros [H _] Hr. destruct (H _ _ Hr) as (a & Ha & Hne).
  exists a. unfold listeners, array_of. rewrite Hr. simpl. by rewrite Ha.
Qed.

Lemma listeners_absent s event :
  _listeners s !! event = None → listeners event s = [].
Proof. intros H. unfold listeners, array_of. by rewrite H. Qed.

Lemma emit_removal bodies s event args :
  wf s →
  (∀ l, l ∈ listeners event s → Forall is_removal (bodies (fn_of l) args)) →
  ∀ fuel, length (listeners event s) + max_depth (listeners event s) + 3 ≤ fuel →
    emit bodies fuel event args s
      = Some (after_round bodies args (listeners event s) s,
              Normal (bool_decide (listeners event s ≠ []))).
Proof.
  intros Hwf Hcalm fuel Hfuel. unfold emit.
  destruct (_listeners s !! event) as [r|] eqn:Hev.
  - destruct (listeners_array _ _ _ Hwf Hev) as (a & Ha & Hl & Hne).
    rewrite Hl in *.
    rewrite (emit_loop_removal bodies args a r (length a) 0 s fuel);
      try done; [|lia].
    by rewrite bool_decide_eq_true_2.
  - by rewrite (listeners_absent _ _ Hev).
Qed.

Lemma shrinks_cleared s s' :
  shrinks s s' → (∀ e, listeners e s = []) → ∀ e, listeners e s' = [].
Proof.
  intros (_ & _ & H) Hs e. destruct (listeners e s') as [|x ls] eqn:E; [done|].
  specialize (H e x). rewrite E, Hs in H.
  pose proof (H (list_elem_of_here _ _)) as Hx. by apply elem_of_nil in Hx.
Qed.

Lemma apply_calls_app cs1 cs2 s :
  apply_calls (cs1 ++ cs2) s = apply_calls cs2 (apply_calls cs1 s).
Proof. unfold apply_calls. by rewrite foldl_app. Qed.

Lemma returned_cleared bodies args l s :
  Forall is_removal (bodies (fn_of l) args) → wf s →
  RemoveAllListeners None ∈ bodies (fn_of l) args →
  ∀ e, listeners e (returned bodies args l s) = [].
Proof.
  intros Hb Hwf Hin. revert s Hwf.
  induction l as [f|uid event inner IH]; intros s Hwf; simpl in *.
  - apply list_elem_of_split in Hin as (cs1 & cs2 & E). rewrite E in *.
    apply Forall_app in Hb as [H1 H2]. apply Forall_cons in H2 as [_ H2].
    rewrite apply_calls_app.
    change (apply_calls (RemoveAllListeners None :: cs2) (apply_calls cs1 s))
      with (apply_calls cs2 (removeAllListeners None (apply_calls cs1 s))).
    destruct (shrinks_apply_calls cs1 s H1 Hwf) as [Hwf1 _].
    apply (shrinks_cleared (removeAllListeners None (apply_calls cs1 s))).
    + apply shrinks_apply_calls; [done|]. by apply wf_removeAllListeners.
    + intros e. by rewrite listeners_removeAllListeners.
  - destruct (returned_shrinks bodies args inner s Hb Hwf) as [Hwf' _].
    apply (shrinks_cleared (returned bodies args inner s)).
    + by apply shrinks_off.
    + by apply IH.
Qed.

Lemma after_round_cleared bodies args ls :
  ∀ s, (∀ l, l ∈ ls → Forall is_removal (bodies (fn_of l) args)) → wf s →
    (∃ l, l ∈ ls ∧ RemoveAllListeners None ∈ bodies (fn_of l) args) →
    ∀ e, listeners e (after_round bodies args ls s) = [].
Proof.
  induction ls as [|l ls IH]; intros s Hls Hwf (l0 & Hl0 & Hin).
  { by apply elem_of_nil in Hl0. }
  assert (Hl : Forall is_removal (bodies (fn_of l) args))
    by apply Hls, list_elem_of_here.
  assert (Hls' : ∀ l', l' ∈ ls → Forall is_removal (bodies (fn_of l') args)).
  { intros l' Hl'. by apply Hls, list_elem_of_further. }
  destruct (returned_shrinks bodies args l (record_call l args s) Hl)
    as [Hwf1 Hs1]; [done|].
  simpl. apply elem_of_cons in Hl0 as [->|Hl0].
  - destruct (after_round_spec bodies args ls
                (returned bodies args l (record_call l args s)) Hls' Hwf1)
      as (_ & Hi & Hp & Hs & _).
    intros e.
    destruct (listeners e (after_round _ _ ls _)) as [|x xs] eqn:E; [done|].
    specialize (Hs e x). rewrite E in Hs.
    rewrite (returned_cleared bodies args l (record_call l args s)) in Hs
      by done.
    pose proof (Hs (list_elem_of_here _ _)) as Hx. by apply elem_of_nil in Hx.
  - apply IH; [done|done|]. by exists l0.
Qed.

Lemma after_round_inert bodies args ls :
  ∀ s, (∀ l, l ∈ ls → is_function l ∧ bodies (fn_of l) args = []) →
    _listeners (after_round bodies args ls s) = _listeners s ∧
    arrays (after_round bodies args ls s) = arrays s.
Proof.
  induction ls as [|l ls IH]; intros s Hls; [done|].
  destruct (Hls l (list_elem_of_here _ _)) as [Hf Hb].
  destruct l as [f|]; [|done]. simpl in *. rewrite Hb. simpl.
  apply (IH (record_call (Fn f) args s)).
  intros l' Hl'. by apply Hls, list_elem_of_further.
Qed.

(** *** Rounds of listeners that remove listeners *)

(** X1.  When a listener throws, [emit] lets the exception through: the
    listeners registered before it have been called, those after it are
    not called in that round. *)
Theorem emit_stops_at_throwing_listener
    bodies s event args ls1 l0 ls2 cs e rest :
  wf s →
  listeners event s = ls1 ++ l0 :: ls2 →
  (∀ l, l ∈ ls1 → Forall is_removal (bodies (fn_of l) args)) →
  bodies (fn_of l0) args = cs ++ Throw e :: rest → Forall is_removal cs →
  ∃ N, ∀ fuel, N ≤ fuel →
    ∃ s', emit bodies fuel event args s = Some (s', Threw e) ∧
          invoked s' =
            invoked s ++ ((λ l, (l, args)) <$> ls1 ++ [l0]).
Proof.
  intros Hwf Hls Hcalm Hb Hcs.
  exists (length ls1 + max_depth (listeners event s) + 3). intros fuel Hfuel.
  unfold emit. destruct (_listeners s !! event) as [r|] eqn:Hev.
  2:{ rewrite (listeners_absent _ _ Hev) in Hls. by destruct ls1. }
  destruct (listeners_array _ _ _ Hwf Hev) as (a & Ha & Hl & _).
  rewrite Hl in *.
  rewrite (emit_loop_throws bodies args a r l0 cs e rest ls2 Hb Hcs
             ls1 0 s fuel) by done.
  eexists. split; [done|].
  destruct (shrinks_apply_calls cs
              (record_call l0 args (after_round bodies args ls1 s)) Hcs)
    as (_ & -> & _).
  { by apply after_round_spec. }
  destruct (after_round_spec bodies args ls1 s Hcalm Hwf) as (_ & Hi & _).
  simpl. rewrite Hi, fmap_app. simpl. by rewrite <-app_assoc.
Qed.

Lemma emit_stops_at_throwing_listener_witness :
  let bodies := λ f (_ : list value),
    match f with
    | 0 => [Off "change" (Fn 0)]
    | 1 => [Throw (VStr "stop")]
    | _ => []
    end in
  let s := apply_calls
             [On "change" (Fn 0); On "change" (Fn 1); On "change" (Fn 2)]
             new_EventEmitter in
  wf s ∧ listeners "change" s = [Fn 0] ++ Fn 1 :: [Fn 2] ∧
  ∃ N, ∀ fuel, N ≤ fuel →
    ∃ s', emit bodies fuel "change" [VNum 7] s
            = Some (s', Threw (VStr "stop")) ∧
          invoked s' = [(Fn 0, [VNum 7]); (Fn 1, [VNum 7])].
Proof.
  intros bodies s.
  assert (Hwf : wf s) by apply wf_apply_calls, wf_new.
  assert (Hls : listeners "change" s = [Fn 0] ++ Fn 1 :: [Fn 2])
    by (vm_compute; reflexivity).
  split; [exact Hwf|]. split; [exact Hls|].
  refine (emit_stops_at_throwing_listener bodies s "change" [VNum 7]
            [Fn 0] (Fn 1) [Fn 2] [] (VStr "stop") [] Hwf Hls _ eq_refl
            (Forall_nil_2 _)).
  intros l Hl. apply list_elem_of_singleton in Hl. subst l.
  repeat constructor.
Defined.

(** X2.  After a round in which the listeners return, no closure that
    [once] registered for the key is left: each one removed itself after
    calling its function.  The round calls the listeners the key had when it
    started and leaves, under every key, listeners that were there. *)
Theorem once_listeners_leave_after_the_round bodies s event args :
  wf s →
  (∀ l, l ∈ listeners event s → Forall is_removal (bodies (fn_of l) args)) →
  ∃ N, ∀ fuel, N ≤ fuel →
    ∃ s', emit bodies fuel event args s
            = Some (s', Normal (bool_decide (listeners event s ≠ []))) ∧
          wf s' ∧
          (∀ e x, x ∈ listeners e s' → x ∈ listeners e s) ∧
          (∀ uid inner, OnceListener uid event inner ∉ listeners event s').
Proof.
  intros Hwf Hcalm. eexists. intros fuel Hfuel.
  rewrite emit_removal by done. eexists. split; [done|].
  destruct (after_round_spec bodies args (listeners event s) s Hcalm Hwf)
    as (Hwf' & _ & _ & Hs & Ho).
  split; [done|]. split; [done|]. intros uid inner Hin.
  by apply (Ho uid event inner); [apply Hs|].
Qed.

Lemma once_listeners_leave_after_the_round_witness :
  wf three_listeners ∧
  ∃ N, ∀ fuel, N ≤ fuel →
    ∃ s', emit unsubscribing_bodies fuel "change" [VNum 7] three_listeners
            = Some (s', Normal true) ∧
          wf s' ∧
          (∀ e x, x ∈ listeners e s' → x ∈ listeners e three_listeners) ∧
          (∀ uid inner, OnceListener uid "change" inner ∉ listeners "change" s').
Proof.
  assert (Hwf : wf three_listeners) by apply wf_apply_calls, wf_new.
  split; [exact Hwf|].
  refine (once_listeners_leave_after_the_round unsubscribing_bodies
            three_listeners "change" [VNum 7] Hwf _).
  intros l Hl. destruct (fn_of l) as [|[|f]]; repeat constructor.
Defined.

(** X3.  The closure of [once] removes itself after the call of its
    function: when that function throws, the closure is still registered
    after [emit] has raised the exception: the listener list of the key is
    what it was. *)
Theorem once_listener_that_throws_stays
    bodies s event args ls1 uid inner ls2 e rest :
  wf s →
  listeners event s = ls1 ++ OnceListener uid event inner :: ls2 →
  (∀ l, l ∈ ls1 → is_function l ∧ bodies (fn_of l) args = []) →
  bodies (fn_of inner) args = Throw e :: rest →
  ∃ N, ∀ fuel, N ≤ fuel →
    ∃ s', emit bodies fuel event args s = Some (s', Threw e) ∧
          listeners event s' = listeners event s.
Proof.
  intros Hwf Hls Hinert Hb.
  exists (length ls1 + max_depth (listeners event s) + 3). intros fuel Hfuel.
  unfold emit. destruct (_listeners s !! event) as [r|] eqn:Hev.
  2:{ rewrite (listeners_absent _ _ Hev) in Hls. by destruct ls1. }
  destruct (listeners_array _ _ _ Hwf Hev) as (a & Ha & Hl & _).
  rewrite Hl in Hls, Hfuel.
  rewrite (emit_loop_throws bodies args a r (OnceListener uid event inner)
             [] e rest ls2 Hb (Forall_nil_2 _) ls1 0 s fuel); try done.
  2:{ intros l Hin. destruct (Hinert l Hin) as [_ ->]. constructor. }
  eexists. split; [done|]. simpl.
  destruct (after_round_inert bodies args ls1 s Hinert) as [H1 H2].
  unfold listeners, array_of. simpl. by rewrite H1, H2.
Qed.

Lemma once_listener_that_throws_stays_witness :
  let bodies := λ f (_ : list value),
    match f with 1 => [Throw (VStr "stop")] | _ => [] end in
  let s := apply_calls [On "change" (Fn 0); Once "change" (Fn 1)]
             new_EventEmitter in
  wf s ∧
  listeners "change" s = [Fn 0] ++ OnceListener 0 "change" (Fn 1) :: [] ∧
  ∃ N, ∀ fuel, N ≤ fuel →
    ∃ s', emit bodies fuel "change" [] s = Some (s', Threw (VStr "stop")) ∧
          listeners "change" s' = listeners "change" s.
Proof.
  intros bodies s.
  assert (Hwf : wf s) by apply wf_apply_calls, wf_new.
  assert (Hls : listeners "change" s
                = [Fn 0] ++ OnceListener 0 "change" (Fn 1) :: [])
    by (vm_compute; reflexivity).
  split; [exact Hwf|]. split; [exact Hls|].
  refine (once_listener_that_throws_stays bodies s "change" []
            [Fn 0] 0 (Fn 1) [] (VStr "stop") [] Hwf Hls _ eq_refl).
  intros l Hl. apply list_elem_of_singleton in Hl. subst l. by split.
Defined.

(** X4.  A listener that calls [removeAllListeners] (or [off]) while a
    round runs does not cut the round short: every listener the key had at
    the start is called, in order.  When one of them calls
    [removeAllListeners()] without a key, no listener is left under any key
    afterwards. *)
Theorem round_survives_removeAllListeners bodies s event args :
  wf s →
  (∀ l, l ∈ listeners event s → Forall is_removal (bodies (fn_of l) args)) →
  ∃ N, ∀ fuel, N ≤ fuel →
    ∃ s', emit bodies fuel event args s
            = Some (s', Normal (bool_decide (listeners event s ≠ []))) ∧
          invoked s' = invoked s ++ ((λ l, (l, args)) <$> listeners event s) ∧
          ((∃ l, l ∈ listeners event s ∧
                 RemoveAllListeners None ∈ bodies (fn_of l) args) →
           ∀ e, listeners e s' = []).
Proof.
  intros Hwf Hcalm. eexists. intros fuel Hfuel.
  rewrite emit_removal by done. eexists. split; [done|].
  destruct (after_round_spec bodies args (listeners event s) s Hcalm Hwf)
    as (_ & Hi & _). split; [done|].
  intros Hex. by apply after_round_cleared.
Qed.

Lemma round_survives_removeAllListeners_witness :
  let bodies := λ f (_ : list value),
    match f with 0 => [RemoveAllListeners None] | _ => [] end in
  wf three_listeners ∧
  ∃ N, ∀ fuel, N ≤ fuel →
    ∃ s', emit bodies fuel "change" [VNum 7] three_listeners
            = Some (s', Normal true) ∧
          invoked s' =
            [(Fn 0, [VNum 7]); (Fn 1, [VNum 7]);
             (OnceListener 0 "change" (Fn 2), [VNum 7])] ∧
          ((∃ l, l ∈ listeners "change" three_listeners ∧
                 RemoveAllListeners None ∈ bodies (fn_of l) [VNum 7]) →
           ∀ e, listeners e s' = []).
Proof.
  intros bodies.
  assert (Hwf : wf three_listeners) by apply wf_apply_calls, wf_new.
  split; [exact Hwf|].
  refine (round_survives_removeAllListeners bodies three_listeners
            "change" [VNum 7] Hwf _).
  intros l Hl. destruct (fn_of l) as [|f]; repeat constructor.
Defined.

(** *** Rounds that do not end *)

Section Resubscribing.
Variable bodies : nat → list value → list call.
Variable args : list value.
Variable event : string.
Variable f : nat.
Hypothesis Hbodies : ∀ g, Forall is_on_function (bodies g args).
Hypothesis Hf : On event (Fn f) ∈ bodies f args.

Lemma on_function_step e h s r a :
  _listeners s !! event = Some r → arrays s !! r = Some a →
  _listeners (on e (Fn h) s) !! event = Some r ∧
  ∃ ext, arrays (on e (Fn h) s) !! r = Some (a ++ ext) ∧
         Forall is_function ext ∧ (e = event → ext = [Fn h]).
Proof.
  intros Hr Ha. destruct (_listeners s !! e) as [r'|] eqn:He.
  - rewrite (on_present _ _ _ _ He). simpl. split; [done|].
    destruct (decide (r' = r)) as [->|Hne].
    + exists [Fn h]. rewrite list_lookup_alter_eq, Ha. simpl.
      split; [done|]. split; [by repeat constructor|done].
    + exists []. rewrite list_lookup_alter_ne, Ha, app_nil_r by done.
      split; [done|]. split; [constructor|]. intros ->. congruence.
  - rewrite (on_absent _ _ _ He). simpl.
    assert (e ≠ event) by (intros ->; congruence).
    rewrite lookup_insert_ne by done. split; [done|].
    exists []. rewrite app_nil_r, lookup_app_l; [done|].
    by apply lookup_lt_Some in Ha.
Qed.

Lemma run_body_on_functions k cs :
  Forall is_on_function cs →
  ∀ s r a,
    _listeners s !! event = Some r → arrays s !! r = Some a →
    match
      (fix run_body (cs : list call) (s : Store) :=
         match cs with
         | [] => Some (s, Normal ())
         | c :: cs' =>
             match exec_call bodies k c s with
             | Some (s', Normal _) => run_body cs' s'
             | r => r
             end
         end) cs s
    with
    | None => True
    | Some (_, Threw _) => False
    | Some (s', Normal _) =>
        _listeners s' !! event = Some r ∧
        ∃ ext, arrays s' !! r = Some (a ++ ext) ∧ Forall is_function ext ∧
               (On event (Fn f) ∈ cs → Fn f ∈ ext)
    end.
Proof.
  induction 1 as [|c cs Hc _ IH]; intros s r a Hr Ha.
  - split; [done|]. exists []. rewrite app_nil_r. split; [done|].
    split; [constructor|]. by intros ?%elem_of_nil.
  - destruct c as [e [h|]| | | | |]; try done.
    destruct k as [|k]; [done|]. simpl.
    destruct (on_function_step e h s r a Hr Ha) as (Hr1 & ext1 & Ha1 & Hf1 & He1).
    specialize (IH (on e (Fn h) s) r (a ++ ext1) Hr1 Ha1).
    destruct ((fix run_body (cs : list call) (s : Store) := _) cs _)
      as [[s' [[]|]]|]; [|done|done].
    destruct IH as (Hr' & ext & Ha' & Hf' & He'). split; [done|].
    exists (ext1 ++ ext). rewrite app_assoc. split; [done|].
    split; [by apply Forall_app|].
    intros [E|Hin]%elem_of_cons.
    + injection E as <- <-. rewrite He1 by done. set_solver.
    + set_solver.
Qed.

Lemma emit_loop_resubscribing fuel :
  ∀ r i s a j,
    _listeners s !! event = Some r → arrays s !! r = Some a →
    Forall is_function a → i ≤ j → a !! j = Some (Fn f) →
    emit_loop bodies fuel r i args s = None.
Proof.
  induction fuel as [|k IH]; intros r i s a j Hr Ha Hfn Hij Hj; [done|].
  simpl. rewrite Ha. simpl.
  destruct (a !! i) as [l|] eqn:Hl.
  2:{ apply lookup_ge_None in Hl. apply lookup_lt_Some in Hj. lia. }
  assert (is_function l) as Hlf.
  { rewrite Forall_forall in Hfn.
    apply Hfn. by apply list_elem_of_lookup_2 in Hl. }
  destruct l as [g|]; [|done].
  destruct k as [|k]; [done|]. simpl.
  pose proof (run_body_on_functions k (bodies g args) (Hbodies g)
                (record_call (Fn g) args s) r a Hr Ha) as Hrun.
  destruct ((fix run_body (cs : list call) (s : Store) := _) _ _)
    as [[s' [[]|]]|]; [|done|done].
  destruct Hrun as (Hr' & ext & Ha' & Hfn' & He').
  destruct (decide (i = j)) as [->|Hne].
  - assert (g = f) as -> by congruence.
    apply He', list_elem_of_lookup in Hf as [n Hn].
    apply (IH r (S j) s' (a ++ ext) (length a + n)); try done.
    + by apply Forall_app.
    + apply lookup_lt_Some in Hj. lia.
    + by rewrite lookup_app_r, Nat.add_comm, Nat.add_sub by lia.
  - apply (IH r (S i) s' (a ++ ext) j); try done.
    + by apply Forall_app.
    + lia.
    + by apply lookup_app_l_Some.
Qed.

End Resubscribing.

(** X5.  [on] pushes onto the array of the key and the loop of [emit] reads
    that array as it goes: when the listeners are functions that subscribe
    functions, and one of them subscribes itself to the key being emitted
    each time it is called, the round never ends. *)
Theorem resubscribing_listener_never_ends bodies s event args f :
  (∀ g, Forall is_on_function (bodies g args)) →
  Forall is_function (listeners event s) →
  Fn f ∈ listeners event s →
  On event (Fn f) ∈ bodies f args →
  ∀ fuel, emit bodies fuel event args s = None.
Proof.
  intros Hbodies Hfn Hin Hf fuel. unfold emit.
  unfold listeners, array_of in Hfn, Hin.
  destruct (_listeners s !! event) as [r|] eqn:Hev; simpl in *.
  2:{ by apply elem_of_nil in Hin. }
  destruct (arrays s !! r) as [a|] eqn:Ha; simpl in *.
  2:{ by apply elem_of_nil in Hin. }
  apply list_elem_of_lookup in Hin as [j Hj].
  rewrite (emit_loop_resubscribing bodies args event f Hbodies Hf fuel
             r 0 s a j); try done. lia.
Qed.

Lemma resubscribing_listener_never_ends_witness :
  let bodies := λ f (_ : list value), [On "change" (Fn f)] in
  let s := on "change" (Fn 0) new_EventEmitter in
  Fn 0 ∈ listeners "change" s ∧
  ∀ fuel, emit bodies fuel "change" [] s = None.
Proof.
  intros bodies s.
  assert (Hin : Fn 0 ∈ listeners "change" s) by apply list_elem_of_here.
  split; [exact Hin|].
  refine (resubscribing_listener_never_ends bodies s "change" [] 0
            _ _ Hin (list_elem_of_here _ _)).
  - intros g. repeat constructor.
  - repeat constructor.
Defined.

Section Reentrant.
Variable bodies : nat → list value → list call.
Variable args : list value.
Variable event : string.
Variables (r : nat) (a ls2 : list listener) (l0 : listener).
Variable rest : list call.
Hypothesis Hfirst : a = l0 :: ls2.
Hypothesis Hb : bodies (fn_of l0) args = Emit event args :: rest.

Lemma call_listener_reentrant k :
  (∀ k', k' < k → ∀ s,
     _listeners s !! event = Some r → arrays s !! r = Some a →
     emit_loop bodies k' r 0 args s = None) →
  ∀ l s, fn_of l = fn_of l0 →
    _listeners s !! event = Some r → arrays s !! r = Some a →
    call_listener bodies k l args s = None.
Proof.
  intros IH l. revert k IH.
  induction l as [g|uid ev inner IHl]; intros k IH s Hl Hr Ha.
  - destruct k as [|k]; [done|]. simpl in *. rewrite Hl, Hb.
    destruct k as [|k]; [done|]. simpl. rewrite Hr.
    by rewrite (IH k) by (done || lia).
  - destruct k as [|k]; [done|]. simpl.
    rewrite (IHl k); try done. intros k' Hk'. apply IH. lia.
Qed.

Lemma emit_loop_reentrant fuel :
  ∀ s, _listeners s !! event = Some r → arrays s !! r = Some a →
    emit_loop bodies fuel r 0 args s = None.
Proof.
  induction fuel as [fuel IH] using lt_wf_ind. intros s Hr Ha.
  destruct fuel as [|k]; [done|]. simpl. rewrite Ha, Hfirst. simpl.
  rewrite (call_listener_reentrant k); try done.
  intros k' Hk' s' Hr' Ha'. apply IH; [lia|done|done].
Qed.

End Reentrant.



End EventRounds.

Module ObservableFacts.
Import Event EventFacts EventRounds Observable.

(** *** Listener lists that only shrink *)

Lemma sublist_off event l s e :
  wf s → listeners e (off event l s) `sublist_of` listeners e s.
Proof.
  intros Hwf. rewrite listeners_off by done. case_decide; [|done].
  subst. apply sublist_filter.
Qed.

Lemma sublist_apply_calls cs :
  ∀ s e, Forall is_removal cs → wf s →
    listeners e (apply_calls cs s) `sublist_of` listeners e s.
Proof.
  induction cs as [|c cs IH]; intros s e Hcs Hwf; [done|].
  apply Forall_cons in Hcs as [Hc Hcs]. simpl.
  etrans; [apply IH; [done|by apply wf_apply_call]|].
  destruct c; try done; simpl.
  - by apply sublist_off.
  - rewrite listeners_removeAllListeners. destruct event as [e'|].
    + case_decide; [apply sublist_nil_l|done].
    + apply sublist_nil_l.
Qed.

Lemma sublist_returned bodies args l :
  ∀ s e, Forall is_removal (bodies (fn_of l) args) → wf s →
    listeners e (returned bodies args l s) `sublist_of` listeners e s.
Proof.
  induction l as [f|uid event inner IH]; intros s e Hb Hwf.
  - by apply sublist_apply_calls.
  - simpl. etrans; [|by apply IH].
    apply sublist_off. by apply returned_shrinks.
Qed.

Lemma sublist_after_round bodies args ls :
  ∀ s e, (∀ l, l ∈ ls → Forall is_removal (bodies (fn_of l) args)) → wf s →
    listeners e (after_round bodies args ls s) `sublist_of` listeners e s.
Proof.
  induction ls as [|l ls IH]; intros s e Hls Hwf; [done|].
  assert (Hl : Forall is_removal (bodies (fn_of l) args))
    by apply Hls, list_elem_of_here.
  simpl. etrans.
  - apply IH.
    + intros l' Hl'. by apply Hls, list_elem_of_further.
    + by apply returned_shrinks.
  - by apply (sublist_returned bodies args l (record_call l args s)).
Qed.

Lemma max_depth_sublist ls1 ls2 :
  ls1 `sublist_of` ls2 → max_depth ls1 ≤ max_depth ls2.
Proof. induction 1; simpl; lia. Qed.

Lemma invoked_on event l s : invoked (on event l s) = invoked s.
Proof.
  destruct (_listeners s !! event) as [r|] eqn:Hev.
  - by rewrite (on_present _ _ _ _ Hev).
  - by rewrite (on_absent _ _ _ Hev).
Qed.

Lemma invoked_once event l s : invoked (once event l s) = invoked s.
Proof. unfold once. by rewrite invoked_on. Qed.

(** *** Writes under listeners that leave the emitter alone *)

Section Inert.

Variable bodies : nat → list value → list call.
Hypothesis inert : ∀ f args, bodies f args = [].

Lemma inert_removal l args : Forall is_removal (bodies (fn_of l) args).
Proof. rewrite inert. constructor. Qed.

(** One write: the value is stored; when it is not the value held, the
    listeners are called with it and the closures of [once] leave. *)
Lemma set_value_inert fuel v o :
  wf (_emitter o) →
  length (listeners "change" (_emitter o))
    + max_depth (listeners "change" (_emitter o)) + 3 ≤ fuel →
  ∃ o', set_value bodies fuel v o = Some (o', Normal ()) ∧
        wf (_emitter o') ∧
        listeners "change" (_emitter o')
          `sublist_of` listeners "change" (_emitter o) ∧
        _value o' = (if strict_ne v (_value o) then v else _value o) ∧
        invoked (_emitter o') =
          invoked (_emitter o)
          ++ (if strict_ne v (_value o)
              then (λ l, (l, [v])) <$> listeners "change" (_emitter o)
              else []) ∧
        (strict_ne v (_value o) = true →
         ∀ uid inner,
           OnceListener uid "change" inner
             ∉ listeners "change" (_emitter o')) ∧
        (strict_ne v (_value o) = false → o' = o).
Proof.
  intros Hwf Hfuel. unfold set_value.
  destruct (strict_ne v (_value o)) eqn:Hne.
  - rewrite emit_removal; [|done|intros; apply inert_removal|done].
    destruct (after_round_spec bodies [v]
                (listeners "change" (_emitter o)) (_emitter o))
      as (Hwf' & Hi & _ & Hs & Ho); [intros; apply inert_removal|done|].
    eexists. split; [done|]. simpl. split; [done|].
    split; [apply sublist_after_round;
            [intros; apply inert_removal|done]|].
    split; [done|]. split; [done|]. split; [|done].
    intros _ uid inner Hin. by apply (Ho uid "change" inner); [apply Hs|].
  - exists o. split; [done|]. split; [done|]. split; [done|].
    split; [done|]. split; [by rewrite app_nil_r|done].
Qed.

Lemma calls_of_app l cs1 cs2 :
  calls_of l (cs1 ++ cs2) = calls_of l cs1 ++ calls_of l cs2.
Proof. unfold calls_of. by rewrite filter_app, fmap_app. Qed.

Lemma calls_of_absent l (ls : list listener) args :
  l ∉ ls → calls_of l ((λ x, (x, args)) <$> ls) = [].
Proof.
  intros Hl. unfold calls_of.
  induction ls as [|x ls IH]; [done|].
  rewrite fmap_cons, filter_cons. simpl.
  rewrite decide_False; [|intros ->; apply Hl, list_elem_of_here].
  apply IH. intros Hin. by apply Hl, list_elem_of_further.
Qed.

Lemma calls_of_last l (ls : list listener) args :
  l ∉ ls → calls_of l ((λ x, (x, args)) <$> (ls ++ [l])) = [args].
Proof.
  intros Hl. rewrite fmap_app, calls_of_app, calls_of_absent by done.
  unfold calls_of. simpl. rewrite filter_cons. simpl.
  by rewrite decide_True.
Qed.

(** Writes once the closure has left. *)
Lemma writes_without fuel l vs :
  ∀ o, wf (_emitter o) → l ∉ listeners "change" (_emitter o) →
    length (listeners "change" (_emitter o))
      + max_depth (listeners "change" (_emitter o)) + 3 ≤ fuel →
    ∃ o', writes bodies fuel vs o = Some (o', Normal ()) ∧
          (l ∉ listeners "change" (_emitter o')) ∧
          calls_of l (invoked (_emitter o'))
            = calls_of l (invoked (_emitter o)).
Proof.
  induction vs as [|v vs IH]; intros o Hwf Hl Hfuel; simpl.
  - by exists o.
  - destruct (set_value_inert fuel v o Hwf Hfuel)
      as (o1 & -> & Hwf1 & Hsub & _ & Hi & _).
    assert (Hl1 : l ∉ listeners "change" (_emitter o1)).
    { intros Hin. apply Hl. by eapply elem_of_sublist. }
    destruct (IH o1 Hwf1 Hl1) as (o' & -> & Hl' & Hc).
    { pose proof (sublist_length _ _ Hsub).
      pose proof (max_depth_sublist _ _ Hsub). lia. }
    exists o'. split; [done|]. split; [done|].
    rewrite Hc, Hi, calls_of_app.
    destruct (strict_ne v (_value o)); [|by rewrite app_nil_r].
    by rewrite calls_of_absent, app_nil_r.
Qed.

(** Writes while the closure is the last listener. *)
Lemma writes_with fuel uid inner vs :
  ∀ o ls,
    wf (_emitter o) →
    listeners "change" (_emitter o)
      = ls ++ [OnceListener uid "change" inner] →
    OnceListener uid "change" inner ∉ ls →
    length (listeners "change" (_emitter o))
      + max_depth (listeners "change" (_emitter o)) + 3 ≤ fuel →
    ∃ o', writes bodies fuel vs o = Some (o', Normal ()) ∧
          calls_of (OnceListener uid "change" inner)
            (invoked (_emitter o'))
          = calls_of (OnceListener uid "change" inner)
              (invoked (_emitter o))
            ++ ((λ v, [v]) <$> take 1 (Reactive.changes (_value o) vs)) ∧
          (Reactive.changes (_value o) vs ≠ [] →
           OnceListener uid "change" inner
             ∉ listeners "change" (_emitter o')).
Proof.
  induction vs as [|v vs IH]; intros o ls Hwf Hls Hnew Hfuel; simpl.
  - exists o. split; [done|]. split; [by rewrite app_nil_r|done].
  - destruct (set_value_inert fuel v o Hwf Hfuel)
      as (o1 & -> & Hwf1 & Hsub & Hv & Hi & Ho & Hsame).
    destruct (strict_ne v (_value o)) eqn:Hne.
    + (* the first value that differs: the closure is called and leaves *)
      specialize (Ho eq_refl uid inner).
      destruct (writes_without fuel (OnceListener uid "change" inner) vs
                  o1 Hwf1 Ho) as (o' & -> & Hl' & Hc).
      { pose proof (sublist_length _ _ Hsub).
        pose proof (max_depth_sublist _ _ Hsub). lia. }
      exists o'. split; [done|]. split; [|done].
      rewrite Hc, Hi, calls_of_app, Hls. by rewrite calls_of_last.
    + (* an identical value: nothing happens *)
      rewrite (Hsame eq_refl). by apply (IH o ls).
Qed.

(** X20.  A listener registered with [subscribeOnce] (its closure being a
    new one) is called once, by the first write whose value is not the
    value held, with that value; writes of the value held do not use it up,
    and it is not registered any more after the write that called it.  The
    listeners here leave the emitter alone. *)
Theorem subscribeOnce_is_called_by_the_first_change f vs o :
  wf (_emitter o) →
  OnceListener (closures (_emitter o)) "change" (Fn f)
    ∉ listeners "change" (_emitter o) →
  let closure := OnceListener (closures (_emitter o)) "change" (Fn f) in
  ∃ N, ∀ fuel, N ≤ fuel →
    ∃ o', writes bodies fuel vs (subscribeOnce (Fn f) o)
            = Some (o', Normal ()) ∧
          calls_of closure (invoked (_emitter o')) =
            calls_of closure (invoked (_emitter o))
            ++ ((λ v, [v]) <$> take 1 (Reactive.changes (_value o) vs)) ∧
          (Reactive.changes (_value o) vs ≠ [] →
           closure ∉ listeners "change" (_emitter o')).
Proof.
  intros Hwf Hnew closure.
  set (o1 := subscribeOnce (Fn f) o).
  assert (Hls : listeners "change" (_emitter o1)
                = listeners "change" (_emitter o) ++ [closure]).
  { unfold o1. simpl. rewrite listeners_once by done. by rewrite decide_True. }
  exists (length (listeners "change" (_emitter o1))
          + max_depth (listeners "change" (_emitter o1)) + 3).
  intros fuel Hfuel.
  destruct (writes_with fuel (closures (_emitter o)) (Fn f) vs o1
              (listeners "change" (_emitter o)))
    as (o' & Hw & Hc & Hgone); try done.
  { unfold o1. simpl. by apply wf_once. }
  exists o'. split; [done|]. split; [|exact Hgone].
  unfold o1 in Hc. simpl in Hc. by rewrite invoked_once in Hc.
Qed.

End Inert.

Lemma subscribeOnce_is_called_by_the_first_change_witness :
  let bodies := λ (_ : nat) (_ : list value), @nil call in
  let o := subscribe (Fn 0) (new_ObservableValue (VNum 1)) in
  let closure := OnceListener 0 "change" (Fn 1) in
  wf (_emitter o) ∧ (closure ∉ listeners "change" (_emitter o)) ∧
  ∃ N, ∀ fuel, N ≤ fuel →
    ∃ o', writes bodies fuel [VNum 1; VNum 2; VNum 3]
            (subscribeOnce (Fn 1) o) = Some (o', Normal ()) ∧
          calls_of closure (invoked (_emitter o')) = [] ++ [[VNum 2]] ∧
          (Reactive.changes (_value o) [VNum 1; VNum 2; VNum 3] ≠ [] →
           closure ∉ listeners "change" (_emitter o')).
Proof.
  intros bodies o closure.
  assert (Hwf : wf (_emitter o)) by apply wf_on, wf_new.
  assert (Hnew : closure ∉ listeners "change" (_emitter o)).
  { intros Hin. apply list_elem_of_singleton in Hin. discriminate Hin. }
  split; [exact Hwf|]. split; [exact Hnew|].
  exact (subscribeOnce_is_called_by_the_first_change bodies
           (λ _ _, eq_refl) 1 [VNum 1; VNum 2; VNum 3] o Hwf Hnew).
Defined.

End ObservableFacts.

Module TimerFacts.
Import Timer.

(** *** The runtimes reached *)

Lemma sane_new : sane new_Runtime.
Proof.
  split; [|split; [|split]]; simpl.
  - intros id tm H. by rewrite lookup_empty in H.
  - intros a H. by apply elem_of_nil in H.
  - intros c f t H. done.
  - intros p H. by apply elem_of_nil in H.
Qed.

Lemma sane_clearTimeout t rt : sane rt → sane (clearTimeout t rt).
Proof.
  intros (H1 & H2 & H3 & H4). unfold clearTimeout.
  split; [|split; [|split]]; simpl.
  - intros id tm Hid. apply lookup_delete_Some in Hid as [_ Hid].
    exact (H1 id tm Hid).
  - intros a Ha. destruct (H2 a Ha) as (t' & -> & Hlt & Hcb). exists t'.
    split; [done|]. split; [done|]. intros tm c args Htm.
    apply lookup_delete_Some in Htm as [_ Htm]. eauto.
  - intros c f t' Hc. destruct (H3 c f t' Hc) as [Hlt Hcb]. split; [done|].
    intros tm Htm. apply lookup_delete_Some in Htm as [_ Htm]. eauto.
  - exact H4.
Qed.

Lemma sane_record_call f args rt : sane rt → sane (record_call f args rt).
Proof. done. Qed.

Lemma sane_resolve p rt : p < promises rt → sane rt → sane (resolve p rt).
Proof.
  intros Hp (H1 & H2 & H3 & H4). unfold resolve. case_decide; [done|].
  split; [|split; [|split]]; simpl; try done.
  intros p' [Hp'|Hp']%elem_of_app; [by apply H4|].
  apply list_elem_of_singleton in Hp'. by subst.
Qed.

Lemma sane_new_Promise rt : sane rt → sane (new_Promise rt).2.
Proof.
  intros (H1 & H2 & H3 & H4). split; [|split; [|split]]; simpl; try done.
  - intros id tm Hid. destruct (H1 id tm Hid) as [Hlt Hcb]. split; [done|].
    destruct (callback tm); try done. lia.
  - intros p Hp. specialize (H4 p Hp). lia.
Qed.

(** A new timer that is not one of a debounced function. *)
Lemma sane_new_timer tm rt :
  match callback tm with
  | Resolve promise => promise < promises rt
  | CallFunc _ => True
  | _ => False
  end →
  sane rt → sane (new_timer tm rt).2.
Proof.
  intros Hcb (H1 & H2 & H3 & H4). split; [|split; [|split]]; simpl; try done.
  - intros id tm' Hid. apply lookup_insert_Some in Hid as [[<- <-]|[Hne Hid]].
    + split; [lia|]. by destruct (callback tm).
    + destruct (H1 id tm' Hid) as [Hlt Hcb']. split; [lia|done].
  - intros a Ha. destruct (H2 a Ha) as (t & -> & Hlt & Hcb'). exists t.
    split; [done|]. split; [lia|]. intros tm' c args Htm.
    apply lookup_insert_Some in Htm as [[<- <-]|[Hne Htm]]; [lia|eauto].
  - intros c f t Hc. destruct (H3 c f t Hc) as [Hlt Hcb']. split; [lia|].
    intros tm' Htm. apply lookup_insert_Some in Htm as [[<- <-]|[Hne Htm]];
      [lia|eauto].
Qed.

Lemma sane_addEventListener t rt :
  t < next_timer rt →
  (∀ tm c args, timers rt !! t = Some tm → callback tm ≠ Debounced c args) →
  sane rt → sane (addEventListener (ClearTimeout t) rt).
Proof.
  intros Ht Hcb (H1 & H2 & H3 & H4).
  split; [|split; [|split]]; simpl; try done.
  intros a [Ha|Ha]%elem_of_app; [by apply H2|].
  apply list_elem_of_singleton in Ha. subst. by exists t.
Qed.

Lemma sane_sleep has_signal rt : sane rt → sane (sleep has_signal rt).2.
Proof.
  intros Hs. unfold sleep. simpl.
  pose proof (sane_new_timer {| repeats := false; callback := Resolve (promises rt) |}
                (new_Promise rt).2) as Hn.
  simpl in Hn. specialize (Hn ltac:(lia) (sane_new_Promise rt Hs)).
  destruct has_signal; [|exact Hn].
  apply (sane_addEventListener (next_timer rt)) in Hn; [exact Hn|simpl; lia|].
  simpl. intros tm c args. rewrite lookup_insert_eq. by intros [= <-].
Qed.

Lemma sane_repeat func has_signal rt :
  sane rt → sane (repeat func has_signal rt).2.
Proof.
  intros Hs. unfold repeat. simpl.
  pose proof (sane_new_timer {| repeats := true; callback := CallFunc func |}
                (new_Promise rt).2) as Hn.
  simpl in Hn. specialize (Hn I (sane_new_Promise rt Hs)).
  destruct has_signal; [|exact Hn].
  apply (sane_addEventListener (next_timer rt)) in Hn; [exact Hn|simpl; lia|].
  simpl. intros tm c args. rewrite lookup_insert_eq. by intros [= <-].
Qed.

Lemma sane_debounce func rt : sane rt → sane (debounce func rt).2.
Proof.
  intros (H1 & H2 & H3 & H4). split; [|split; [|split]]; simpl; try done.
  - intros id tm Hid. destruct (H1 id tm Hid) as [Hlt Hcb]. split; [done|].
    destruct (callback tm); try done. destruct Hcb as [Hr [f Hf]].
    split; [done|]. exists f. by apply lookup_app_l_Some.
  - intros c f t Hc. apply lookup_app_Some in Hc as [Hc|[_ Hc]]; [eauto|].
    destruct (c - length (debounced rt)); simplify_eq/=.
Qed.

Lemma sane_call_debounced c args rt : sane rt → sane (call_debounced c args rt).
Proof.
  intros Hs. unfold call_debounced.
  destruct (debounced rt !! c) as [[func id]|] eqn:Hc; [|done].
  set (rt0 := match id with Id t => clearTimeout t rt | _ => rt end).
  assert (Hs0 : sane rt0).
  { unfold rt0. destruct id; try done. by apply sane_clearTimeout. }
  assert (Hd0 : debounced rt0 = debounced rt) by (unfold rt0; by destruct id).
  assert (Hgone : ∀ t tm a, timers rt0 !! t = Some tm →
                    callback tm ≠ Debounced c a).
  { intros t tm a Ht Hcb. destruct Hs as (H1 & _ & _ & _).
    assert (Ht' : timers rt !! t = Some tm).
    { unfold rt0 in Ht. destruct id; try done.
      simpl in Ht. by apply lookup_delete_Some in Ht as [_ Ht]. }
    destruct (H1 t tm Ht') as [_ Hm]. rewrite Hcb in Hm.
    destruct Hm as [_ [f Hf]]. rewrite Hc in Hf. simplify_eq.
    unfold rt0 in Ht. simpl in Ht. by rewrite lookup_delete_eq in Ht. }
  clearbody rt0. destruct Hs0 as (H1 & H2 & H3 & H4). rewrite <-Hd0 in Hc.
  split; [|split; [|split]]; simpl; try done.
  - intros t tm Ht. apply lookup_insert_Some in Ht as [[<- <-]|[Hne Ht]].
    + split; [lia|]. simpl. split; [done|]. exists func.
      rewrite list_lookup_insert_eq; [done|]. by eapply lookup_lt_Some.
    + destruct (H1 t tm Ht) as [Hlt Hm]. split; [lia|].
      destruct (callback tm) as [| | |c' a] eqn:Hcb; try done.
      destruct Hm as [Hr [f Hf]]. split; [done|]. exists f.
      rewrite list_lookup_insert_ne; [done|]. intros <-. by eapply Hgone.
  - intros a Ha. destruct (H2 a Ha) as (t & -> & Hlt & Hcb). exists t.
    split; [done|]. split; [lia|]. intros tm c' a' Htm.
    apply lookup_insert_Some in Htm as [[<- <-]|[Hne Htm]]; [lia|eauto].
  - intros c' f t Hc'.
    destruct (decide (c' = c)) as [->|Hne].
    + rewrite list_lookup_insert_eq in Hc' by (by eapply lookup_lt_Some).
      simplify_eq. split; [lia|]. intros tm. rewrite lookup_insert_eq.
      intros [= <-]. by eexists.
    + rewrite list_lookup_insert_ne in Hc' by done.
      destruct (H3 c' f t Hc') as [Hlt Hm]. split; [lia|].
      intros tm Htm. rewrite lookup_insert_ne in Htm by lia. eauto.
Qed.

Lemma sane_fire t rt : sane rt → sane (fire t rt).
Proof.
  intros Hs. unfold fire. destruct (timers rt !! t) as [tm|] eqn:Ht; [|done].
  pose proof Hs as (H1 & _ & H3 & _). destruct (H1 t tm Ht) as [Hlt Hm].
  set (rt0 := if repeats tm then rt else clearTimeout t rt).
  assert (Hs0 : sane rt0).
  { unfold rt0. destruct (repeats tm); [done|by apply sane_clearTimeout]. }
  assert (Hp0 : promises rt0 = promises rt)
    by (unfold rt0; by destruct (repeats tm)).
  assert (Hd0 : debounced rt0 = debounced rt)
    by (unfold rt0; by destruct (repeats tm)).
  destruct (callback tm) as [p|f| |c a] eqn:Hcb; simpl; try done.
  - apply sane_resolve; [by rewrite Hp0|done].
  - destruct Hm as [Hr [f Hf]]. rewrite Hd0, Hf.
    assert (Ht0 : timers rt0 = delete t (timers rt))
      by (unfold rt0; by rewrite Hr).
    clearbody rt0. destruct Hs0 as (H1' & H2' & H3' & H4').
    split; [|split; [|split]]; simpl; try done.
    + intros t' tm' Ht'. destruct (H1' t' tm' Ht') as [Hlt' Hm'].
      split; [done|]. destruct (callback tm') as [| | |c' a'] eqn:Hcb'; try done.
      destruct Hm' as [Hr' [f' Hf']]. split; [done|]. exists f'.
      rewrite list_lookup_insert_ne; [by rewrite <-Hd0|]. intros <-.
      rewrite Hd0, Hf in Hf'. simplify_eq.
      rewrite Ht0 in Ht'. by rewrite lookup_delete_eq in Ht'.
    + intros c' f' t' Hc'. destruct (decide (c' = c)) as [->|Hne].
      * rewrite list_lookup_insert_eq in Hc'; [done|].
        by eapply lookup_lt_Some.
      * rewrite list_lookup_insert_ne in Hc' by done. rewrite <-Hd0 in Hc'.
        eauto.
Qed.

Lemma sane_set_aborted rt :
  sane rt →
  sane {| timers := timers rt; next_timer := next_timer rt; aborted := true;
          abort_listeners := abort_listeners rt; promises := promises rt;
          resolved := resolved rt; debounced := debounced rt;
          called := called rt |}.
Proof. done. Qed.

Lemma sane_clear_all ls :
  ∀ rt, (∀ a, a ∈ ls → ∃ t, a = ClearTimeout t) → sane rt →
    sane (foldl (λ rt a, run_action a rt) rt ls).
Proof.
  induction ls as [|a ls IH]; intros rt Hls Hs; [done|]. simpl.
  apply IH.
  - intros a' Ha'. apply Hls. by right.
  - destruct (Hls a) as [t ->]; [by left|]. by apply sane_clearTimeout.
Qed.

Lemma sane_abort rt : sane rt → sane (abort rt).
Proof.
  intros Hs. unfold abort. destruct (aborted rt); [done|].
  apply sane_clear_all; [|by apply sane_set_aborted].
  intros a Ha. destruct Hs as (_ & H2 & _).
  destruct (H2 a Ha) as (t & -> & _). by exists t.
Qed.

Lemma sane_step e rt : sane rt → sane (step e rt).
Proof.
  destruct e; simpl; [apply sane_fire|apply sane_abort|apply sane_call_debounced].
Qed.

Lemma sane_run evs : ∀ rt, sane rt → sane (run evs rt).
Proof.
  induction evs as [|e evs IH]; intros rt Hs; [done|].
  apply IH. by apply sane_step.
Qed.

(** *** What one event changes *)

Lemma clear_all_spec ls :
  ∀ rt, (∀ a, a ∈ ls → ∃ t, a = ClearTimeout t) →
    let rt' := foldl (λ rt a, run_action a rt) rt ls in
    (∀ t, timers rt' !! t =
            if decide (ClearTimeout t ∈ ls) then None else timers rt !! t) ∧
    next_timer rt' = next_timer rt ∧ aborted rt' = aborted rt ∧
    abort_listeners rt' = abort_listeners rt ∧ promises rt' = promises rt ∧
    resolved rt' = resolved rt ∧ debounced rt' = debounced rt ∧
    called rt' = called rt.
Proof.
  induction ls as [|a ls IH]; intros rt Hls; cbn [foldl].
  - split; [|done]. intros t. case_decide as Hin; [|done].
    by apply elem_of_nil in Hin.
  - destruct (Hls a) as [t0 ->]; [by left|].
    destruct (IH (run_action (ClearTimeout t0) rt))
      as (Ht & H1 & H2 & H3 & H4 & H5 & H6 & H7).
    { intros a Ha. apply Hls. by right. }
    split; [|done]. intros t. rewrite Ht. cbn [run_action clearTimeout timers set_timers].
    destruct (decide (t = t0)) as [->|Hne].
    + rewrite lookup_delete_eq.
      rewrite (decide_True (P := _ ∈ _ :: _)) by (by left).
      by case_decide.
    + rewrite lookup_delete_ne by done.
      destruct (decide (ClearTimeout t ∈ ls)) as [Hin|Hnin].
      * rewrite decide_True; [done|by right].
      * rewrite decide_False; [done|].
        intros [?|?]%elem_of_cons; [congruence|done].
Qed.

Lemma abort_spec rt :
  sane rt → aborted rt = false →
  (∀ t, timers (abort rt) !! t =
          if decide (ClearTimeout t ∈ abort_listeners rt) then None
          else timers rt !! t) ∧
  next_timer (abort rt) = next_timer rt ∧ aborted (abort rt) = true ∧
  abort_listeners (abort rt) = abort_listeners rt ∧
  promises (abort rt) = promises rt ∧ resolved (abort rt) = resolved rt ∧
  debounced (abort rt) = debounced rt ∧ called (abort rt) = called rt.
Proof.
  intros (_ & H2 & _) Hab. unfold abort. rewrite Hab.
  edestruct clear_all_spec as (Ht & H1 & H2' & H3 & H4 & H5 & H6 & H7);
    [|repeat split; [exact Ht|exact H1|exact H2'|exact H3|exact H4|exact H5
                     |exact H6|exact H7]].
  intros a Ha. destruct (H2 a Ha) as (t & -> & _). by exists t.
Qed.

(** Events add no listener to the signal, and a signal once aborted stays
    aborted. *)
Lemma step_abort_listeners e rt :
  sane rt → abort_listeners (step e rt) = abort_listeners rt.
Proof.
  intros Hs. destruct e as [t| |c args]; simpl.
  - unfold fire. destruct (timers rt !! t) as [tm|]; [|done].
    assert (abort_listeners (if repeats tm then rt else clearTimeout t rt)
            = abort_listeners rt) as <- by (by destruct (repeats tm)).
    generalize (if repeats tm then rt else clearTimeout t rt). intros rt0.
    destruct (callback tm); simpl; try done.
    + unfold resolve. by case_decide.
    + by destruct (debounced rt0 !! closure) as [[? ?]|].
  - destruct (aborted rt) eqn:Hab; [unfold abort; by rewrite Hab|].
    by destruct (abort_spec rt Hs Hab) as (_ & _ & _ & -> & _).
  - unfold call_debounced.
    destruct (debounced rt !! c) as [[func id]|]; [|done]. by destruct id.
Qed.

Lemma step_aborted e rt :
  sane rt →
  aborted (step e rt) = if decide (e = Abort) then true else aborted rt.
Proof.
  intros Hs. destruct e as [t| |c args]; simpl.
  - unfold fire. destruct (timers rt !! t) as [tm|]; [|done].
    assert (aborted (if repeats tm then rt else clearTimeout t rt)
            = aborted rt) as <- by (by destruct (repeats tm)).
    generalize (if repeats tm then rt else clearTimeout t rt). intros rt0.
    destruct (callback tm); simpl; try done.
    + unfold resolve. by case_decide.
    + by destruct (debounced rt0 !! closure) as [[? ?]|].
  - destruct (aborted rt) eqn:Hab; [unfold abort; by rewrite Hab|].
    by destruct (abort_spec rt Hs Hab) as (_ & _ & -> & _).
  - unfold call_debounced.
    destruct (debounced rt !! c) as [[func id]|]; [|done]. by destruct id.
Qed.

(** The timers after an event were there before, but for the timer of a
    call of a debounced function. *)
Lemma step_timers e rt t tm :
  sane rt → timers (step e rt) !! t = Some tm →
  timers rt !! t = Some tm ∨
  ∃ c args, e = Call c args ∧ t = next_timer rt ∧
            tm = {| repeats := false; callback := Debounced c args |}.
Proof.
  intros Hs. destruct e as [t0| |c args]; simpl.
  - unfold fire. destruct (timers rt !! t0) as [tm0|]; [|by left].
    assert (Hsub : ∀ rt0, rt0 = (if repeats tm0 then rt else clearTimeout t0 rt) →
              timers rt0 !! t = Some tm → timers rt !! t = Some tm).
    { intros rt0 ->. destruct (repeats tm0); [done|]. simpl.
      intros H. by apply lookup_delete_Some in H as [_ H]. }
    specialize (Hsub _ eq_refl).
    revert Hsub. generalize (if repeats tm0 then rt else clearTimeout t0 rt).
    intros rt0 Hsub. destruct (callback tm0); simpl.
    + unfold resolve. case_decide; simpl; intros Hl; left; by apply Hsub.
    + intros Hl; left; by apply Hsub.
    + intros Hl. apply lookup_delete_Some in Hl as [_ Hl]. left; by apply Hsub.
    + destruct (debounced rt0 !! closure) as [[? ?]|]; simpl;
        intros Hl; left; by apply Hsub.
  - destruct (aborted rt) eqn:Hab; [unfold abort; rewrite Hab; by left|].
    destruct (abort_spec rt Hs Hab) as (Ht & _). rewrite Ht.
    case_decide; [done|by left].
  - unfold call_debounced.
    destruct (debounced rt !! c) as [[func id]|]; [|by left]. simpl.
    intros H. apply lookup_insert_Some in H as [[Ht <-]|[Hne H]].
    + right. exists c, args. split; [done|]. split; [|done].
      rewrite <-Ht. by destruct id.
    + left. destruct id; try done. simpl in H.
      by apply lookup_delete_Some in H as [_ H].
Qed.

(** A timer of [sleep] or [repeat] stays pending until it fires (for good
    if it is a timeout) or its listener is called. *)
Lemma step_keeps e rt t tm :
  sane rt → timers rt !! t = Some tm →
  (∀ c args, callback tm ≠ Debounced c args) →
  (e = Fire t → repeats tm = true) →
  (e = Abort → aborted rt = true ∨ ClearTimeout t ∉ abort_listeners rt) →
  timers (step e rt) !! t = Some tm.
Proof.
  intros Hs Ht Hcb Hfire Habort. pose proof Hs as (H1 & H2 & H3 & H4).
  destruct e as [t0| |c args]; simpl.
  - unfold fire. destruct (timers rt !! t0) as [tm0|] eqn:Ht0; [|done].
    assert (Hkeep : timers (if repeats tm0 then rt else clearTimeout t0 rt) !! t
                    = Some tm).
    { destruct (repeats tm0) eqn:Hr; [done|]. simpl.
      rewrite lookup_delete_ne; [done|]. intros ->.
      rewrite Ht in Ht0. simplify_eq. specialize (Hfire eq_refl). congruence. }
    revert Hkeep. generalize (if repeats tm0 then rt else clearTimeout t0 rt).
    intros rt0 Hkeep. destruct (H1 t0 tm0 Ht0) as [_ Hm].
    destruct (callback tm0); simpl; try done.
    + unfold resolve. by case_decide.
    + by destruct (debounced rt0 !! closure) as [[? ?]|].
  - destruct (aborted rt) eqn:Hab; [unfold abort; by rewrite Hab|].
    destruct (abort_spec rt Hs Hab) as (Ht' & _). rewrite Ht'.
    destruct (Habort eq_refl) as [?|Hnin]; [done|]. by rewrite decide_False.
  - unfold call_debounced.
    destruct (debounced rt !! c) as [[func id]|] eqn:Hc; [|done]. simpl.
    destruct (H1 t tm Ht) as [Hlt _].
    assert (Hn : next_timer (match id with Id t1 => clearTimeout t1 rt
                             | _ => rt end) = next_timer rt) by (by destruct id).
    rewrite lookup_insert_ne by lia.
    destruct id as [| |t1]; try done. simpl.
    rewrite lookup_delete_ne; [done|]. intros ->.
    destruct (H3 c func t Hc) as [_ Hm]. destruct (Hm tm Ht) as [a Ha].
    by eapply Hcb.
Qed.

(** A promise is resolved by a timer of [sleep] only, and stays resolved. *)
Lemma step_resolved e rt p :
  sane rt → p ∈ resolved (step e rt) →
  p ∈ resolved rt ∨
  ∃ t tm, e = Fire t ∧ timers rt !! t = Some tm ∧ callback tm = Resolve p.
Proof.
  intros Hs. destruct e as [t0| |c args]; simpl.
  - unfold fire. destruct (timers rt !! t0) as [tm0|] eqn:Ht0; [|by left].
    assert (Hr : resolved (if repeats tm0 then rt else clearTimeout t0 rt)
                 = resolved rt) by (by destruct (repeats tm0)).
    revert Hr. generalize (if repeats tm0 then rt else clearTimeout t0 rt).
    intros rt0 Hr. destruct (callback tm0) eqn:Hcb; simpl.
    + unfold resolve. case_decide; simpl; rewrite ?Hr; [by left|].
      intros [Hl|Hl]%elem_of_app; [by left|].
      apply list_elem_of_singleton in Hl. subst. right. by exists t0, tm0.
    + rewrite Hr. by left.
    + rewrite Hr. by left.
    + destruct (debounced rt0 !! closure) as [[? ?]|]; simpl; rewrite Hr;
        by left.
  - destruct (aborted rt) eqn:Hab; [unfold abort; rewrite Hab; by left|].
    destruct (abort_spec rt Hs Hab) as (_ & _ & _ & _ & _ & -> & _). by left.
  - unfold call_debounced.
    destruct (debounced rt !! c) as [[func id]|]; [|by left]. simpl.
    destruct id; by left.
Qed.

Lemma step_resolved_mono e rt p :
  sane rt → p ∈ resolved rt → p ∈ resolved (step e rt).
Proof.
  intros Hs Hp. destruct e as [t0| |c args]; simpl.
  - unfold fire. destruct (timers rt !! t0) as [tm0|] eqn:Ht0; [|done].
    assert (Hr : resolved (if repeats tm0 then rt else clearTimeout t0 rt)
                 = resolved rt) by (by destruct (repeats tm0)).
    revert Hr. generalize (if repeats tm0 then rt else clearTimeout t0 rt).
    intros rt0 Hr. destruct (callback tm0) eqn:Hcb; simpl; rewrite ?Hr; try done.
    + unfold resolve. case_decide; simpl; rewrite ?Hr; [done|].
      apply elem_of_app. by left.
    + destruct (debounced rt0 !! closure) as [[? ?]|]; simpl; by rewrite ?Hr.
  - destruct (aborted rt) eqn:Hab; [unfold abort; by rewrite Hab|].
    by destruct (abort_spec rt Hs Hab) as (_ & _ & _ & _ & _ & -> & _).
  - unfold call_debounced.
    destruct (debounced rt !! c) as [[func id]|]; [|done]. simpl.
    by destruct id.
Qed.

Lemma run_resolved_mono evs :
  ∀ rt p, sane rt → p ∈ resolved rt → p ∈ resolved (run evs rt).
Proof.
  induction evs as [|e evs IH]; intros rt p Hs Hp; [done|].
  apply IH; [by apply sane_step|by apply step_resolved_mono].
Qed.

Lemma fire_resolves t tm p rt :
  timers rt !! t = Some tm → callback tm = Resolve p →
  p ∈ resolved (step (Fire t) rt).
Proof.
  intros Ht Hcb. simpl. unfold fire. rewrite Ht, Hcb. simpl.
  generalize (if repeats tm then rt else clearTimeout t rt). intros rt0.
  unfold resolve. case_decide; [done|]. simpl. apply elem_of_app. right.
  by apply list_elem_of_singleton.
Qed.

Lemma pending_step e rt t tm guarded :
  sane rt → pending t tm guarded rt →
  (∀ c args, callback tm ≠ Debounced c args) →
  (e = Fire t → repeats tm = true) →
  (e = Abort → guarded = false) →
  pending t tm guarded (step e rt).
Proof.
  intros Hs [Ht Hg] Hcb Hfire Habort. split.
  - apply step_keeps; try done. intros ->. rewrite (Habort eq_refl) in Hg.
    done.
  - rewrite step_abort_listeners, step_aborted by done.
    destruct guarded.
    + rewrite decide_False; [done|]. intros ->. by specialize (Habort eq_refl).
    + case_decide; [by left|done].
Qed.

Lemma pending_abort rt t tm :
  sane rt → pending t tm true rt → timers (step Abort rt) !! t = None.
Proof.
  intros Hs [Ht [Hab Hin]]. simpl.
  destruct (abort_spec rt Hs Hab) as (Ht' & _). rewrite Ht'.
  by rewrite decide_True.
Qed.

Lemma unresolved_step e rt p :
  sane rt → unresolved p None rt → unresolved p None (step e rt).
Proof.
  intros Hs [Hp Hno]. split.
  - intros [?|(t & tm & -> & Ht & Hcb)]%step_resolved; [done| |done].
    by specialize (Hno t tm Ht Hcb).
  - intros t tm Ht Hcb.
    apply step_timers in Ht as [Ht|(c & args & -> & -> & ->)]; [|done|done].
    by apply (Hno t tm).
Qed.

Lemma unresolved_run evs :
  ∀ rt p, sane rt → unresolved p None rt → p ∉ resolved (run evs rt).
Proof.
  induction evs as [|e evs IH]; intros rt p Hs Hu; [by destruct Hu|].
  apply IH; [by apply sane_step|by apply unresolved_step].
Qed.

(** The calls an event makes to the functions of the caller. *)
Lemma timer_calls_of_app func cs1 cs2 :
  calls_of func (cs1 ++ cs2) = calls_of func cs1 ++ calls_of func cs2.
Proof. unfold calls_of. by rewrite filter_app, fmap_app. Qed.

Lemma step_calls func e rt :
  sane rt →
  calls_of func (called (step e rt)) =
    calls_of func (called rt) ++
    match e with
    | Fire t =>
        match timers rt !! t with
        | Some tm =>
            match callback tm with
            | CallFunc f => if decide (f = func) then [[]] else []
            | Debounced c args =>
                match debounced rt !! c with
                | Some (f, _) => if decide (f = func) then [args] else []
                | None => []
                end
            | _ => []
            end
        | None => []
        end
    | _ => []
    end.
Proof.
  intros Hs. destruct e as [t0| |c args]; simpl.
  - unfold fire. destruct (timers rt !! t0) as [tm0|] eqn:Ht0;
      [|by rewrite app_nil_r].
    assert (Hr : called (if repeats tm0 then rt else clearTimeout t0 rt)
                 = called rt ∧
                 debounced (if repeats tm0 then rt else clearTimeout t0 rt)
                 = debounced rt) by (by destruct (repeats tm0)).
    revert Hr. generalize (if repeats tm0 then rt else clearTimeout t0 rt).
    intros rt0 [Hr Hd]. destruct (callback tm0) eqn:Hcb; simpl.
    + unfold resolve. case_decide; simpl; by rewrite Hr, app_nil_r.
    + rewrite Hr, timer_calls_of_app. f_equal. unfold calls_of.
      rewrite filter_cons, filter_nil. simpl. by case_decide.
    + by rewrite Hr, app_nil_r.
    + rewrite Hd. destruct (debounced rt !! closure) as [[f id]|]; simpl.
      * rewrite Hr, timer_calls_of_app. f_equal. unfold calls_of.
        rewrite filter_cons, filter_nil. simpl. by case_decide.
      * by rewrite Hr, app_nil_r.
  - rewrite app_nil_r.
    destruct (aborted rt) eqn:Hab; [unfold abort; by rewrite Hab|].
    by destruct (abort_spec rt Hs Hab) as (_ & _ & _ & _ & _ & _ & _ & ->).
  - rewrite app_nil_r. unfold call_debounced.
    destruct (debounced rt !! c) as [[func' id]|]; [|done]. simpl.
    by destruct id.
Qed.

(** The debounced functions keep the function they wrap. *)
Lemma step_debounced e rt c f id :
  sane rt → debounced (step e rt) !! c = Some (f, id) →
  ∃ id', debounced rt !! c = Some (f, id').
Proof.
  intros Hs. destruct e as [t0| |c0 args]; simpl.
  - unfold fire. destruct (timers rt !! t0) as [tm0|] eqn:Ht0; [|by eexists].
    assert (Hd : debounced (if repeats tm0 then rt else clearTimeout t0 rt)
                 = debounced rt) by (by destruct (repeats tm0)).
    revert Hd. generalize (if repeats tm0 then rt else clearTimeout t0 rt).
    intros rt0 Hd. destruct (callback tm0) eqn:Hcb; simpl; rewrite ?Hd.
    + unfold resolve. case_decide; simpl; rewrite ?Hd; by eexists.
    + by eexists.
    + by eexists.
    + destruct (debounced rt !! closure) as [[f0 id0]|] eqn:Hc0; simpl;
        rewrite ?Hd; [|by eexists].
      destruct (decide (c = closure)) as [->|Hne].
      * rewrite list_lookup_insert_eq by (by eapply lookup_lt_Some).
        intros [= <- <-]. by eexists.
      * rewrite list_lookup_insert_ne by done. by eexists.
  - destruct (aborted rt) eqn:Hab; [unfold abort; rewrite Hab; by eexists|].
    destruct (abort_spec rt Hs Hab) as (_ & _ & _ & _ & _ & _ & -> & _).
    by eexists.
  - unfold call_debounced.
    destruct (debounced rt !! c0) as [[f0 id0]|] eqn:Hc0; [|by eexists].
    simpl.
    assert (Hd : debounced (match id0 with Id t1 => clearTimeout t1 rt
                            | _ => rt end) = debounced rt) by (by destruct id0).
    rewrite Hd. destruct (decide (c = c0)) as [->|Hne].
    + rewrite list_lookup_insert_eq by (by eapply lookup_lt_Some).
      intros [= <- <-]. by eexists.
    + rewrite list_lookup_insert_ne by done. by eexists.
Qed.

Lemma called_by_step func x y e rt :
  sane rt → called_by func x y rt → called_by func x y (step e rt).
Proof.
  intros Hs [Ht Hc]. split.
  - intros t tm Htm Hcb.
    apply step_timers in Htm as [Htm|(c & args & -> & -> & ->)]; [eauto|done..].
  - intros c id Hid. apply step_debounced in Hid as [id' Hid]; [eauto|done].
Qed.

Lemma unused_run func evs :
  ∀ rt, sane rt → unused func rt →
    calls_of func (called (run evs rt)) = calls_of func (called rt).
Proof.
  induction evs as [|e evs IH]; intros rt Hs Hu; [done|].
  change (run (e :: evs) rt) with (run evs (step e rt)).
  rewrite IH; [|by apply sane_step|by apply called_by_step].
  rewrite step_calls by done. destruct Hu as [Ht Hc].
  destruct e as [t| |]; rewrite ?app_nil_r; try done.
  destruct (timers rt !! t) as [tm|] eqn:Htm; rewrite ?app_nil_r; try done.
  destruct (callback tm) as [| f | |c args] eqn:Hcb; rewrite ?app_nil_r;
    try done.
  - case_decide; rewrite ?app_nil_r; [|done]. subst.
    by specialize (Ht t tm Htm Hcb).
  - destruct (debounced rt !! c) as [[f id]|] eqn:Hcl; rewrite ?app_nil_r;
      [|done].
    case_decide; rewrite ?app_nil_r; [|done]. subst.
    by specialize (Hc c id Hcl).
Qed.

(** *** sleep *)

Lemma sleeping_run p t guarded evs :
  ∀ rt, sane rt →
    pending t {| repeats := false; callback := Resolve p |} guarded rt →
    unresolved p (Some t) rt →
    p ∈ resolved (run evs rt) ↔
      Fire t ∈ (if guarded then until_abort evs else evs).
Proof.
  induction evs as [|e evs IH]; intros rt Hs Hpend [Hp Hone].
  { simpl. split; [done|]. destruct guarded; by intros ?%elem_of_nil. }
  change (run (e :: evs) rt) with (run evs (step e rt)).
  destruct (decide (e = Fire t)) as [->|Hfire].
  { (* the timer fires: the promise is resolved for good *)
    split.
    - intros _. destruct guarded; by left.
    - intros _. apply run_resolved_mono; [by apply sane_step|].
      destruct Hpend as [Ht _]. by eapply fire_resolves. }
  destruct (decide (e = Abort ∧ guarded = true)) as [[-> ->]|Hab].
  { (* the listener clears the timer: the promise stays pending *)
    split; [|by intros ?%elem_of_nil].
    intros Hin. exfalso. revert Hin. apply unresolved_run.
    - by apply sane_step.
    - split.
      + intros [?|(t' & tm & [=] & _)]%step_resolved; done.
      + intros t' tm Ht' Hcb. pose proof Ht' as Ht0.
        apply step_timers in Ht0 as [Ht0|(c & args & [=] & _)]; [|done].
        specialize (Hone t' tm Ht0 Hcb) as [= ->].
        by rewrite (pending_abort rt _ _ Hs Hpend) in Ht'. }
  (* another event *)
  assert (Hscope : Fire t ∈ (if guarded then until_abort (e :: evs)
                             else e :: evs)
                   ↔ Fire t ∈ (if guarded then until_abort evs else evs)).
  { assert (Hcons : ∀ l, Fire t ∈ e :: l ↔ Fire t ∈ l).
    { intros l. split; [|by right].
      intros [?|?]%elem_of_cons; [congruence|done]. }
    destruct guarded; [|apply Hcons].
    destruct e; simpl; [apply Hcons|by destruct Hab|apply Hcons]. }
  rewrite Hscope. apply IH.
  - by apply sane_step.
  - apply pending_step; try done.
    intros ->. destruct guarded; [by destruct Hab|done].
  - split.
    + intros [?|(t' & tm & -> & Ht' & Hcb)]%step_resolved; [done| |done].
      specialize (Hone t' tm Ht' Hcb) as [= ->]. done.
    + intros t' tm Ht' Hcb.
      apply step_timers in Ht' as [Ht'|(c & args & -> & -> & ->)]; [|done..].
      by apply (Hone t' tm).
Qed.

(** X21.  The promise of [sleep] is resolved when its timer fires, and by
    nothing else; when a signal is given and not yet aborted, aborting it
    before the timer fires leaves the promise pending for ever.  A signal
    already aborted when [sleep] is called cancels nothing. *)
Theorem sleep_resolves_unless_aborted has_signal rt evs :
  sane rt →
  let p := (sleep has_signal rt).1 in
  let rt1 := (sleep has_signal rt).2 in
  p ∈ resolved (run evs rt1) ↔
    Fire (next_timer rt)
      ∈ (if has_signal && negb (aborted rt) then until_abort evs else evs).
Proof.
  intros Hs p rt1. pose proof Hs as (H1 & H2 & H3 & H4).
  apply sleeping_run.
  - by apply sane_sleep.
  - split.
    + unfold rt1, sleep. simpl. destruct has_signal; simpl;
        by rewrite lookup_insert_eq.
    + unfold rt1, sleep. simpl. destruct has_signal; simpl.
      * destruct (aborted rt); simpl; [by left|]. split; [done|].
        apply elem_of_app. right. by apply list_elem_of_singleton.
      * right. intros Hin. destruct (H2 _ Hin) as (t & [= <-] & Hlt & _). lia.
  - split.
    + intros Hin. assert (Hr : resolved rt1 = resolved rt).
      { unfold rt1, sleep. simpl. by destruct has_signal. }
      rewrite Hr in Hin. specialize (H4 _ Hin). unfold p in H4. simpl in H4.
      lia.
    + intros t tm Ht Hcb.
      assert (Ht' : <[next_timer rt :=
                       {| repeats := false; callback := Resolve (promises rt) |}]>
                      (timers rt) !! t = Some tm).
      { unfold rt1, sleep in Ht. simpl in Ht. by destruct has_signal. }
      apply lookup_insert_Some in Ht' as [[<- _]|[_ Ht']]; [done|].
      destruct (H1 t tm Ht') as [_ Hm]. rewrite Hcb in Hm.
      unfold p in Hm. simpl in Hm. lia.
Qed.

Lemma sleep_resolves_unless_aborted_witness :
  let rt := (debounce 3 new_Runtime).2 in
  let evs := [Call 0 [VStr "a"]; Abort; Fire 1; Fire 0] in
  sane rt ∧
  ((sleep true rt).1 ∈ resolved (run evs (sleep true rt).2) ↔
     Fire 0 ∈ until_abort evs).
Proof.
  intros rt evs.
  assert (Hs : sane rt) by apply sane_debounce, sane_new.
  split; [exact Hs|].
  exact (sleep_resolves_unless_aborted true rt evs Hs).
Defined.

(** *** repeat *)

Lemma fires_cons t e evs :
  fires t (e :: evs) = (if decide (e = Fire t) then 1 else 0) + fires t evs.
Proof. unfold fires. rewrite filter_cons. by case_decide. Qed.

Lemma repeating_run func t guarded evs :
  ∀ rt, sane rt →
    pending t {| repeats := true; callback := CallFunc func |} guarded rt →
    called_by func (Some t) None rt →
    calls_of func (called (run evs rt)) =
      calls_of func (called rt)
      ++ replicate (fires t (if guarded then until_abort evs else evs)) [].
Proof.
  induction evs as [|e evs IH]; intros rt Hs Hpend Hby.
  { simpl. destruct guarded; by rewrite app_nil_r. }
  change (run (e :: evs) rt) with (run evs (step e rt)).
  destruct (decide (e = Abort ∧ guarded = true)) as [[-> ->]|Hab].
  { (* the listener clears the interval: no call any more *)
    replace (fires t (until_abort (Abort :: evs))) with 0 by done.
    cbn [replicate]. rewrite app_nil_r.
    rewrite unused_run.
    - by rewrite step_calls, app_nil_r.
    - by apply sane_step.
    - destruct Hby as [Ht Hc]. split; [|intros c id Hid].
      + intros t' tm Ht' Hcb. pose proof Ht' as Ht0.
        apply step_timers in Ht0 as [Ht0|(c & args & [=] & _)]; [|done].
        specialize (Ht t' tm Ht0 Hcb) as [= ->].
        by rewrite (pending_abort rt _ _ Hs Hpend) in Ht'.
      + apply step_debounced in Hid as [id' Hid]; [eauto|done]. }
  rewrite IH; [|by apply sane_step| |by apply called_by_step].
  2:{ apply pending_step; try done.
      intros ->. destruct guarded; [by destruct Hab|done]. }
  rewrite step_calls, <-app_assoc by done. f_equal.
  assert (Hscope : fires t (if guarded then until_abort (e :: evs)
                            else e :: evs)
                   = (if decide (e = Fire t) then 1 else 0)
                     + fires t (if guarded then until_abort evs else evs)).
  { destruct guarded; [|apply fires_cons].
    destruct e; simpl; [apply fires_cons|by destruct Hab|apply fires_cons]. }
  rewrite Hscope. destruct Hpend as [Ht _]. destruct Hby as [Hbt Hbc].
  destruct e as [t'| |c args]; simpl; try done.
  destruct (timers rt !! t') as [tm|] eqn:Htm.
  - destruct (callback tm) as [| f | |c args] eqn:Hcb.
    + rewrite decide_False; [done|]. intros [= ->]. rewrite Ht in Htm.
      by simplify_eq/=.
    + destruct (decide (f = func)) as [->|Hne].
      * specialize (Hbt t' tm Htm Hcb) as [= ->]. by rewrite decide_True.
      * rewrite decide_False; [done|]. intros [= ->]. rewrite Ht in Htm.
        by simplify_eq/=.
    + rewrite decide_False; [done|]. intros [= ->]. rewrite Ht in Htm.
      by simplify_eq/=.
    + assert (Hne : Fire t' ≠ Fire t).
      { intros [= ->]. rewrite Ht in Htm. by simplify_eq/=. }
      rewrite (decide_False (P := Fire t' = Fire t)) by done.
      destruct (debounced rt !! c) as [[f id]|] eqn:Hcl; [|done].
      destruct (decide (f = func)) as [->|?]; [|done].
      by specialize (Hbc c id Hcl).
  - rewrite decide_False; [done|]. intros [= ->]. rewrite Ht in Htm. done.
Qed.

(** X22.  The interval of [repeat] calls the function, without arguments, each
    time it fires; when a signal is given and not yet aborted, aborting it
    stops the calls for good, and otherwise nothing stops them.  The
    promise [repeat] returns is never resolved. *)
Theorem repeat_calls_until_aborted func has_signal rt evs :
  sane rt → unused func rt →
  let p := (repeat func has_signal rt).1 in
  let rt1 := (repeat func has_signal rt).2 in
  calls_of func (called (run evs rt1)) =
    calls_of func (called rt)
    ++ replicate
         (fires (next_timer rt)
            (if has_signal && negb (aborted rt) then until_abort evs
             else evs)) [] ∧
  (p ∉ resolved (run evs rt1)).
Proof.
  intros Hs [Hut Huc] p rt1. pose proof Hs as (H1 & H2 & H3 & H4).
  assert (Hs1 : sane rt1) by (by apply sane_repeat).
  assert (Htm : timers rt1 =
                <[next_timer rt := {| repeats := true;
                                      callback := CallFunc func |}]>
                  (timers rt)).
  { unfold rt1, repeat. simpl. by destruct has_signal. }
  split.
  - assert (Hc : called rt = called rt1).
    { unfold rt1, repeat. simpl. by destruct has_signal. }
    rewrite Hc. apply repeating_run; [done| |].
    + split; [by rewrite Htm, lookup_insert_eq|].
      unfold rt1, repeat. simpl. destruct has_signal; simpl.
      * destruct (aborted rt); simpl; [by left|]. split; [done|].
        apply elem_of_app. right. by apply list_elem_of_singleton.
      * right. intros Hin. destruct (H2 _ Hin) as (t & [= <-] & Hlt & _). lia.
    + split.
      * intros t tm Ht Hcb. rewrite Htm in Ht.
        apply lookup_insert_Some in Ht as [[<- _]|[_ Ht]]; [done|].
        by specialize (Hut t tm Ht Hcb).
      * intros c id Hid. apply (Huc c id).
        unfold rt1, repeat in Hid. simpl in Hid. by destruct has_signal.
  - apply unresolved_run; [done|]. split.
    + intros Hin. assert (Hr : resolved rt1 = resolved rt).
      { unfold rt1, repeat. simpl. by destruct has_signal. }
      rewrite Hr in Hin. specialize (H4 _ Hin). unfold p in H4. simpl in H4.
      lia.
    + intros t tm Ht Hcb. rewrite Htm in Ht.
      apply lookup_insert_Some in Ht as [[_ <-]|[_ Ht]]; [done|].
      destruct (H1 t tm Ht) as [_ Hm]. rewrite Hcb in Hm.
      unfold p in Hm. simpl in Hm. lia.
Qed.

Lemma unused_new func : unused func new_Runtime.
Proof.
  split; [|done]. intros t tm H. simpl in H. by rewrite lookup_empty in H.
Qed.

Lemma repeat_calls_until_aborted_witness :
  let evs := [Fire 0; Fire 0; Abort; Fire 0] in
  sane new_Runtime ∧ unused 7 new_Runtime ∧
  calls_of 7 (called (run evs (repeat 7 true new_Runtime).2)) = [[]; []] ∧
  ((repeat 7 true new_Runtime).1
     ∉ resolved (run evs (repeat 7 true new_Runtime).2)).
Proof.
  intros evs. split; [exact sane_new|]. split; [exact (unused_new 7)|].
  exact (repeat_calls_until_aborted 7 true new_Runtime evs sane_new
           (unused_new 7)).
Defined.

(** *** debounce *)

Lemma step_next_timer e rt :
  sane rt →
  next_timer (step e rt) =
    match e with
    | Call c _ =>
        if decide (c < length (debounced rt)) then S (next_timer rt)
        else next_timer rt
    | _ => next_timer rt
    end.
Proof.
  intros Hs. destruct e as [t0| |c0 args]; simpl.
  - unfold fire. destruct (timers rt !! t0) as [tm0|]; [|done].
    assert (Hn : next_timer (if repeats tm0 then rt else clearTimeout t0 rt)
                 = next_timer rt) by (by destruct (repeats tm0)).
    revert Hn. generalize (if repeats tm0 then rt else clearTimeout t0 rt).
    intros rt0 Hn. destruct (callback tm0); simpl; try done.
    + unfold resolve. by case_decide.
    + by destruct (debounced rt0 !! closure) as [[? ?]|].
  - destruct (aborted rt) eqn:Hab; [unfold abort; by rewrite Hab|].
    by destruct (abort_spec rt Hs Hab) as (_ & -> & _).
  - unfold call_debounced.
    destruct (debounced rt !! c0) as [[f0 id0]|] eqn:Hc0.
    + rewrite decide_True by (by eapply lookup_lt_Some). simpl.
      by destruct id0.
    + rewrite decide_False; [done|]. apply lookup_ge_None in Hc0. lia.
Qed.

Lemma step_length e rt :
  sane rt → length (debounced (step e rt)) = length (debounced rt).
Proof.
  intros Hs. destruct e as [t0| |c0 args]; simpl.
  - unfold fire. destruct (timers rt !! t0) as [tm0|]; [|done].
    assert (Hn : debounced (if repeats tm0 then rt else clearTimeout t0 rt)
                 = debounced rt) by (by destruct (repeats tm0)).
    revert Hn. generalize (if repeats tm0 then rt else clearTimeout t0 rt).
    intros rt0 Hn. destruct (callback tm0); simpl; rewrite <-?Hn; try done.
    + unfold resolve. by case_decide.
    + destruct (debounced rt0 !! closure) as [[? ?]|]; [|done]. simpl.
      by rewrite length_insert.
  - destruct (aborted rt) eqn:Hab; [unfold abort; by rewrite Hab|].
    by destruct (abort_spec rt Hs Hab) as (_ & _ & _ & _ & _ & _ & -> & _).
  - unfold call_debounced.
    destruct (debounced rt !! c0) as [[f0 id0]|] eqn:Hc0; [|done]. simpl.
    rewrite length_insert. by destruct id0.
Qed.

Lemma step_dead e rt t :
  sane rt → timers rt !! t = None → t < next_timer rt →
  timers (step e rt) !! t = None.
Proof.
  intros Hs Ht Hlt. destruct (timers (step e rt) !! t) as [tm|] eqn:Htm;
    [|done].
  apply step_timers in Htm as [Htm|(c & args & _ & -> & _)]; [|lia|done].
  by rewrite Ht in Htm.
Qed.

(** The timer of a debounced function stays pending until it fires or the
    function is called again. *)
Lemma step_keeps_debounced e rt t tm c args :
  sane rt → timers rt !! t = Some tm → callback tm = Debounced c args →
  e ≠ Fire t → (∀ a, e ≠ Call c a) →
  timers (step e rt) !! t = Some tm.
Proof.
  intros Hs Ht Hcb Hfire Hcall. pose proof Hs as (H1 & H2 & H3 & H4).
  destruct e as [t0| |c0 args0]; simpl.
  - unfold fire. destruct (timers rt !! t0) as [tm0|] eqn:Ht0; [|done].
    assert (Hkeep : timers (if repeats tm0 then rt else clearTimeout t0 rt) !! t
                    = Some tm).
    { destruct (repeats tm0) eqn:Hr; [done|]. simpl.
      rewrite lookup_delete_ne; [done|]. by intros ->. }
    revert Hkeep. generalize (if repeats tm0 then rt else clearTimeout t0 rt).
    intros rt0 Hkeep. destruct (H1 t0 tm0 Ht0) as [_ Hm].
    destruct (callback tm0); simpl; try done.
    + unfold resolve. by case_decide.
    + by destruct (debounced rt0 !! closure) as [[? ?]|].
  - destruct (aborted rt) eqn:Hab; [unfold abort; by rewrite Hab|].
    destruct (abort_spec rt Hs Hab) as (Ht' & _). rewrite Ht'.
    rewrite decide_False; [done|]. intros Hin.
    destruct (H2 _ Hin) as (t' & [= <-] & _ & Hno). by eapply Hno.
  - unfold call_debounced.
    destruct (debounced rt !! c0) as [[func id]|] eqn:Hc; [|done]. simpl.
    destruct (H1 t tm Ht) as [Hlt _].
    assert (Hn : next_timer (match id with Id t1 => clearTimeout t1 rt
                             | _ => rt end) = next_timer rt) by (by destruct id).
    rewrite lookup_insert_ne by lia.
    destruct id as [| |t1]; try done. simpl.
    rewrite lookup_delete_ne; [done|]. intros ->.
    destruct (H3 c0 func t Hc) as [_ Hm]. destruct (Hm tm Ht) as [a Ha].
    rewrite Hcb in Ha. injection Ha as -> _. by eapply Hcall.
Qed.

(** What a debounced function holds changes when it is called and when one
    of its timers fires. *)
Lemma step_closure e rt c :
  sane rt → (∀ a, e ≠ Call c a) →
  (∀ t tm a, e = Fire t → timers rt !! t = Some tm →
     callback tm ≠ Debounced c a) →
  debounced (step e rt) !! c = debounced rt !! c.
Proof.
  intros Hs Hcall Hfire. destruct e as [t0| |c0 args0]; simpl.
  - unfold fire. destruct (timers rt !! t0) as [tm0|] eqn:Ht0; [|done].
    assert (Hn : debounced (if repeats tm0 then rt else clearTimeout t0 rt)
                 = debounced rt) by (by destruct (repeats tm0)).
    revert Hn. generalize (if repeats tm0 then rt else clearTimeout t0 rt).
    intros rt0 Hn. destruct (callback tm0) eqn:Hcb; simpl; rewrite <-?Hn;
      try done.
    + unfold resolve. by case_decide.
    + destruct (debounced rt0 !! closure) as [[? ?]|]; [|done]. simpl.
      rewrite list_lookup_insert_ne; [done|]. intros ->.
      by eapply (Hfire t0 tm0 args).
  - destruct (aborted rt) eqn:Hab; [unfold abort; by rewrite Hab|].
    by destruct (abort_spec rt Hs Hab) as (_ & _ & _ & _ & _ & _ & -> & _).
  - unfold call_debounced.
    destruct (debounced rt !! c0) as [[f0 id0]|] eqn:Hc0; [|done]. simpl.
    rewrite list_lookup_insert_ne; [by destruct id0|]. intros ->.
    by eapply Hcall.
Qed.

Lemma debouncing_step c func e evs rt armed :
  debouncing c func armed rt →
  ∃ armed' out,
    debouncing c func armed' (step e rt) ∧
    calls_of func (called (step e rt)) = calls_of func (called rt) ++ out ∧
    expected_calls (length (debounced rt)) c armed (next_timer rt) (e :: evs)
    = out ++ expected_calls (length (debounced (step e rt))) c armed'
               (next_timer (step e rt)) evs.
Proof.
  intros (Hs & Hby & id & Hid & Harmed).
  pose proof Hs as (H1 & H2 & H3 & H4).
  pose proof (sane_step e rt Hs) as Hs'.
  pose proof (called_by_step func None (Some c) e rt Hs Hby) as Hby'.
  rewrite step_length, step_next_timer by done.
  assert (Hcases : (∃ a, e = Call c a) ∨ ∀ a, e ≠ Call c a).
  { destruct e as [| |c0 a0]; [by right..|].
    destruct (decide (c0 = c)) as [->|?]; [left; by eexists|].
    right. by intros a [= ->]. }
  destruct Hcases as [[a ->]|Hcall'].
  { (* the function is called: its timer is replaced *)
    exists (Some (next_timer rt, a)), []. split; [|split].
    - split; [done|]. split; [done|]. exists (Id (next_timer rt)).
      simpl. unfold call_debounced. rewrite Hid. simpl.
      assert (Hn : next_timer (match id with Id t1 => clearTimeout t1 rt
                               | _ => rt end) = next_timer rt)
        by (by destruct id).
      rewrite Hn. rewrite list_lookup_insert_eq, lookup_insert_eq.
      + done.
      + destruct id; simpl; by eapply lookup_lt_Some.
    - by rewrite step_calls, app_nil_r.
    - simpl. rewrite decide_True by done.
      rewrite (decide_True (P := _ < _)) by (by eapply lookup_lt_Some).
      done. }
  destruct armed as [[t args]|].
  - destruct Harmed as [-> Ht].
    destruct (decide (e = Fire t)) as [->|Hfire].
    + (* the timer of the last call fires *)
      exists None, [args]. split; [|split].
      * split; [done|]. split; [done|]. exists IdNull. split; [|done].
        simpl. unfold fire. rewrite Ht. simpl. rewrite Hid. simpl.
        rewrite list_lookup_insert_eq; [done|]. by eapply lookup_lt_Some.
      * rewrite step_calls by done. rewrite Ht. simpl. rewrite Hid.
        by rewrite decide_True.
      * simpl. by rewrite decide_True.
    + (* another event: the timer stays *)
      exists (Some (t, args)), []. split; [|split].
      * split; [done|]. split; [done|]. exists (Id t). split; [|split; [done|]].
        -- rewrite step_closure; try done.
           intros t0 tm a -> Ht0 Hcb. destruct (H1 t0 tm Ht0) as [_ Hm].
           rewrite Hcb in Hm. destruct Hm as [_ [f Hf]]. rewrite Hid in Hf.
           by simplify_eq.
        -- by eapply step_keeps_debounced.
      * rewrite step_calls by done.
        destruct e as [t0| |c0 a0]; try done.
        destruct (timers rt !! t0) as [tm|] eqn:Htm; [|done].
        destruct (callback tm) as [|f| |c0 a0] eqn:Hcb; try done.
        -- case_decide; [|done]. subst.
           by specialize (proj1 Hby t0 tm Htm Hcb).
        -- destruct (debounced rt !! c0) as [[f id0]|] eqn:Hc0; [|done].
           case_decide; [|done]. subst.
           specialize (proj2 Hby c0 id0 Hc0) as [= ->].
           destruct (H1 t0 tm Htm) as [_ Hm]. rewrite Hcb in Hm.
           destruct Hm as [_ [f Hf]]. rewrite Hid in Hf. by simplify_eq.
      * destruct e as [t0| |c0 a0]; simpl; try done.
        -- rewrite decide_False; [done|]. by intros ->.
        -- rewrite decide_False; [done|]. intros ->. by eapply Hcall'.
  - (* nothing is armed *)
    exists None, []. split; [|split].
    + split; [done|]. split; [done|]. exists id. split.
      * rewrite step_closure; try done.
        intros t0 tm a -> Ht0 Hcb. destruct (H1 t0 tm Ht0) as [_ Hm].
        rewrite Hcb in Hm. destruct Hm as [_ [f Hf]]. rewrite Hid in Hf.
        simplify_eq. by rewrite (Harmed t0 eq_refl) in Ht0.
      * intros t ->. apply step_dead; [done|by apply Harmed|].
        by destruct (H3 c func t Hid).
    + rewrite step_calls by done.
      destruct e as [t0| |c0 a0]; try done.
      destruct (timers rt !! t0) as [tm|] eqn:Htm; [|done].
      destruct (callback tm) as [|f| |c0 a0] eqn:Hcb; try done.
      * case_decide; [|done]. subst.
        by specialize (proj1 Hby t0 tm Htm Hcb).
      * destruct (debounced rt !! c0) as [[f id0]|] eqn:Hc0; [|done].
        case_decide; [|done]. subst.
        specialize (proj2 Hby c0 id0 Hc0) as [= ->].
        destruct (H1 t0 tm Htm) as [_ Hm]. rewrite Hcb in Hm.
        destruct Hm as [_ [f Hf]]. rewrite Hid in Hf. simplify_eq.
        by rewrite (Harmed t0 eq_refl) in Htm.
    + destruct e as [t0| |c0 a0]; simpl; try done.
      rewrite decide_False; [done|]. intros ->. by eapply Hcall'.
Qed.

Lemma debouncing_run c func evs :
  ∀ rt armed, debouncing c func armed rt →
    calls_of func (called (run evs rt)) =
      calls_of func (called rt)
      ++ expected_calls (length (debounced rt)) c armed (next_timer rt) evs.
Proof.
  induction evs as [|e evs IH]; intros rt armed Hd.
  { simpl. by rewrite app_nil_r. }
  change (run (e :: evs) rt) with (run evs (step e rt)).
  destruct (debouncing_step c func e evs rt armed Hd)
    as (armed' & out & Hd' & Hout & Hexp).
  rewrite (IH _ _ Hd'), Hout, Hexp. by rewrite app_assoc.
Qed.

(** X23.  The function [debounce] returns calls the function wrapped with the
    arguments of its last call, once, when the timer of that call fires; a
    call before the timer fires replaces the timer and the arguments, so
    the calls before it are dropped; and the function wrapped is called at
    no other time, whatever else the timers and the signal do. *)
Theorem debounce_calls_with_the_last_arguments func rt evs :
  sane rt → unused func rt →
  let c := (debounce func rt).1 in
  let rt1 := (debounce func rt).2 in
  calls_of func (called (run evs rt1)) =
    calls_of func (called rt)
    ++ expected_calls (length (debounced rt1)) c None (next_timer rt1) evs.
Proof.
  intros Hs [Hut Huc] c rt1.
  apply (debouncing_run c func evs rt1 None).
  split; [by apply sane_debounce|]. split; [split|].
  - exact Hut.
  - intros c' id Hid. simpl in Hid.
    apply lookup_app_Some in Hid as [Hid|[Hge Hid]].
    + by specialize (Huc c' id Hid).
    + unfold c. simpl. f_equal.
      destruct (c' - length (debounced rt)) eqn:E; [lia|done].
  - exists IdUndefined. split; [|done]. unfold c, rt1. simpl.
    rewrite lookup_app_r by done. by rewrite Nat.sub_diag.
Qed.

Lemma unused_sleep func has_signal rt :
  unused func rt → unused func (sleep has_signal rt).2.
Proof.
  intros [Ht Hc]. split.
  - intros t tm Htm Hcb.
    assert (Htm' : <[next_timer rt :=
                      {| repeats := false; callback := Resolve (promises rt) |}]>
                     (timers rt) !! t = Some tm).
    { unfold sleep in Htm. simpl in Htm. by destruct has_signal. }
    apply lookup_insert_Some in Htm' as [[_ <-]|[_ Htm']]; [done|eauto].
  - intros c id Hid. apply (Hc c id). unfold sleep in Hid. simpl in Hid.
    by destruct has_signal.
Qed.

Lemma debounce_calls_with_the_last_arguments_witness :
  let rt := (sleep true new_Runtime).2 in
  let evs := [Call 0 [VStr "a"]; Call 0 [VStr "ab"]; Fire 1; Fire 2; Abort;
              Fire 2; Call 0 [VStr "abc"]; Fire 0; Fire 3] in
  sane rt ∧ unused 3 rt ∧
  calls_of 3 (called (run evs (debounce 3 rt).2))
    = [[VStr "ab"]; [VStr "abc"]].
Proof.
  intros rt evs.
  assert (Hs : sane rt) by apply sane_sleep, sane_new.
  assert (Hu : unused 3 rt) by apply unused_sleep, unused_new.
  split; [exact Hs|]. split; [exact Hu|].
  exact (debounce_calls_with_the_last_arguments 3 rt evs Hs Hu).
Defined.

End TimerFacts.

Module ArrayFacts.
Import ArrayExt.

Section Facts.
Context {A : Type}.
Implicit Types (m : @matcher A) (this rest l : list A) (x : A).

(** *** findIndex and splice *)

Lemma findIndex_from_cases m this i rest :
  (findIndex_from m this i rest = (-1)%Z ∧
   ∀ j y, rest !! j = Some y → m y (i + j) this = false) ∨
  ∃ l1 x l2,
    rest = l1 ++ x :: l2 ∧
    (∀ j y, l1 !! j = Some y → m y (i + j) this = false) ∧
    m x (i + length l1) this = true ∧
    findIndex_from m this i rest = Z.of_nat (i + length l1).
Proof.
  revert i. induction rest as [|x rest IH]; intros i; simpl.
  { left. split; [done|]. by intros j y ?. }
  destruct (m x i this) eqn:Hx.
  - right. exists [], x, rest. simpl. rewrite Nat.add_0_r.
    split; [done|]. split; [by intros j y ?|done].
  - destruct (IH (S i)) as [[Hn Hall]|(l1 & y & l2 & -> & Hall & Hy & Hr)].
    + left. split; [done|]. intros [|j] z Hz; simplify_eq/=.
      * by rewrite Nat.add_0_r.
      * rewrite <-Nat.add_succ_comm. by apply Hall.
    + right. exists (x :: l1), y, l2. simpl.
      rewrite <-!Nat.add_succ_comm. split; [done|]. split; [|done].
      intros [|j] z Hz; simplify_eq/=.
      * by rewrite Nat.add_0_r.
      * rewrite <-Nat.add_succ_comm. by apply Hall.
Qed.

(** [findIndex] finds the first element that matches. *)
Lemma findIndex_found m l1 x l2 :
  m x (length l1) (l1 ++ x :: l2) = true →
  (∀ j y, l1 !! j = Some y → m y j (l1 ++ x :: l2) = false) →
  findIndex m (l1 ++ x :: l2) = Z.of_nat (length l1).
Proof.
  intros Hx Hbefore. unfold findIndex.
  destruct (findIndex_from_cases m (l1 ++ x :: l2) 0 (l1 ++ x :: l2))
    as [[_ Hall]|(k1 & y & k2 & Heq & Hall & Hy & ->)]; simpl in *.
  - specialize (Hall (length l1) x). rewrite Hx in Hall.
    discriminate Hall. by rewrite list_lookup_middle.
  - f_equal.
    destruct (Nat.lt_total (length k1) (length l1)) as [Hlt|[Heq'|Hgt]];
      [|done|].
    + destruct (lookup_lt_is_Some_2 l1 (length k1) Hlt) as [z Hz].
      assert (Hz' : (l1 ++ x :: l2) !! length k1 = Some z)
        by (by apply lookup_app_l_Some).
      rewrite Heq, list_lookup_middle in Hz' by done. simplify_eq.
      by rewrite (Hbefore _ z Hz) in Hy.
    + assert (Hk : k1 !! length l1 = Some x).
      { assert (Hk' : (k1 ++ y :: k2) !! length l1 = Some x)
          by (rewrite <-Heq; by apply list_lookup_middle).
        by rewrite lookup_app_l in Hk'. }
      by rewrite (Hall _ x Hk) in Hx.
Qed.

Lemma findIndex_none m this :
  (∀ j y, this !! j = Some y → m y j this = false) →
  findIndex m this = (-1)%Z.
Proof.
  intros Hnone. unfold findIndex.
  destruct (findIndex_from_cases m this 0 this)
    as [[Hr _]|(l1 & x & l2 & Heq & _ & Hx & _)]; [done|].
  simpl in Hx. rewrite (Hnone (length l1) x) in Hx; [done|].
  rewrite Heq. by apply list_lookup_middle.
Qed.

Lemma splice_nonneg (i d : nat) (items : list A) this :
  i ≤ length this →
  splice (Z.of_nat i) (Z.of_nat d) items this
  = take i this ++ items ++ drop (i + d) this.
Proof.
  intros Hi. unfold splice.
  assert (Hneg : (Z.of_nat i <? 0)%Z = false) by (apply Z.ltb_ge; lia).
  rewrite Hneg.
  replace (Z.to_nat (Z.min (Z.of_nat i) (Z.of_nat (length this))))
    with i by lia.
  do 2 f_equal.
  destruct (decide (i + d ≤ length this)) as [Hle|Hgt].
  - f_equal. lia.
  - rewrite !drop_ge; [done|lia..].
Qed.

Lemma splice_insert l1 l2 (items : list A) :
  splice (Z.of_nat (length l1)) 0 items (l1 ++ l2) = l1 ++ items ++ l2.
Proof.
  rewrite (splice_nonneg (length l1) 0) by (rewrite length_app; lia).
  rewrite take_app_length, Nat.add_0_r. by rewrite drop_app_length.
Qed.

Lemma splice_delete l1 x l2 :
  splice (Z.of_nat (length l1)) 1 [] (l1 ++ x :: l2) = l1 ++ l2.
Proof.
  rewrite (splice_nonneg (length l1) 1) by (rewrite length_app; lia).
  rewrite take_app_length. simpl. f_equal.
  rewrite (cons_middle x l1 l2), app_assoc.
  replace (length l1 + 1) with (length (l1 ++ [x]))
    by (by rewrite length_app).
  by rewrite drop_app_length.
Qed.

(** [splice(-1, 1)] removes the last element. *)
Lemma splice_last this :
  splice (-1) 1 [] this = take (length this - 1) this.
Proof.
  unfold splice. cbn [Z.ltb Z.compare].
  replace (Z.to_nat (Z.max (Z.of_nat (length this) + -1) 0))
    with (length this - 1) by lia.
  rewrite drop_ge; [by rewrite app_nil_r|]. lia.
Qed.

(** *** remove *)

(** X24.  [remove] takes exactly one element out of an array that is not
    empty: the first element that the matcher accepts, or that is [===] the
    argument; and when no element is, the last element of the array,
    because [splice] reads the index [-1] from the end. *)
Theorem remove_takes_out_the_last_element_when_nothing_matches
    (strict_equal : A → A → bool) (o : target) this :
  let matches x i :=
    match o with
    | Matcher m => m x i this
    | Element o => strict_equal x o
    end in
  (∀ l1 x l2,
     this = l1 ++ x :: l2 → matches x (length l1) = true →
     (∀ j y, l1 !! j = Some y → matches y j = false) →
     remove strict_equal o this = l1 ++ l2) ∧
  ((∀ j y, this !! j = Some y → matches y j = false) →
   remove strict_equal o this = take (length this - 1) this) ∧
  length (remove strict_equal o this) = length this - 1.
Proof.
  intros matches.
  set (m := match o with
            | Matcher m => m
            | Element o => λ x _ _, strict_equal x o
            end).
  assert (Hm : ∀ x i, matches x i = m x i this) by (by destruct o).
  assert (Hr : remove strict_equal o this = splice (findIndex m this) 1 [] this)
    by (by destruct o).
  assert (Hfound : ∀ l1 x l2,
            this = l1 ++ x :: l2 → matches x (length l1) = true →
            (∀ j y, l1 !! j = Some y → matches y j = false) →
            remove strict_equal o this = l1 ++ l2).
  { intros l1 x l2 Heq Hx Hbefore. rewrite Hr. subst this.
    rewrite findIndex_found.
    - apply splice_delete.
    - by rewrite <-Hm.
    - intros j y Hy. rewrite <-Hm. by apply Hbefore. }
  assert (Hnone : (∀ j y, this !! j = Some y → matches y j = false) →
            remove strict_equal o this = take (length this - 1) this).
  { intros Hnone. rewrite Hr, findIndex_none; [apply splice_last|].
    intros j y Hy. rewrite <-Hm. by apply Hnone. }
  split; [exact Hfound|]. split; [exact Hnone|].
  destruct (findIndex_from_cases m this 0 this)
    as [[_ Hall]|(l1 & x & l2 & Heq & Hall & Hx & _)]; simpl in *.
  - rewrite Hnone.
    + rewrite length_take. lia.
    + intros j y Hy. rewrite Hm. by apply Hall.
  - rewrite (Hfound l1 x l2 Heq).
    + rewrite Heq, !length_app. simpl. lia.
    + by rewrite Hm.
    + intros j y Hy. rewrite Hm. by apply Hall.
Qed.

(** *** addAfter, addBefore *)

(** X25.  [addBefore] and [addAfter] put the element next to the first
    element the matcher accepts, and leave the array as it is when the
    matcher accepts none. *)
Theorem add_puts_the_element_next_to_the_first_match m (elementToAdd : A)
    this :
  (∀ l1 x l2,
     this = l1 ++ x :: l2 → m x (length l1) this = true →
     (∀ j y, l1 !! j = Some y → m y j this = false) →
     addBefore m elementToAdd this = l1 ++ elementToAdd :: x :: l2 ∧
     addAfter m elementToAdd this = l1 ++ x :: elementToAdd :: l2) ∧
  ((∀ j y, this !! j = Some y → m y j this = false) →
   addBefore m elementToAdd this = this ∧
   addAfter m elementToAdd this = this).
Proof.
  split.
  - intros l1 x l2 -> Hx Hbefore. unfold addBefore, addAfter.
    rewrite findIndex_found by done.
    rewrite bool_decide_true by lia. split.
    + by rewrite splice_insert.
    + rewrite (cons_middle x l1 l2), app_assoc.
      replace (Z.of_nat (length l1) + 1)%Z
        with (Z.of_nat (length (l1 ++ [x])))
        by (rewrite length_app; simpl; lia).
      rewrite splice_insert. by rewrite <-app_assoc.
  - intros Hnone. unfold addBefore, addAfter.
    by rewrite findIndex_none.
Qed.

(** *** firstIndex, lastIndex *)

Lemma firstIndex_from_findIndex m this i rest :
  findIndex_from m this i rest
  = match firstIndex_from m this i rest with
    | Some index => Z.of_nat index
    | None => (-1)%Z
    end.
Proof.
  revert i. induction rest as [|x rest IH]; intros i; simpl; [done|].
  by destruct (m x i this).
Qed.

Lemma firstIndex_Some m this i :
  firstIndex m this = Some i ↔
    (∃ x, this !! i = Some x ∧ m x i this = true) ∧
    ∀ j y, j < i → this !! j = Some y → m y j this = false.
Proof.
  pose proof (firstIndex_from_findIndex m this 0 this) as Hf.
  fold (findIndex m this) in Hf. fold (firstIndex m this) in Hf.
  split.
  - intros Hi. rewrite Hi in Hf.
    destruct (findIndex_from_cases m this 0 this)
      as [[Hr _]|(l1 & x & l2 & Heq & Hall & Hx & Hr)]; simpl in *;
      fold (findIndex m this) in Hr; rewrite Hr in Hf; [lia|].
    assert (i = length l1) as -> by lia. split.
    + exists x. split; [|done]. rewrite Heq. by apply list_lookup_middle.
    + intros j y Hj Hy. apply Hall. rewrite Heq in Hy.
      by rewrite lookup_app_l in Hy.
  - intros [(x & Hx & Hm) Hbefore].
    apply list_elem_of_split_length in Hx as (l1 & l2 & -> & ->).
    rewrite findIndex_found in Hf; [| done |].
    + destruct (firstIndex m (l1 ++ x :: l2)); [f_equal; lia|lia].
    + intros j y Hy. apply Hbefore; [by eapply lookup_lt_Some|].
      by apply lookup_app_l_Some.
Qed.

Lemma firstIndex_None m this :
  firstIndex m this = None ↔
    ∀ j y, this !! j = Some y → m y j this = false.
Proof.
  pose proof (firstIndex_from_findIndex m this 0 this) as Hf.
  fold (findIndex m this) in Hf. fold (firstIndex m this) in Hf.
  split.
  - intros Hn. rewrite Hn in Hf.
    destruct (findIndex_from_cases m this 0 this)
      as [[_ Hall]|(l1 & x & l2 & _ & _ & _ & Hr)]; simpl in *; [done|].
    fold (findIndex m this) in Hr. lia.
  - intros Hnone. rewrite findIndex_none in Hf by done.
    destruct (firstIndex m this); [lia|done].
Qed.

Lemma lastIndex_from_Some m this n i :
  lastIndex_from m this n = Some i ↔
    (i < n ∧ ∃ x, this !! i = Some x ∧ m x i this = true) ∧
    ∀ j y, i < j < n → this !! j = Some y → m y j this = false.
Proof.
  induction n as [|n IH]; simpl.
  { split; [done|]. intros [[? _] _]. lia. }
  destruct (this !! n) as [x|] eqn:Hn.
  - destruct (m x n this) eqn:Hx.
    + split.
      * intros [= <-]. split; [split; [lia|by exists x]|]. intros j y ?. lia.
      * intros [(Hlt & y & Hy & Hmy) Hafter].
        destruct (decide (i = n)) as [->|Hne]; [done|].
        rewrite (Hafter n x) in Hx; [done|lia|done].
    + rewrite IH. split.
      * intros [(Hlt & y & Hy & Hmy) Hafter]. split; [split; [lia|by exists y]|].
        intros j z Hj Hz. destruct (decide (j = n)) as [->|Hne].
        -- by simplify_eq.
        -- apply Hafter; [lia|done].
      * intros [(Hlt & y & Hy & Hmy) Hafter].
        assert (i ≠ n) by (intros ->; simplify_eq; congruence).
        split; [split; [lia|by exists y]|].
        intros j z Hj Hz. apply Hafter; [lia|done].
  - rewrite IH. split.
    + intros [(Hlt & y & Hy & Hmy) Hafter]. split; [split; [lia|by exists y]|].
      intros j z Hj Hz. destruct (decide (j = n)) as [->|Hne].
      * by simplify_eq.
      * apply Hafter; [lia|done].
    + intros [(Hlt & y & Hy & Hmy) Hafter].
      assert (i ≠ n) by (intros ->; simplify_eq; congruence).
      split; [split; [lia|by exists y]|].
      intros j z Hj Hz. apply Hafter; [lia|done].
Qed.

Lemma lastIndex_from_cases_aux m this :
  (∃ i, lastIndex_from m this (length this) = Some i) ∨
  ∀ j y, this !! j = Some y → m y j this = false.
Proof.
  assert (H : ∀ n, (∃ i, lastIndex_from m this n = Some i) ∨
                   ∀ j y, j < n → this !! j = Some y → m y j this = false).
  { induction n as [|n IH]; simpl.
    - right. intros j y ?. lia.
    - destruct (this !! n) as [x|] eqn:Hn.
      + destruct (m x n this) eqn:Hx; [left; by eexists|].
        destruct IH as [?|Hno]; [by left|]. right. intros j y Hj Hy.
        destruct (decide (j = n)) as [->|?]; [by simplify_eq|].
        apply Hno; [lia|done].
      + destruct IH as [?|Hno]; [by left|]. right. intros j y Hj Hy.
        destruct (decide (j = n)) as [->|?]; [by simplify_eq|].
        apply Hno; [lia|done]. }
  destruct (H (length this)) as [?|Hno]; [by left|]. right.
  intros j y Hy. apply Hno; [by eapply lookup_lt_Some|done].
Qed.

(** X26.  [firstIndex] and [lastIndex] return the least and the greatest
    index whose element the matcher accepts, and both return [undefined]
    when it accepts none; [first] and [last] with a matcher return the
    elements there. *)
Theorem firstIndex_and_lastIndex_bound_the_matches m this :
  (∀ i, firstIndex m this = Some i ↔
          (∃ x, this !! i = Some x ∧ m x i this = true) ∧
          ∀ j y, j < i → this !! j = Some y → m y j this = false) ∧
  (∀ i, lastIndex m this = Some i ↔
          (∃ x, this !! i = Some x ∧ m x i this = true) ∧
          ∀ j y, i < j → this !! j = Some y → m y j this = false) ∧
  (firstIndex m this = None ↔ lastIndex m this = None) ∧
  (∀ i j, firstIndex m this = Some i → lastIndex m this = Some j → i ≤ j) ∧
  first (Some m) this = firstIndex m this ≫= (this !!.) ∧
  last (Some m) this = lastIndex m this ≫= (this !!.).
Proof.
  assert (Hlast : ∀ i, lastIndex m this = Some i ↔
            (∃ x, this !! i = Some x ∧ m x i this = true) ∧
            ∀ j y, i < j → this !! j = Some y → m y j this = false).
  { intros i. unfold lastIndex. rewrite lastIndex_from_Some. split.
    - intros [(Hlt & Hx) Hafter]. split; [done|]. intros j y Hj Hy.
      apply Hafter; [|done]. apply lookup_lt_Some in Hy. lia.
    - intros [(x & Hx & Hm) Hafter]. split.
      + split; [by eapply lookup_lt_Some|by exists x].
      + intros j y Hj Hy. apply Hafter; [lia|done]. }
  split; [apply firstIndex_Some|]. split; [exact Hlast|].
  split; [|split; [|split]].
  - split.
    + intros Hn. destruct (lastIndex m this) as [i|] eqn:Hl; [|done].
      destruct (proj1 (Hlast i) eq_refl) as [(x & Hx & Hm) _].
      rewrite firstIndex_None in Hn. by rewrite (Hn i x Hx) in Hm.
    + intros Hn. destruct (firstIndex m this) as [i|] eqn:Hf; [|done].
      apply firstIndex_Some in Hf as [(x & Hx & Hm) _].
      destruct (lastIndex_from_cases_aux m this) as [Hex|Hno].
      * destruct Hex as [j Hj]. unfold lastIndex in Hn. congruence.
      * by rewrite (Hno i x Hx) in Hm.
  - intros i j Hf Hl. apply firstIndex_Some in Hf as [(x & Hx & Hm) _].
    apply Hlast in Hl as [_ Hafter].
    destruct (decide (i ≤ j)) as [|Hgt]; [done|].
    rewrite (Hafter i x) in Hm; [done|lia|done].
  - unfold first. destruct (firstIndex m this) as [i|]; [|done]. simpl.
    unfold get. rewrite (proj2 (Z.ltb_ge _ _)) by lia. by rewrite Nat2Z.id.
  - unfold last. destruct (lastIndex m this) as [i|]; [|done]. simpl.
    unfold get. rewrite (proj2 (Z.ltb_ge _ _)) by lia. by rewrite Nat2Z.id.
Qed.

(** *** chunk, flatMap *)

Lemma flatMap_from {T U : Type} (callback : T → nat → list U)
    (items : list T) :
  ∀ i acc,
    reduce_from (λ acc value index, acc ++ callback value index) i items acc
    = acc ++ concat (imap (λ j item, callback item (i + j)) items).
Proof.
  induction items as [|item items IH]; intros i acc; simpl.
  { by rewrite app_nil_r. }
  rewrite IH, <-app_assoc, Nat.add_0_r. do 2 f_equal.
  f_equal. apply imap_ext. intros j y _. simpl. f_equal. lia.
Qed.

Lemma length_concat_full (n : nat) (full : list (list A)) :
  Forall (λ c, length c = n) full → length (concat full) = n * length full.
Proof.
  induction 1 as [|c full Hc _ IH]; simpl; [lia|].
  rewrite length_app, IH, Hc. lia.
Qed.

Lemma chunk_step_full (n : nat) (full : list (list A)) lastc x :
  0 < n → Forall (λ c, length c = n) full → length lastc = n →
  chunk_step (Z.of_nat n) (Some <$> (full ++ [lastc])) x
    (length (concat (full ++ [lastc])))
  = Some <$> ((full ++ [lastc]) ++ [[x]]).
Proof.
  intros Hn Hfull Hlast. unfold chunk_step.
  rewrite decide_False by lia.
  assert (Hall : Forall (λ c, length c = n) (full ++ [lastc])).
  { apply Forall_app. split; [done|]. by apply Forall_singleton. }
  rewrite (length_concat_full n) by done.
  rewrite Nat2Z.inj_mul, Z.mul_comm, Z.div_mul by lia.
  rewrite (proj2 (Z.ltb_ge _ _)) by lia. rewrite Nat2Z.id.
  unfold set_index. rewrite length_fmap.
  rewrite decide_False by lia.
  rewrite Nat.sub_diag. simpl.
  rewrite lookup_ge_None_2 by (rewrite length_fmap; lia). simpl.
  by rewrite (fmap_app Some (full ++ [lastc]) [[x]]).
Qed.

Lemma chunk_step_part (n : nat) (full : list (list A)) lastc x :
  0 < n → Forall (λ c, length c = n) full → 0 < length lastc < n →
  chunk_step (Z.of_nat n) (Some <$> (full ++ [lastc])) x
    (length (concat (full ++ [lastc])))
  = Some <$> (full ++ [lastc ++ [x]]).
Proof.
  intros Hn Hfull Hlast. unfold chunk_step.
  rewrite decide_False by lia.
  rewrite concat_app, length_app, (length_concat_full n) by done.
  simpl. rewrite app_nil_r.
  assert (Hdiv : (Z.of_nat (n * length full + length lastc) / Z.of_nat n)%Z
                 = Z.of_nat (length full)).
  { symmetry. apply (Z.div_unique_pos _ _ _ (Z.of_nat (length lastc))); lia. }
  rewrite Hdiv. rewrite (proj2 (Z.ltb_ge _ _)) by lia. rewrite Nat2Z.id.
  unfold set_index. rewrite length_fmap, length_app. simpl.
  rewrite decide_True by lia.
  rewrite list_lookup_fmap, list_lookup_middle by done. simpl.
  rewrite !fmap_app. simpl.
  rewrite insert_app_r_alt by (rewrite length_fmap; lia).
  by rewrite length_fmap, Nat.sub_diag.
Qed.

Lemma chunk_reduce (n : nat) rest :
  0 < n →
  ∀ (full : list (list A)) lastc,
    Forall (λ c, length c = n) full → 0 < length lastc ≤ n →
    ∃ full' lastc',
      reduce_from (chunk_step (Z.of_nat n))
        (length (concat (full ++ [lastc]))) rest (Some <$> (full ++ [lastc]))
      = Some <$> (full' ++ [lastc']) ∧
      Forall (λ c, length c = n) full' ∧ 0 < length lastc' ≤ n ∧
      concat (full' ++ [lastc']) = concat (full ++ [lastc]) ++ rest.
Proof.
  intros Hn. induction rest as [|x rest IH]; intros full lastc Hfull Hlast.
  { exists full, lastc. simpl. by rewrite app_nil_r. }
  simpl. destruct (decide (length lastc = n)) as [Heq|Hne].
  - rewrite chunk_step_full by done.
    destruct (IH (full ++ [lastc]) [x]) as (full' & lastc' & Hr & Hf & Hl & Hc).
    { apply Forall_app. split; [done|]. by apply Forall_singleton. }
    { simpl. lia. }
    exists full', lastc'. split; [|split; [done|split; [done|]]].
    + rewrite <-Hr. f_equal.
      rewrite (concat_app (full ++ [lastc])), length_app. simpl. lia.
    + rewrite Hc. rewrite (concat_app (full ++ [lastc])). simpl.
      by rewrite <-app_assoc.
  - rewrite chunk_step_part by (done || lia).
    destruct (IH full (lastc ++ [x])) as (full' & lastc' & Hr & Hf & Hl & Hc).
    { done. }
    { rewrite length_app. simpl. lia. }
    exists full', lastc'. split; [|split; [done|split; [done|]]].
    + rewrite <-Hr. f_equal.
      rewrite !concat_app, !length_app. simpl. rewrite !length_app. simpl.
      lia.
    + rewrite Hc, !concat_app. simpl. rewrite !app_nil_r.
      by rewrite <-!app_assoc.
Qed.

(** X27.  For a positive size, [chunk] cuts the array into consecutive
    chunks of that size, the last one shorter when the length is no
    multiple of the size, without holes and without an empty chunk; and
    [flatMap] with the identity puts the chunks together again. *)
Theorem chunk_then_flatMap_gives_the_array_back size this :
  (0 < size)%Z →
  ∃ chunks,
    chunk size this = Some <$> chunks ∧
    concat chunks = this ∧
    flatMap (λ c _ _, c) chunks = this ∧
    ∀ i c, chunks !! i = Some c →
      0 < length c ≤ Z.to_nat size ∧
      (i + 1 < length chunks → length c = Z.to_nat size).
Proof.
  intros Hsize.
  assert (Hn : 0 < Z.to_nat size) by lia.
  assert (Hz : size = Z.of_nat (Z.to_nat size)) by lia.
  destruct this as [|x rest].
  { exists []. repeat split; try done. }
  destruct (chunk_reduce (Z.to_nat size) rest Hn [] [x])
    as (full & lastc & Hr & Hf & Hl & Hc); [done|simpl; lia|].
  exists (full ++ [lastc]). split; [|split; [|split]].
  - unfold chunk, reduce. simpl. rewrite <-Hr. simpl. rewrite Hz at 1 2.
    f_equal. unfold chunk_step. rewrite decide_False by lia. simpl.
    rewrite Z.div_0_l by lia. done.
  - by rewrite Hc.
  - unfold flatMap, reduce. rewrite flatMap_from. simpl.
    change (x :: rest) with (concat ([] ++ [[x]]) ++ rest).
    rewrite <-Hc. f_equal. clear. generalize (full ++ [lastc]). intros l.
    induction l as [|c l IH]; [done|]. simpl. by rewrite <-IH at 2.
  - intros i c Hi. apply lookup_app_Some in Hi as [Hi|[Hge Hi]].
    + rewrite Forall_lookup in Hf. rewrite (Hf i c Hi). split; [lia|done].
    + destruct (i - length full) eqn:E; simplify_eq/=.
      split; [lia|]. rewrite length_app. simpl. lia.
Qed.

Lemma chunk_reduce_nothing size rest :
  ∀ (i : nat) acc,
    size = 0%Z ∨ (size < 0)%Z ∧ 0 < i →
    reduce_from (chunk_step size) i rest acc = acc.
Proof.
  induction rest as [|x rest IH]; intros i acc Hi; [done|]. simpl.
  rewrite IH by lia. unfold chunk_step.
  destruct (decide (size = 0%Z)) as [|Hnz]; [done|].
  assert (Hneg : (Z.of_nat i / size < 0)%Z).
  { pose proof (Z.div_mod (Z.of_nat i) size Hnz).
    pose proof (Z.mod_neg_bound (Z.of_nat i) size). nia. }
  by rewrite (proj2 (Z.ltb_lt _ _)).
Qed.

(** X28.  For the size zero [chunk] returns an empty array, and for a
    negative size an array with one chunk that holds the first element:
    the other elements are not in the result. *)
Theorem chunk_without_a_positive_size_drops_elements size this :
  (size = 0%Z → chunk size this = []) ∧
  ((size < 0)%Z → chunk size this = (λ x, Some [x]) <$> take 1 this).
Proof.
  split.
  - intros ->. unfold chunk, reduce.
    apply (chunk_reduce_nothing 0 this 0 []). by left.
  - intros Hneg. unfold chunk, reduce. destruct this as [|x rest]; [done|].
    cbn [reduce_from take fmap list_fmap].
    rewrite chunk_reduce_nothing by (right; lia).
    unfold chunk_step. rewrite decide_False by lia.
    rewrite Z.div_0_l by lia. done.
Qed.

(** *** groupBy *)

Lemma group_of_snoc (keySelector : A → string) elements key this x :
  group_of keySelector elements key (this ++ [x])
  = if decide (keySelector x = key)
    then Some (default [] (group_of keySelector elements key this)
               ++ default [x] (elements x))
    else group_of keySelector elements key this.
Proof.
  unfold group_of. rewrite filter_app, filter_cons, filter_nil.
  destruct (decide (keySelector x = key)) as [Hk|Hk].
  - destruct (filter _ this) as [|y items]; simpl.
    + by rewrite app_nil_r.
    + rewrite bind_app. simpl. by rewrite app_nil_r, app_assoc.
  - by rewrite app_nil_r.
Qed.

Lemma group_of_None (keySelector : A → string) elements key this :
  group_of keySelector elements key this = None ↔
    ∀ x, x ∈ this → keySelector x ≠ key.
Proof.
  unfold group_of. split.
  - intros Hn x Hx Hk.
    assert (Hin : x ∈ filter (λ x, keySelector x = key) this)
      by (by apply list_elem_of_filter).
    destruct (filter _ this); [by apply elem_of_nil in Hin|done].
  - intros Hno. destruct (filter _ this) as [|y items] eqn:E; [done|].
    assert (Hin : y ∈ filter (λ x, keySelector x = key) this)
      by (rewrite E; by left).
    apply list_elem_of_filter in Hin as [Hk Hy]. by destruct (Hno y Hy).
Qed.

Lemma groupBy_thrown (keySelector : A → string) elements rest :
  ∀ i, reduce_from (groupBy_step keySelector elements) i rest ThrowsTypeError
       = ThrowsTypeError.
Proof. induction rest as [|x rest IH]; intros i; [done|apply IH]. Qed.

Lemma groupBy_reduce (keySelector : A → string) elements rest :
  ∀ i done groups,
    (∀ key, groups !! key = group_of keySelector elements key done) →
    Forall (λ x, inherited (keySelector x) = false) done →
    (reduce_from (groupBy_step keySelector elements) i rest (Groups groups)
       = ThrowsTypeError ∧
     ∃ x, x ∈ rest ∧ inherited (keySelector x) = true) ∨
    (∃ groups',
       reduce_from (groupBy_step keySelector elements) i rest (Groups groups)
         = Groups groups' ∧
       (∀ key, groups' !! key
               = group_of keySelector elements key (done ++ rest)) ∧
       Forall (λ x, inherited (keySelector x) = false) rest).
Proof.
  induction rest as [|x rest IH]; intros i done groups Hg Hdone.
  { right. exists groups. rewrite app_nil_r. by split. }
  cbn [reduce_from groupBy_step].
  destruct (inherited (keySelector x)) eqn:Hin.
  - (* an inherited name: the object has no property of its own for it *)
    left. rewrite Hg.
    rewrite (proj2 (group_of_None keySelector elements (keySelector x) done)).
    + split; [apply groupBy_thrown|]. exists x. split; [by left|done].
    + intros y Hy Hk. rewrite Forall_forall in Hdone.
      specialize (Hdone y Hy). congruence.
  - set (groups1 :=
           <[keySelector x :=
               default [] (group_of keySelector elements (keySelector x) done)
               ++ default [x] (elements x)]> groups).
    assert (Hstep : (match groups !! keySelector x with
                     | Some group =>
                         Groups (<[keySelector x :=
                                     group ++ default [x] (elements x)]> groups)
                     | None =>
                         Groups (<[keySelector x :=
                                     [] ++ default [x] (elements x)]> groups)
                     end) = Groups groups1).
    { unfold groups1. rewrite <-Hg. by destruct (groups !! keySelector x). }
    rewrite Hstep.
    destruct (IH (S i) (done ++ [x]) groups1)
      as [[Hr (y & Hy & Hiy)]|(groups' & Hr & Hg' & Hrest)].
    + intros key. rewrite group_of_snoc. unfold groups1.
      destruct (decide (keySelector x = key)) as [<-|Hne].
      * by rewrite lookup_insert_eq.
      * by rewrite lookup_insert_ne.
    + apply Forall_app. split; [done|]. by apply Forall_singleton.
    + left. split; [done|]. exists y. split; [by right|done].
    + right. exists groups'. split; [done|]. split.
      * intros key. rewrite Hg'. by rewrite <-app_assoc.
      * by apply Forall_cons.
Qed.

(** X29.  [groupBy] throws a [TypeError] exactly when the key of some item
    is a name that objects inherit, such as [constructor] or [toString].
    Otherwise the object it returns has, for each key, the items with that
    key in the order of the array, an item that is itself an array
    contributing its elements instead of itself; and no property for a key
    that no item has. *)
Theorem groupBy_groups_in_order_unless_a_key_is_inherited
    (keySelector : A → string) (elements : A → option (list A)) this :
  (groupBy keySelector elements this = ThrowsTypeError ↔
     ∃ x, x ∈ this ∧ inherited (keySelector x) = true) ∧
  ∀ groups, groupBy keySelector elements this = Groups groups →
    ∀ key, groups !! key = group_of keySelector elements key this.
Proof.
  unfold groupBy, reduce.
  destruct (groupBy_reduce keySelector elements this 0 [] ∅)
    as [[Hr Hex]|(groups' & Hr & Hg & Hnone)]; [done|done| |].
  - rewrite Hr. split; [done|]. by intros groups.
  - rewrite Hr. split.
    + split; [done|]. intros (x & Hx & Hin). rewrite Forall_forall in Hnone.
      specialize (Hnone x Hx). congruence.
    + intros groups [= <-]. exact Hg.
Qed.

End Facts.

Lemma chunk_then_flatMap_gives_the_array_back_witness :
  (0 < 2)%Z ∧
  ∃ chunks,
    chunk 2 [VNum 1; VNum 2; VNum 3; VNum 4; VNum 5] = Some <$> chunks ∧
    concat chunks = [VNum 1; VNum 2; VNum 3; VNum 4; VNum 5] ∧
    flatMap (λ c _ _, c) chunks = [VNum 1; VNum 2; VNum 3; VNum 4; VNum 5] ∧
    ∀ i c, chunks !! i = Some c →
      0 < length c ≤ Z.to_nat 2 ∧
      (i + 1 < length chunks → length c = Z.to_nat 2).
Proof.
  split; [lia|].
  exact (chunk_then_flatMap_gives_the_array_back 2
           [VNum 1; VNum 2; VNum 3; VNum 4; VNum 5] eq_refl).
Defined.

End ArrayFacts.

Module StringFacts.
Import StringExt.

Lemma substring_prefix (end_ : Z) (this : js_string) :
  substring 0 end_ this = take (Z.to_nat end_) this.
Proof.
  unfold substring.
  replace (Z.to_nat (Z.min (Z.min (Z.max 0 0) (Z.of_nat (length this)))
                       (Z.min (Z.max end_ 0) (Z.of_nat (length this)))))
    with 0 by lia.
  rewrite drop_0.
  destruct (decide (Z.to_nat end_ ≤ length this)) as [Hle|Hgt].
  - f_equal. lia.
  - rewrite !take_ge; [done|lia..].
Qed.

(** X30.  [truncate] returns a string no longer than [maxLength] as it
    is.  A longer string is cut so that, with the ellipsis, it has the
    length [maxLength]; but when the ellipsis alone is longer than
    [maxLength], the result is the ellipsis, which is longer than
    [maxLength]. *)
Theorem truncate_is_longer_than_maxLength_for_a_long_ellipsis
    (maxLength : Z) (ellipsis : option js_string) (this : js_string) :
  let e := default dots ellipsis in
  let r := truncate maxLength ellipsis this in
  ((Z.of_nat (length this) ≤ maxLength)%Z → r = this) ∧
  ((maxLength < Z.of_nat (length this))%Z →
     r = take (Z.to_nat (maxLength - Z.of_nat (length e))) this ++ e ∧
     Z.of_nat (length r) = Z.max maxLength (Z.of_nat (length e))) ∧
  ((Z.of_nat (length r) ≤ maxLength)%Z ↔
     (Z.of_nat (length this) ≤ maxLength)%Z ∨
     (Z.of_nat (length e) ≤ maxLength)%Z).
Proof.
  intros e r. unfold r, truncate. fold e.
  destruct (decide (Z.of_nat (length this) ≤ maxLength)%Z) as [Hle|Hgt].
  - split; [done|]. split; [lia|]. split; [by left|done].
  - rewrite substring_prefix.
    assert (Hlen : Z.of_nat (length (take (Z.to_nat (maxLength
                     - Z.of_nat (length e))) this ++ e))
                   = Z.max maxLength (Z.of_nat (length e))).
    { rewrite length_app, length_take. lia. }
    split; [lia|]. split; [done|]. rewrite Hlen. lia.
Qed.

End StringFacts.

(** ** The task runner *)

Module TaskFacts.
Import Task.

Lemma emit_fields eventName args t :
  executed (emit eventName args t) = executed t ∧
  has_error (emit eventName args t) = has_error t ∧
  aborted (emit eventName args t) = aborted t ∧
  emitted (emit eventName args t) = emitted t ++ [(eventName, args)].
Proof. done. Qed.

(** A work function that rejects with a truthy reason: [run] marks the task
    executed and in error, emits [error] with the task and the reason as its
    last event, and rejects with the reason. *)
Lemma run_rejected_truthy steps e t :
  truthy e = true →
  ∃ t', run (Returns steps (Rejected e)) t = (t', Rejected e) ∧
        executed t' = true ∧ has_error t' = true ∧
        ∃ before, emitted t' = before ++ [("error", [this; e])].
Proof.
  intros He. unfold run. simpl. unfold element. simpl. rewrite He.
  eexists. split; [done|]. simpl. repeat split. by eexists.
Qed.

(** A work function that fulfils: the result is stored, [done] is the last
    event and no error is flagged by [run]. *)
Lemma run_fulfilled steps data t :
  ∃ t', run (Returns steps (Fulfilled data)) t = (t', Fulfilled data) ∧
        executed t' = true ∧ result t' = data ∧
        ∃ before, emitted t' = before ++ [("done", [this; data])].
Proof.
  unfold run. simpl. eexists. split; [done|]. simpl. repeat split.
  by eexists.
Qed.

(** [abort(true)] (any truthy [safe]): executed, cancellation token
    triggered, no event and no error flag. *)
Lemma abort_safe safe t :
  truthy safe = true →
  executed (abort safe t) = true ∧ aborted (abort safe t) = true ∧
  has_error (abort safe t) = has_error t ∧
  emitted (abort safe t) = emitted t ∧
  delivered (abort safe t) = delivered t.
Proof. intros H. unfold abort. by rewrite H. Qed.

(** [abort()] (any falsy [safe]): executed, in error, cancellation token
    triggered, and one [error] event with the task and a new [Error]. *)
Lemma abort_unsafe safe t :
  truthy safe = false →
  executed (abort safe t) = true ∧ aborted (abort safe t) = true ∧
  has_error (abort safe t) = true ∧
  emitted (abort safe t)
    = emitted t ++ [("error", [this; VError (errors t) "Error" "abborted"])].
Proof. intros H. unfold abort. by rewrite H. Qed.

(** C7, where the code departs from it.  A work function whose promise is
    rejected with [undefined] (as [Promise.reject()] or a bare [reject()]
    does): [run] tests the reason for truthiness, takes the rejection for a
    success, leaves the error flag unset, emits [done] and no [error], and
    fulfils with [undefined].  The listener on [error] is never called. *)
Theorem run_rejected_undefined_reports_done :
  let t0 := on "error" 1 (on "done" 0 create) in
  let '(t, outcome) := run (Returns [] (Rejected VUndefined)) t0 in
  outcome = Fulfilled VUndefined ∧
  executed t = true ∧ has_error t = false ∧
  emitted t = [("start", [this]); ("done", [this; VUndefined])] ∧
  delivered t = [(0, "done", [this; VUndefined])].
Proof. vm_compute. done. Qed.

(** The same for every falsy reason ([undefined], [null], [0], [NaN], the
    empty string, [false]). *)
Lemma run_rejected_falsy steps e t :
  truthy e = false →
  ∃ t', run (Returns steps (Rejected e)) t = (t', Fulfilled VUndefined) ∧
        has_error t' = has_error (foldl (λ t c, do_step c t)
                                    (emit "start" [this] t) steps) ∧
        ∃ before, emitted t' = before ++ [("done", [this; VUndefined])].
Proof.
  intros He. unfold run. simpl. unfold element. simpl. rewrite He.
  eexists. split; [done|]. simpl. split; [done|]. by eexists.
Qed.

(** A work function that throws before it returns a promise: [run] rejects
    with what was thrown and touches neither [_meta] nor the events after
    [start]. *)
Lemma run_handler_throws e t :
  run (Throws e) t = (emit "start" [this] t, Rejected e).
Proof. done. Qed.

End TaskFacts.

Module TaskMore.
Import Task TaskFacts.

(** *** The listener sets of a task *)

Lemma task_listeners_on eventName listener t e :
  listeners e (on eventName listener t) =
    if decide (e = eventName)
    then (if decide (listener ∈ listeners eventName t)
          then listeners eventName t
          else listeners eventName t ++ [listener])
    else listeners e t.
Proof.
  unfold listeners, on. simpl. destruct (decide (e = eventName)) as [->|Hd].
  - by rewrite lookup_insert_eq.
  - by rewrite lookup_insert_ne.
Qed.

Lemma on_fields eventName listener t :
  delivered (on eventName listener t) = delivered t ∧
  emitted (on eventName listener t) = emitted t.
Proof. done. Qed.

Lemma register_snoc rs r t :
  register (rs ++ [r]) t = on r.1 r.2 (register rs t).
Proof. unfold register. by rewrite foldl_app. Qed.

Lemma register_fields rs t :
  delivered (register rs t) = delivered t ∧
  emitted (register rs t) = emitted t.
Proof.
  induction rs as [|r rs IH] using rev_ind; [done|].
  rewrite register_snoc. destruct IH as [<- <-]. apply on_fields.
Qed.

Lemma listeners_register rs e :
  listeners e (register rs create) =
    reverse (remove_dups (reverse (snd <$> filter (λ r, r.1 = e) rs))).
Proof.
  induction rs as [|[e' l] rs IH] using rev_ind.
  - by rewrite filter_nil.
  - rewrite register_snoc, task_listeners_on, filter_app, filter_cons, filter_nil.
    simpl. destruct (decide (e' = e)) as [->|Hd].
    + rewrite decide_True by done.
      rewrite fmap_app, reverse_app. simpl. rewrite IH.
      set (X := reverse (filter (λ r : string * nat, r.1 = e) rs).*2).
      destruct (decide_rel elem_of l X) as [HX|HX].
      * rewrite decide_True; [done|].
        by rewrite elem_of_reverse, elem_of_remove_dups.
      * rewrite decide_False.
        -- by rewrite reverse_cons.
        -- by rewrite elem_of_reverse, elem_of_remove_dups.
    + rewrite decide_False by done. by rewrite app_nil_r.
Qed.


(** *** The flags of a task *)

Lemma emit_flags eventName args t :
  executed (emit eventName args t) = executed t ∧
  has_error (emit eventName args t) = has_error t ∧
  aborted (emit eventName args t) = aborted t.
Proof. done. Qed.

Lemma abort_flags safe t :
  (executed t = true → executed (abort safe t) = true) ∧
  (has_error t = true → has_error (abort safe t) = true) ∧
  (aborted t = true → aborted (abort safe t) = true) ∧
  ∃ evs, emitted (abort safe t) = emitted t ++ evs.
Proof.
  unfold abort. destruct (truthy safe); simpl.
  - repeat split; try done. exists []. by rewrite app_nil_r.
  - repeat split; try done. by eexists.
Qed.

Lemma do_step_flags c t :
  (executed t = true → executed (do_step c t) = true) ∧
  (has_error t = true → has_error (do_step c t) = true) ∧
  (aborted t = true → aborted (do_step c t) = true) ∧
  ∃ evs, emitted (do_step c t) = emitted t ++ evs.
Proof.
  destruct c as [payload|safe]; [|apply abort_flags].
  simpl. repeat split; try done. by eexists.
Qed.

Lemma steps_flags steps :
  ∀ t, let t' := foldl (λ t c, do_step c t) t steps in
    (executed t = true → executed t' = true) ∧
    (has_error t = true → has_error t' = true) ∧
    (aborted t = true → aborted t' = true) ∧
    ∃ evs, emitted t' = emitted t ++ evs.
Proof.
  induction steps as [|c steps IH]; intros t; simpl.
  - repeat split; try done. exists []. by rewrite app_nil_r.
  - destruct (do_step_flags c t) as (H1 & H2 & H3 & evs1 & H4).
    destruct (IH (do_step c t)) as (H1' & H2' & H3' & evs2 & H4').
    repeat split; auto. exists (evs1 ++ evs2). by rewrite H4', H4, app_assoc.
Qed.

(** X16.  The flags of a task are never reset: whatever the work function
    does and however [run] ends, a task that was executed, in error or
    aborted still is afterwards, and [run] only adds to the events
    emitted. *)
Theorem task_flags_are_never_reset h t :
  let t' := (run h t).1 in
  (executed t = true → executed t' = true) ∧
  (has_error t = true → has_error t' = true) ∧
  (aborted t = true → aborted t' = true) ∧
  ∃ evs, emitted t' = emitted t ++ ("start", [this]) :: evs.
Proof.
  destruct h as [e|steps promise]; simpl.
  { repeat split; try done. by exists []. }
  destruct (steps_flags steps (emit "start" [this] t))
    as (H1 & H2 & H3 & evs & H4).
  simpl in H1, H2, H3, H4.
  destruct promise as [data|error]; simpl.
  - repeat split; auto. exists (evs ++ [("done", [this; data])]).
    rewrite H4, <-!app_assoc. done.
  - unfold element. simpl. destruct (truthy error); simpl.
    + repeat split; auto. exists (evs ++ [("error", [this; error])]).
      rewrite H4, <-!app_assoc. done.
    + repeat split; auto. exists (evs ++ [("done", [this; VUndefined])]).
      rewrite H4, <-!app_assoc. done.
Qed.

Lemma task_flags_are_never_reset_witness :
  let t := abort VUndefined create in
  has_error t = true ∧
  has_error (run (Returns [] (Fulfilled (VNum 1))) t).1 = true.
Proof.
  intros t. assert (H : has_error t = true) by reflexivity.
  split; [exact H|].
  exact (proj1 (proj2 (task_flags_are_never_reset
                         (Returns [] (Fulfilled (VNum 1))) t)) H).
Defined.

(** X17.  A work function that aborts its own task without [safe] and then
    returns, as the work function of index.ts does: [run] fulfils with the
    result, and the task is left in error and aborted, with an [error]
    event for the abort followed, at the end, by a [done] event. *)
Theorem aborted_task_that_returns_is_done steps1 safe steps2 data t :
  truthy safe = false →
  let h := Returns (steps1 ++ Abort safe :: steps2) (Fulfilled data) in
  (run h t).2 = Fulfilled data ∧
  executed (run h t).1 = true ∧ has_error (run h t).1 = true ∧
  aborted (run h t).1 = true ∧ result (run h t).1 = data ∧
  ∃ id before between,
    emitted (run h t).1 =
      before ++ ("error", [this; VError id "Error" "abborted"]) :: between
      ++ [("done", [this; data])].
Proof.
  intros Hsafe h. unfold h, run. simpl. rewrite foldl_app. simpl.
  set (t1 := foldl (λ t c, do_step c t) (emit "start" [this] t) steps1).
  assert (Hab : has_error (abort safe t1) = true ∧
                aborted (abort safe t1) = true ∧
                emitted (abort safe t1) =
                  emitted t1
                  ++ [("error", [this; VError (errors t1) "Error" "abborted"])]).
  { unfold abort. by rewrite Hsafe. }
  destruct Hab as (Hab1 & Hab2 & Hab3).
  destruct (steps_flags steps2 (abort safe t1)) as (_ & H2 & H3 & evs & H4).
  simpl in H2, H3, H4.
  repeat split; auto.
  exists (errors t1), (emitted t1), evs.
  rewrite H4, Hab3, <-!app_assoc. done.
Qed.

Lemma aborted_task_that_returns_is_done_witness :
  let h := Returns ([EmitData (VStr "tick")] ++ Abort VUndefined :: [])
             (Fulfilled VUndefined) in
  truthy VUndefined = false ∧
  (run h create).2 = Fulfilled VUndefined ∧
  has_error (run h create).1 = true ∧
  emitted (run h create).1 =
    [("start", [this]); ("data", [VStr "tick"]);
     ("error", [this; VError 0 "Error" "abborted"]);
     ("done", [this; VUndefined])].
Proof.
  intros h.
  pose proof (aborted_task_that_returns_is_done [EmitData (VStr "tick")]
                VUndefined [] VUndefined create eq_refl)
    as (H1 & _ & H3 & _).
  split; [reflexivity|]. split; [exact H1|]. split; [exact H3|].
  reflexivity.
Defined.

(** *** The outcome of [run] *)


(** *** catchError *)

(** X19.  [catchError] turns the outcome of a promise into a tuple: for a
    fulfilled promise the tuple [[undefined, data]]; for a rejected one the
    tuple [[error]] when no classes are given or the reason is an instance
    of one of them.  It rejects, with the same reason, only when classes
    are given and the reason is an instance of none (in particular always
    for an empty list of classes). *)
Theorem catchError_rejects_only_unlisted_errors promise errors e :
  catchError promise errors = Rejected e ↔
    promise = Rejected e ∧
    ∃ es, errors = Some es ∧ Forall (λ c, c e = false) es.
Proof.
  destruct promise as [data|error]; simpl.
  { split; [done|]. by intros [[=] _]. }
  destruct errors as [es|]; simpl.
  - destruct (existsb (λ c, c error) es) eqn:Hex.
    + split; [done|]. intros [[= ->] (es' & [= <-] & Hall)].
      apply existsb_exists in Hex as (c & Hc & Hce).
      rewrite Forall_forall in Hall.
      apply list_elem_of_In in Hc. rewrite (Hall c Hc) in Hce. done.
    + split.
      * intros [= ->]. split; [done|]. exists es. split; [done|].
        apply Forall_forall. intros c Hc.
        destruct (c e) eqn:Hce; [|done].
        assert (existsb (λ c, c e) es = true); [|congruence].
        apply existsb_exists. exists c. by rewrite <-list_elem_of_In.
      * by intros [[= ->] _].
  - split; [done|]. by intros [_ (es & [=] & _)].
Qed.

End TaskMore.

(** ** Observable values, computed values, effects, signals and batches *)

Module ReactiveFacts.
Import Reactive.

(** The step that records no event. *)
Ltac no_events := exists []; by rewrite app_nil_r.

(** *** Objects and listeners under updates *)

Lemma listeners_valid o l w : l ∈ listeners o w → o < length (heap w).
Proof.
  unfold listeners. destruct (heap w !! o) as [ob|] eqn:E.
  - intros _. by apply lookup_lt_Some in E.
  - simpl. by intros ?%elem_of_nil.
Qed.

Lemma listeners_lookup o ob w :
  heap w !! o = Some ob → listeners o w = default [] (_emitter ob).
Proof. unfold listeners. by intros ->. Qed.

Lemma shape_length w w' : shape w' = shape w → length (heap w') = length (heap w).
Proof.
  unfold shape. intros H. apply (f_equal length) in H.
  by rewrite !length_fmap in H.
Qed.

Lemma shape_lookup w w' a ob :
  shape w' = shape w → heap w !! a = Some ob →
  ∃ ob', heap w' !! a = Some ob' ∧ _emitter ob' = _emitter ob ∧
         is_signal ob' = is_signal ob.
Proof.
  unfold shape. intros H Ha.
  apply (f_equal (λ l, l !! a)) in H. rewrite !list_lookup_fmap, Ha in H.
  destruct (heap w' !! a) as [ob'|]; simpl in H; [|done].
  exists ob'. by simplify_eq.
Qed.

Lemma shape_listeners w w' a : shape w' = shape w → listeners a w' = listeners a w.
Proof.
  intros H. unfold listeners.
  destruct (heap w !! a) as [ob|] eqn:Ha.
  - destruct (shape_lookup _ _ _ _ H Ha) as (ob' & -> & He & _). simpl.
    by rewrite He.
  - apply lookup_ge_None in Ha. rewrite <-(shape_length _ _ H) in Ha.
    apply lookup_ge_None in Ha. by rewrite Ha.
Qed.

Lemma shape_alter f o w :
  (∀ ob, _emitter (f ob) = _emitter ob ∧ is_signal (f ob) = is_signal ob) →
  shape (set_heap (alter f o (heap w)) w) = shape w.
Proof.
  intros Hf. unfold shape. simpl. apply list_eq. intros a.
  rewrite !list_lookup_fmap.
  destruct (decide (o = a)) as [->|Hne].
  - rewrite list_lookup_alter_eq. destruct (heap w !! a) as [ob|]; [|done].
    simpl. destruct (Hf ob) as [-> ->]. done.
  - by rewrite list_lookup_alter_ne.
Qed.

Lemma shape_set__value o v w : shape (set__value o v w) = shape w.
Proof. by apply shape_alter. Qed.

Lemma shape_record e w : shape (record e w) = shape w.
Proof. done. Qed.

Lemma WF_shape w w' :
  WF w → shape w' = shape w →
  Forall (λ o, o < length (heap w')) (updateQueue w') → WF w'.
Proof.
  intros [H1 H2 H3] Hs Hq. split; [| |done].
  - intros o l. rewrite (shape_listeners _ _ _ Hs), (shape_length _ _ Hs).
    apply H1.
  - intros o1 l1 o2 l2. rewrite !(shape_listeners _ _ _ Hs). apply H2.
Qed.

(** *** Well-formed worlds *)

Lemma WF_listeners_eq w w' :
  WF w → (∀ o, listeners o w' = listeners o w) →
  length (heap w') = length (heap w) → updateQueue w' = updateQueue w →
  WF w'.
Proof.
  intros [H1 H2 H3] Hl Hn Hq. split.
  - intros o l. rewrite Hl, Hn. apply H1.
  - intros o1 l1 o2 l2. rewrite !Hl. apply H2.
  - by rewrite Hn, Hq.
Qed.

Lemma WF_empty : WF empty_world.
Proof.
  split; simpl; [| |done].
  - intros o l. unfold listeners. simpl. by intros ?%elem_of_nil.
  - intros o1 l1 o2 l2. unfold listeners. simpl. by intros ?%elem_of_nil.
Qed.

Lemma listener_ok_mono n n' o l : n ≤ n' → listener_ok n o l → listener_ok n' o l.
Proof. destruct l; simpl; [done| |done]. intros ? (? & ? & ?). repeat split; [done|lia|done]. Qed.

Lemma listeners_new v w o :
  listeners o (new_ObservableValue v w).2 = listeners o w.
Proof.
  unfold listeners. simpl.
  destruct (decide (o < length (heap w))) as [Hlt|Hge].
  - by rewrite lookup_app_l.
  - rewrite lookup_app_r by lia. rewrite (lookup_ge_None_2 (heap w)) by lia.
    by destruct (o - length (heap w)) as [|[|?]].
Qed.

Lemma WF_new v w : WF w → WF (new_ObservableValue v w).2.
Proof.
  intros [H1 H2 H3]. split.
  - intros o l. rewrite listeners_new. intros Hl.
    eapply listener_ok_mono; [|by apply H1]. simpl. rewrite length_app. lia.
  - intros o1 l1 o2 l2. rewrite !listeners_new. apply H2.
  - simpl. rewrite length_app. eapply Forall_impl; [done|]. simpl. lia.
Qed.

Lemma listeners_set_emitter o ob e w o' :
  heap w !! o = Some ob →
  listeners o' (set_emitter o e w) =
    if decide (o' = o) then default [] e else listeners o' w.
Proof.
  intros Hob. unfold listeners. simpl. case_decide as Hd.
  - subst o'. by rewrite list_lookup_alter_eq, Hob.
  - by rewrite list_lookup_alter_ne.
Qed.

Lemma listeners_subscribe o ob l w o' :
  heap w !! o = Some ob →
  listeners o' (subscribe o l w) =
    if decide (o' = o) then listeners o w ++ [l] else listeners o' w.
Proof.
  intros Hob. unfold subscribe. rewrite Hob.
  rewrite (listeners_set_emitter o ob) by done.
  case_decide; [|done]. by rewrite (listeners_lookup o ob).
Qed.

Lemma subscribe_invalid o l w : heap w !! o = None → subscribe o l w = w.
Proof. unfold subscribe. by intros ->. Qed.

Lemma subscribe_fields o l w :
  length (heap (subscribe o l w)) = length (heap w) ∧
  updateQueue (subscribe o l w) = updateQueue w ∧
  isBatching (subscribe o l w) = isBatching w ∧
  allocated (subscribe o l w) = allocated w ∧
  trace (subscribe o l w) = trace w.
Proof.
  unfold subscribe. destruct (heap w !! o); [|done]. simpl.
  by rewrite length_alter.
Qed.

Lemma subscribe_values o l w a :
  value_of <$> heap (subscribe o l w) !! a = value_of <$> heap w !! a.
Proof.
  unfold subscribe. destruct (heap w !! o) as [ob|] eqn:Hob; [|done]. simpl.
  destruct (decide (o = a)) as [->|Hne].
  - by rewrite list_lookup_alter_eq, Hob.
  - by rewrite list_lookup_alter_ne.
Qed.

Lemma WF_subscribe o l w :
  WF w → listener_ok (length (heap w)) o l →
  (∀ o2 l2, l2 ∈ listeners o2 w → same_computed l l2 ∧ same_computed l2 l) →
  same_computed l l →
  WF (subscribe o l w).
Proof.
  intros Hwf Hok Hsame Hself.
  destruct (heap w !! o) as [ob|] eqn:Hob.
  2:{ by rewrite subscribe_invalid. }
  destruct (subscribe_fields o l w) as (Hn & Hq & _).
  destruct Hwf as [H1 H2 H3]. split.
  - intros o' l'. rewrite (listeners_subscribe o ob) by done. rewrite Hn.
    case_decide as Hd; [subst o'|by apply H1].
    intros [Hl| ->%list_elem_of_singleton]%elem_of_app; [by apply H1|done].
  - intros o1 l1 o2 l2. rewrite !(listeners_subscribe o ob) by done.
    intros Hl1 Hl2.
    assert (Hin : ∀ o' l', l' ∈ (if decide (o' = o) then listeners o w ++ [l]
                                 else listeners o' w) →
                           l' = l ∨ ∃ o'', l' ∈ listeners o'' w).
    { intros o' l'. destruct (decide (o' = o)); [|by eauto].
      intros [Hl| ->%list_elem_of_singleton]%elem_of_app; eauto. }
    destruct (Hin _ _ Hl1) as [->|[o1' Hl1']], (Hin _ _ Hl2) as [->|[o2' Hl2']].
    + done.
    + by apply (Hsame o2').
    + by apply (Hsame o1').
    + by eapply H2.
  - by rewrite Hn, Hq.
Qed.

Lemma WF_subscribe_UserFn o f w : WF w → WF (subscribe o (UserFn f) w).
Proof.
  intros Hwf. apply WF_subscribe; try done. intros o2 l2 _. by destruct l2.
Qed.

Lemma WF_subscribe_ExecuteCallback o uid cb w :
  WF w → WF (subscribe o (ExecuteCallback uid cb) w).
Proof.
  intros Hwf. apply WF_subscribe; try done. intros o2 l2 _. by destruct l2.
Qed.

Lemma WF_fresh w : WF w → WF (fresh w).2.
Proof. intros Hwf. by apply (WF_listeners_eq w). Qed.

Lemma listeners_set_currentValue o v w o' :
  listeners o' (set_currentValue o v w) = listeners o' w.
Proof.
  unfold listeners. simpl. destruct (decide (o = o')) as [->|Hne].
  - rewrite list_lookup_alter_eq. by destruct (heap w !! o').
  - by rewrite list_lookup_alter_ne.
Qed.

Lemma WF_set_currentValue o v w : WF w → WF (set_currentValue o v w).
Proof.
  intros Hwf. apply (WF_listeners_eq w); [done| | |done].
  - intros o'. apply listeners_set_currentValue.
  - simpl. by rewrite length_alter.
Qed.

Lemma WF_signal v w : WF w → WF (signal v w).2.
Proof.
  intros Hwf. unfold signal.
  destruct (new_ObservableValue v w) as [o w1] eqn:E. simpl.
  apply WF_set_currentValue. change w1 with (o, w1).2. rewrite <-E.
  by apply WF_new.
Qed.

Lemma WF_signal_of o w w' r :
  WF w → signal_of o w = Some (w', r) → WF w'.
Proof.
  intros Hwf H. unfold signal_of in H.
  destruct (heap w !! o) as [ob|]; simpl in H; [|done].
  destruct (currentValue ob); simplify_eq.
  - by apply (WF_listeners_eq w).
  - by apply WF_set_currentValue.
Qed.

Lemma WF_set_isBatching b w : WF w → WF (set_isBatching b w).
Proof. intros Hwf. by apply (WF_listeners_eq w). Qed.

Lemma WF_record e w : WF w → WF (record e w).
Proof. intros Hwf. by apply (WF_listeners_eq w). Qed.

Lemma WF_clear_queue w : WF w → WF (set_updateQueue [] w).
Proof. intros [H1 H2 H3]. split; [done|done|]. simpl. constructor. Qed.

Create HintDb wf discriminated.
#[local] Hint Resolve WF_empty WF_new WF_signal WF_subscribe_UserFn
  WF_subscribe_ExecuteCallback WF_fresh WF_set_currentValue
  WF_set_isBatching WF_record WF_clear_queue : wf.

Lemma listeners_unsubscribe o l w o' :
  listeners o' (unsubscribe o l w) ⊆ listeners o' w.
Proof.
  unfold unsubscribe. destruct (heap w !! o) as [ob|] eqn:Hob; [|done].
  rewrite (listeners_set_emitter o ob) by done.
  destruct (decide (o' = o)) as [->|]; [|done].
  rewrite (listeners_lookup o ob) by done. unfold off.
  destruct (_emitter ob) as [ls|]; [|done]. simpl.
  case_decide; simpl; [|by intros x ?%elem_of_nil].
  intros x Hx. by apply list_elem_of_filter in Hx as [_ Hx].
Qed.

Lemma WF_unsubscribe o l w : WF w → WF (unsubscribe o l w).
Proof.
  intros [H1 H2 H3].
  assert (Hn : length (heap (unsubscribe o l w)) = length (heap w)).
  { unfold unsubscribe. destruct (heap w !! o); [|done]. simpl.
    by rewrite length_alter. }
  assert (Hq : updateQueue (unsubscribe o l w) = updateQueue w).
  { unfold unsubscribe. by destruct (heap w !! o). }
  split.
  - intros o' l' Hl'. rewrite Hn. by apply H1, (listeners_unsubscribe o l).
  - intros o1 l1 o2 l2 Hl1 Hl2.
    by eapply H2; eapply (listeners_unsubscribe o l).
  - by rewrite Hn, Hq.
Qed.

Lemma WF_unsubscribe_all us w : WF w → WF (unsubscribe_all us w).
Proof.
  revert w. induction us as [|[o l] us IH]; intros w Hwf; [done|].
  simpl. by apply IH, WF_unsubscribe.
Qed.

Lemma WF_subscribe_dependencies l items :
  match l with Recompute _ _ _ _ => False | _ => True end →
  ∀ acc w, WF w → WF (subscribe_dependencies l items acc w).1.
Proof.
  intros Hl. induction items as [|[o|v] items IH]; intros acc w Hwf; simpl.
  - done.
  - apply IH. apply WF_subscribe; try done.
    + by destruct l.
    + intros o2 l2 _. by destruct l, l2.
    + by destruct l.
  - by apply (WF_listeners_eq w).
Qed.

Lemma WF_effect callback deps w : WF w → WF (effect callback deps w).1.
Proof.
  intros Hwf. destruct deps as [v|[|d items]].
  - by apply (WF_listeners_eq w).
  - done.
  - change (effect callback (Array (d :: items)) w)
      with (subscribe_dependencies (ExecuteCallback (allocated w) callback)
              (d :: items) [] (fresh w).2).
    by apply WF_subscribe_dependencies, WF_fresh.
Qed.

Lemma computed_by_known os f c w o uid :
  WF w → Recompute uid os f c ∈ listeners o w → computed_by os f c w.
Proof.
  intros Hwf Hl o' uid' os' f' Hl'.
  destruct (wf_computed _ Hwf _ _ _ _ Hl' Hl eq_refl) as [-> ->]. done.
Qed.

Lemma subscribe_sources_cons os f c obs todo w :
  subscribe_sources os f c (obs :: todo) w =
    ((obs, Recompute (allocated w) os f c) ::
       (subscribe_sources os f c todo
          (subscribe obs (Recompute (allocated w) os f c) (fresh w).2)).1,
     (subscribe_sources os f c todo
        (subscribe obs (Recompute (allocated w) os f c) (fresh w).2)).2).
Proof. simpl. by destruct (subscribe_sources _ _ _ _ _). Qed.

Lemma subscribe_sources_WF os f c todo :
  ∀ w us w',
    WF w → c < length (heap w) → Forall (λ s, s < c) os →
    Forall (λ s, s < c) todo → computed_by os f c w →
    subscribe_sources os f c todo w = (us, w') →
    WF w' ∧ length (heap w') = length (heap w) ∧ computed_by os f c w'.
Proof.
  induction todo as [|obs todo IH]; intros w us w' Hwf Hc Hos Htodo Hby Hs.
  - simpl in Hs. by simplify_eq.
  - apply Forall_cons in Htodo as [Hobs Htodo].
    rewrite subscribe_sources_cons in Hs.
    set (l := Recompute (allocated w) os f c) in *.
    set (w1 := subscribe obs l (fresh w).2) in *.
    destruct (subscribe_sources os f c todo w1) as [us' w2] eqn:E.
    simpl in Hs. simplify_eq.
    destruct (subscribe_fields obs l (fresh w).2) as (Hn & _).
    destruct (lookup_lt_is_Some_2 (heap (fresh w).2) obs) as [ob Hob];
      [simpl; lia|].
    assert (Hby1 : computed_by os f c w1).
    { intros o uid os' f'. unfold w1.
      rewrite (listeners_subscribe obs ob) by done.
      destruct (decide (o = obs)); [|by apply Hby].
      intros [Hl|Hl%list_elem_of_singleton]%elem_of_app; [by eapply Hby|].
      unfold l in Hl. by simplify_eq. }
    destruct (IH w1 us' w') as (Hwf' & Hn' & Hby'); try done.
    + apply WF_subscribe; [by apply WF_fresh| | |done].
      * simpl. repeat split; [done|done|done].
      * intros o2 l2 Hl2. destruct l2 as [|uid2 os2 f2 c2|]; try done.
        simpl. split; intros <-.
        -- by destruct (Hby _ _ _ _ Hl2).
        -- by destruct (Hby _ _ _ _ Hl2).
    + unfold w1. by rewrite Hn.
    + split; [done|]. split; [|done]. unfold w1 in Hn'. by rewrite Hn', Hn.
Qed.

Lemma mapM_get_value_valid (os : list nat) w vals :
  mapM (λ s, get_value s w) os = Some vals →
  Forall (λ s, s < length (heap w)) os.
Proof.
  intros H. assert (Hs : is_Some (mapM (λ s, get_value s w) os)) by eauto.
  apply mapM_is_Some in Hs. eapply Forall_impl; [done|].
  intros s [v Hv]. simpl in Hv. unfold get_value in Hv.
  destruct (heap w !! s) as [ob|] eqn:Hob; [|done].
  by apply lookup_lt_Some in Hob.
Qed.

Lemma WF_computed os f w c us w' :
  WF w → computed os f w = Some (c, us, w') →
  WF w' ∧ c = length (heap w) ∧ length (heap w') = S (length (heap w)) ∧
  computed_by os f c w'.
Proof.
  intros Hwf H. unfold computed in H.
  destruct (mapM _ os) as [vals|] eqn:Hvals; simpl in H; [|done].
  apply mapM_get_value_valid in Hvals.
  destruct (subscribe_sources os f (length (heap w)) os
              (set_heap _ w)) as [us' w2] eqn:E.
  simplify_eq.
  apply subscribe_sources_WF in E as (Hwf' & Hn & Hby); try done.
  - split; [done|]. split; [done|]. split; [|done].
    rewrite Hn. simpl. rewrite length_app. simpl. lia.
  - by apply (WF_new (f vals)).
  - simpl. rewrite length_app. simpl. lia.
  - intros o uid os' f'.
    change (set_heap _ w) with (new_ObservableValue (f vals) w).2.
    rewrite listeners_new. intros Hl.
    pose proof (wf_listeners _ Hwf _ _ Hl) as (_ & Hlt & _). lia.
Qed.

(** *** The order of the listeners *)

Lemma ordered_snoc ls l :
  ordered ls → Forall (λ l', before l' l) ls → ordered (ls ++ [l]).
Proof.
  induction ls as [|l0 ls IH]; simpl.
  - by split.
  - intros [H0 Hls] [Hb Hall]%Forall_cons. split; [|by apply IH].
    apply Forall_app. split; [done|]. by apply Forall_singleton.
Qed.

Lemma ordered_filter (P : Listener → Prop) `{∀ l, Decision (P l)} ls :
  ordered ls → ordered (filter P ls).
Proof.
  induction ls as [|l ls IH]; [done|]. intros [Hl Hls].
  rewrite filter_cons. destruct (decide (P l)); [|by apply IH].
  split; [|by apply IH]. apply Forall_forall. intros l' Hl'.
  apply list_elem_of_filter in Hl' as [_ Hl'].
  by eapply Forall_forall in Hl.
Qed.

Lemma Ordered_listeners_eq w w' :
  (∀ o, listeners o w' = listeners o w) → Ordered w → Ordered w'.
Proof. intros Hl Ho o. rewrite Hl. apply Ho. Qed.

Lemma Ordered_empty : Ordered empty_world.
Proof. intros o. by unfold listeners. Qed.

Lemma Ordered_new v w : Ordered w → Ordered (new_ObservableValue v w).2.
Proof. apply Ordered_listeners_eq. intros o. apply listeners_new. Qed.

Lemma Ordered_set_currentValue o v w :
  Ordered w → Ordered (set_currentValue o v w).
Proof.
  apply Ordered_listeners_eq. intros o'. apply listeners_set_currentValue.
Qed.

Lemma Ordered_subscribe o l w :
  Ordered w → Forall (λ l', before l' l) (listeners o w) →
  Ordered (subscribe o l w).
Proof.
  intros Ho Hb o'. destruct (heap w !! o) as [ob|] eqn:Hob.
  - rewrite (listeners_subscribe o ob) by done.
    destruct (decide (o' = o)) as [->|]; [|apply Ho].
    by apply ordered_snoc.
  - rewrite subscribe_invalid by done. apply Ho.
Qed.

Lemma Ordered_subscribe_observer o l w :
  target l = None → Ordered w → Ordered (subscribe o l w).
Proof.
  intros Hl Ho. apply Ordered_subscribe; [done|].
  apply Forall_forall. intros l' _. unfold before. rewrite Hl.
  by destruct (target l').
Qed.

Lemma Ordered_unsubscribe o l w : Ordered w → Ordered (unsubscribe o l w).
Proof.
  intros Ho o'. unfold unsubscribe.
  destruct (heap w !! o) as [ob|] eqn:Hob; [|apply Ho].
  rewrite (listeners_set_emitter o ob) by done.
  destruct (decide (o' = o)) as [->|]; [|apply Ho].
  specialize (Ho o). rewrite (listeners_lookup o ob) in Ho by done.
  unfold off. destruct (_emitter ob) as [ls|]; [|done]. simpl in *.
  case_decide; [|done]. simpl. by apply ordered_filter.
Qed.

(** The closures [computed] subscribes write the newest observable, so they
    may come last everywhere. *)
Lemma subscribe_sources_Ordered os f c todo :
  ∀ w us w',
    (∀ o l c', l ∈ listeners o w → target l = Some c' → c' ≤ c) →
    Ordered w →
    subscribe_sources os f c todo w = (us, w') →
    Ordered w'.
Proof.
  induction todo as [|obs todo IH]; intros w us w' Hle Ho Hs.
  - simpl in Hs. by simplify_eq.
  - rewrite subscribe_sources_cons in Hs.
    set (l := Recompute (allocated w) os f c) in *.
    set (w1 := subscribe obs l (fresh w).2) in *.
    destruct (subscribe_sources os f c todo w1) as [us' w2] eqn:E.
    simpl in Hs. simplify_eq.
    assert (Hb : Forall (λ l', before l' l) (listeners obs (fresh w).2)).
    { apply Forall_forall. intros l' Hl'. unfold before.
      destruct (target l') as [c'|] eqn:Ht; [|done]. simpl.
      by apply (Hle obs l'). }
    apply (IH w1 us' w'); [|by apply Ordered_subscribe|done].
    intros o l' c' Hl' Ht. unfold w1 in Hl'.
    destruct (heap (fresh w).2 !! obs) as [ob|] eqn:Hob.
    + rewrite (listeners_subscribe obs ob) in Hl' by done.
      destruct (decide (o = obs)) as [->|]; [|by eapply Hle].
      apply elem_of_app in Hl' as [Hl'|Hl'%list_elem_of_singleton];
        [by eapply Hle|].
      subst l'. simpl in Ht. by simplify_eq.
    + rewrite subscribe_invalid in Hl' by done. by eapply Hle.
Qed.

Lemma Ordered_computed os f w c us w' :
  WF w → Ordered w → computed os f w = Some (c, us, w') → Ordered w'.
Proof.
  intros Hwf Ho H. unfold computed in H.
  destruct (mapM _ os) as [vals|] eqn:Hvals; simpl in H; [|done].
  destruct (subscribe_sources os f (length (heap w)) os
              (set_heap _ w)) as [us' w2] eqn:E.
  simplify_eq. eapply subscribe_sources_Ordered; [| |done].
  - intros o l c'.
    change (set_heap _ w) with (new_ObservableValue (f vals) w).2.
    rewrite listeners_new. intros Hl Ht.
    pose proof (wf_listeners _ Hwf _ _ Hl) as Hok.
    destruct l; simplify_eq/=. lia.
  - by apply (Ordered_new (f vals)).
Qed.

(** *** The frame of a write *)

Lemma above_mono o o' e : o ≤ o' → above o' e → above o e.
Proof. destruct e; simpl; lia. Qed.

Lemma frame_refl o w : frame o w w.
Proof.
  split; try done.
  - no_events.
  - auto.
Qed.

Lemma frame_mono o o' w w' : o ≤ o' → frame o' w w' → frame o w w'.
Proof.
  intros Hle [H1 H2 H3 H4 (evs & H5 & H5') H6 H7]. split; try done.
  - intros a Ha. apply H2. lia.
  - exists evs. split; [done|].
    eapply Forall_impl; [done|]. intros e. by apply above_mono.
Qed.

Lemma frame_trans o w1 w2 w3 : frame o w1 w2 → frame o w2 w3 → frame o w1 w3.
Proof.
  intros [A1 A2 A3 A4 (evs1 & A5 & A5') A6 A7]
         [B1 B2 B3 B4 (evs2 & B5 & B5') B6 B7].
  split.
  - congruence.
  - intros a Ha. rewrite B2, A2 by done. done.
  - congruence.
  - congruence.
  - exists (evs1 ++ evs2). rewrite B5, A5, app_assoc. split; [done|].
    by apply Forall_app.
  - intros Hb. rewrite B6, A6 by congruence. done.
  - intros a Ha. destruct (B7 a Ha) as [Hq|Hlt].
    + by apply A7.
    + right. by rewrite <-(shape_length _ _ A1).
Qed.

Lemma frame_WF o w w' : WF w → frame o w w' → WF w'.
Proof.
  intros Hwf Hf. apply (WF_shape w); [done|apply Hf|].
  apply Forall_forall. intros a Ha.
  rewrite (shape_length _ _ (frame_shape _ _ _ Hf)).
  destruct (frame_queue _ _ _ Hf a Ha) as [Hq|]; [|done].
  destruct Hwf as [_ _ H3]. by eapply Forall_forall in H3.
Qed.

Lemma frame_record o e w : above o e → frame o w (record e w).
Proof.
  intros He. split; try done.
  - exists [e]. split; [done|]. by apply Forall_singleton.
  - auto.
Qed.

Lemma frame_called o l nv vw w : frame o w (record (Called o l nv vw) w).
Proof. apply frame_record. simpl. lia. Qed.

Lemma frame_emit o nv w : frame o w (record (Emit o nv) w).
Proof. apply frame_record. simpl. lia. Qed.

Lemma frame_set__value o v w : frame o w (set__value o v w).
Proof.
  split; try done.
  - apply shape_set__value.
  - intros a Ha. simpl. apply list_lookup_alter_ne. lia.
  - no_events.
  - auto.
Qed.

Lemma frame_set_currentValue o v w ob :
  heap w !! o = Some ob → is_signal ob = true →
  frame o w (set_currentValue o v w).
Proof.
  intros Hob Hsig. split; try done.
  - unfold shape. simpl. apply list_eq. intros a. rewrite !list_lookup_fmap.
    destruct (decide (o = a)) as [<-|Hne].
    + rewrite list_lookup_alter_eq, Hob. simpl. by rewrite Hsig.
    + by rewrite list_lookup_alter_ne.
  - intros a Ha. simpl. apply list_lookup_alter_ne. lia.
  - no_events.
  - auto.
Qed.

Lemma mapM_get_value_total (os : list nat) w c :
  Forall (λ s, s < c) os → c ≤ length (heap w) →
  is_Some (mapM (λ s, get_value s w) os).
Proof.
  intros Hos Hc. apply mapM_is_Some. eapply Forall_impl; [done|].
  intros s Hs. simpl in *. unfold get_value.
  destruct (heap w !! s) as [ob|] eqn:E; [by eexists|].
  apply lookup_ge_None in E. lia.
Qed.

(** *** Observations on events *)

Lemma since_app w w' evs : trace w' = trace w ++ evs → since w w' = evs.
Proof. unfold since. intros ->. by rewrite drop_app_length. Qed.

Lemma emissions_app o evs1 evs2 :
  emissions o (evs1 ++ evs2) = emissions o evs1 ++ emissions o evs2.
Proof.
  induction evs1 as [|[a v|a l v vw|a v] evs1 IH]; simpl; [done| |done|done].
  case_decide; [|done]. by rewrite IH.
Qed.

Lemma calls_on_app o evs1 evs2 :
  calls_on o (evs1 ++ evs2) = calls_on o evs1 ++ calls_on o evs2.
Proof.
  induction evs1 as [|[a v|a l v vw|a v] evs1 IH]; simpl; [done|done| |done].
  case_decide; [|done]. by rewrite IH.
Qed.

Lemma above_silent o c evs :
  o < c → Forall (above c) evs → emissions o evs = [] ∧ calls_on o evs = [].
Proof.
  intros Hoc. induction 1 as [|[a v|a l v vw|a v] evs Ha _ [IH1 IH2]];
    simpl in *; [done| | |done].
  - by rewrite decide_False by lia.
  - by rewrite decide_False by lia.
Qed.

Lemma view_lookup w a : view w !! a = value_of <$> heap w !! a.
Proof. unfold view. by rewrite list_lookup_fmap. Qed.

Section Step.

(** The setter used for nested writes, with what is known of it: it obeys
    the frame, and it returns when it has [k] units of fuel for the objects
    after the one it writes. *)
Variable set : nat → value → World → option World.
Variable n k : nat.
Hypothesis set_frame :
  ∀ c v w w', WF w → set c v w = Some w' → frame c w w'.
Hypothesis set_total :
  ∀ c v w, WF w → length (heap w) = n → c < n → n - c ≤ k →
           is_Some (set c v w).

Lemma call_listener_frame o l nv w w' :
  WF w → l ∈ listeners o w →
  call_listener set o l nv w = Some w' → frame o w w'.
Proof.
  intros Hwf Hl Hc. unfold call_listener in Hc.
  pose proof (frame_called o l nv (view w) w) as Hrec.
  destruct l as [f|uid os f c|uid cb]; simplify_eq; try done.
  destruct (mapM _ os) as [vals|]; simpl in Hc; [|done].
  eapply frame_trans; [done|]. apply (frame_mono _ c).
  - pose proof (wf_listeners _ Hwf _ _ Hl) as Hok. simpl in Hok. lia.
  - eapply set_frame; [|done]. by eapply frame_WF.
Qed.

Lemma call_listeners_frame o ls nv w w' :
  WF w → ls ⊆ listeners o w →
  call_listeners set o ls nv w = Some w' → frame o w w'.
Proof.
  revert w. induction ls as [|l ls IH]; intros w Hwf Hls Hc; simpl in Hc.
  - simplify_eq. apply frame_refl.
  - destruct (call_listener set o l nv w) as [w1|] eqn:H1; simpl in Hc;
      [|done].
    assert (Hf : frame o w w1).
    { eapply call_listener_frame; [done| |done]. apply Hls. by left. }
    eapply frame_trans; [done|]. apply IH; [by eapply frame_WF| |done].
    rewrite (shape_listeners _ _ _ (frame_shape _ _ _ Hf)).
    intros x Hx. apply Hls. by right.
Qed.

Lemma emit_change_frame o nv w w' :
  WF w → emit_change set o nv w = Some w' → frame o w w'.
Proof.
  intros Hwf Hc. unfold emit_change in Hc.
  destruct (heap w !! o) as [ob|] eqn:Hob; simpl in Hc; [|done].
  pose proof (frame_emit o nv w) as Hrec.
  destruct (_emitter ob) as [ls|] eqn:Hls; simplify_eq; [|done].
  eapply frame_trans; [done|].
  eapply call_listeners_frame; [by eapply frame_WF| |done].
  rewrite (listeners_lookup o ob) by done. by rewrite Hls.
Qed.

Lemma updateValue_frame o nv w w' :
  WF w → updateValue set o nv w = Some w' → frame o w w'.
Proof.
  intros Hwf Hc. unfold updateValue in Hc.
  destruct (heap w !! o) as [ob|] eqn:Hob; simpl in Hc; [|done].
  destruct (strict_ne nv (_value ob)); simplify_eq; [|apply frame_refl].
  pose proof (frame_set__value o nv w) as Hf.
  eapply frame_trans; [done|].
  eapply emit_change_frame; [by eapply frame_WF|done].
Qed.

Lemma frame_queue_add o w ob :
  heap w !! o = Some ob → isBatching w = true →
  frame o w (set_updateQueue (queue_add o (updateQueue w)) w).
Proof.
  intros Hob Hb. split; try done.
  - no_events.
  - intros Hb'. congruence.
  - intros a. simpl. unfold queue_add. case_decide; [auto|].
    intros [Ha| ->%list_elem_of_singleton]%elem_of_app; [auto|].
    right. by apply lookup_lt_Some in Hob.
Qed.

Lemma assign_frame o nv w w' :
  WF w → assign set o nv w = Some w' → frame o w w'.
Proof.
  intros Hwf Hc. unfold assign in Hc.
  destruct (heap w !! o) as [ob|] eqn:Hob; simpl in Hc; [|done].
  destruct (currentValue ob) as [cur|] eqn:Hcur.
  - destruct (strict_ne nv cur); simplify_eq; [|apply frame_refl].
    assert (Hf : frame o w (set_currentValue o nv w)).
    { eapply frame_set_currentValue; [done|]. unfold is_signal.
      by rewrite Hcur. }
    eapply frame_trans; [done|].
    simpl in Hc. destruct (isBatching w) eqn:Hb; simplify_eq.
    + destruct (lookup_lt_is_Some_2 (heap (set_currentValue o nv w)) o)
        as [ob' Hob'].
      { rewrite (shape_length _ _ (frame_shape _ _ _ Hf)).
        by apply lookup_lt_Some in Hob. }
      by apply (frame_queue_add o (set_currentValue o nv w) ob').
    + eapply updateValue_frame; [by eapply frame_WF|done].
  - by eapply updateValue_frame.
Qed.

Lemma call_listener_total o l nv w :
  WF w → length (heap w) = n → l ∈ listeners o w → n - o ≤ S k →
  is_Some (call_listener set o l nv w).
Proof.
  intros Hwf Hn Hl Hk. unfold call_listener.
  destruct l as [f|uid os f c|uid cb]; try done.
  pose proof (wf_listeners _ Hwf _ _ Hl) as (Hoc & Hc & Hos).
  destruct (mapM_get_value_total os (record (Called o (Recompute uid os f c)
              nv (view w)) w) c) as [vals ->]; [done|simpl; lia|].
  simpl. apply set_total; [|done|simpl; lia|lia].
  eapply frame_WF; [done|]. apply frame_called.
Qed.

Lemma call_listeners_total o ls nv w :
  WF w → length (heap w) = n → ls ⊆ listeners o w → n - o ≤ S k →
  is_Some (call_listeners set o ls nv w).
Proof.
  revert w. induction ls as [|l ls IH]; intros w Hwf Hn Hls Hk; simpl.
  - done.
  - destruct (call_listener_total o l nv w) as [w1 H1]; try done.
    { apply Hls. by left. }
    rewrite H1. simpl.
    assert (Hf : frame o w w1).
    { eapply call_listener_frame; [done| |done]. apply Hls. by left. }
    apply IH; [by eapply frame_WF| | |done].
    + by rewrite (shape_length _ _ (frame_shape _ _ _ Hf)).
    + rewrite (shape_listeners _ _ _ (frame_shape _ _ _ Hf)).
      intros x Hx. apply Hls. by right.
Qed.

Lemma emit_change_total o nv w :
  WF w → length (heap w) = n → o < n → n - o ≤ S k →
  is_Some (emit_change set o nv w).
Proof.
  intros Hwf Hn Ho Hk. unfold emit_change.
  destruct (lookup_lt_is_Some_2 (heap w) o) as [ob Hob]; [lia|].
  rewrite Hob. simpl. destruct (_emitter ob) as [ls|] eqn:Hls; [|done].
  apply call_listeners_total; try done.
  - eapply frame_WF; [done|]. apply frame_emit.
  - change (ls ⊆ listeners o w).
    rewrite (listeners_lookup o ob) by done. by rewrite Hls.
Qed.

Lemma updateValue_total o nv w :
  WF w → length (heap w) = n → o < n → n - o ≤ S k →
  is_Some (updateValue set o nv w).
Proof.
  intros Hwf Hn Ho Hk. unfold updateValue.
  destruct (lookup_lt_is_Some_2 (heap w) o) as [ob Hob]; [lia|].
  rewrite Hob. simpl. destruct (strict_ne nv (_value ob)); [|done].
  pose proof (frame_set__value o nv w) as Hf.
  apply emit_change_total; [by eapply frame_WF| |done|done].
  by rewrite (shape_length _ _ (frame_shape _ _ _ Hf)).
Qed.

Lemma assign_total o nv w :
  WF w → length (heap w) = n → o < n → n - o ≤ S k →
  is_Some (assign set o nv w).
Proof.
  intros Hwf Hn Ho Hk. unfold assign.
  destruct (lookup_lt_is_Some_2 (heap w) o) as [ob Hob]; [lia|].
  rewrite Hob. simpl. destruct (currentValue ob) as [cur|] eqn:Hcur.
  - destruct (strict_ne nv cur); [|done].
    destruct (isBatching _); [done|].
    assert (Hf : frame o w (set_currentValue o nv w)).
    { eapply frame_set_currentValue; [done|]. unfold is_signal.
      by rewrite Hcur. }
    apply updateValue_total; [by eapply frame_WF| |done|done].
    by rewrite (shape_length _ _ (frame_shape _ _ _ Hf)).
  - by apply updateValue_total.
Qed.

(** The listeners of [o] leave [o] and what is before it alone, and are the
    only calls on [o] in what they record. *)
Lemma call_listener_calls o l nv w w' :
  WF w → l ∈ listeners o w →
  call_listener set o l nv w = Some w' →
  (∀ a, a ≤ o → heap w' !! a = heap w !! a) ∧
  ∃ evs, trace w' = trace w ++ Called o l nv (view w) :: evs ∧
         emissions o evs = [] ∧ calls_on o evs = [].
Proof.
  intros Hwf Hl Hc. unfold call_listener in Hc.
  destruct l as [f|uid os f c|uid cb]; simplify_eq;
    try (split; [done|]; exists []; by rewrite <-?app_assoc).
  destruct (mapM _ os) as [vals|]; simpl in Hc; [|done].
  pose proof (wf_listeners _ Hwf _ _ Hl) as (Hoc & _).
  apply set_frame in Hc as [_ Hbelow _ _ (evs & Hevs & Habove) _ _].
  2:{ eapply frame_WF; [done|]. apply frame_called. }
  split.
  - intros a Ha. rewrite Hbelow by lia. done.
  - exists evs. simpl in Hevs. rewrite <-app_assoc in Hevs.
    split; [done|]. by apply (above_silent o c).
Qed.

Lemma call_listeners_calls o ls nv w w' :
  WF w → ls ⊆ listeners o w →
  call_listeners set o ls nv w = Some w' →
  (∀ a, a ≤ o → heap w' !! a = heap w !! a) ∧
  ∃ evs, trace w' = trace w ++ evs ∧
         emissions o evs = [] ∧ calls_on o evs = (λ l, (l, nv)) <$> ls.
Proof.
  revert w. induction ls as [|l ls IH]; intros w Hwf Hls Hc; simpl in Hc.
  - simplify_eq. split; [done|]. no_events.
  - destruct (call_listener set o l nv w) as [w1|] eqn:H1; simpl in Hc;
      [|done].
    assert (Hl : l ∈ listeners o w) by (apply Hls; by left).
    pose proof (call_listener_frame _ _ _ _ _ Hwf Hl H1) as Hf.
    destruct (call_listener_calls _ _ _ _ _ Hwf Hl H1)
      as (Hb1 & evs1 & Ht1 & He1 & Hc1).
    destruct (IH w1) as (Hb2 & evs2 & Ht2 & He2 & Hc2); [by eapply frame_WF| |done|].
    { rewrite (shape_listeners _ _ _ (frame_shape _ _ _ Hf)).
      intros x Hx. apply Hls. by right. }
    split.
    + intros a Ha. by rewrite Hb2, Hb1.
    + exists (Called o l nv (view w) :: evs1 ++ evs2).
      rewrite Ht2, Ht1, <-app_assoc. split; [done|]. simpl.
      rewrite decide_True by done.
      by rewrite emissions_app, calls_on_app, He1, He2, Hc1, Hc2.
Qed.

Lemma emit_change_calls o ob nv w w' :
  WF w → heap w !! o = Some ob →
  emit_change set o nv w = Some w' →
  (∀ a, a ≤ o → heap w' !! a = heap w !! a) ∧
  ∃ evs, trace w' = trace w ++ evs ∧ emissions o evs = [nv] ∧
         calls_on o evs = (λ l, (l, nv)) <$> listeners o w.
Proof.
  intros Hwf Hob Hc. unfold emit_change in Hc. rewrite Hob in Hc.
  simpl in Hc. rewrite (listeners_lookup o ob) by done.
  destruct (_emitter ob) as [ls|] eqn:Hls; simplify_eq.
  - apply call_listeners_calls in Hc as (Hb & evs & Ht & He & Hc).
    + split; [done|]. exists (Emit o nv :: evs). simpl in *.
      rewrite Ht, <-app_assoc, decide_True, He, Hc by done. done.
    + eapply frame_WF; [done|]. apply frame_emit.
    + change (ls ⊆ listeners o w).
      rewrite (listeners_lookup o ob) by done. by rewrite Hls.
  - split; [done|]. exists [Emit o nv]. simpl. by rewrite decide_True.
Qed.

(** [updateValue]: the object holds the new value, and its listeners are
    notified when it is not the value held before. *)
Lemma updateValue_spec o ob nv w w' :
  WF w → heap w !! o = Some ob →
  updateValue set o nv w = Some w' →
  (∀ a, a < o → heap w' !! a = heap w !! a) ∧
  heap w' !! o = Some {| _value := nv; _emitter := _emitter ob;
                         currentValue := currentValue ob |} ∧
  ∃ evs, trace w' = trace w ++ evs ∧
         emissions o evs = (if strict_ne nv (_value ob) then [nv] else []) ∧
         calls_on o evs =
           if strict_ne nv (_value ob)
           then (λ l, (l, nv)) <$> listeners o w else [].
Proof.
  intros Hwf Hob Hc. unfold updateValue in Hc. rewrite Hob in Hc. simpl in Hc.
  destruct (strict_ne nv (_value ob)) eqn:Hne; simplify_eq.
  - pose proof (frame_set__value o nv w) as Hf.
    assert (Hob' : heap (set__value o nv w) !! o =
              Some {| _value := nv; _emitter := _emitter ob;
                      currentValue := currentValue ob |}).
    { simpl. by rewrite list_lookup_alter_eq, Hob. }
    eapply emit_change_calls in Hc as (Hb & evs & Ht & He & Hcs);
      [|by eapply frame_WF|done].
    split; [|split].
    + intros a Ha. rewrite Hb by lia. simpl. apply list_lookup_alter_ne. lia.
    + by rewrite Hb.
    + exists evs. split; [done|]. split; [done|].
      by rewrite (shape_listeners _ _ _ (frame_shape _ _ _ Hf)) in Hcs.
  - apply strict_ne_spec in Hne. subst nv. split; [done|]. split.
    + rewrite Hob. by destruct ob.
    + no_events.
Qed.

End Step.

Lemma set_value_frame fuel o v w w' :
  WF w → set_value fuel o v w = Some w' → frame o w w'.
Proof.
  revert o v w w'. induction fuel as [|k IH]; intros o v w w' Hwf Hs; [done|].
  simpl in Hs. by eapply assign_frame.
Qed.

Lemma set_value_total fuel o v w :
  WF w → o < length (heap w) → length (heap w) - o ≤ fuel →
  is_Some (set_value fuel o v w).
Proof.
  remember (length (heap w)) as n eqn:Hn. revert o v w Hn.
  induction fuel as [|k IH]; intros o v w Hn Hwf Ho Hk; [lia|].
  simpl. eapply (assign_total _ n k); try done.
  - intros. by eapply set_value_frame.
  - intros c v' w1 Hwf1 Hn1 Hc Hk1. by apply IH.
Qed.

(** [updateValue] called from outside, as the flush of a batch does. *)
Lemma updateValue_set_value_total fuel o v w :
  WF w → o < length (heap w) → length (heap w) ≤ fuel →
  is_Some (updateValue (set_value fuel) o v w).
Proof.
  intros Hwf Ho Hfuel.
  apply (updateValue_total (set_value fuel) (length (heap w)) fuel
           (set_value_frame fuel)); [|done|done|done|lia].
  intros c v' w1 Hwf1 Hn Hc Hk.
  apply set_value_total; [done| |]; rewrite Hn; lia.
Qed.

(** *** Writes outside a batch *)

(** A write with the setter of the class, or with the setter of a signal
    whose two slots agree while no batch is open: the object holds the new
    value in its slots, and its listeners are notified when the value is not
    the one held before. *)
Lemma set_value_spec fuel o ob v w w' :
  WF w → heap w !! o = Some ob →
  currentValue ob = None ∨
    (isBatching w = false ∧ currentValue ob = Some (_value ob)) →
  set_value fuel o v w = Some w' →
  heap w' !! o = Some {| _value := v; _emitter := _emitter ob;
                         currentValue := (λ _, v) <$> currentValue ob |} ∧
  ∃ evs, trace w' = trace w ++ evs ∧
         emissions o evs = (if strict_ne v (value_of ob) then [v] else []) ∧
         calls_on o evs =
           if strict_ne v (value_of ob)
           then (λ l, (l, v)) <$> listeners o w else [].
Proof.
  intros Hwf Hob Hkind Hs. destruct fuel as [|k]; [done|]. simpl in Hs.
  unfold assign in Hs. rewrite Hob in Hs. simpl in Hs. unfold value_of.
  destruct Hkind as [Hcur|[Hb Hcur]]; rewrite Hcur in *; simpl.
  - eapply (updateValue_spec _ (set_value_frame k)) in Hs
      as (_ & Hob' & Hevs); try done.
    by rewrite Hcur in Hob'.
  - destruct (strict_ne v (_value ob)) eqn:Hne.
    + simpl in Hs. rewrite Hb in Hs.
      assert (Hf : frame o w (set_currentValue o v w)).
      { eapply frame_set_currentValue; [done|]. unfold is_signal.
        by rewrite Hcur. }
      eapply (updateValue_spec _ (set_value_frame k) o
                {| _value := _value ob; _emitter := _emitter ob;
                   currentValue := Some v |})
        in Hs as (_ & Hob' & evs & Ht & He & Hc).
      * split; [done|]. exists evs. simpl in He, Hc. rewrite Hne in He, Hc.
        by rewrite (shape_listeners _ _ _ (frame_shape _ _ _ Hf)) in Hc.
      * by eapply frame_WF.
      * simpl. by rewrite list_lookup_alter_eq, Hob.
    + simplify_eq. apply strict_ne_spec in Hne. subst v. split.
      * rewrite Hob. destruct ob. simpl in *. by subst.
      * no_events.
Qed.

Lemma exec_SetValue fuel o v w :
  exec fuel (SetValue o v) w = w' ← set_value fuel o v w; Some (w', Normal ()).
Proof. done. Qed.

Lemma run_cons fuel s ss w :
  run fuel (s :: ss) w =
    match exec fuel s w with
    | Some (w', Normal _) => run fuel ss w'
    | r => r
    end.
Proof. done. Qed.

Lemma run_writes_spec fuel o vs :
  ∀ w ob,
    WF w → heap w !! o = Some ob →
    currentValue ob = None ∨
      (isBatching w = false ∧ currentValue ob = Some (_value ob)) →
    length (heap w) ≤ fuel →
    ∃ w' evs, run fuel (SetValue o <$> vs) w = Some (w', Normal ()) ∧
              trace w' = trace w ++ evs ∧
              emissions o evs = changes (value_of ob) vs ∧
              calls_on o evs =
                v ← changes (value_of ob) vs;
                (λ l, (l, v)) <$> listeners o w.
Proof.
  induction vs as [|v vs IH]; intros w ob Hwf Hob Hkind Hfuel.
  - exists w, []. by rewrite app_nil_r.
  - destruct (set_value_total fuel o v w) as [w1 H1]; [done| |lia|].
    { by apply lookup_lt_Some in Hob. }
    pose proof (set_value_frame _ _ _ _ _ Hwf H1) as Hf.
    destruct (set_value_spec _ _ _ _ _ _ Hwf Hob Hkind H1)
      as (Hob1 & evs1 & Ht1 & He1 & Hc1).
    destruct (IH w1 _ (frame_WF _ _ _ Hwf Hf) Hob1)
      as (w' & evs & Hr & Ht & He & Hc).
    { simpl. destruct Hkind as [->|[Hb ->]]; [by left|right].
      by rewrite (frame_isBatching _ _ _ Hf). }
    { by rewrite (shape_length _ _ (frame_shape _ _ _ Hf)). }
    exists w', (evs1 ++ evs).
    rewrite fmap_cons, run_cons, exec_SetValue, H1. simpl. rewrite Hr.
    split; [done|]. rewrite Ht, Ht1, <-app_assoc. split; [done|].
    rewrite emissions_app, calls_on_app, He1, He, Hc1, Hc.
    rewrite (shape_listeners _ _ _ (frame_shape _ _ _ Hf)).
    assert (Hv : value_of {| _value := v; _emitter := _emitter ob;
                   currentValue := (λ _, v) <$> currentValue ob |} = v).
    { unfold value_of. simpl. by destruct (currentValue ob). }
    rewrite Hv. destruct (strict_ne v (value_of ob)) eqn:Hne; [done|].
    apply strict_ne_spec in Hne. by rewrite Hne.
Qed.

(** *** Statements and batches *)

Lemma stmt_nested_ind (P : stmt → Prop) :
  (∀ o v, P (SetValue o v)) → (∀ o, P (GetValue o)) →
  (∀ e, P (ThrowStmt e)) →
  (∀ body, Forall P body → P (BatchUpdate body)) →
  ∀ s, P s.
Proof.
  intros HS HG HT HB. fix IH 1. intros [o v|o|e|body]; [done|done|done|].
  apply HB. induction body as [|s body IHb]; constructor; [apply IH|done].
Qed.

Lemma exec_BatchUpdate fuel body w :
  exec fuel (BatchUpdate body) w = batchUpdate fuel (run fuel body) w.
Proof.
  simpl. unfold batchUpdate. f_equal.
  generalize (set_isBatching true w). clear w.
  induction body as [|s body IH]; intros w; [done|].
  simpl. destruct (exec fuel s w) as [[w' [[]|e]]|]; [|done|done].
  apply IH.
Qed.

Lemma scoped_BatchUpdate n body :
  scoped n (BatchUpdate body) ↔ Forall (scoped n) body.
Proof.
  simpl. induction body as [|s body IH]; [by split; [constructor|]|].
  rewrite Forall_cons. by rewrite IH.
Qed.

Lemma flush_frame fuel q :
  ∀ w w', WF w → flush fuel q w = Some w' →
          WF w' ∧ shape w' = shape w ∧ isBatching w' = isBatching w ∧
          (isBatching w = false → updateQueue w' = updateQueue w).
Proof.
  induction q as [|o q IH]; intros w w' Hwf H; simpl in H.
  - by simplify_eq.
  - destruct (get_value o w) as [v|]; simpl in H; [|done].
    destruct (updateValue (set_value fuel) o v w) as [w1|] eqn:H1;
      simpl in H; [|done].
    apply (updateValue_frame _ (set_value_frame fuel)) in H1; [|done].
    destruct (IH w1 w') as (Hwf' & Hs & Hb & Hq); [by eapply frame_WF|done|].
    split; [done|]. destruct H1 as [A1 _ A3 _ _ A6 _].
    split; [congruence|]. split; [congruence|].
    intros Hb0. rewrite Hq, A6 by congruence. done.
Qed.

Lemma flush_total fuel q :
  ∀ w, WF w → length (heap w) ≤ fuel →
       Forall (λ o, o < length (heap w)) q → is_Some (flush fuel q w).
Proof.
  induction q as [|o q IH]; intros w Hwf Hfuel Hq; simpl; [done|].
  apply Forall_cons in Hq as [Ho Hq].
  destruct (lookup_lt_is_Some_2 (heap w) o) as [ob Hob]; [done|].
  unfold get_value. rewrite Hob. simpl.
  destruct (updateValue_set_value_total fuel o (value_of ob) w)
    as [w1 H1]; [done..|].
  rewrite H1. simpl.
  pose proof (updateValue_frame _ (set_value_frame fuel) _ _ _ _ Hwf H1) as Hf.
  pose proof (shape_length _ _ (frame_shape _ _ _ Hf)) as Hn.
  apply IH; [by eapply frame_WF|by rewrite Hn|by rewrite Hn].
Qed.

(** [batchUpdate] however its body ends: the flag is off and the queue is
    empty afterwards. *)
Lemma batchUpdate_releases {A} fuel (updateFn : World → option (World * completion A))
    w w' r :
  (∀ w0 w1 r1, WF w0 → updateFn w0 = Some (w1, r1) → WF w1) →
  WF w → batchUpdate fuel updateFn w = Some (w', r) →
  isBatching w' = false ∧ updateQueue w' = [] ∧
  ∃ w1, updateFn (set_isBatching true w) = Some (w1, r).
Proof.
  intros Hfn Hwf H. unfold batchUpdate in H.
  destruct (updateFn (set_isBatching true w)) as [[w1 r1]|] eqn:H1;
    simpl in H; [|done].
  destruct (flush fuel _ _) as [w2|] eqn:H2; simpl in H; [|done].
  simplify_eq. simpl. apply flush_frame in H2 as (_ & _ & Hb & _).
  - split; [done|]. split; [done|]. by exists w1.
  - apply WF_set_isBatching. eapply Hfn; [|done]. by apply WF_set_isBatching.
Qed.

Lemma exec_WF fuel s :
  ∀ w w' r, WF w → exec fuel s w = Some (w', r) →
            WF w' ∧ shape w' = shape w.
Proof.
  induction s as [o v|o|e|body IH] using stmt_nested_ind; intros w w' r Hwf H.
  - rewrite exec_SetValue in H.
    destruct (set_value fuel o v w) as [w1|] eqn:H1; simplify_eq/=.
    apply set_value_frame in H1; [|done].
    split; [by eapply frame_WF|apply H1].
  - simpl in H. destruct (get_value o w); simplify_eq/=.
    split; [by apply WF_record|done].
  - simpl in H. by simplify_eq.
  - rewrite exec_BatchUpdate in H. unfold batchUpdate in H.
    assert (Hrun : ∀ w0 w1 r1, WF w0 → run fuel body w0 = Some (w1, r1) →
                               WF w1 ∧ shape w1 = shape w0).
    { clear w w' r Hwf H. induction IH as [|s body Hs _ IHb];
        intros w0 w1 r1 Hwf0 Hr.
      - simpl in Hr. by simplify_eq.
      - rewrite run_cons in Hr.
        destruct (exec fuel s w0) as [[w2 [[]|e]]|] eqn:He; simplify_eq.
        + destruct (Hs _ _ _ Hwf0 He) as [Hwf2 Hs2].
          destruct (IHb _ _ _ Hwf2 Hr) as [Hwf1 Hs1].
          split; [done|congruence].
        + by eapply Hs. }
    destruct (run fuel body (set_isBatching true w)) as [[w1 r1]|] eqn:H1;
      simpl in H; [|done].
    destruct (flush fuel _ _) as [w2|] eqn:H2; simpl in H; [|done].
    simplify_eq.
    destruct (Hrun _ _ _ (WF_set_isBatching true _ Hwf) H1) as [Hwf1 Hs1].
    apply flush_frame in H2 as (Hwf2 & Hs2 & _); [|by apply WF_set_isBatching].
    split; [by apply WF_clear_queue|].
    change (shape (set_updateQueue [] w2)) with (shape w2).
    rewrite Hs2. apply Hs1.
Qed.

Lemma run_WF fuel body :
  ∀ w w' r, WF w → run fuel body w = Some (w', r) →
            WF w' ∧ shape w' = shape w.
Proof.
  induction body as [|s body IH]; intros w w' r Hwf H.
  - simpl in H. by simplify_eq.
  - rewrite run_cons in H.
    destruct (exec fuel s w) as [[w1 [[]|e]]|] eqn:He; simplify_eq.
    + destruct (exec_WF _ _ _ _ _ Hwf He) as [Hwf1 Hs1].
      destruct (IH _ _ _ Hwf1 H) as [Hwf' Hs'].
      split; [done|congruence].
    + by eapply exec_WF.
Qed.

Lemma exec_total fuel s :
  ∀ w, WF w → scoped (length (heap w)) s → length (heap w) ≤ fuel →
       is_Some (exec fuel s w).
Proof.
  induction s as [o v|o|e|body IH] using stmt_nested_ind;
    intros w Hwf Hsc Hfuel.
  - rewrite exec_SetValue. simpl in Hsc.
    destruct (set_value_total fuel o v w) as [w1 ->]; [done|done|lia|done].
  - simpl in *. unfold get_value.
    destruct (lookup_lt_is_Some_2 (heap w) o) as [ob ->]; [done|]. done.
  - done.
  - rewrite exec_BatchUpdate. unfold batchUpdate.
    apply scoped_BatchUpdate in Hsc.
    assert (Hrun : ∀ w0, WF w0 → length (heap w0) = length (heap w) →
                         is_Some (run fuel body w0)).
    { clear Hwf. revert Hsc. induction IH as [|s body Hs _ IHb];
        intros Hsc w0 Hwf0 Hn0; [done|].
      apply Forall_cons in Hsc as [Hsc1 Hsc2]. rewrite run_cons.
      destruct (Hs w0) as [[w2 r2] He]; [done|by rewrite Hn0|lia|].
      rewrite He. destruct r2 as [[]|e]; [|done].
      destruct (exec_WF _ _ _ _ _ Hwf0 He) as [Hwf2 Hs2].
      apply IHb; [done|done|]. by rewrite (shape_length _ _ Hs2). }
    destruct (Hrun (set_isBatching true w)) as [[w1 r1] H1];
      [by apply WF_set_isBatching|done|].
    rewrite H1. simpl.
    destruct (run_WF _ _ _ _ _ (WF_set_isBatching true _ Hwf) H1)
      as [Hwf1 Hs1].
    pose proof (shape_length _ _ Hs1) as Hn1. simpl in Hn1.
    destruct (flush_total fuel (updateQueue w1) (set_isBatching false w1))
      as [w2 H2].
    + by apply WF_set_isBatching.
    + simpl. lia.
    + apply Hwf1.
    + by rewrite H2.
Qed.

(** *** Writes to a signal while a batch is open *)

Lemma queue_add_idemp o q : queue_add o (queue_add o q) = queue_add o q.
Proof.
  unfold queue_add. destruct (decide (o ∈ q)) as [Hin|Hout].
  - by rewrite decide_True.
  - rewrite decide_True; [done|]. apply elem_of_app. right. by left.
Qed.

Lemma changes_last cur vs final :
  changes cur (vs ++ [final]) = [] → strict_ne final cur = false.
Proof.
  revert cur. induction vs as [|v vs IH]; intros cur; simpl.
  - by destruct (strict_ne final cur).
  - destruct (strict_ne v cur) eqn:Hne; [done|].
    apply strict_ne_spec in Hne. subst v. apply IH.
Qed.

Lemma default_last_cons (cur v : value) vs :
  default cur (last (v :: vs)) = default v (last vs).
Proof.
  revert cur v. induction vs as [|v' vs IH]; intros cur v; [done|].
  change (last (v :: v' :: vs)) with (last (v' :: vs)).
  by rewrite (IH cur v'), (IH v v').
Qed.

Lemma writes_to_cons o reads v vs :
  writes_to o reads (v :: vs) =
    SetValue o v :: (if reads then [GetValue o] else []) ++ writes_to o reads vs.
Proof. done. Qed.

Lemma batched_writes fuel o reads vs :
  ∀ w ob cur,
    heap w !! o = Some ob → currentValue ob = Some cur →
    isBatching w = true → 0 < fuel →
    ∃ w', run fuel (writes_to o reads vs) w = Some (w', Normal ()) ∧
          heap w' !! o = Some {| _value := _value ob; _emitter := _emitter ob;
                                 currentValue := Some (default cur (last vs)) |} ∧
          shape w' = shape w ∧ isBatching w' = true ∧
          trace w' = trace w ++ (if reads then Read o <$> vs else []) ∧
          updateQueue w' =
            if bool_decide (changes cur vs = []) then updateQueue w
            else queue_add o (updateQueue w).
Proof.
  induction vs as [|v vs IH]; intros w ob cur Hob Hcur Hb Hfuel.
  - exists w. simpl. rewrite Hob, <-Hcur.
    split; [done|]. split; [by destruct ob|].
    split; [done|]. split; [done|].
    split; [|done]. destruct reads; by rewrite app_nil_r.
  - (* the write *)
    assert (∃ w1, set_value fuel o v w = Some w1 ∧
              heap w1 !! o = Some {| _value := _value ob;
                                     _emitter := _emitter ob;
                                     currentValue := Some v |} ∧
              shape w1 = shape w ∧ isBatching w1 = true ∧
              trace w1 = trace w ∧
              updateQueue w1 = if strict_ne v cur
                               then queue_add o (updateQueue w)
                               else updateQueue w)
      as (w1 & Hs1 & Hob1 & Hsh1 & Hb1 & Ht1 & Hq1).
    { destruct fuel as [|k]; [lia|]. simpl. unfold assign.
      rewrite Hob. simpl. rewrite Hcur.
      destruct (strict_ne v cur) eqn:Hne; simpl.
      - rewrite Hb. eexists. split; [done|]. simpl.
        rewrite list_lookup_alter_eq, Hob. simpl.
        split; [done|]. split; [|done].
        change (shape (set_currentValue o v w) = shape w).
        apply (frame_shape o). eapply frame_set_currentValue; [done|].
        unfold is_signal. by rewrite Hcur.
      - apply strict_ne_spec in Hne. subst v. exists w.
        split; [done|]. split; [|done]. rewrite Hob, <-Hcur. by destruct ob. }
    (* the read *)
    set (w2 := if reads then record (Read o v) w1 else w1).
    assert (Hr2 : run fuel (if reads then [GetValue o] else []) w1
                  = Some (w2, Normal ())).
    { unfold w2. destruct reads; [|done]. simpl. unfold get_value.
      by rewrite Hob1. }
    destruct (IH w2 {| _value := _value ob; _emitter := _emitter ob;
                       currentValue := Some v |} v)
      as (w' & Hr & Hob' & Hsh' & Hb' & Ht' & Hq'); try done.
    { unfold w2. by destruct reads. }
    { unfold w2. by destruct reads. }
    exists w'. rewrite writes_to_cons, run_cons, exec_SetValue, Hs1. simpl.
    split.
    { destruct reads; [|done]. simpl in *. unfold get_value in *.
      rewrite Hob1 in *. simpl in *. done. }
    split.
    { by rewrite Hob', default_last_cons. }
    split.
    { rewrite Hsh'. unfold w2. by destruct reads. }
    split; [done|]. split.
    { rewrite Ht'. unfold w2. destruct reads; simpl; rewrite Ht1; [|done].
      by rewrite <-app_assoc. }
    rewrite Hq'. simpl. unfold w2.
    assert (Hq2 : updateQueue (if reads then record (Read o v) w1 else w1)
                  = updateQueue w1) by by destruct reads.
    rewrite Hq2, Hq1. destruct (strict_ne v cur) eqn:Hne.
    + rewrite (bool_decide_eq_false_2 (_ :: _ = [])) by done.
      rewrite queue_add_idemp. by case_bool_decide.
    + apply strict_ne_spec in Hne. by subst v.
Qed.

Lemma run_app fuel ss1 ss2 w :
  run fuel (ss1 ++ ss2) w =
    match run fuel ss1 w with
    | Some (w', Normal _) => run fuel ss2 w'
    | r => r
    end.
Proof.
  revert w. induction ss1 as [|s ss1 IH]; intros w; [done|].
  rewrite <-app_comm_cons, !run_cons.
  destruct (exec fuel s w) as [[w' [[]|e]]|]; [apply IH|done|done].
Qed.

(** A batch that writes [vs] to the signal [o] and then ends as [tail]
    does, with nothing else pending: the flag and the queue are reset, and
    the listeners of [o] are notified after the body, once and with the last
    value, when that value is not the one [o] held before the batch, and not
    at all when it is. *)
Lemma batch_of_writes fuel w o ob reads vs tail r :
  WF w → heap w !! o = Some ob → currentValue ob = Some (_value ob) →
  updateQueue w = [] → length (heap w) ≤ fuel →
  (∀ w1, run fuel tail w1 = Some (w1, r)) →
  ∃ w' evs,
    exec fuel (BatchUpdate (writes_to o reads vs ++ tail)) w = Some (w', r) ∧
    isBatching w' = false ∧ updateQueue w' = [] ∧
    trace w' = trace w ++ (if reads then Read o <$> vs else []) ++ evs ∧
    emissions o evs = option_list (flushed (_value ob) vs) ∧
    calls_on o evs =
      match flushed (_value ob) vs with
      | Some final => (λ l, (l, final)) <$> listeners o w
      | None => []
      end.
Proof.
  intros Hwf Hob Hcur Hq Hfuel Htail.
  assert (Hpos : 0 < fuel).
  { apply lookup_lt_Some in Hob. lia. }
  destruct (batched_writes fuel o reads vs (set_isBatching true w) ob
              (_value ob)) as (w1 & Hr1 & Hob1 & Hsh1 & Hb1 & Ht1 & Hq1);
    try done.
  simpl in Ht1, Hq1. rewrite Hq in Hq1.
  pose proof (run_WF _ _ _ _ _ (WF_set_isBatching true _ Hwf) Hr1)
    as [Hwf1 _].
  pose proof (shape_length _ _ Hsh1) as Hn1. simpl in Hn1.
  rewrite exec_BatchUpdate. unfold batchUpdate.
  rewrite run_app, Hr1, Htail. simpl.
  set (w1' := set_isBatching false w1).
  assert (Hwf1' : WF w1') by by apply WF_set_isBatching.
  unfold flushed. destruct (bool_decide (changes (_value ob) vs = [])) eqn:Hch.
  - (* nothing was queued *)
    apply bool_decide_eq_true in Hch. rewrite Hq1. simpl.
    exists (set_updateQueue [] w1'), []. simpl. rewrite Ht1, app_nil_r.
    repeat (split; [done|]).
    destruct (last vs) as [final|] eqn:Hlast; [|done].
    apply last_Some in Hlast as [vs' ->].
    by rewrite (changes_last _ _ _ Hch).
  - (* [o] was queued *)
    apply bool_decide_eq_false in Hch. rewrite Hq1.
    assert (∃ final, last vs = Some final) as [final Hlast].
    { destruct (last vs) eqn:E; [by eexists|].
      apply last_None in E. subst vs. done. }
    rewrite Hlast in *. simpl in Hob1.
    change (flush fuel (queue_add o []) w1')
      with (flush fuel [o] w1').
    simpl. unfold get_value.
    change (heap w1') with (heap w1). rewrite Hob1. simpl.
    destruct (updateValue_set_value_total fuel o final w1')
      as [w2 H2]; [done| |simpl; lia|].
    { change (heap w1') with (heap w1). rewrite Hn1.
      by apply lookup_lt_Some in Hob. }
    unfold value_of at 1. simpl. rewrite H2. simpl.
    pose proof (updateValue_frame _ (set_value_frame fuel) _ _ _ _ Hwf1' H2)
      as Hf2.
    eapply (updateValue_spec _ (set_value_frame fuel)) in H2
      as (_ & _ & evs & Ht2 & He2 & Hc2); [|done|exact Hob1].
    simpl in He2, Hc2.
    exists (set_updateQueue [] w2), evs. simpl.
    split; [done|]. split; [by rewrite (frame_isBatching _ _ _ Hf2)|].
    split; [done|]. split.
    { rewrite Ht2. simpl. rewrite Ht1. by rewrite app_assoc. }
    assert (Hl : listeners o w1' = listeners o w).
    { change (listeners o w1') with (listeners o w1).
      by rewrite (shape_listeners _ _ _ Hsh1). }
    rewrite Hl in Hc2. rewrite He2, Hc2.
    by destruct (strict_ne final (_value ob)).
Qed.

Lemma writes_to_plain o vs : writes_to o false vs = SetValue o <$> vs.
Proof.
  induction vs as [|v vs IH]; [done|].
  by rewrite writes_to_cons, fmap_cons, IH.
Qed.

Lemma WF_signal_with_listener : WF signal_with_listener.
Proof. unfold signal_with_listener. auto with wf. Qed.

Lemma WF_observable_with_listener : WF observable_with_listener.
Proof. unfold observable_with_listener. auto with wf. Qed.

(** *** Batches *)




(** C5, as the code has it.  A batch that writes [vs] and then [final] to a
    signal, reading it back after each write: every read sees the value
    just written; after the body, the listeners are notified once, with
    [final], when [final] is not the value the signal held before the
    batch, and are not notified at all when it is. *)
Theorem batch_notifies_once_with_last_value fuel w o ob vs final :
  WF w → heap w !! o = Some ob → currentValue ob = Some (_value ob) →
  updateQueue w = [] → length (heap w) ≤ fuel →
  ∃ w' evs,
    exec fuel (BatchUpdate (writes_to o true (vs ++ [final]))) w
      = Some (w', Normal ()) ∧
    trace w' = trace w ++ (Read o <$> vs ++ [final]) ++ evs ∧
    emissions o evs =
      (if strict_ne final (_value ob) then [final] else []) ∧
    calls_on o evs =
      (if strict_ne final (_value ob)
       then (λ l, (l, final)) <$> listeners o w else []).
Proof.
  intros Hwf Hob Hcur Hq Hfuel.
  destruct (batch_of_writes fuel w o ob true (vs ++ [final]) [] (Normal ())
              Hwf Hob Hcur Hq Hfuel)
    as (w' & evs & He & _ & _ & Ht & Hem & Hc); [done|].
  rewrite app_nil_r in He. exists w', evs.
  unfold flushed in Hem, Hc. rewrite last_snoc in Hem, Hc.
  repeat (split; [done|]).
  by destruct (strict_ne final (_value ob)).
Qed.

Lemma batch_notifies_once_with_last_value_witness :
  WF signal_with_listener ∧
  ∃ w' evs,
    exec 1 (BatchUpdate (writes_to 0 true [VNum 1; VNum 2; VNum 3]))
      signal_with_listener = Some (w', Normal ()) ∧
    trace w' = [Read 0 (VNum 1); Read 0 (VNum 2); Read 0 (VNum 3)] ++ evs ∧
    emissions 0 evs = [VNum 3] ∧
    calls_on 0 evs = [(UserFn 0, VNum 3)].
Proof.
  split; [exact WF_signal_with_listener|].
  refine (batch_notifies_once_with_last_value 1 signal_with_listener 0 _
            [VNum 1; VNum 2] (VNum 3) WF_signal_with_listener eq_refl eq_refl
            eq_refl _).
  simpl. lia.
Defined.

(** C5 as stated fails when the last value is the one held before the
    batch: two distinct values written, both read back, nobody notified. *)
Lemma batch_back_to_first_value_notifies_nobody :
  ∃ w',
    exec 1 (BatchUpdate (writes_to 0 true [VNum 1; VNum 0]))
      signal_with_listener = Some (w', Normal ()) ∧
    trace w' = [Read 0 (VNum 1); Read 0 (VNum 0)] ∧
    calls_on 0 (trace w') = [].
Proof. eexists. repeat split; reflexivity. Qed.




(** *** Sequences of writes *)

(** C2, as the code has it.  For the setter of the class, and for the setter
    of a signal while no batch is open, a sequence of writes emits one
    change notification for each write whose value is [!==] the value held
    just before it, in order and with that value, and no other: every
    listener is called once for each such write; a write of an identical
    value leaves everything as it was. *)
Theorem change_notified_iff_value_changes fuel w o ob vs :
  WF w → heap w !! o = Some ob →
  currentValue ob = None ∨
    (isBatching w = false ∧ currentValue ob = Some (_value ob)) →
  length (heap w) ≤ fuel →
  (∃ w', run fuel (SetValue o <$> vs) w = Some (w', Normal ()) ∧
         emissions o (since w w') = changes (value_of ob) vs ∧
         calls_on o (since w w') =
           v ← changes (value_of ob) vs; (λ l, (l, v)) <$> listeners o w) ∧
  ∀ v, strict_ne v (value_of ob) = false → set_value fuel o v w = Some w.
Proof.
  intros Hwf Hob Hkind Hfuel. split.
  - destruct (run_writes_spec fuel o vs w ob Hwf Hob Hkind Hfuel)
      as (w' & evs & Hr & Ht & He & Hc).
    exists w'. split; [done|]. by rewrite (since_app _ _ _ Ht).
  - intros v Hv. destruct fuel as [|k].
    { apply lookup_lt_Some in Hob. lia. }
    simpl. unfold assign, updateValue. rewrite Hob. simpl.
    unfold value_of in Hv.
    destruct Hkind as [Hcur|[_ Hcur]]; rewrite Hcur in *; by rewrite Hv.
Qed.

Lemma change_notified_iff_value_changes_witness :
  WF observable_with_listener ∧
  length (heap observable_with_listener) ≤ 1 ∧
  ∃ w', run 1 (SetValue 0 <$> [VNum 1; VNum 1; VNum 2; VNum 1])
          observable_with_listener = Some (w', Normal ()) ∧
        emissions 0 (since observable_with_listener w')
          = [VNum 1; VNum 2; VNum 1] ∧
        calls_on 0 (since observable_with_listener w')
          = [(UserFn 0, VNum 1); (UserFn 0, VNum 2); (UserFn 0, VNum 1)].
Proof.
  assert (Hfuel : length (heap observable_with_listener) ≤ 1)
    by (simpl; lia).
  split; [exact WF_observable_with_listener|]. split; [exact Hfuel|].
  exact (proj1 (change_notified_iff_value_changes 1
                  observable_with_listener 0 _
                  [VNum 1; VNum 1; VNum 2; VNum 1]
                  WF_observable_with_listener eq_refl
                  (or_introl eq_refl) Hfuel)).
Defined.

(** C2 as stated fails for a signal while a batch is open: two writes that
    change the value, one notification. *)
Lemma batched_writes_notified_once :
  ∃ w',
    exec 1 (BatchUpdate (SetValue 0 <$> [VNum 1; VNum 2]))
      signal_with_listener = Some (w', Normal ()) ∧
    emissions 0 (since signal_with_listener w') = [VNum 2] ∧
    changes (VNum 0) [VNum 1; VNum 2] = [VNum 1; VNum 2].
Proof. eexists. repeat split; reflexivity. Qed.

(** *** Effects *)

Lemma subscribe_dependencies_throws l os v rest :
  ∀ w acc,
    ∃ w', subscribe_dependencies l ((Instance <$> os) ++ Other v :: rest) acc w
            = (w', Threw (VError (allocated w) "TypeError"
                   "Each dependency must be an instance of ObservableValue.")) ∧
          view w' = view w ∧
          ∀ o, o < length (heap w) →
               listeners o w' =
                 listeners o w ++ replicate (length (filter (λ x, x = o) os)) l.
Proof.
  induction os as [|o1 os IH]; intros w acc.
  - eexists. split; [done|]. split; [done|]. intros o _. simpl.
    by rewrite app_nil_r.
  - rewrite fmap_cons. simpl.
    destruct (IH (subscribe o1 l w) (acc ++ [(o1, l)])) as (w' & He & Hv & Hl).
    destruct (subscribe_fields o1 l w) as (Hn & _ & _ & Ha & _).
    exists w'. rewrite He, Ha. split; [done|]. split.
    { rewrite Hv. unfold view. apply list_eq. intros a.
      rewrite !list_lookup_fmap. apply subscribe_values. }
    intros o Ho. rewrite Hl by by rewrite Hn. rewrite filter_cons.
    destruct (heap w !! o1) as [ob1|] eqn:Hob1.
    + rewrite (listeners_subscribe o1 ob1) by done.
      destruct (decide (o = o1)) as [->|Hne].
      * rewrite decide_True by done. simpl. by rewrite <-app_assoc.
      * by rewrite decide_False by done.
    + rewrite subscribe_invalid by done.
      rewrite decide_False; [done|]. intros ->.
      apply lookup_ge_None in Hob1. lia.
Qed.

(** C10.  When the first [k] dependencies are observables and the next one
    is not, [effect] throws its [TypeError] (so the caller gets no cleanup
    function) after having subscribed the callback to each of the first [k]:
    the closure is in the listener list of every such observable, once per
    occurrence, and stays there. *)
Theorem effect_throws_after_subscribing callback os v rest w :
  ∃ w',
    effect callback (Array ((Instance <$> os) ++ Other v :: rest)) w
      = (w', Threw (VError (S (allocated w)) "TypeError"
               "Each dependency must be an instance of ObservableValue.")) ∧
    view w' = view w ∧
    ∀ o, o < length (heap w) →
         listeners o w' =
           listeners o w ++
           replicate (length (filter (λ x, x = o) os))
             (ExecuteCallback (allocated w) callback).
Proof.
  destruct (subscribe_dependencies_throws
              (ExecuteCallback (allocated w) callback) os v rest
              (fresh w).2 []) as (w' & He & Hv & Hl).
  exists w'. split; [|done].
  unfold effect.
  destruct ((Instance <$> os) ++ Other v :: rest) as [|d items] eqn:E.
  - by destruct os.
  - exact He.
Qed.

(** Two observables and then a string: both observables keep the callback
    of the failed call. *)
Example effect_leaves_two_subscriptions :
  let w0 := (new_ObservableValue (VNum 2)
               (new_ObservableValue (VNum 1) empty_world).2).2 in
  let '(w', r) :=
    effect 7 (Array [Instance 0; Instance 1; Other (VStr "x"); Instance 0])
      w0 in
  r = Threw (VError 1 "TypeError"
               "Each dependency must be an instance of ObservableValue.") ∧
  listeners 0 w' = [ExecuteCallback 0 7] ∧
  listeners 1 w' = [ExecuteCallback 0 7].
Proof. repeat split; reflexivity. Qed.

(** *** Computed values *)

Lemma computed_by_shape os f c w w' :
  shape w' = shape w → computed_by os f c w → computed_by os f c w'.
Proof.
  intros Hs Hby o uid os' f'. rewrite (shape_listeners _ _ _ Hs). apply Hby.
Qed.

Lemma consistent_intro os f c w vals :
  mapM (λ s, get_value s w) os = Some vals →
  get_value c w = Some (f vals) →
  consistent os f c (view w).
Proof.
  intros Hv Hc. exists vals. rewrite view_lookup. split; [|done].
  rewrite <-Hv. apply mapM_ext. intros s. apply view_lookup.
Qed.

Lemma consistent_unchanged os f c w w' :
  Forall (λ s, s < c) os →
  (∀ a, a ≤ c → heap w' !! a = heap w !! a) →
  consistent os f c (view w) → consistent os f c (view w').
Proof.
  intros Hos Hsame (vals & Hv & Hc). exists vals.
  rewrite view_lookup, Hsame, <-view_lookup by done. split; [|done].
  rewrite <-Hv. apply Forall_mapM_ext. eapply Forall_impl; [done|].
  intros s Hs. simpl in Hs. rewrite !view_lookup, Hsame by lia. done.
Qed.

Lemma mapM_get_value_alter os c g w :
  Forall (λ s, s < c) os →
  mapM (λ s, get_value s (set_heap (alter g c (heap w)) w)) os
    = mapM (λ s, get_value s w) os.
Proof.
  intros Hos. apply Forall_mapM_ext. eapply Forall_impl; [done|].
  intros s Hs. simpl in Hs. unfold get_value. simpl.
  rewrite list_lookup_alter_ne by lia. done.
Qed.

Section Consistency.

Variable os : list nat.
Variable f : list value → value.
Variable c : nat.
Hypothesis sources_before : Forall (λ s, s < c) os.

Variable set : nat → value → World → option World.
Hypothesis set_frame :
  ∀ c' v w w', WF w → set c' v w = Some w' → frame c' w w'.
Hypothesis set_good :
  ∀ c' v w w',
    WF w → computed_by os f c w → recomputes os f c c' v w →
    set c' v w = Some w' →
    ∃ evs, trace w' = trace w ++ evs ∧ Forall (good os f c) evs.

Lemma call_listener_good o l nv w w' :
  WF w → computed_by os f c w → l ∈ listeners o w →
  (o = c → consistent os f c (view w)) →
  call_listener set o l nv w = Some w' →
  ∃ evs, trace w' = trace w ++ evs ∧ Forall (good os f c) evs.
Proof.
  intros Hwf Hby Hl Hcons Hc. unfold call_listener in Hc.
  assert (Hg : good os f c (Called o l nv (view w))) by done.
  destruct l as [g|uid os' f' c'|uid cb]; simplify_eq;
    try (eexists [_]; split; [done|]; by apply Forall_singleton).
  destruct (mapM _ os') as [vals|] eqn:Hvals; simpl in Hc; [|done].
  apply set_good in Hc as (evs & Ht & Hgood).
  - exists (Called o (Recompute uid os' f' c') nv (view w) :: evs).
    simpl in Ht. rewrite <-app_assoc in Ht. split; [done|].
    by apply Forall_cons.
  - by apply WF_record.
  - by apply (computed_by_shape _ _ _ w).
  - intros ->. destruct (Hby _ _ _ _ Hl) as [-> ->]. by exists vals.
Qed.

Lemma call_listeners_good o ls nv w w' :
  WF w → computed_by os f c w → ls ⊆ listeners o w →
  (o = c → consistent os f c (view w)) →
  call_listeners set o ls nv w = Some w' →
  ∃ evs, trace w' = trace w ++ evs ∧ Forall (good os f c) evs.
Proof.
  revert w. induction ls as [|l ls IH]; intros w Hwf Hby Hls Hcons Hc;
    simpl in Hc.
  - simplify_eq. no_events.
  - destruct (call_listener set o l nv w) as [w1|] eqn:H1; simpl in Hc;
      [|done].
    assert (Hl : l ∈ listeners o w) by (apply Hls; by left).
    pose proof (call_listener_frame _ set_frame _ _ _ _ _ Hwf Hl H1) as Hf.
    destruct (call_listener_calls _ set_frame _ _ _ _ _ Hwf Hl H1)
      as (Hbelow & _).
    destruct (call_listener_good _ _ _ _ _ Hwf Hby Hl Hcons H1)
      as (evs1 & Ht1 & Hg1).
    destruct (IH w1) as (evs2 & Ht2 & Hg2); try done.
    + by eapply frame_WF.
    + apply (computed_by_shape _ _ _ w); [apply Hf|done].
    + rewrite (shape_listeners _ _ _ (frame_shape _ _ _ Hf)).
      intros x Hx. apply Hls. by right.
    + intros ->. apply (consistent_unchanged _ _ _ w); auto.
    + exists (evs1 ++ evs2). rewrite Ht2, Ht1, <-app_assoc.
      split; [done|]. by apply Forall_app.
Qed.

Lemma emit_change_good o nv w w' :
  WF w → computed_by os f c w →
  (o = c → consistent os f c (view w)) →
  emit_change set o nv w = Some w' →
  ∃ evs, trace w' = trace w ++ evs ∧ Forall (good os f c) evs.
Proof.
  intros Hwf Hby Hcons Hc. unfold emit_change in Hc.
  destruct (heap w !! o) as [ob|] eqn:Hob; simpl in Hc; [|done].
  destruct (_emitter ob) as [ls|] eqn:Hls; simplify_eq.
  - apply call_listeners_good in Hc as (evs & Ht & Hg); try done.
    + exists (Emit o nv :: evs). simpl in Ht. rewrite <-app_assoc in Ht.
      split; [done|]. by apply Forall_cons.
    + by apply WF_record.
    + change (ls ⊆ listeners o w).
      rewrite (listeners_lookup o ob) by done. by rewrite Hls.
  - exists [Emit o nv]. split; [done|]. by apply Forall_singleton.
Qed.

Lemma updateValue_good o nv w w' :
  WF w → computed_by os f c w →
  (o = c → consistent os f c (view (set__value o nv w))) →
  updateValue set o nv w = Some w' →
  ∃ evs, trace w' = trace w ++ evs ∧ Forall (good os f c) evs.
Proof.
  intros Hwf Hby Hcons Hc. unfold updateValue in Hc.
  destruct (heap w !! o) as [ob|] eqn:Hob; simpl in Hc; [|done].
  destruct (strict_ne nv (_value ob)); simplify_eq.
  - pose proof (frame_set__value o nv w) as Hf.
    apply emit_change_good in Hc; [done|by eapply frame_WF| |done].
    apply (computed_by_shape _ _ _ w); [apply Hf|done].
  - no_events.
Qed.

Lemma assign_good o nv w w' :
  WF w → computed_by os f c w → recomputes os f c o nv w →
  assign set o nv w = Some w' →
  ∃ evs, trace w' = trace w ++ evs ∧ Forall (good os f c) evs.
Proof.
  intros Hwf Hby Hpre Hc. unfold assign in Hc.
  destruct (heap w !! o) as [ob|] eqn:Hob; simpl in Hc; [|done].
  destruct (currentValue ob) as [cur|] eqn:Hcur.
  - destruct (strict_ne nv cur); simplify_eq.
    2:{ no_events. }
    simpl in Hc. destruct (isBatching w); simplify_eq.
    { no_events. }
    assert (Hf : frame o w (set_currentValue o nv w)).
    { eapply frame_set_currentValue; [done|]. unfold is_signal.
      by rewrite Hcur. }
    apply updateValue_good in Hc; [done|by eapply frame_WF| |].
    + apply (computed_by_shape _ _ _ w); [apply Hf|done].
    + intros ->. destruct (Hpre eq_refl) as (vals & Hvals & ->).
      apply (consistent_intro _ _ _ _ vals).
      * unfold set__value. rewrite mapM_get_value_alter by done.
        unfold set_currentValue. by rewrite mapM_get_value_alter.
      * unfold get_value. simpl.
        rewrite !list_lookup_alter_eq, Hob. done.
  - apply updateValue_good in Hc; [done|done|done|].
    intros ->. destruct (Hpre eq_refl) as (vals & Hvals & ->).
    apply (consistent_intro _ _ _ _ vals).
    + unfold set__value. by rewrite mapM_get_value_alter.
    + unfold get_value. simpl. rewrite list_lookup_alter_eq, Hob. simpl.
      unfold value_of. simpl. by rewrite Hcur.
Qed.

End Consistency.

Lemma set_value_good os f c fuel :
  Forall (λ s, s < c) os →
  ∀ o v w w',
    WF w → computed_by os f c w → recomputes os f c o v w →
    set_value fuel o v w = Some w' →
    ∃ evs, trace w' = trace w ++ evs ∧ Forall (good os f c) evs.
Proof.
  intros Hos. induction fuel as [|k IH]; intros o v w w' Hwf Hby Hpre Hs;
    [done|].
  simpl in Hs. eapply assign_good; try done.
  apply set_value_frame.
Qed.

(** *** The computed value after the write *)

(** Whatever the accessor and the flag, the value written is the value
    read afterwards. *)
Lemma set_value_value fuel o v w w' :
  WF w → set_value fuel o v w = Some w' → get_value o w' = Some v.
Proof.
  intros Hwf Hs. destruct fuel as [|k]; [done|]. simpl in Hs.
  unfold assign in Hs. unfold get_value.
  destruct (heap w !! o) as [ob|] eqn:Hob; simpl in Hs; [|done].
  destruct (currentValue ob) as [cur|] eqn:Hcur.
  - destruct (strict_ne v cur) eqn:Hne.
    + simpl in Hs. destruct (isBatching w); simplify_eq.
      * simpl. by rewrite list_lookup_alter_eq, Hob.
      * eapply (updateValue_spec _ (set_value_frame k) o
                  {| _value := _value ob; _emitter := _emitter ob;
                     currentValue := Some v |}) in Hs as (_ & -> & _);
          [done|by apply WF_set_currentValue|].
        simpl. by rewrite list_lookup_alter_eq, Hob.
    + simplify_eq. apply strict_ne_spec in Hne. subst v. rewrite Hob. simpl.
      unfold value_of. by rewrite Hcur.
  - eapply (updateValue_spec _ (set_value_frame k)) in Hs as (_ & -> & _);
      [|done|done].
    simpl. unfold value_of. simpl. by rewrite Hcur.
Qed.

(** A write that changes the value, with the setter of the class or with
    the setter of a signal whose slots agree while no batch is open, comes
    down to the loop over the listeners. *)
Lemma set_value_emits k o ob v w :
  heap w !! o = Some ob →
  currentValue ob = None ∨
    (isBatching w = false ∧ currentValue ob = Some (_value ob)) →
  strict_ne v (value_of ob) = true →
  ∃ w0, heap w0 !! o = Some {| _value := v; _emitter := _emitter ob;
                               currentValue := (λ _, v) <$> currentValue ob |} ∧
        (∀ a, a ≠ o → heap w0 !! a = heap w !! a) ∧
        shape w0 = shape w ∧ updateQueue w0 = updateQueue w ∧
        set_value (S k) o v w
          = call_listeners (set_value k) o (listeners o w) v w0.
Proof.
  intros Hob Hkind Hne. simpl. unfold assign, updateValue, emit_change.
  rewrite Hob. simpl. unfold value_of in Hne.
  rewrite (listeners_lookup o ob) by done.
  destruct Hkind as [Hcur|[Hb Hcur]]; rewrite Hcur in *; simpl.
  - rewrite Hne. simpl. rewrite list_lookup_alter_eq, Hob. simpl.
    eexists. split; [|split; [|split; [|split]]]; last first.
    + by destruct (_emitter ob).
    + done.
    + apply (shape_set__value o v w).
    + intros a Ha. simpl. by rewrite list_lookup_alter_ne.
    + simpl. rewrite list_lookup_alter_eq, Hob. simpl. by rewrite ?Hcur.
  - rewrite Hne. simpl. rewrite Hb, !list_lookup_alter_eq, Hob. simpl.
    rewrite Hne. simpl.
    eexists. split; [|split; [|split; [|split]]]; last first.
    + by destruct (_emitter ob).
    + done.
    + etrans; [apply (shape_set__value o v (set_currentValue o v w))|].
      apply (frame_shape o). eapply frame_set_currentValue; [done|].
      unfold is_signal. by rewrite Hcur.
    + intros a Ha. simpl. by rewrite !list_lookup_alter_ne.
    + simpl. by rewrite !list_lookup_alter_eq, Hob.
Qed.

Lemma WF_shape_same_queue w w' :
  WF w → shape w' = shape w → updateQueue w' = updateQueue w → WF w'.
Proof.
  intros Hwf Hs Hq. apply (WF_shape w); [done|done|].
  rewrite Hq, (shape_length _ _ Hs). apply Hwf.
Qed.

Section AfterTheWrite.

Variable os : list nat.
Variable f : list value → value.
Variable c s k : nat.
Hypothesis sources_before : Forall (λ a, a < c) os.

(** One listener of the source: a recomputation of [c] leaves [c]
    consistent; a listener that writes a later observable, or none, leaves
    [c] and its sources alone. *)
Lemma call_listener_recomputes l nv w w' :
  WF w → computed_by os f c w → l ∈ listeners s w → target l = Some c →
  call_listener (set_value k) s l nv w = Some w' →
  consistent os f c (view w').
Proof.
  intros Hwf Hby Hl Ht Hc. destruct l as [|uid os' f' c'|]; try done.
  simpl in Ht. simplify_eq. destruct (Hby _ _ _ _ Hl) as [-> ->].
  unfold call_listener in Hc.
  destruct (mapM _ os) as [vals|] eqn:Hvals; simpl in Hc; [|done].
  assert (Hwf0 : WF (record (Called s (Recompute uid os f c) nv (view w)) w))
    by by apply WF_record.
  pose proof (set_value_frame _ _ _ _ _ Hwf0 Hc) as Hf.
  apply (consistent_intro _ _ _ _ vals).
  - rewrite <-Hvals. apply Forall_mapM_ext. eapply Forall_impl; [done|].
    intros a Ha. simpl in Ha. unfold get_value.
    by rewrite (frame_below _ _ _ Hf) by done.
  - by eapply set_value_value.
Qed.

Lemma call_listener_later l nv w w' :
  WF w → l ∈ listeners s w →
  match target l with Some c' => c < c' | None => True end →
  call_listener (set_value k) s l nv w = Some w' →
  ∀ a, a ≤ c → heap w' !! a = heap w !! a.
Proof.
  intros Hwf Hl Ht Hc a Ha. unfold call_listener in Hc.
  destruct l as [|uid os' f' c'|]; simplify_eq; try done.
  destruct (mapM _ os') as [vals|]; simpl in Hc; [|done].
  apply set_value_frame in Hc; [|by apply WF_record].
  simpl in Ht. rewrite (frame_below _ _ _ Hc) by lia. done.
Qed.

(** The loop: once the last recomputation of [c] in the list has run, [c]
    is consistent and stays so. *)
Lemma call_listeners_recomputes ls nv :
  ∀ w w',
    WF w → computed_by os f c w → ls ⊆ listeners s w → ordered ls →
    Some c ∈ target <$> ls ∨
      (consistent os f c (view w) ∧
       Forall (λ l, match target l with
                    | Some c' => c < c' | None => True end) ls) →
    call_listeners (set_value k) s ls nv w = Some w' →
    consistent os f c (view w').
Proof.
  induction ls as [|l ls IH]; intros w w' Hwf Hby Hls Hord Hinv Hc;
    simpl in Hc.
  - simplify_eq. destruct Hinv as [Hin|[Hcons _]]; [|done].
    by apply elem_of_nil in Hin.
  - destruct Hord as [Hord Hord'].
    destruct (call_listener (set_value k) s l nv w) as [w1|] eqn:H1;
      simpl in Hc; [|done].
    assert (Hl : l ∈ listeners s w) by (apply Hls; by left).
    pose proof (call_listener_frame _ (set_value_frame k) _ _ _ _ _
                  Hwf Hl H1) as Hf.
    apply (IH w1 w'); try done.
    + by eapply frame_WF.
    + apply (computed_by_shape _ _ _ w); [apply Hf|done].
    + rewrite (shape_listeners _ _ _ (frame_shape _ _ _ Hf)).
      intros x Hx. apply Hls. by right.
    + destruct (decide (Some c ∈ target <$> ls)) as [Hin|Hout]; [by left|].
      right.
      assert (Hlater : ∀ l0, target l0 = Some c →
                Forall (before l0) ls →
                Forall (λ l', match target l' with
                              | Some c' => c < c' | None => True end) ls).
      { intros l0 Hl0 Hb. apply Forall_forall. intros l' Hl'.
        eapply Forall_forall in Hb; [|done]. unfold before in Hb.
        rewrite Hl0 in Hb. destruct (target l') as [c'|] eqn:Ht'; [|done].
        destruct (decide (c' = c)) as [->|]; [|lia].
        exfalso. apply Hout. rewrite <-Ht'. by apply list_elem_of_fmap_2. }
      destruct Hinv as [Hin|[Hcons Hall]].
      * rewrite fmap_cons in Hin. apply elem_of_cons in Hin as [Ht|Hin];
          [|done].
        split; [by eapply call_listener_recomputes|].
        by apply (Hlater l).
      * apply Forall_cons in Hall as [Hl' Hall]. split; [|done].
        apply (consistent_unchanged _ _ _ w); [done| |done].
        by eapply call_listener_later.
Qed.

End AfterTheWrite.

Lemma WF_computed_sum : WF computed_sum.
Proof.
  unfold computed_sum.
  destruct (computed [0; 1] sum two_sources) as [[[c us] w]|] eqn:E;
    [|apply WF_empty].
  apply WF_subscribe_UserFn. eapply (WF_computed _ _ two_sources); [|exact E].
  apply WF_new, WF_new, WF_empty.
Qed.

(** C3.  After a write that changes a source of a computed value while no
    batch is open (a source is an observable that carries the recomputation
    closure of the computed value), whenever a listener of the computed
    value is called, the computed value it reads is the transform of the
    values of all the sources at that moment.  The recomputation is part of
    the write: when the two slots of the source agree (always so for an
    observable that is not a signal), the write calls the recomputation
    closure with the new value before it returns, and when it returns the
    computed value is the transform of the values of all its sources. *)
Theorem computed_is_consistent_when_its_listeners_run
    fuel w s ob v uid os f c :
  WF w → Recompute uid os f c ∈ listeners s w → heap w !! s = Some ob →
  isBatching w = false → strict_ne v (value_of ob) = true →
  length (heap w) ≤ fuel →
  ∃ w', set_value fuel s v w = Some w' ∧
        Forall (good os f c) (since w w') ∧
        (currentValue ob = None ∨ currentValue ob = Some (_value ob) →
         (Recompute uid os f c, v) ∈ calls_on s (since w w') ∧
         (ordered (listeners s w) → consistent os f c (view w'))).
Proof.
  intros Hwf Hl Hob Hb Hne Hfuel.
  pose proof (wf_listeners _ Hwf _ _ Hl) as (Hsc & Hc & Hos).
  pose proof (computed_by_known _ _ _ _ _ _ Hwf Hl) as Hby.
  destruct (set_value_total fuel s v w) as [w' Hs]; [done|lia|lia|].
  exists w'. split; [done|].
  destruct (set_value_good os f c fuel Hos s v w w') as (evs & Ht & Hg);
    try done.
  { intros ->. lia. }
  rewrite (since_app _ _ _ Ht). split; [done|]. intros Hkind.
  assert (Hkind' : currentValue ob = None ∨
            (isBatching w = false ∧ currentValue ob = Some (_value ob))).
  { destruct Hkind as [?|?]; [by left|by right]. }
  split.
  - destruct (set_value_spec fuel s ob v w w' Hwf Hob Hkind' Hs)
      as (_ & evs' & Ht' & _ & Hcalls).
    rewrite Ht' in Ht. apply app_inv_head in Ht. subst evs'.
    rewrite Hcalls, Hne. by apply (list_elem_of_fmap_2 (λ l, (l, v))).
  - intros Hord. destruct fuel as [|k]; [lia|].
    destruct (set_value_emits k s ob v w Hob Hkind' Hne)
      as (w0 & _ & _ & Hs0 & Hq0 & Heq).
    rewrite Heq in Hs.
    eapply (call_listeners_recomputes os f c s k); try exact Hs; try done.
    + by apply (WF_shape_same_queue w).
    + by apply (computed_by_shape _ _ _ w).
    + by rewrite (shape_listeners _ _ _ Hs0).
    + left. by apply (list_elem_of_fmap_2 target) in Hl.
Qed.

Lemma computed_is_consistent_when_its_listeners_run_witness :
  WF computed_sum ∧
  Recompute 0 [0; 1] sum 2 ∈ listeners 0 computed_sum ∧
  ∃ w', set_value 3 0 (VNum 5) computed_sum = Some w' ∧
        Forall (good [0; 1] sum 2) (since computed_sum w') ∧
        (Recompute 0 [0; 1] sum 2, VNum 5)
          ∈ calls_on 0 (since computed_sum w') ∧
        consistent [0; 1] sum 2 (view w').
Proof.
  assert (Hl : Recompute 0 [0; 1] sum 2 ∈ listeners 0 computed_sum)
    by (vm_compute; left).
  assert (Hfuel : length (heap computed_sum) ≤ 3) by (simpl; lia).
  assert (Hord : ordered (listeners 0 computed_sum))
    by (split; [constructor|exact I]).
  split; [exact WF_computed_sum|]. split; [exact Hl|].
  destruct (computed_is_consistent_when_its_listeners_run 3 computed_sum 0 _
              (VNum 5) 0 [0; 1] sum 2 WF_computed_sum Hl eq_refl
              eq_refl eq_refl Hfuel) as (w' & Hs & Hg & Hrest).
  destruct (Hrest (or_introl eq_refl)) as [Hcall Hcons].
  exists w'. split; [exact Hs|]. split; [exact Hg|].
  split; [exact Hcall|exact (Hcons Hord)].
Defined.

(** The events of that write: the source notifies the recomputation, the
    computed value becomes [5 + 2], and its subscriber reads [7] next to
    the sources [5] and [2]. *)
Example computed_sum_write :
  trace <$> set_value 3 0 (VNum 5) computed_sum =
  Some [Emit 0 (VNum 5);
        Called 0 (Recompute 0 [0; 1] sum 2) (VNum 5) [VNum 5; VNum 2; VNum 3];
        Emit 2 (VNum 7);
        Called 2 (UserFn 0) (VNum 7) [VNum 5; VNum 2; VNum 7]].
Proof. reflexivity. Qed.

(** *** Signals while a batch is open *)

Lemma quiet_nil o : quiet o [].
Proof. done. Qed.

Lemma quiet_app o evs1 evs2 : quiet o evs1 → quiet o evs2 → quiet o (evs1 ++ evs2).
Proof.
  intros [H1 H2] [H3 H4]. split.
  - by rewrite emissions_app, H1, H3.
  - by rewrite calls_on_app, H2, H4.
Qed.

Lemma quiet_other c e :
  match e with Emit a _ | Called a _ _ _ => a ≠ c | Read _ _ => True end →
  quiet c [e].
Proof.
  destruct e as [a v|a l v vw|a v]; intros Ha; split; simpl; try done;
    by rewrite decide_False.
Qed.

Lemma signal_at_shape o w w' : shape w' = shape w → signal_at o w → signal_at o w'.
Proof.
  intros Hs (ob & Hob & Hsig).
  destruct (shape_lookup _ _ _ _ Hs Hob) as (ob' & Hob' & _ & Hsig').
  exists ob'. split; [done|congruence].
Qed.

Section Quiet.

Variable c : nat.
Variable set : nat → value → World → option World.
Hypothesis set_frame :
  ∀ o v w w', WF w → set o v w = Some w' → frame o w w'.
Hypothesis set_quiet :
  ∀ o v w w',
    WF w → isBatching w = true → signal_at c w → set o v w = Some w' →
    ∃ evs, trace w' = trace w ++ evs ∧ quiet c evs.

Lemma call_listener_quiet o l nv w w' :
  WF w → isBatching w = true → signal_at c w → o ≠ c →
  call_listener set o l nv w = Some w' →
  ∃ evs, trace w' = trace w ++ evs ∧ quiet c evs.
Proof.
  intros Hwf Hb Hsig Hoc Hc. unfold call_listener in Hc.
  assert (Hq : quiet c [Called o l nv (view w)]) by by apply quiet_other.
  destruct l as [g|uid os' f' c'|uid cb]; simplify_eq;
    try (eexists [_]; by split).
  destruct (mapM _ os') as [vals|] eqn:Hvals; simpl in Hc; [|done].
  apply set_quiet in Hc as (evs & Ht & Hq'); try done.
  - exists ([Called o (Recompute uid os' f' c') nv (view w)] ++ evs).
    simpl in Ht. rewrite <-app_assoc in Ht. split; [done|].
    by apply quiet_app.
  - by apply WF_record.
Qed.

Lemma call_listeners_quiet o ls nv w w' :
  WF w → isBatching w = true → signal_at c w → o ≠ c →
  ls ⊆ listeners o w →
  call_listeners set o ls nv w = Some w' →
  ∃ evs, trace w' = trace w ++ evs ∧ quiet c evs.
Proof.
  revert w. induction ls as [|l ls IH]; intros w Hwf Hb Hsig Hoc Hls Hc;
    simpl in Hc.
  - simplify_eq. no_events.
  - destruct (call_listener set o l nv w) as [w1|] eqn:H1; simpl in Hc;
      [|done].
    assert (Hl : l ∈ listeners o w) by (apply Hls; by left).
    pose proof (call_listener_frame _ set_frame _ _ _ _ _ Hwf Hl H1) as Hf.
    destruct (call_listener_quiet _ _ _ _ _ Hwf Hb Hsig Hoc H1)
      as (evs1 & Ht1 & Hq1).
    destruct (IH w1) as (evs2 & Ht2 & Hq2); try done.
    + by eapply frame_WF.
    + by rewrite (frame_isBatching _ _ _ Hf).
    + apply (signal_at_shape _ w); [apply Hf|done].
    + rewrite (shape_listeners _ _ _ (frame_shape _ _ _ Hf)).
      intros x Hx. apply Hls. by right.
    + exists (evs1 ++ evs2). rewrite Ht2, Ht1, <-app_assoc.
      split; [done|]. by apply quiet_app.
Qed.

Lemma emit_change_quiet o nv w w' :
  WF w → isBatching w = true → signal_at c w → o ≠ c →
  emit_change set o nv w = Some w' →
  ∃ evs, trace w' = trace w ++ evs ∧ quiet c evs.
Proof.
  intros Hwf Hb Hsig Hoc Hc. unfold emit_change in Hc.
  destruct (heap w !! o) as [ob|] eqn:Hob; simpl in Hc; [|done].
  assert (Hq : quiet c [Emit o nv]) by by apply quiet_other.
  destruct (_emitter ob) as [ls|] eqn:Hls; simplify_eq.
  2:{ eexists [_]. by split. }
  apply call_listeners_quiet in Hc as (evs & Ht & Hq'); try done.
  - exists ([Emit o nv] ++ evs). simpl in Ht. rewrite <-app_assoc in Ht.
    split; [done|]. by apply quiet_app.
  - by apply WF_record.
  - change (ls ⊆ listeners o w).
    rewrite (listeners_lookup o ob) by done. by rewrite Hls.
Qed.

Lemma updateValue_quiet o nv w w' :
  WF w → isBatching w = true → signal_at c w → o ≠ c →
  updateValue set o nv w = Some w' →
  ∃ evs, trace w' = trace w ++ evs ∧ quiet c evs.
Proof.
  intros Hwf Hb Hsig Hoc Hc. unfold updateValue in Hc.
  destruct (heap w !! o) as [ob|] eqn:Hob; simpl in Hc; [|done].
  destruct (strict_ne nv (_value ob)); simplify_eq.
  2:{ no_events. }
  pose proof (frame_set__value o nv w) as Hf.
  apply emit_change_quiet in Hc; try done.
  - by eapply frame_WF.
  - apply (signal_at_shape _ w); [apply Hf|done].
Qed.

Lemma assign_quiet o nv w w' :
  WF w → isBatching w = true → signal_at c w →
  assign set o nv w = Some w' →
  ∃ evs, trace w' = trace w ++ evs ∧ quiet c evs.
Proof.
  intros Hwf Hb Hsig Hc. unfold assign in Hc.
  destruct (heap w !! o) as [ob|] eqn:Hob; simpl in Hc; [|done].
  destruct (currentValue ob) as [cur|] eqn:Hcur.
  - destruct (strict_ne nv cur); simplify_eq.
    2:{ no_events. }
    simpl in Hc. rewrite Hb in Hc. simplify_eq.
    no_events.
  - apply updateValue_quiet in Hc; try done.
    intros ->. destruct Hsig as (ob' & Hob' & Hsig).
    unfold is_signal in Hsig. simplify_eq. by rewrite Hcur in Hsig.
Qed.

End Quiet.

Lemma set_value_quiet c fuel :
  ∀ o v w w',
    WF w → isBatching w = true → signal_at c w →
    set_value fuel o v w = Some w' →
    ∃ evs, trace w' = trace w ++ evs ∧ quiet c evs.
Proof.
  induction fuel as [|k IH]; intros o v w w' Hwf Hb Hsig Hs; [done|].
  simpl in Hs. eapply assign_quiet; try done. apply set_value_frame.
Qed.

Lemma WF_computed_sum_signal_batching : WF computed_sum_signal_batching.
Proof.
  unfold computed_sum_signal_batching.
  destruct (signal_of 2 computed_sum) as [[w r]|] eqn:E; [|apply WF_empty].
  apply WF_set_isBatching. eapply WF_signal_of; [|exact E].
  apply WF_computed_sum.
Qed.



(** In that world the write to the first source leaves the computed value
    [5 + 2], readable at once, and queued. *)
Example signal_computed_is_queued :
  (λ w', (get_value 2 w', updateQueue w', calls_on 2 (trace w'))) <$>
    set_value 3 0 (VNum 5) computed_sum_signal_batching
  = Some (Some (VNum 7), [2], []).
Proof. reflexivity. Qed.


(** With [signal] around the computed value, as in example3.ts: the two
    sources are written in one batch and the subscriber of the computed
    value is called once, after the body, with the final value. *)
Example signal_computed_notifies_after_batch :
  let w := set_isBatching false computed_sum_signal_batching in
  (λ r, calls_on 2 (trace r.1)) <$>
    exec 3 (BatchUpdate [SetValue 0 (VNum 5); SetValue 1 (VNum 6);
                         GetValue 2]) w
  = Some [(UserFn 0, VNum 11)] ∧
  (λ r, last (trace r.1)) <$>
    exec 3 (BatchUpdate [SetValue 0 (VNum 5); SetValue 1 (VNum 6);
                         GetValue 2]) w
  = Some (Some (Called 2 (UserFn 0) (VNum 11) [VNum 5; VNum 6; VNum 11])).
Proof. split; reflexivity. Qed.

End ReactiveFacts.

(** ** More on observable values, computed values, effects and batches *)

Module ReactiveSlots.
Import Reactive ReactiveFacts.

(** *** The slots of a signal under writes *)

Lemma sync_refl w : sync w w.
Proof. split; auto. Qed.

Lemma sync_trans w1 w2 w3 :
  isBatching w2 = isBatching w1 → sync w1 w2 → sync w2 w3 → sync w1 w3.
Proof.
  intros Hb [A1 A2] [B1 B2]. split; [|by auto].
  intros o ob' Hob'. destruct (B1 o ob' Hob') as [H|[H|[H1 H2]]].
  - destruct (A1 o ob' H) as [H'|[H'|[H1 H2]]]; auto.
  - auto.
  - right. right. split; [congruence|done].
Qed.

Lemma sync_same w w' :
  heap w' = heap w → updateQueue w' = updateQueue w → sync w w'.
Proof. intros Hh Hq. split; rewrite ?Hh, ?Hq; auto. Qed.

Section Slots.

Variable set : nat → value → World → option World.
Hypothesis set_frame :
  ∀ c v w w', WF w → set c v w = Some w' → frame c w w'.
Hypothesis set_sync :
  ∀ c v w w', WF w → set c v w = Some w' → sync w w'.

Lemma call_listener_sync o l nv w w' :
  WF w → call_listener set o l nv w = Some w' → sync w w'.
Proof.
  intros Hwf Hc. unfold call_listener in Hc.
  destruct l as [f|uid os f c|uid cb]; simplify_eq;
    try by apply sync_same.
  destruct (mapM _ os) as [vals|]; simpl in Hc; [|done].
  apply set_sync in Hc; [|by apply WF_record].
  eapply sync_trans; [| |exact Hc]; [done|by apply sync_same].
Qed.

Lemma call_listeners_sync o ls nv w w' :
  WF w → ls ⊆ listeners o w →
  call_listeners set o ls nv w = Some w' → sync w w'.
Proof.
  revert w. induction ls as [|l ls IH]; intros w Hwf Hls Hc; simpl in Hc.
  - simplify_eq. apply sync_refl.
  - destruct (call_listener set o l nv w) as [w1|] eqn:H1; simpl in Hc;
      [|done].
    assert (Hl : l ∈ listeners o w) by (apply Hls; by left).
    pose proof (call_listener_frame _ set_frame _ _ _ _ _ Hwf Hl H1) as Hf.
    apply (sync_trans w w1 w').
    + apply Hf.
    + by eapply call_listener_sync.
    + apply IH; [by eapply frame_WF| |done].
      rewrite (shape_listeners _ _ _ (frame_shape _ _ _ Hf)).
      intros x Hx. apply Hls. by right.
Qed.

Lemma emit_change_sync o nv w w' :
  WF w → emit_change set o nv w = Some w' → sync w w'.
Proof.
  intros Hwf Hc. unfold emit_change in Hc.
  destruct (heap w !! o) as [ob|] eqn:Hob; simpl in Hc; [|done].
  destruct (_emitter ob) as [ls|] eqn:Hls; simplify_eq;
    [|by apply sync_same].
  apply call_listeners_sync in Hc.
  - eapply sync_trans; [| |exact Hc]; [done|by apply sync_same].
  - by apply WF_record.
  - change (ls ⊆ listeners o w).
    rewrite (listeners_lookup o ob) by done. by rewrite Hls.
Qed.

(** [updateValue] with the value the accessor holds, if there is one. *)
Lemma updateValue_sync o ob nv w w' :
  WF w → heap w !! o = Some ob →
  currentValue ob = None ∨ currentValue ob = Some nv →
  updateValue set o nv w = Some w' →
  (∀ a ob', heap w' !! a = Some ob' →
            (a ≠ o ∧ heap w !! a = Some ob') ∨ synced ob' ∨
            (isBatching w = true ∧ a ∈ updateQueue w')) ∧
  (∀ a, a ∈ updateQueue w → a ∈ updateQueue w').
Proof.
  intros Hwf Hob Hcur Hc.
  destruct (updateValue_spec _ set_frame _ _ _ _ _ Hwf Hob Hc)
    as (_ & Hob' & _).
  unfold updateValue in Hc. rewrite Hob in Hc. simpl in Hc.
  assert (Ho : ∀ ob', heap w' !! o = Some ob' → synced ob').
  { intros ob' E. rewrite Hob' in E. simplify_eq. unfold synced. simpl.
    by destruct Hcur as [->| ->]. }
  destruct (strict_ne nv (_value ob)); simplify_eq.
  - apply emit_change_sync in Hc as [H1 H2];
      [|eapply frame_WF; [done|apply frame_set__value]].
    split; [|done]. intros a ob' Ha.
    destruct (decide (a = o)) as [->|Hne]; [by right; left; apply Ho|].
    destruct (H1 a ob' Ha) as [H|[H|H]]; [|by auto|by auto].
    left. split; [done|]. simpl in H. by rewrite list_lookup_alter_ne in H.
  - split; [|done]. intros a ob' Ha.
    destruct (decide (a = o)) as [->|Hne]; [by right; left; apply Ho|auto].
Qed.

Lemma assign_sync o nv w w' :
  WF w → assign set o nv w = Some w' → sync w w'.
Proof.
  intros Hwf Hc. unfold assign in Hc.
  destruct (heap w !! o) as [ob|] eqn:Hob; simpl in Hc; [|done].
  destruct (currentValue ob) as [cur|] eqn:Hcur.
  - destruct (strict_ne nv cur); simplify_eq; [|apply sync_refl].
    simpl in Hc. destruct (isBatching w) eqn:Hb; simplify_eq.
    + split; simpl.
      * intros a ob' Ha. destruct (decide (a = o)) as [->|Hne].
        -- right. right. split; [done|]. unfold queue_add.
           case_decide; [done|]. apply elem_of_app. right. by left.
        -- left. by rewrite list_lookup_alter_ne in Ha.
      * intros a Ha. unfold queue_add. case_decide; [done|].
        apply elem_of_app. by left.
    + assert (Hob1 : heap (set_currentValue o nv w) !! o =
                Some {| _value := _value ob; _emitter := _emitter ob;
                        currentValue := Some nv |}).
      { simpl. by rewrite list_lookup_alter_eq, Hob. }
      eapply updateValue_sync in Hc as [H1 H2];
        [|by apply WF_set_currentValue|exact Hob1|by right].
      split; [|done]. intros a ob' Ha.
      destruct (H1 a ob' Ha) as [[Hne H]|[H|[H _]]];
        [|by auto|simpl in H; congruence].
      left. simpl in H. by rewrite list_lookup_alter_ne in H.
  - eapply updateValue_sync in Hc as [H1 H2]; [|done|done|by left].
    split; [|done]. intros a ob' Ha.
    destruct (H1 a ob' Ha) as [[_ H]|[H|H]]; auto.
Qed.

End Slots.

Lemma set_value_sync fuel :
  ∀ o v w w', WF w → set_value fuel o v w = Some w' → sync w w'.
Proof.
  induction fuel as [|k IH]; intros o v w w' Hwf Hs; [done|].
  simpl in Hs. eapply assign_sync; try done. apply set_value_frame.
Qed.

Lemma sync_Synced w w' : sync w w' → Synced w → Synced w'.
Proof.
  intros [H1 H2] Hs o ob' Hob' Hq.
  destruct (H1 o ob' Hob') as [H|[H|[_ H]]]; [|done|done].
  apply (Hs o ob' H). intros Hin. by apply Hq, H2.
Qed.

(** The loop of [batchUpdate]: once an object has been through it, its
    slots agree, and they go on agreeing. *)
Lemma flush_synced fuel q :
  ∀ w w', WF w → isBatching w = false →
    (∀ o ob, heap w !! o = Some ob → o ∉ q → synced ob) →
    flush fuel q w = Some w' →
    ∀ o ob, heap w' !! o = Some ob → synced ob.
Proof.
  induction q as [|a q IH]; intros w w' Hwf Hb Hs H; simpl in H.
  - simplify_eq. intros o ob Hob. apply (Hs o ob Hob). by intros ?%elem_of_nil.
  - unfold get_value in H.
    destruct (heap w !! a) as [oba|] eqn:Ha; simpl in H; [|done].
    destruct (updateValue (set_value fuel) a (value_of oba) w) as [w1|] eqn:H1;
      simpl in H; [|done].
    pose proof (updateValue_frame _ (set_value_frame fuel) _ _ _ _ Hwf H1)
      as Hf.
    eapply (updateValue_sync _ (set_value_frame fuel) (set_value_sync fuel))
      in H1 as [Hobj _]; [|done|exact Ha|].
    2:{ unfold value_of. destruct (currentValue oba); auto. }
    apply (IH w1 w'); [by eapply frame_WF| | |done].
    { by rewrite (frame_isBatching _ _ _ Hf). }
    intros o ob Hob Hq. destruct (Hobj o ob Hob) as [[Hne H']|[H'|[H' _]]].
    + apply (Hs o ob H'). intros [->|Hin]%elem_of_cons; done.
    + done.
    + congruence.
Qed.

Lemma exec_Synced fuel s :
  ∀ w w' r, WF w → Synced w → exec fuel s w = Some (w', r) →
    Synced w' ∧
    (isBatching w = false → updateQueue w = [] →
     isBatching w' = false ∧ updateQueue w' = []).
Proof.
  induction s as [o v|o|e|body IH] using stmt_nested_ind;
    intros w w' r Hwf Hs H.
  - rewrite exec_SetValue in H.
    destruct (set_value fuel o v w) as [w1|] eqn:H1; simplify_eq/=.
    pose proof (set_value_frame _ _ _ _ _ Hwf H1) as Hf. split.
    + eapply sync_Synced; [|done]. by eapply set_value_sync.
    + intros Hb Hq. rewrite (frame_isBatching _ _ _ Hf).
      by rewrite (frame_queue_idle _ _ _ Hf).
  - simpl in H. destruct (get_value o w); simplify_eq/=. by split.
  - simpl in H. simplify_eq. by split.
  - rewrite exec_BatchUpdate in H.
    assert (Hrun : ∀ w0 w1 r1, WF w0 → Synced w0 →
                     run fuel body w0 = Some (w1, r1) → Synced w1).
    { clear w w' r Hwf Hs H. induction IH as [|s body Hs _ IHb];
        intros w0 w1 r1 Hwf0 Hs0 Hr.
      - simpl in Hr. by simplify_eq.
      - rewrite run_cons in Hr.
        destruct (exec fuel s w0) as [[w2 [[]|e]]|] eqn:He; simplify_eq.
        + destruct (exec_WF _ _ _ _ _ Hwf0 He) as [Hwf2 _].
          destruct (Hs _ _ _ Hwf0 Hs0 He) as [Hs2 _]. by eapply IHb.
        + by eapply Hs. }
    unfold batchUpdate in H.
    destruct (run fuel body (set_isBatching true w)) as [[w1 r1]|] eqn:H1;
      simpl in H; [|done].
    destruct (flush fuel _ _) as [w2|] eqn:H2; simpl in H; [|done].
    simplify_eq.
    destruct (run_WF _ _ _ _ _ (WF_set_isBatching true _ Hwf) H1)
      as [Hwf1 _].
    pose proof (Hrun _ _ _ (WF_set_isBatching true _ Hwf) Hs H1) as Hs1.
    pose proof (flush_synced fuel _ _ _ (WF_set_isBatching false _ Hwf1)
                  eq_refl Hs1 H2) as Hall.
    apply flush_frame in H2 as (_ & _ & Hb & _);
      [|by apply WF_set_isBatching].
    split; [|by split].
    intros o ob Hob _. by apply (Hall o ob).
Qed.

Lemma exec_Idle fuel s w w' r :
  WF w → Idle w → exec fuel s w = Some (w', r) → Idle w'.
Proof.
  intros Hwf (Hb & Hq & Hall) H.
  assert (Hs : Synced w) by (intros o ob Hob _; by apply (Hall o ob)).
  destruct (exec_Synced fuel s w w' r Hwf Hs H) as [Hs' Hidle].
  destruct (Hidle Hb Hq) as [Hb' Hq'].
  split; [done|]. split; [done|]. intros o ob Hob.
  apply (Hs' o ob Hob). rewrite Hq'. by intros ?%elem_of_nil.
Qed.



End ReactiveSlots.


Module ReactiveSubscriptions.
Import Reactive ReactiveFacts.

(** *** Subscribing and unsubscribing *)

Lemma filter_all {A} (P : A → Prop) `{∀ x, Decision (P x)} (l : list A) :
  Forall P l → filter P l = l.
Proof.
  induction 1 as [|x l Hx _ IH]; [done|].
  by rewrite filter_cons_True, IH.
Qed.

Lemma filter_none {A} (P : A → Prop) `{∀ x, Decision (P x)} (l : list A) :
  Forall (λ x, ¬ P x) l → filter P l = [].
Proof.
  induction 1 as [|x l Hx _ IH]; [done|].
  by rewrite filter_cons_False.
Qed.

Lemma same_function_refl l : same_function l l = true.
Proof. destruct l; simpl; by rewrite bool_decide_eq_true_2. Qed.

Lemma same_function_closure l1 l2 uid :
  same_function l1 l2 = true → closure_id l2 = Some uid →
  closure_id l1 = Some uid.
Proof.
  destruct l1, l2; simpl; try done; intros Hb%bool_decide_eq_true; congruence.
Qed.

Lemma listeners_unsubscribe_eq o l w o' :
  listeners o' (unsubscribe o l w) =
    if decide (o' = o)
    then filter (λ l', same_function l' l = false) (listeners o w)
    else listeners o' w.
Proof.
  unfold unsubscribe. destruct (heap w !! o) as [ob|] eqn:Hob.
  - rewrite (listeners_set_emitter o ob) by done. case_decide; [|done].
    rewrite (listeners_lookup o ob) by done. unfold off.
    destruct (_emitter ob) as [ls|]; [|done]. simpl.
    case_decide as Hn; [done|]. simpl.
    destruct (filter _ ls); [done|simpl in Hn; lia].
  - case_decide; [|done]. subst o'. unfold listeners. by rewrite Hob.
Qed.

Lemma unsubscribe_fields o l w :
  view (unsubscribe o l w) = view w ∧
  trace (unsubscribe o l w) = trace w ∧
  allocated (unsubscribe o l w) = allocated w ∧
  isBatching (unsubscribe o l w) = isBatching w ∧
  updateQueue (unsubscribe o l w) = updateQueue w.
Proof.
  unfold unsubscribe. destruct (heap w !! o) as [ob|] eqn:Hob; [|done].
  split; [|done]. unfold view. simpl. apply list_eq. intros a.
  rewrite !list_lookup_fmap. destruct (decide (o = a)) as [->|Hne].
  - by rewrite list_lookup_alter_eq, Hob.
  - by rewrite list_lookup_alter_ne.
Qed.

Lemma subscribe_view o l w : view (subscribe o l w) = view w.
Proof.
  unfold view. apply list_eq. intros a. rewrite !list_lookup_fmap.
  apply subscribe_values.
Qed.

Lemma unsubscribe_all_fields us :
  ∀ w, view (unsubscribe_all us w) = view w ∧
       trace (unsubscribe_all us w) = trace w.
Proof.
  induction us as [|[o l] us IH]; intros w; [done|]. simpl.
  destruct (IH (unsubscribe o l w)) as [-> ->].
  by destruct (unsubscribe_fields o l w) as (-> & -> & _).
Qed.

Lemma listeners_unsubscribe_all us o' :
  ∀ w, listeners o' (unsubscribe_all us w) =
         filter (λ l', Forall (λ u, u.1 = o' → same_function l' u.2 = false) us)
           (listeners o' w).
Proof.
  induction us as [|[o l] us IH]; intros w.
  - simpl. symmetry. apply filter_all, Forall_forall. intros; constructor.
  - simpl. rewrite IH, listeners_unsubscribe_eq. case_decide as Hd.
    + subst o'. rewrite list_filter_filter. apply list_filter_iff.
      intros l'. rewrite Forall_cons. simpl. split.
      * intros [H1 H2]. auto.
      * intros [H1 H2]. auto.
    + apply list_filter_iff. intros l'. rewrite Forall_cons. simpl. split.
      * intros H1. split; [by intros ->|done].
      * by intros [_ H1].
Qed.

(** Subscriptions of closures that are new, called back: the listeners are
    what they were. *)
Lemma unsubscribe_all_new us w w1 o' :
  listeners o' w1 = listeners o' w ++ (snd <$> filter (λ u, u.1 = o') us) →
  (∀ u l', u ∈ us → l' ∈ listeners o' w → same_function l' u.2 = false) →
  listeners o' (unsubscribe_all us w1) = listeners o' w.
Proof.
  intros H1 Hnew. rewrite listeners_unsubscribe_all, H1, filter_app.
  rewrite (filter_all _ (listeners o' w)).
  2:{ apply Forall_forall. intros l' Hl'. apply Forall_forall.
      intros u Hu _. by apply Hnew. }
  rewrite filter_none; [by rewrite app_nil_r|].
  apply Forall_forall. intros l' Hl' Hall.
  apply list_elem_of_fmap in Hl' as (u & -> & Hu).
  apply list_elem_of_filter in Hu as [Hu1 Hu].
  rewrite Forall_forall in Hall. specialize (Hall u Hu Hu1).
  by rewrite same_function_refl in Hall.
Qed.

(** X8.  The function [subscribe] returns removes the listener by
    reference, wherever it is in the list: after it is called, no
    subscription of that function is left, those made by earlier calls of
    [subscribe] included; the other listeners keep their order, and the
    other objects their listeners. *)
Theorem unsubscribe_removes_every_subscription o l w :
  o < length (heap w) →
  (∀ o', listeners o' (unsubscribe o l (subscribe o l w)) =
           if decide (o' = o)
           then filter (λ l', same_function l' l = false) (listeners o w)
           else listeners o' w) ∧
  (l ∉ listeners o (unsubscribe o l (subscribe o l w))) ∧
  view (unsubscribe o l (subscribe o l w)) = view w.
Proof.
  intros Ho. destruct (lookup_lt_is_Some_2 _ _ Ho) as [ob Hob].
  assert (H : ∀ o', listeners o' (unsubscribe o l (subscribe o l w)) =
           if decide (o' = o)
           then filter (λ l', same_function l' l = false) (listeners o w)
           else listeners o' w).
  { intros o'. rewrite listeners_unsubscribe_eq.
    rewrite !(listeners_subscribe o ob) by done.
    case_decide; [|done]. rewrite decide_True by done.
    rewrite filter_app, filter_cons, same_function_refl.
    rewrite decide_False by done. by rewrite filter_nil, app_nil_r. }
  split; [done|]. split.
  - rewrite H, decide_True by done. intros [Hl _]%list_elem_of_filter.
    by rewrite same_function_refl in Hl.
  - destruct (unsubscribe_fields o l (subscribe o l w)) as (-> & _).
    apply subscribe_view.
Qed.

Lemma unsubscribe_removes_every_subscription_witness :
  0 < length (heap observable_with_listener) ∧
  listeners 0 (unsubscribe 0 (UserFn 0)
                 (subscribe 0 (UserFn 0) observable_with_listener)) = [].
Proof.
  assert (Ho : 0 < length (heap observable_with_listener)) by (simpl; lia).
  split; [exact Ho|].
  exact (proj1 (unsubscribe_removes_every_subscription 0 (UserFn 0)
                  observable_with_listener Ho) 0).
Defined.

(** *** The subscriptions of an effect *)

Lemma subscribe_dependencies_instances l os :
  ∀ acc w,
    Forall (λ o, o < length (heap w)) os →
    ∃ w1, subscribe_dependencies l (Instance <$> os) acc w
            = (w1, Normal (acc ++ ((λ o, (o, l)) <$> os))) ∧
          (∀ o', listeners o' w1 =
                   listeners o' w
                   ++ replicate (length (filter (λ o, o = o') os)) l) ∧
          view w1 = view w ∧ trace w1 = trace w ∧
          allocated w1 = allocated w ∧ isBatching w1 = isBatching w ∧
          updateQueue w1 = updateQueue w ∧
          length (heap w1) = length (heap w).
Proof.
  induction os as [|o os IH]; intros acc w Hos.
  - exists w. simpl. rewrite !app_nil_r. repeat split; try done.
    intros o'. by rewrite app_nil_r.
  - apply Forall_cons in Hos as [Ho Hos].
    destruct (lookup_lt_is_Some_2 _ _ Ho) as [ob Hob].
    destruct (subscribe_fields o l w) as (Hn & Hq & Hb & Ha & Ht).
    destruct (IH (acc ++ [(o, l)]) (subscribe o l w)) as (w1 & E & Hl & Hv & Ht1 & Ha1 & Hb1 & Hq1 & Hn1).
    { by rewrite Hn. }
    exists w1. rewrite !fmap_cons. simpl. rewrite E, <-app_assoc.
    split; [done|].
    split.
    { intros o'. rewrite Hl, (listeners_subscribe o ob) by done.
      rewrite filter_cons. destruct (decide (o = o')) as [->|Hne].
      - rewrite decide_True by done. simpl. by rewrite <-app_assoc.
      - by rewrite decide_False by done. }
    rewrite Hv, subscribe_view. repeat split; congruence.
Qed.

Lemma effect_instances callback os w :
  Forall (λ o, o < length (heap w)) os →
  ∃ w1 us,
    effect callback (Array (Instance <$> os)) w = (w1, Normal us) ∧
    us = (if decide (os = []) then []
          else (λ o, (o, ExecuteCallback (allocated w) callback)) <$> os) ∧
    (∀ o', listeners o' w1 =
             listeners o' w
             ++ replicate (length (filter (λ o, o = o') os))
                  (ExecuteCallback (allocated w) callback)) ∧
    view w1 = view w ∧ trace w1 = trace w ∧
    isBatching w1 = isBatching w ∧ updateQueue w1 = updateQueue w ∧
    length (heap w1) = length (heap w).
Proof.
  intros Hos. destruct os as [|o os].
  - exists w, []. simpl. repeat split; try done.
    intros o'. by rewrite app_nil_r.
  - destruct (subscribe_dependencies_instances
                (ExecuteCallback (allocated w) callback) (o :: os) []
                (fresh w).2 Hos)
      as (w1 & E & Hl & Hv & Ht & _ & Hb & Hq & Hn).
    exists w1, ((λ o, (o, ExecuteCallback (allocated w) callback)) <$> (o :: os)).
    split; [exact E|]. by rewrite decide_False.
Qed.



(** X10.  The cleanup function of an effect undoes the subscriptions the
    effect made and nothing else: after it, every object has the listeners
    it had before the effect was created, an object listed several times
    included, and no value has changed. *)
Theorem effect_cleanup_restores_listeners callback os w :
  Fresh w → Forall (λ o, o < length (heap w)) os →
  ∃ w1 us,
    effect callback (Array (Instance <$> os)) w = (w1, Normal us) ∧
    (∀ o', listeners o' (unsubscribe_all us w1) = listeners o' w) ∧
    view (unsubscribe_all us w1) = view w ∧
    trace (unsubscribe_all us w1) = trace w.
Proof.
  intros Hfresh Hos.
  destruct (effect_instances callback os w Hos)
    as (w1 & us & E & Hus & Hl & Hv & Ht & _).
  exists w1, us. split; [done|].
  destruct (unsubscribe_all_fields us w1) as [-> ->].
  split; [|by split]. intros o'.
  apply unsubscribe_all_new.
  - rewrite Hl, Hus. f_equal. case_decide as Hd; [by subst os|].
    clear. induction os as [|o os IH]; [done|].
    rewrite fmap_cons, !filter_cons. simpl.
    destruct (decide (o = o')); simpl; by rewrite IH.
  - intros u l' Hu Hl'. rewrite Hus in Hu. case_decide; [by apply elem_of_nil in Hu|].
    apply list_elem_of_fmap in Hu as (o & -> & _). simpl.
    destruct (same_function l' _) eqn:Hs; [|done].
    pose proof (Hfresh o' l' (allocated w) Hl'
                  (same_function_closure _ _ _ Hs eq_refl)). lia.
Qed.

(** [Fresh] is kept by what builds the world. *)
Lemma Fresh_empty : Fresh empty_world.
Proof. intros o l uid Hl. unfold listeners in Hl. simpl in Hl. by apply elem_of_nil in Hl. Qed.

Lemma Fresh_listeners_eq w w' :
  Fresh w → (∀ o, listeners o w' = listeners o w) →
  allocated w ≤ allocated w' → Fresh w'.
Proof.
  intros Hf Hl Ha o l uid. rewrite Hl. intros H1 H2.
  pose proof (Hf o l uid H1 H2). lia.
Qed.

Lemma Fresh_new_ObservableValue v w : Fresh w → Fresh (new_ObservableValue v w).2.
Proof.
  intros Hf. apply (Fresh_listeners_eq w); [done| |done].
  intros o. apply listeners_new.
Qed.

Lemma Fresh_subscribe o l w :
  Fresh w → (∀ uid, closure_id l = Some uid → uid < allocated w) →
  Fresh (subscribe o l w).
Proof.
  intros Hf Hl. destruct (heap w !! o) as [ob|] eqn:Hob.
  2:{ by rewrite subscribe_invalid. }
  destruct (subscribe_fields o l w) as (_ & _ & _ & Ha & _).
  intros o' l' uid. rewrite (listeners_subscribe o ob), Ha by done.
  case_decide; [|by apply Hf].
  intros [Hin| ->%list_elem_of_singleton]%elem_of_app; [by eapply Hf|auto].
Qed.

Lemma Fresh_signal v w : Fresh w → Fresh (signal v w).2.
Proof.
  intros Hf. apply (Fresh_listeners_eq w); [done| |done].
  intros o. unfold signal. simpl.
  rewrite (listeners_set_currentValue _ _ (new_ObservableValue v w).2).
  apply listeners_new.
Qed.

Lemma Fresh_shape w w' :
  Fresh w → shape w' = shape w → allocated w' = allocated w → Fresh w'.
Proof.
  intros Hf Hs Ha. apply (Fresh_listeners_eq w); [done| |lia].
  intros o. by apply shape_listeners.
Qed.

Lemma Fresh_observable_with_listener : Fresh observable_with_listener.
Proof.
  unfold observable_with_listener.
  apply Fresh_subscribe; [|done]. apply Fresh_new_ObservableValue, Fresh_empty.
Qed.

Lemma effect_cleanup_restores_listeners_witness :
  Fresh observable_with_listener ∧
  Forall (λ o, o < length (heap observable_with_listener)) [0; 0] ∧
  ∃ w1 us,
    effect 5 (Array (Instance <$> [0; 0])) observable_with_listener
      = (w1, Normal us) ∧
    (∀ o', listeners o' (unsubscribe_all us w1)
             = listeners o' observable_with_listener) ∧
    view (unsubscribe_all us w1) = view observable_with_listener ∧
    trace (unsubscribe_all us w1) = trace observable_with_listener.
Proof.
  assert (Hos : Forall (λ o, o < length (heap observable_with_listener))
                  [0; 0]) by (repeat constructor).
  split; [exact Fresh_observable_with_listener|]. split; [exact Hos|].
  exact (effect_cleanup_restores_listeners 5 [0; 0]
           observable_with_listener Fresh_observable_with_listener Hos).
Defined.

(** *** The subscriptions of a computed value *)

Lemma subscribe_sources_listeners os f c todo :
  ∀ w us w',
    Forall (λ o, o < length (heap w)) todo →
    subscribe_sources os f c todo w = (us, w') →
    (∀ o', listeners o' w' =
             listeners o' w ++ (snd <$> filter (λ u, u.1 = o') us)) ∧
    Forall (λ u, ∃ uid, u.2 = Recompute uid os f c ∧ allocated w ≤ uid) us ∧
    view w' = view w ∧ trace w' = trace w ∧
    length (heap w') = length (heap w) ∧
    isBatching w' = isBatching w ∧ updateQueue w' = updateQueue w.
Proof.
  induction todo as [|obs todo IH]; intros w us w' Htodo Hs.
  - simpl in Hs. simplify_eq. repeat split; try done.
    intros o'. by rewrite app_nil_r.
  - apply Forall_cons in Htodo as [Hobs Htodo].
    rewrite subscribe_sources_cons in Hs.
    set (l := Recompute (allocated w) os f c) in *.
    set (w1 := subscribe obs l (fresh w).2) in *.
    destruct (subscribe_sources os f c todo w1) as [us' w2] eqn:E.
    simpl in Hs. simplify_eq.
    destruct (subscribe_fields obs l (fresh w).2) as (Hn & Hq & Hb & Ha & Ht).
    destruct (lookup_lt_is_Some_2 (heap (fresh w).2) obs) as [ob Hob];
      [done|].
    destruct (IH w1 us' w') as (Hl & Hus & Hv & Ht' & Hn' & Hb' & Hq');
      [by rewrite Forall_forall in *; unfold w1; rewrite Hn|done|].
    split.
    { intros o'. rewrite Hl. unfold w1.
      rewrite (listeners_subscribe obs ob) by done.
      rewrite filter_cons. simpl.
      destruct (decide (obs = o')) as [->|Hne].
      - rewrite decide_True by done. simpl. by rewrite <-app_assoc.
      - by rewrite decide_False by done. }
    split.
    { constructor; [by exists (allocated w)|].
      eapply Forall_impl; [exact Hus|]. intros u (uid & Hu & Hle).
      exists uid. split; [done|]. unfold w1 in Hle. rewrite Ha in Hle.
      simpl in Hle. lia. }
    unfold w1 in *. rewrite Hv, Ht', Hn', Hb', Hq', subscribe_view.
    repeat split; done.
Qed.

Section Untargeted.

Variable c : nat.
Variable set : nat → value → World → option World.
Hypothesis set_frame :
  ∀ o v w w', WF w → set o v w = Some w' → frame o w w'.
Hypothesis set_untargeted :
  ∀ o v w w', WF w → untargeted c w → o ≠ c → set o v w = Some w' →
              heap w' !! c = heap w !! c.

Lemma untargeted_shape w w' :
  shape w' = shape w → untargeted c w → untargeted c w'.
Proof. intros Hs Hu o l. rewrite (shape_listeners _ _ _ Hs). apply Hu. Qed.

Lemma call_listener_untargeted o l nv w w' :
  WF w → untargeted c w → l ∈ listeners o w →
  call_listener set o l nv w = Some w' → heap w' !! c = heap w !! c.
Proof.
  intros Hwf Hu Hl Hc. unfold call_listener in Hc.
  destruct l as [g|uid os f c'|uid cb]; simplify_eq; try done.
  destruct (mapM _ os) as [vals|]; simpl in Hc; [|done].
  apply set_untargeted in Hc; [done|by apply WF_record|done|].
  intros ->. by apply (Hu o _ Hl).
Qed.

Lemma call_listeners_untargeted o ls nv w w' :
  WF w → untargeted c w → ls ⊆ listeners o w →
  call_listeners set o ls nv w = Some w' → heap w' !! c = heap w !! c.
Proof.
  revert w. induction ls as [|l ls IH]; intros w Hwf Hu Hls Hc; simpl in Hc.
  - by simplify_eq.
  - destruct (call_listener set o l nv w) as [w1|] eqn:H1; simpl in Hc;
      [|done].
    assert (Hl : l ∈ listeners o w) by (apply Hls; by left).
    pose proof (call_listener_frame _ set_frame _ _ _ _ _ Hwf Hl H1) as Hf.
    rewrite (IH w1); [by eapply call_listener_untargeted| | | |done].
    + by eapply frame_WF.
    + apply (untargeted_shape w); [apply Hf|done].
    + rewrite (shape_listeners _ _ _ (frame_shape _ _ _ Hf)).
      intros x Hx. apply Hls. by right.
Qed.

Lemma updateValue_untargeted o nv w w' :
  WF w → untargeted c w → o ≠ c →
  updateValue set o nv w = Some w' → heap w' !! c = heap w !! c.
Proof.
  intros Hwf Hu Hoc Hc. unfold updateValue, emit_change in Hc.
  destruct (heap w !! o) as [ob|] eqn:Hob; simpl in Hc; [|done].
  destruct (strict_ne nv (_value ob)); simplify_eq; [|done].
  rewrite list_lookup_alter_eq, Hob in Hc. simpl in Hc.
  assert (Hc0 : heap (set__value o nv w) !! c = heap w !! c).
  { simpl. by rewrite list_lookup_alter_ne. }
  destruct (_emitter ob) as [ls|] eqn:Hls; simplify_eq; [|done].
  pose proof (frame_set__value o nv w) as Hf.
  apply call_listeners_untargeted in Hc; [by rewrite Hc| | |].
  - apply WF_record. by eapply frame_WF.
  - apply (untargeted_shape w); [apply shape_set__value|done].
  - change (ls ⊆ listeners o (set__value o nv w)).
    rewrite (shape_listeners w (set__value o nv w) o (shape_set__value o nv w)).
    rewrite (listeners_lookup o ob) by done. by rewrite Hls.
Qed.

Lemma assign_untargeted o nv w w' :
  WF w → untargeted c w → o ≠ c →
  assign set o nv w = Some w' → heap w' !! c = heap w !! c.
Proof.
  intros Hwf Hu Hoc Hc. unfold assign in Hc.
  destruct (heap w !! o) as [ob|] eqn:Hob; simpl in Hc; [|done].
  destruct (currentValue ob) as [cur|] eqn:Hcur.
  - destruct (strict_ne nv cur); simplify_eq; [|done].
    assert (Hc0 : heap (set_currentValue o nv w) !! c = heap w !! c).
    { simpl. by rewrite list_lookup_alter_ne. }
    assert (Hf : frame o w (set_currentValue o nv w)).
    { eapply frame_set_currentValue; [done|]. unfold is_signal.
      by rewrite Hcur. }
    simpl in Hc. destruct (isBatching w); simplify_eq; [done|].
    apply updateValue_untargeted in Hc; [by rewrite Hc|by eapply frame_WF| |done].
    apply (untargeted_shape w); [apply Hf|done].
  - by apply updateValue_untargeted in Hc.
Qed.

End Untargeted.

Lemma set_value_untargeted c fuel :
  ∀ o v w w', WF w → untargeted c w → o ≠ c →
    set_value fuel o v w = Some w' → heap w' !! c = heap w !! c.
Proof.
  induction fuel as [|k IH]; intros o v w w' Hwf Hu Hoc Hs; [done|].
  simpl in Hs. eapply assign_untargeted; try done. apply set_value_frame.
Qed.

(** X11.  [unsubscribeSources] detaches a computed value: the sources have
    the listeners they had before [computed] was called, and from then on
    no write to another object changes the computed value, which keeps the
    value it had. *)
Theorem unsubscribeSources_detaches_the_computed_value os f w c us w1 :
  WF w → Fresh w → computed os f w = Some (c, us, w1) →
  (∀ o', listeners o' (unsubscribe_all us w1) = listeners o' w) ∧
  get_value c (unsubscribe_all us w1) = get_value c w1 ∧
  ∀ fuel o v w2,
    o ≠ c → set_value fuel o v (unsubscribe_all us w1) = Some w2 →
    get_value c w2 = get_value c w1.
Proof.
  intros Hwf Hfresh Hc.
  destruct (WF_computed _ _ _ _ _ _ Hwf Hc) as (Hwf1 & -> & Hn1 & Hby).
  unfold computed in Hc.
  destruct (mapM _ os) as [vals|] eqn:Hvals; simpl in Hc; [|done].
  pose proof (mapM_get_value_valid _ _ _ Hvals) as Hos.
  destruct (subscribe_sources os f (length (heap w)) os (set_heap _ w))
    as [us' w2] eqn:E.
  simplify_eq.
  apply subscribe_sources_listeners in E
    as (Hl & Hus & Hv & Ht & Hn & _).
  2:{ simpl. rewrite length_app. eapply Forall_impl; [done|]. simpl. lia. }
  assert (Hls : ∀ o', listeners o' (unsubscribe_all us w1) = listeners o' w).
  { intros o'. rewrite <-(listeners_new (f vals) w o').
    apply unsubscribe_all_new; [apply Hl|].
    intros u l' Hu Hl'. rewrite Forall_forall in Hus.
    destruct (Hus u Hu) as (uid & -> & Hle). simpl in Hle.
    rewrite listeners_new in Hl'.
    destruct (same_function l' _) eqn:Hs; [|done].
    pose proof (Hfresh o' l' uid Hl'
                  (same_function_closure _ _ _ Hs eq_refl)). lia. }
  assert (Hval : get_value (length (heap w)) (unsubscribe_all us w1)
                 = get_value (length (heap w)) w1).
  { destruct (unsubscribe_all_fields us w1) as [Hview _].
    unfold get_value. by rewrite <-!view_lookup, Hview. }
  split; [done|]. split; [done|].
  intros fuel o v w3 Hoc Hs. rewrite <-Hval. unfold get_value.
  f_equal. eapply set_value_untargeted; [| |exact Hoc|exact Hs].
  - by apply WF_unsubscribe_all.
  - intros o' l. rewrite Hls. intros Hin Ht'.
    destruct l as [|uid os' f' c'|]; try done. simpl in Ht'. simplify_eq.
    pose proof (wf_listeners _ Hwf _ _ Hin) as (_ & Hlt & _). lia.
Qed.

Lemma WF_two_sources : WF two_sources.
Proof. apply WF_new, WF_new, WF_empty. Qed.

Lemma Fresh_two_sources : Fresh two_sources.
Proof.
  apply Fresh_new_ObservableValue, Fresh_new_ObservableValue, Fresh_empty.
Qed.

Lemma unsubscribeSources_detaches_the_computed_value_witness :
  WF two_sources ∧ Fresh two_sources ∧
  ∃ c us w1,
    computed [0; 1] sum two_sources = Some (c, us, w1) ∧
    (∀ o', listeners o' (unsubscribe_all us w1) = listeners o' two_sources) ∧
    get_value c (unsubscribe_all us w1) = get_value c w1 ∧
    ∀ fuel o v w2,
      o ≠ c → set_value fuel o v (unsubscribe_all us w1) = Some w2 →
      get_value c w2 = get_value c w1.
Proof.
  split; [exact WF_two_sources|]. split; [exact Fresh_two_sources|].
  eexists _, _, _. split; [reflexivity|].
  exact (unsubscribeSources_detaches_the_computed_value [0; 1] sum
           two_sources _ _ _ WF_two_sources Fresh_two_sources eq_refl).
Defined.

End ReactiveSubscriptions.


Module ReactiveSuppression.
Import Reactive ReactiveFacts ReactiveSubscriptions.

(** *** A recomputation that gives the value already held *)

Lemma mapM_get_value_frame (os : list nat) o w w' :
  (∀ a, a ≠ o → heap w' !! a = heap w !! a) → o ∉ os →
  mapM (λ a, get_value a w') os = mapM (λ a, get_value a w) os.
Proof.
  intros Hsame Ho. apply Forall_mapM_ext, Forall_forall. intros a Ha.
  unfold get_value. rewrite Hsame; [done|]. intros ->. done.
Qed.

Section Unchanged.

Variable os : list nat.
Variable f : list value → value.
Variable c : nat.
Variable obc : ObservableValue.
Variable vals : list value.
Hypothesis same_value : strict_ne (f vals) (value_of obc) = false.

Variable set : nat → value → World → option World.
Hypothesis set_frame :
  ∀ o v w w', WF w → set o v w = Some w' → frame o w w'.
Hypothesis set_unchanged :
  ∀ o v w w',
    WF w → holds os vals c obc w → computed_by os f c w →
    Forall (λ a, untargeted a w) os → o ∉ os → (o = c → v = f vals) →
    set o v w = Some w' →
    holds os vals c obc w' ∧ ∃ evs, trace w' = trace w ++ evs ∧ quiet c evs.

Lemma untargeted_sources_shape w w' :
  shape w' = shape w →
  Forall (λ a, untargeted a w) os → Forall (λ a, untargeted a w') os.
Proof.
  intros Hs Hun. eapply Forall_impl; [exact Hun|]. intros a Ha o l.
  rewrite (shape_listeners _ _ _ Hs). apply Ha.
Qed.

Lemma call_listener_unchanged o l nv w w' :
  WF w → holds os vals c obc w → computed_by os f c w →
  Forall (λ a, untargeted a w) os → o ≠ c → l ∈ listeners o w →
  call_listener set o l nv w = Some w' →
  holds os vals c obc w' ∧ ∃ evs, trace w' = trace w ++ evs ∧ quiet c evs.
Proof.
  intros Hwf Hh Hby Hun Hoc Hl Hc. unfold call_listener in Hc.
  assert (Hq : quiet c [Called o l nv (view w)]) by by apply quiet_other.
  destruct l as [g|uid os' f' c'|uid cb]; simplify_eq;
    try (split; [done|]; eexists [_]; by split).
  destruct (mapM _ os') as [vals'|] eqn:Hvals; simpl in Hc; [|done].
  apply set_unchanged in Hc as (Hh' & evs & Ht & Hq'); try done.
  - split; [done|].
    exists ([Called o (Recompute uid os' f' c') nv (view w)] ++ evs).
    simpl in Ht. rewrite <-app_assoc in Ht. split; [done|].
    by apply quiet_app.
  - by apply WF_record.
  - intros Hin. rewrite Forall_forall in Hun. by apply (Hun c' Hin o _ Hl).
  - intros ->. destruct (Hby _ _ _ _ Hl) as [-> ->].
    destruct Hh as [Hv _].
    change (mapM (λ a, get_value a w) os = Some vals') in Hvals.
    congruence.
Qed.

Lemma call_listeners_unchanged o ls nv w w' :
  WF w → holds os vals c obc w → computed_by os f c w →
  Forall (λ a, untargeted a w) os → o ≠ c → ls ⊆ listeners o w →
  call_listeners set o ls nv w = Some w' →
  holds os vals c obc w' ∧ ∃ evs, trace w' = trace w ++ evs ∧ quiet c evs.
Proof.
  revert w. induction ls as [|l ls IH]; intros w Hwf Hh Hby Hun Hoc Hls Hc;
    simpl in Hc.
  - simplify_eq. split; [done|]. no_events.
  - destruct (call_listener set o l nv w) as [w1|] eqn:H1; simpl in Hc;
      [|done].
    assert (Hl : l ∈ listeners o w) by (apply Hls; by left).
    pose proof (call_listener_frame _ set_frame _ _ _ _ _ Hwf Hl H1) as Hf.
    destruct (call_listener_unchanged _ _ _ _ _ Hwf Hh Hby Hun Hoc Hl H1)
      as (Hh1 & evs1 & Ht1 & Hq1).
    destruct (IH w1) as (Hh' & evs2 & Ht2 & Hq2); try done.
    + by eapply frame_WF.
    + apply (computed_by_shape _ _ _ w); [apply Hf|done].
    + apply (untargeted_sources_shape w); [apply Hf|done].
    + rewrite (shape_listeners _ _ _ (frame_shape _ _ _ Hf)).
      intros x Hx. apply Hls. by right.
    + split; [done|]. exists (evs1 ++ evs2).
      rewrite Ht2, Ht1, <-app_assoc. split; [done|]. by apply quiet_app.
Qed.

Lemma holds_alter g o w :
  o ∉ os → o ≠ c → holds os vals c obc w →
  holds os vals c obc (set_heap (alter g o (heap w)) w).
Proof.
  intros Ho Hoc [Hv Hc]. split.
  - rewrite <-Hv. apply mapM_get_value_frame with o; [|done].
    intros a Ha. simpl. by rewrite list_lookup_alter_ne.
  - simpl. by rewrite list_lookup_alter_ne.
Qed.

Lemma updateValue_unchanged o nv w w' :
  WF w → holds os vals c obc w → computed_by os f c w →
  Forall (λ a, untargeted a w) os → o ∉ os → o ≠ c →
  updateValue set o nv w = Some w' →
  holds os vals c obc w' ∧ ∃ evs, trace w' = trace w ++ evs ∧ quiet c evs.
Proof.
  intros Hwf Hh Hby Hun Ho Hoc Hc. unfold updateValue, emit_change in Hc.
  destruct (heap w !! o) as [ob|] eqn:Hob; simpl in Hc; [|done].
  destruct (strict_ne nv (_value ob)); simplify_eq.
  2:{ split; [done|]. no_events. }
  rewrite list_lookup_alter_eq, Hob in Hc. simpl in Hc.
  assert (Hq : quiet c [Emit o nv]) by by apply quiet_other.
  pose proof (frame_set__value o nv w) as Hf.
  assert (Hh0 : holds os vals c obc (set__value o nv w))
    by by apply holds_alter.
  destruct (_emitter ob) as [ls|] eqn:Hls; simplify_eq.
  2:{ split; [done|]. eexists [_]. by split. }
  apply call_listeners_unchanged in Hc as (Hh' & evs & Ht & Hq'); try done.
  - split; [done|]. exists ([Emit o nv] ++ evs). simpl in Ht.
    rewrite <-app_assoc in Ht. split; [done|]. by apply quiet_app.
  - apply WF_record. by eapply frame_WF.
  - apply (computed_by_shape _ _ _ w); [apply shape_set__value|done].
  - apply (untargeted_sources_shape w); [apply shape_set__value|done].
  - change (ls ⊆ listeners o (set__value o nv w)).
    rewrite (shape_listeners w (set__value o nv w) o (shape_set__value o nv w)).
    rewrite (listeners_lookup o ob) by done. by rewrite Hls.
Qed.

Lemma assign_unchanged o nv w w' :
  WF w → holds os vals c obc w → computed_by os f c w →
  Forall (λ a, untargeted a w) os → o ∉ os → (o = c → nv = f vals) →
  assign set o nv w = Some w' →
  holds os vals c obc w' ∧ ∃ evs, trace w' = trace w ++ evs ∧ quiet c evs.
Proof.
  intros Hwf Hh Hby Hun Ho Hpre Hc. unfold assign in Hc.
  destruct (heap w !! o) as [ob|] eqn:Hob; simpl in Hc; [|done].
  destruct (decide (o = c)) as [->|Hoc].
  - (* the recomputation of [c] writes the value it holds *)
    rewrite (Hpre eq_refl) in Hc. destruct Hh as [Hv Hcc].
    assert (ob = obc) as -> by congruence.
    unfold value_of in same_value. unfold updateValue in Hc.
    rewrite Hob in Hc. simpl in Hc.
    destruct (currentValue obc) as [cur|];
      rewrite same_value in Hc; simplify_eq; (split; [done|]; no_events).
  - destruct (currentValue ob) as [cur|] eqn:Hcur.
    + destruct (strict_ne nv cur); simplify_eq.
      2:{ split; [done|]. no_events. }
      assert (Hf : frame o w (set_currentValue o nv w)).
      { eapply frame_set_currentValue; [done|]. unfold is_signal.
        by rewrite Hcur. }
      assert (Hh0 : holds os vals c obc (set_currentValue o nv w))
        by by apply holds_alter.
      simpl in Hc. destruct (isBatching w); simplify_eq.
      { split; [done|]. no_events. }
      apply updateValue_unchanged in Hc; try done.
      * by eapply frame_WF.
      * apply (computed_by_shape _ _ _ w); [apply Hf|done].
      * apply (untargeted_sources_shape w); [apply Hf|done].
    + by apply updateValue_unchanged in Hc.
Qed.

End Unchanged.

Lemma set_value_unchanged os f c obc vals fuel :
  strict_ne (f vals) (value_of obc) = false →
  ∀ o v w w',
    WF w → holds os vals c obc w → computed_by os f c w →
    Forall (λ a, untargeted a w) os → o ∉ os → (o = c → v = f vals) →
    set_value fuel o v w = Some w' →
    holds os vals c obc w' ∧ ∃ evs, trace w' = trace w ++ evs ∧ quiet c evs.
Proof.
  intros Hsame. induction fuel as [|k IH];
    intros o v w w' Hwf Hh Hby Hun Ho Hpre Hs; [done|].
  simpl in Hs. eapply assign_unchanged; try done. apply set_value_frame.
Qed.

(** The write that changes the value, as the loop over the listeners that
    follows the [Emit] event. *)
Lemma set_value_emits_trace k o ob v w :
  heap w !! o = Some ob →
  currentValue ob = None ∨
    (isBatching w = false ∧ currentValue ob = Some (_value ob)) →
  strict_ne v (value_of ob) = true →
  ∃ w0, heap w0 !! o = Some {| _value := v; _emitter := _emitter ob;
                               currentValue := (λ _, v) <$> currentValue ob |} ∧
        (∀ a, a ≠ o → heap w0 !! a = heap w !! a) ∧
        shape w0 = shape w ∧ updateQueue w0 = updateQueue w ∧
        trace w0 = trace w ++ [Emit o v] ∧
        set_value (S k) o v w
          = call_listeners (set_value k) o (listeners o w) v w0.
Proof.
  intros Hob Hkind Hne. simpl. unfold assign, updateValue, emit_change.
  rewrite Hob. simpl. unfold value_of in Hne.
  rewrite (listeners_lookup o ob) by done.
  destruct Hkind as [Hcur|[Hb Hcur]]; rewrite Hcur in *; simpl.
  - rewrite Hne. simpl. rewrite list_lookup_alter_eq, Hob. simpl.
    eexists. split; [|split; [|split; [|split; [|split]]]]; last first.
    + by destruct (_emitter ob).
    + done.
    + done.
    + apply (shape_set__value o v w).
    + intros a Ha. simpl. by rewrite list_lookup_alter_ne.
    + simpl. rewrite list_lookup_alter_eq, Hob. simpl. by rewrite ?Hcur.
  - rewrite Hne. simpl. rewrite Hb, !list_lookup_alter_eq, Hob. simpl.
    rewrite Hne. simpl.
    eexists. split; [|split; [|split; [|split; [|split]]]]; last first.
    + by destruct (_emitter ob).
    + done.
    + done.
    + etrans; [apply (shape_set__value o v (set_currentValue o v w))|].
      apply (frame_shape o). eapply frame_set_currentValue; [done|].
      unfold is_signal. by rewrite Hcur.
    + intros a Ha. simpl. by rewrite !list_lookup_alter_ne.
    + simpl. by rewrite !list_lookup_alter_eq, Hob.
Qed.

(** X12.  Equality suppression stops the propagation at a computed value
    whose result does not change: when a source of the computed value [c]
    is written (the sources of [c] being no computed values themselves) and
    the transform of the new values of the sources is identical to the
    value [c] holds, [c] keeps its value and none of its listeners is
    called. *)
Theorem unchanged_result_notifies_nobody
    fuel w s obs v uid os f c obc vals :
  WF w → Recompute uid os f c ∈ listeners s w →
  heap w !! s = Some obs →
  currentValue obs = None ∨
    (isBatching w = false ∧ currentValue obs = Some (_value obs)) →
  Forall (λ a, untargeted a w) os →
  heap w !! c = Some obc →
  mapM (λ a, if decide (a = s) then Some v else get_value a w) os
    = Some vals →
  strict_ne (f vals) (value_of obc) = false →
  length (heap w) ≤ fuel →
  ∃ w', set_value fuel s v w = Some w' ∧
        quiet c (since w w') ∧ heap w' !! c = Some obc.
Proof.
  intros Hwf Hl Hobs Hkind Hun Hobc Hvals Hsame Hfuel.
  pose proof (wf_listeners _ Hwf _ _ Hl) as (Hsc & Hc & Hos).
  pose proof (computed_by_known _ _ _ _ _ _ Hwf Hl) as Hby.
  destruct (set_value_total fuel s v w) as [w' Hs]; [done|lia|lia|].
  exists w'. split; [done|].
  destruct (strict_ne v (value_of obs)) eqn:Hne.
  2:{ (* the write changes nothing *)
      assert (w' = w) as ->.
      { destruct fuel as [|k]; [done|]. simpl in Hs.
        unfold assign, updateValue in Hs. rewrite Hobs in Hs. simpl in Hs.
        unfold value_of in Hne.
        destruct Hkind as [Hcur|[_ Hcur]]; rewrite Hcur in *;
          rewrite Hne in Hs; by simplify_eq. }
      split; [|done]. unfold since. by rewrite drop_all. }
  destruct fuel as [|k]; [done|].
  destruct (set_value_emits_trace k s obs v w Hobs Hkind Hne)
    as (w0 & Hobs0 & Hother & Hsh0 & Hq0 & Ht0 & Heq).
  rewrite Heq in Hs.
  assert (Hwf0 : WF w0) by by apply (WF_shape_same_queue w).
  assert (Hh0 : holds os vals c obc w0).
  { split.
    - rewrite <-Hvals. apply Forall_mapM_ext, Forall_forall. intros a Ha.
      unfold get_value. case_decide as Hd.
      + subst a. rewrite Hobs0. simpl. unfold value_of. simpl.
        by destruct (currentValue obs).
      + by rewrite Hother.
    - rewrite Hother; [done|lia]. }
  eapply (call_listeners_unchanged os f c obc vals (set_value k)
            (set_value_frame k)) in Hs as (Hh' & evs & Ht & Hq);
    try done.
  - split; [|apply Hh'].
    rewrite (since_app w w' ([Emit s v] ++ evs)).
    + apply quiet_app; [|done]. apply quiet_other. lia.
    + by rewrite Ht, Ht0, <-app_assoc.
  - intros o v' w1 w2 ? ? ? ? ? ? Hs'.
    by eapply (set_value_unchanged os f c obc vals k Hsame).
  - apply (computed_by_shape _ _ _ w); done.
  - apply (untargeted_sources_shape os w); done.
  - lia.
  - by rewrite (shape_listeners _ _ _ Hsh0).
Qed.

Lemma WF_computed_positive : WF computed_positive.
Proof.
  unfold computed_positive.
  destruct (computed [0] positive _) as [[[c us] w]|] eqn:E;
    [|apply WF_empty].
  apply WF_subscribe_UserFn.
  eapply (WF_computed _ _ (new_ObservableValue (VNum 1) empty_world).2);
    [|exact E].
  apply WF_new, WF_empty.
Qed.

Lemma unchanged_result_notifies_nobody_witness :
  let w := computed_positive in
  let obc := {| _value := VBool true; _emitter := Some [UserFn 0];
                currentValue := None |} in
  WF w ∧ Recompute 0 [0] positive 1 ∈ listeners 0 w ∧
  Forall (λ a, untargeted a w) [0] ∧ heap w !! 1 = Some obc ∧
  ∃ w', set_value 2 0 (VNum 5) w = Some w' ∧
        quiet 1 (since w w') ∧ heap w' !! 1 = Some obc.
Proof.
  intros w obc.
  assert (Hl : Recompute 0 [0] positive 1 ∈ listeners 0 w)
    by apply list_elem_of_here.
  assert (Hun : Forall (λ a, untargeted a w) [0]).
  { apply Forall_singleton. intros o l Hin.
    destruct o as [|[|o]]; simpl in Hin.
    - apply list_elem_of_singleton in Hin. by subst l.
    - apply list_elem_of_singleton in Hin. by subst l.
    - by apply elem_of_nil in Hin. }
  assert (Hfuel : length (heap w) ≤ 2) by (simpl; lia).
  split; [exact WF_computed_positive|]. split; [exact Hl|].
  split; [exact Hun|]. split; [reflexivity|].
  exact (unchanged_result_notifies_nobody 2 w 0 _ (VNum 5) 0 [0] positive 1
           obc [VNum 5] WF_computed_positive Hl eq_refl (or_introl eq_refl)
           Hun eq_refl eq_refl eq_refl Hfuel).
Defined.

End ReactiveSuppression.


Module ReactiveBatches.
Import Reactive ReactiveFacts ReactiveSubscriptions.

(** *** A batch around the only signal *)

Lemma pending_refl c w : pending_step c w w.
Proof. split; auto. Qed.

Lemma pending_trans c w1 w2 w3 :
  pending_step c w1 w2 → pending_step c w2 w3 → pending_step c w1 w3.
Proof.
  intros [A1 A2] [B1 B2]. split; [congruence|].
  destruct A2 as [[Aq Ac]|Aq], B2 as [[Bq Bc]|Bq].
  - left. split; congruence.
  - right. congruence.
  - right. congruence.
  - right. by rewrite Bq, Aq, queue_add_idemp.
Qed.

Lemma pending_same c w w' :
  heap w' = heap w → updateQueue w' = updateQueue w → pending_step c w w'.
Proof. intros Hh Hq. split; [by rewrite Hh|left; by rewrite Hh, Hq]. Qed.

Lemma only_signal_shape c w w' :
  shape w' = shape w → only_signal c w → only_signal c w'.
Proof.
  intros Hs Ho a ob' Hob' Hsig.
  destruct (shape_lookup _ _ a ob' (eq_sym Hs) Hob') as (ob & Hob & _ & Hsig').
  apply (Ho a ob Hob). congruence.
Qed.

Section OnlySignal.

Variable c : nat.
Variable set : nat → value → World → option World.
Hypothesis set_frame :
  ∀ o v w w', WF w → set o v w = Some w' → frame o w w'.
Hypothesis set_pending :
  ∀ o v w w',
    WF w → isBatching w = true → signal_at c w → only_signal c w →
    set o v w = Some w' → pending_step c w w'.

Lemma call_listener_pending o l nv w w' :
  WF w → isBatching w = true → signal_at c w → only_signal c w →
  call_listener set o l nv w = Some w' → pending_step c w w'.
Proof.
  intros Hwf Hb Hsig Honly Hc. unfold call_listener in Hc.
  destruct l as [g|uid os f c'|uid cb]; simplify_eq;
    try by apply pending_same.
  destruct (mapM _ os) as [vals|]; simpl in Hc; [|done].
  apply set_pending in Hc; try done. by apply WF_record.
Qed.

Lemma call_listeners_pending o ls nv w w' :
  WF w → isBatching w = true → signal_at c w → only_signal c w →
  ls ⊆ listeners o w →
  call_listeners set o ls nv w = Some w' → pending_step c w w'.
Proof.
  revert w. induction ls as [|l ls IH]; intros w Hwf Hb Hsig Honly Hls Hc;
    simpl in Hc.
  - simplify_eq. apply pending_refl.
  - destruct (call_listener set o l nv w) as [w1|] eqn:H1; simpl in Hc;
      [|done].
    assert (Hl : l ∈ listeners o w) by (apply Hls; by left).
    pose proof (call_listener_frame _ set_frame _ _ _ _ _ Hwf Hl H1) as Hf.
    apply (pending_trans c w w1 w').
    + by eapply call_listener_pending.
    + apply IH; try done.
      * by eapply frame_WF.
      * by rewrite (frame_isBatching _ _ _ Hf).
      * apply (signal_at_shape _ w); [apply Hf|done].
      * apply (only_signal_shape _ w); [apply Hf|done].
      * rewrite (shape_listeners _ _ _ (frame_shape _ _ _ Hf)).
        intros x Hx. apply Hls. by right.
Qed.

Lemma updateValue_pending o nv w w' :
  WF w → isBatching w = true → signal_at c w → only_signal c w → o ≠ c →
  updateValue set o nv w = Some w' → pending_step c w w'.
Proof.
  intros Hwf Hb Hsig Honly Hoc Hc. unfold updateValue, emit_change in Hc.
  destruct (heap w !! o) as [ob|] eqn:Hob; simpl in Hc; [|done].
  destruct (strict_ne nv (_value ob)); simplify_eq; [|apply pending_refl].
  rewrite list_lookup_alter_eq, Hob in Hc. simpl in Hc.
  assert (H0 : pending_step c w (set__value o nv w)).
  { split; simpl; rewrite list_lookup_alter_ne by done; auto. }
  destruct (_emitter ob) as [ls|] eqn:Hls; simplify_eq; [|done].
  pose proof (frame_set__value o nv w) as Hf.
  apply (pending_trans c w (set__value o nv w) w'); [done|].
  apply call_listeners_pending in Hc; try done.
  - apply WF_record. by eapply frame_WF.
  - apply (signal_at_shape _ w); [apply shape_set__value|done].
  - apply (only_signal_shape _ w); [apply shape_set__value|done].
  - change (ls ⊆ listeners o (set__value o nv w)).
    rewrite (shape_listeners w (set__value o nv w) o (shape_set__value o nv w)).
    rewrite (listeners_lookup o ob) by done. by rewrite Hls.
Qed.

Lemma assign_pending o nv w w' :
  WF w → isBatching w = true → signal_at c w → only_signal c w →
  assign set o nv w = Some w' → pending_step c w w'.
Proof.
  intros Hwf Hb Hsig Honly Hc. unfold assign in Hc.
  destruct (heap w !! o) as [ob|] eqn:Hob; simpl in Hc; [|done].
  destruct (currentValue ob) as [cur|] eqn:Hcur.
  - assert (o = c) as ->.
    { apply (Honly o ob Hob). unfold is_signal. by rewrite Hcur. }
    destruct (strict_ne nv cur); simplify_eq; [|apply pending_refl].
    simpl in Hc. rewrite Hb in Hc. simplify_eq. split; simpl.
    + by rewrite list_lookup_alter_eq, Hob.
    + by right.
  - apply updateValue_pending in Hc; try done.
    intros ->. destruct Hsig as (ob' & Hob' & Hsig).
    unfold is_signal in Hsig. simplify_eq. by rewrite Hcur in Hsig.
Qed.

End OnlySignal.

Lemma set_value_pending c fuel :
  ∀ o v w w',
    WF w → isBatching w = true → signal_at c w → only_signal c w →
    set_value fuel o v w = Some w' → pending_step c w w'.
Proof.
  induction fuel as [|k IH]; intros o v w w' Hwf Hb Hsig Honly Hs; [done|].
  simpl in Hs. eapply assign_pending; try done. apply set_value_frame.
Qed.

Lemma run_flat_pending c fuel body :
  ∀ w w1 r,
    WF w → isBatching w = true → signal_at c w → only_signal c w →
    Forall flat body → run fuel body w = Some (w1, r) →
    pending_step c w w1 ∧ isBatching w1 = true ∧
    WF w1 ∧ shape w1 = shape w ∧
    ∃ evs, trace w1 = trace w ++ evs ∧ quiet c evs.
Proof.
  induction body as [|s body IH]; intros w w1 r Hwf Hb Hsig Honly Hfl Hr.
  - simpl in Hr. simplify_eq. split; [apply pending_refl|].
    repeat (split; [done|]). no_events.
  - apply Forall_cons in Hfl as [Hs Hfl]. rewrite run_cons in Hr.
    assert (Hstep : ∀ w2 r2, exec fuel s w = Some (w2, r2) →
              pending_step c w w2 ∧ isBatching w2 = true ∧
              ∃ evs, trace w2 = trace w ++ evs ∧ quiet c evs).
    { intros w2 r2 He. destruct s as [o v|o|e|?]; [| | |done].
      - rewrite exec_SetValue in He.
        destruct (set_value fuel o v w) as [w3|] eqn:H3; simplify_eq/=.
        split; [by eapply set_value_pending|].
        split; [by rewrite (frame_isBatching _ _ _
                              (set_value_frame _ _ _ _ _ Hwf H3))|].
        by eapply set_value_quiet.
      - simpl in He. destruct (get_value o w); simplify_eq/=.
        split; [by apply pending_same|]. split; [done|].
        exists [Read o v]. by split.
      - simpl in He. simplify_eq. split; [apply pending_refl|].
        split; [done|]. no_events. }
    destruct (exec fuel s w) as [[w2 r2]|] eqn:He; [|done].
    destruct (Hstep w2 r2 eq_refl) as (Hp2 & Hb2 & evs2 & Ht2 & Hq2).
    destruct (exec_WF _ _ _ _ _ Hwf He) as [Hwf2 Hsh2].
    destruct r2 as [[]|e].
    + destruct (IH w2 w1 r) as (Hp & Hb1 & Hwf1 & Hsh1 & evs & Ht & Hq);
        try done.
      * by apply (signal_at_shape _ w).
      * by apply (only_signal_shape _ w).
      * split; [by eapply pending_trans|]. split; [done|].
        split; [done|]. split; [congruence|].
        exists (evs2 ++ evs). rewrite Ht, Ht2, <-app_assoc.
        split; [done|]. by apply quiet_app.
    + simplify_eq. repeat (split; [done|]). by exists evs2.
Qed.

(** X13.  A batch around the only signal [c], as in example3.ts where the
    signal wraps a computed value and the batch writes its sources: while
    the body runs (writes, reads, a throw; no nested batch) nobody is
    notified by [c]; the body leaves [c] pending or untouched; and after the
    body the listeners [c] had are called once with the value [c] ends with,
    when [c] is pending and that value is not identical to the value it held
    before the batch, and not at all otherwise.  [c] is pending whenever the
    value it ends with is another value than before. *)
Theorem only_signal_is_notified_once_per_batch fuel w c obc body :
  WF w → isBatching w = false → updateQueue w = [] →
  heap w !! c = Some obc → currentValue obc = Some (_value obc) →
  only_signal c w → Forall flat body →
  Forall (scoped (length (heap w))) body → length (heap w) ≤ fuel →
  ∃ w1 w' r evs1 evs2 final,
    run fuel body (set_isBatching true w) = Some (w1, r) ∧
    trace w1 = trace w ++ evs1 ∧ quiet c evs1 ∧
    exec fuel (BatchUpdate body) w = Some (w', r) ∧
    trace w' = trace w1 ++ evs2 ∧
    get_value c w1 = Some final ∧ get_value c w' = Some final ∧
    (final ≠ _value obc → c ∈ updateQueue w1) ∧
    emissions c evs2 =
      (if bool_decide (c ∈ updateQueue w1) && strict_ne final (_value obc)
       then [final] else []) ∧
    calls_on c evs2 =
      (if bool_decide (c ∈ updateQueue w1) && strict_ne final (_value obc)
       then (λ l, (l, final)) <$> listeners c w else []).
Proof.
  intros Hwf Hb Hq Hobc Hcur Honly Hflat Hsc Hfuel.
  destruct (exec_total fuel (BatchUpdate body) w Hwf) as [[w' r] He];
    [by apply scoped_BatchUpdate|done|].
  pose proof He as He'. rewrite exec_BatchUpdate in He'.
  unfold batchUpdate in He'.
  destruct (run fuel body (set_isBatching true w)) as [[w1 r1]|] eqn:H1;
    simpl in He'; [|done].
  destruct (flush fuel _ _) as [w2|] eqn:H2; simpl in He'; [|done].
  simplify_eq.
  assert (Hsig : signal_at c (set_isBatching true w)).
  { exists obc. split; [done|]. unfold is_signal. by rewrite Hcur. }
  destruct (run_flat_pending c fuel body (set_isBatching true w) w1 r)
    as ([Hv Hp] & Hb1 & Hwf1 & Hsh1 & evs1 & Ht1 & Hq1); try done.
  { by apply WF_set_isBatching. }
  simpl in Hv, Hp, Ht1. rewrite Hq in Hp. rewrite Hobc in Hv. simpl in Hv.
  destruct (shape_lookup (set_isBatching true w) w1 c obc Hsh1 Hobc)
    as (ob1 & Hob1 & He1 & Hs1).
  assert (Hvalue : _value ob1 = _value obc).
  { rewrite Hob1 in Hv. simpl in Hv. by simplify_eq. }
  exists w1, (set_updateQueue [] w2), r, evs1.
  destruct Hp as [[Hq1' Hc1]|Hq1'].
  - (* nothing is pending *)
    rewrite Hq1' in H2. simpl in H2. simplify_eq.
    exists [], (_value obc). simpl. rewrite app_nil_r.
    assert (ob1 = obc) as -> by congruence.
    split; [done|]. split; [done|]. split; [done|]. split; [done|].
    split; [done|].
    assert (Hg : get_value c w1 = Some (_value obc)).
    { unfold get_value. rewrite Hob1. simpl. unfold value_of.
      by rewrite Hcur. }
    split; [done|]. split; [done|]. split; [done|].
    rewrite Hq1'. by rewrite bool_decide_eq_false_2 by by intros ?%elem_of_nil.
  - (* [c] is pending *)
    rewrite Hq1' in H2. change (queue_add c []) with [c] in *.
    simpl in H2. unfold get_value in H2.
    change (heap (set_isBatching false w1)) with (heap w1) in H2.
    rewrite Hob1 in H2. simpl in H2.
    destruct (updateValue (set_value fuel) c (value_of ob1)
                (set_isBatching false w1)) as [w3|] eqn:H3;
      simpl in H2; [|done].
    simplify_eq.
    eapply (updateValue_spec _ (set_value_frame fuel)) in H3
      as (_ & Hob3 & evs2 & Ht2 & He2 & Hc2);
      [|by apply WF_set_isBatching|exact Hob1].
    exists evs2, (value_of ob1). simpl in *.
    split; [done|]. split; [done|]. split; [done|]. split; [done|].
    split; [done|].
    split; [unfold get_value; by rewrite Hob1|].
    assert (Hsigc : ∃ cur, currentValue ob1 = Some cur) .
    { unfold is_signal in Hs1. rewrite Hcur in Hs1.
      destruct (currentValue ob1); [by eexists|done]. }
    destruct Hsigc as [cur Hcur1].
    split.
    { unfold get_value.
      change (heap (set_updateQueue [] w2)) with (heap w2).
      rewrite Hob3. simpl. unfold value_of. simpl. by rewrite Hcur1. }
    rewrite Hq1'. split; [intros _; apply list_elem_of_here|].
    rewrite bool_decide_eq_true_2 by apply list_elem_of_here. simpl.
    rewrite <-Hvalue, He2, Hc2.
    change (listeners c (set_isBatching false w1)) with (listeners c w1).
    rewrite (shape_listeners _ _ _ Hsh1).
    change (listeners c (set_isBatching true w)) with (listeners c w).
    done.
Qed.

Lemma only_signal_is_notified_once_per_batch_witness :
  let w := computed_sum_signal in
  let obc := {| _value := VNum 3; _emitter := Some [UserFn 0];
                currentValue := Some (VNum 3) |} in
  let body := [SetValue 0 (VNum 5); SetValue 1 (VNum 6); GetValue 2] in
  WF w ∧ heap w !! 2 = Some obc ∧ only_signal 2 w ∧
  ∃ w1 w' r evs1 evs2 final,
    run 3 body (set_isBatching true w) = Some (w1, r) ∧
    trace w1 = trace w ++ evs1 ∧ quiet 2 evs1 ∧
    exec 3 (BatchUpdate body) w = Some (w', r) ∧
    trace w' = trace w1 ++ evs2 ∧
    get_value 2 w1 = Some final ∧ get_value 2 w' = Some final ∧
    (final ≠ _value obc → 2 ∈ updateQueue w1) ∧
    emissions 2 evs2 =
      (if bool_decide (2 ∈ updateQueue w1) && strict_ne final (_value obc)
       then [final] else []) ∧
    calls_on 2 evs2 =
      (if bool_decide (2 ∈ updateQueue w1) && strict_ne final (_value obc)
       then (λ l, (l, final)) <$> listeners 2 w else []).
Proof.
  intros w obc body.
  assert (Hwf : WF w).
  { apply WF_set_isBatching, WF_computed_sum_signal_batching. }
  assert (Honly : only_signal 2 w).
  { intros a ob Hob Hsig.
    destruct a as [|[|[|a]]]; simpl in Hob; simplify_eq; done. }
  assert (Hflat : Forall flat body) by (repeat constructor).
  assert (Hsc : Forall (scoped (length (heap w))) body).
  { repeat constructor; simpl; lia. }
  assert (Hfuel : length (heap w) ≤ 3) by (simpl; lia).
  split; [exact Hwf|]. split; [reflexivity|]. split; [exact Honly|].
  exact (only_signal_is_notified_once_per_batch 3 w 2 obc body Hwf
           eq_refl eq_refl eq_refl eq_refl Honly Hflat Hsc Hfuel).
Defined.

(** *** The accessor of a signal *)

(** X14.  [signal] applied to an observable returns that observable, with
    the value and the listeners it had, after defining the accessor on it;
    the property is not configurable, so a second [signal] on the same
    object, the result of [signal] included, throws a [TypeError] and
    leaves the object as it is. *)
Theorem signal_defines_the_accessor_once o w w1 r :
  signal_of o w = Some (w1, Normal r) →
  r = o ∧ view w1 = view w ∧ (∀ a, listeners a w1 = listeners a w) ∧
  signal_at o w1 ∧
  ∃ id message w2,
    signal_of o w1 = Some (w2, Threw (VError id "TypeError" message)) ∧
    heap w2 = heap w1.
Proof.
  intros H. unfold signal_of in H.
  destruct (heap w !! o) as [ob|] eqn:Hob; simpl in H; [|done].
  destruct (currentValue ob) as [cur|] eqn:Hcur; [done|].
  injection H as <- <-.
  split; [done|]. split.
  { unfold view. simpl. apply list_eq. intros a. rewrite !list_lookup_fmap.
    destruct (decide (o = a)) as [->|Hne].
    - rewrite list_lookup_alter_eq, Hob. done.
    - by rewrite list_lookup_alter_ne. }
  split; [intros a; apply listeners_set_currentValue|].
  assert (Hob1 : heap (set_currentValue o (value_of ob) w) !! o =
            Some {| _value := _value ob; _emitter := _emitter ob;
                    currentValue := Some (value_of ob) |}).
  { simpl. by rewrite list_lookup_alter_eq, Hob. }
  split; [by eexists|].
  unfold signal_of. rewrite Hob1. simpl. by eexists _, _, _.
Qed.

Lemma signal_defines_the_accessor_once_witness :
  ∃ w1,
    signal_of 2 computed_sum = Some (w1, Normal 2) ∧
    view w1 = view computed_sum ∧
    (∀ a, listeners a w1 = listeners a computed_sum) ∧
    signal_at 2 w1 ∧
    ∃ id message w2,
      signal_of 2 w1 = Some (w2, Threw (VError id "TypeError" message)) ∧
      heap w2 = heap w1.
Proof.
  eexists. split; [reflexivity|].
  exact (proj2 (signal_defines_the_accessor_once 2 computed_sum _ 2
                  eq_refl)).
Defined.

End ReactiveBatches.


